(** * HTML poster editor: sanitizer, parser, exporter, history, controller

    A shallow embedding of [src/app/components/HTMLEditor.tsx].

    - JavaScript strings are [string]s; [""] is the only falsy string.
    - [null] / [undefined] are [None].
    - A JavaScript object used as a record of CSS properties ([el.style] of
      an editor element) is an association list in insertion order, the
      order [Object.entries] enumerates.  (Keys that are canonical array
      indices are enumerated first by JavaScript; no CSS property name is
      one, and no statement below depends on the order.)
    - React state is threaded explicitly: every handler is a function from
      the state of the render it closes over to the state after its batched
      updates. *)

From Stdlib Require Import String Ascii List ZArith NArith Lia Bool.
From Stdlib Require Import DecimalString.
Import ListNotations.
Open Scope string_scope.
Open Scope Z_scope.
#[local] Set Warnings "-register-all".

(** ** Strings *)

Module JS.

(** [!s] for a string. *)
Definition falsy (s : string) : bool :=
  match s with EmptyString => true | _ => false end.

(** [a || b] on strings. *)
Definition or_else (a b : string) : string :=
  if falsy a then b else a.

(** [o || ""] where [o] may be [null]. *)
Definition or_empty (o : option string) : string :=
  match o with Some s => or_else s "" | None => "" end.

(** [`${o}`] for a possibly missing property. *)
Definition interpolate (o : option string) : string :=
  match o with Some s => s | None => "undefined" end.

Definition is_upper (c : ascii) : bool :=
  let n := nat_of_ascii c in (Nat.leb 65 n && Nat.leb n 90)%bool.

Definition is_lower (c : ascii) : bool :=
  let n := nat_of_ascii c in (Nat.leb 97 n && Nat.leb n 122)%bool.

Definition lower_char (c : ascii) : ascii :=
  if is_upper c then ascii_of_nat (nat_of_ascii c + 32) else c.

Definition upper_char (c : ascii) : ascii :=
  if is_lower c then ascii_of_nat (nat_of_ascii c - 32) else c.

Fixpoint map_string (f : ascii -> ascii) (s : string) : string :=
  match s with
  | EmptyString => EmptyString
  | String c s' => String (f c) (map_string f s')
  end.

(** [s.toLowerCase()], [s.toUpperCase()] on the ASCII letters.  A string
    stands for the UTF-8 encoding of the JavaScript string, and the bytes
    above 127 are left as they are: on a string with cased letters outside
    ASCII, JavaScript's result differs from this one in those letters. *)
Definition toLowerCase : string -> string := map_string lower_char.
Definition toUpperCase : string -> string := map_string upper_char.

(** [s.startsWith(p)]. *)
Definition startsWith (p s : string) : bool := String.prefix p s.

(** [s.includes(needle)]. *)
Fixpoint includes (needle s : string) : bool :=
  if String.prefix needle s then true
  else match s with
       | EmptyString => false
       | String _ s' => includes needle s'
       end.

(** [`${n}`] for a non-negative integer. *)
Definition of_N (n : N) : string := NilZero.string_of_uint (N.to_uint n).

(** [`${z}`] for an integer. *)
Definition of_Z (z : Z) : string :=
  match z with
  | Z0 => "0"
  | Zpos p => of_N (Npos p)
  | Zneg p => "-" ++ of_N (Npos p)
  end.

(** [xs.join(sep)]. *)
Fixpoint join (sep : string) (xs : list string) : string :=
  match xs with
  | [] => ""
  | [x] => x
  | x :: rest => x ++ sep ++ join sep rest
  end.

(** [a.slice(0, e)] for an integer [e]. *)
Definition slice0 {A} (e : Z) (a : list A) : list A :=
  let len := Z.of_nat (length a) in
  let k := if e <? 0 then Z.max (len + e) 0 else Z.min e len in
  firstn (Z.to_nat k) a.

(** [a[i]] for an integer [i]; [None] is [undefined]. *)
Definition index {A} (a : list A) (i : Z) : option A :=
  if i <? 0 then None else nth_error a (Z.to_nat i).

Definition is_space (c : ascii) : bool :=
  let n := nat_of_ascii c in
  (Nat.eqb n 32 || (Nat.leb 9 n && Nat.leb n 13))%bool.

Definition digit_val (c : ascii) : option Z :=
  let n := nat_of_ascii c in
  if (Nat.leb 48 n && Nat.leb n 57)%bool then Some (Z.of_nat (n - 48)) else None.

Definition hex_val (c : ascii) : option Z :=
  match digit_val c with
  | Some d => Some d
  | None =>
      let n := nat_of_ascii (lower_char c) in
      if (Nat.leb 97 n && Nat.leb n 102)%bool then Some (Z.of_nat (n - 87)) else None
  end.

(** The longest prefix of digits, read in the given radix; [None] when the
    prefix is empty ([NaN]). *)
Fixpoint digits (val : ascii -> option Z) (radix : Z) (acc : option Z) (s : string)
  : option Z :=
  match s with
  | EmptyString => acc
  | String c s' =>
      match val c with
      | Some d =>
          digits val radix
            (Some (match acc with Some a => a * radix + d | None => d end)) s'
      | None => acc
      end
  end.

Fixpoint skip_spaces (s : string) : string :=
  match s with
  | String c s' => if is_space c then skip_spaces s' else s
  | EmptyString => s
  end.

Definition unsigned_int (s : string) : option Z :=
  match s with
  | String "0" (String x s') =>
      if (Ascii.eqb x "x" || Ascii.eqb x "X")%bool
      then digits hex_val 16 None s'
      else digits digit_val 10 None s
  | _ => digits digit_val 10 None s
  end.

(** [parseInt(s)] as a mathematical integer; [None] is [NaN].  JavaScript's
    result is the double nearest to that integer: the same number as long
    as it is at most 2^53 in size, a rounded one (or an infinity) beyond. *)
Definition parseInt (s : string) : option Z :=
  match skip_spaces s with
  | String "-" s' => option_map Z.opp (unsigned_int s')
  | String "+" s' => unsigned_int s'
  | s' => unsigned_int s'
  end.

(** [parseInt(s) || 0]. *)
Definition parseInt_or_0 (s : string) : Z :=
  match parseInt s with Some z => z | None => 0 end.

End JS.

(** ** Editor elements *)

(** [el.type]: ["text"] or ["image"]. *)
Inductive el_type := text | image.

Definition el_type_eqb (a b : el_type) : bool :=
  match a, b with
  | text, text | image, image => true
  | _, _ => false
  end.

(** The style object of an editor element. *)
Definition style_map := list (string * string).

Fixpoint style_get (k : string) (s : style_map) : option string :=
  match s with
  | [] => None
  | (k', v) :: rest => if String.eqb k' k then Some v else style_get k rest
  end.

(** [{ ...s, [k]: v }]: an existing key keeps its place, a new key goes
    last. *)
Fixpoint style_set (k v : string) (s : style_map) : style_map :=
  match s with
  | [] => [(k, v)]
  | (k', v') :: rest =>
      if String.eqb k' k then (k', v) :: rest else (k', v') :: style_set k v rest
  end.

(** An element object.  [content] exists on text elements, [src] and [alt]
    on image elements; the fields are optional because [updateProperty] can
    add any of the three to either kind of object. *)
Record element := mkElement {
  id : string;
  type : el_type;
  tagName : string;
  content : option string;
  src : option string;
  alt : option string;
  style : style_map
}.

Definition Document := list element.

Definition with_style (el : element) (s : style_map) : element :=
  {| id := id el; type := type el; tagName := tagName el;
     content := content el; src := src el; alt := alt el; style := s |}.

(** [{ ...el, [prop]: val }] for [prop] one of ["content"], ["src"],
    ["alt"]. *)
Definition with_field (el : element) (prop val : string) : element :=
  {| id := id el; type := type el; tagName := tagName el;
     content := if String.eqb prop "content" then Some val else content el;
     src := if String.eqb prop "src" then Some val else src el;
     alt := if String.eqb prop "alt" then Some val else alt el;
     style := style el |}.

(** ** Editor state *)

(** A history entry [{ elements, selectedId }]. *)
Record entry := mkEntry {
  entry_elements : Document;
  entry_selectedId : option string
}.

Record editor := mkEditor {
  elements : Document;
  selectedId : option string;
  history : list entry;
  historyIndex : Z;
  isEditingText : bool;
  isDragging : bool;
  dragOffset : Z * Z
}.

(** The state of the first render. *)
Definition initial : editor :=
  {| elements := []; selectedId := None; history := []; historyIndex := -1;
     isEditingText := false; isDragging := false; dragOffset := (0, 0) |}.

(** [!selectedId]. *)
Definition no_selection (sel : option string) : bool :=
  match sel with None => true | Some s => JS.falsy s end.

(** [el.id === selectedId]. *)
Definition is_selected (sel : option string) (el : element) : bool :=
  match sel with Some s => String.eqb (id el) s | None => false end.

Definition set_elements (d : Document) (st : editor) : editor :=
  {| elements := d; selectedId := selectedId st; history := history st;
     historyIndex := historyIndex st; isEditingText := isEditingText st;
     isDragging := isDragging st; dragOffset := dragOffset st |}.

Definition set_selectedId (s : option string) (st : editor) : editor :=
  {| elements := elements st; selectedId := s; history := history st;
     historyIndex := historyIndex st; isEditingText := isEditingText st;
     isDragging := isDragging st; dragOffset := dragOffset st |}.

Definition set_history (h : list entry) (i : Z) (st : editor) : editor :=
  {| elements := elements st; selectedId := selectedId st; history := h;
     historyIndex := i; isEditingText := isEditingText st;
     isDragging := isDragging st; dragOffset := dragOffset st |}.

Definition set_isDragging (b : bool) (st : editor) : editor :=
  {| elements := elements st; selectedId := selectedId st; history := history st;
     historyIndex := historyIndex st; isEditingText := isEditingText st;
     isDragging := b; dragOffset := dragOffset st |}.

Definition set_isEditingText (b : bool) (st : editor) : editor :=
  {| elements := elements st; selectedId := selectedId st; history := history st;
     historyIndex := historyIndex st; isEditingText := b;
     isDragging := isDragging st; dragOffset := dragOffset st |}.

Definition set_dragOffset (o : Z * Z) (st : editor) : editor :=
  {| elements := elements st; selectedId := selectedId st; history := history st;
     historyIndex := historyIndex st; isEditingText := isEditingText st;
     isDragging := isDragging st; dragOffset := o |}.

(** *** History *)

(** [saveHistory(newElements, newSelectedId)].  [cur] is the state of the
    render whose [history] and [historyIndex] the callback closes over; the
    other state updates of the same handler have already been applied to
    [st].  The snapshot [JSON.parse(JSON.stringify(newElements))] has the
    value of [newElements]. *)
Definition saveHistory (cur : editor) (newElements : Document)
    (newSelectedId : option string) (st : editor) : editor :=
  let newHistory :=
    (JS.slice0 (historyIndex cur + 1) (history cur)
       ++ [ {| entry_elements := newElements; entry_selectedId := newSelectedId |} ])%list in
  set_history newHistory (Z.of_nat (length newHistory) - 1) st.

(** A handler either completes with the next state or throws. *)
Inductive outcome :=
| Done (st : editor)
| Throws.

(** Reading [state.elements] of an [undefined] entry is a [TypeError]. *)
Definition restore (cur : editor) (i : Z) : outcome :=
  match JS.index (history cur) i with
  | Some state =>
      Done (set_history (history cur) i
              (set_selectedId (entry_selectedId state)
                 (set_elements (entry_elements state) cur)))
  | None => Throws
  end.

Definition undo (cur : editor) : outcome :=
  if historyIndex cur >? 0 then restore cur (historyIndex cur - 1) else Done cur.

Definition redo (cur : editor) : outcome :=
  if historyIndex cur <? Z.of_nat (length (history cur)) - 1
  then restore cur (historyIndex cur + 1) else Done cur.

(** *** Commands *)

(** The element [addElement] creates; [now] is [Date.now()]. *)
Definition newElement (ty : el_type) (now : N) : element :=
  match ty with
  | text =>
      {| id := "text-" ++ JS.of_N now; type := text; tagName := "p";
         content := Some "New Text"; src := None; alt := None;
         style := [("position", "absolute"); ("left", "50px"); ("top", "50px");
                   ("fontSize", "16px"); ("color", "#000000")] |}
  | image =>
      {| id := "img-" ++ JS.of_N now; type := image; tagName := "img";
         content := None; src := Some "https://via.placeholder.com/150";
         alt := Some "Image";
         style := [("position", "absolute"); ("left", "50px"); ("top", "50px");
                   ("width", "150px"); ("height", "auto")] |}
  end.

Definition addElement (ty : el_type) (now : N) (cur : editor) : editor :=
  let newEl := newElement ty now in
  let newElements := (elements cur ++ [newEl])%list in
  saveHistory cur newElements (Some (id newEl))
    (set_selectedId (Some (id newEl)) (set_elements newElements cur)).

(** [deleteElement]; [confirmed] is the answer to [confirm(...)]. *)
Definition deleteElement (confirmed : bool) (cur : editor) : editor :=
  if no_selection (selectedId cur) then cur
  else if confirmed then
    let newElements :=
      filter (fun el => negb (is_selected (selectedId cur) el)) (elements cur) in
    saveHistory cur newElements None
      (set_selectedId None (set_elements newElements cur))
  else cur.

Definition is_top_level (prop : string) : bool :=
  (String.eqb prop "content" || String.eqb prop "src" || String.eqb prop "alt")%bool.

Definition update_element (sel : option string) (prop val : string) (el : element)
  : element :=
  if is_selected sel el then
    if is_top_level prop then with_field el prop val
    else with_style el (style_set prop val (style el))
  else el.

Definition updateProperty (prop val : string) (cur : editor) : editor :=
  if no_selection (selectedId cur) then cur
  else set_elements (map (update_element (selectedId cur) prop val) (elements cur)) cur.

(** ** The browser's document object model

    The part of the DOM the program observes.  [localName] is the name the
    HTML parser gave the element (ASCII lower case for HTML elements);
    [attributes] is the attribute list in source order; [inlineStyle] is
    [el.style], the declarations of the style attribute as the browser
    exposes them, by JavaScript property name; [templateContents] is the
    separate fragment that holds the contents of a [template] element (empty
    for every other element): it is serialized with the element but is not
    part of its children, so selectors do not see it. *)

Definition css := list (string * string).

(** [decl.prop]: the empty string when the property is not set. *)
Definition css_get (d : css) (prop : string) : string :=
  match style_get prop d with Some v => v | None => "" end.

Inductive node :=
| TextNode (data : string)
| CommentNode (data : string)
| Element (localName : string) (attributes : list (string * string))
    (inlineStyle : css) (children : list node) (templateContents : list node).

(** What [DOMParser.parseFromString] returns: the root element and the
    element [doc.body] designates. *)
Record html_document := mkDoc {
  documentElement : node;
  body : node
}.

Definition is_element (n : node) : bool :=
  match n with Element _ _ _ _ _ => true | _ => false end.

Definition localName_of (n : node) : string :=
  match n with Element name _ _ _ _ => name | _ => "" end.

Definition attributes_of (n : node) : list (string * string) :=
  match n with Element _ attrs _ _ _ => attrs | _ => [] end.

Definition inlineStyle_of (n : node) : css :=
  match n with Element _ _ st _ _ => st | _ => [] end.

Definition childNodes (n : node) : list node :=
  match n with Element _ _ _ ch _ => ch | _ => [] end.

(** [el.children]: the element children. *)
Definition children_of (n : node) : list node := filter is_element (childNodes n).

(** [el.tagName] of an HTML element.  (An element in the SVG or MathML
    namespace reports its name unchanged; the program only compares
    [tagName] with ["IMG"], a name no such element has, and otherwise lower
    cases it, so the difference cannot be observed.) *)
Definition tagName_of (n : node) : string := JS.toUpperCase (localName_of n).

(** [el.getAttribute(name)]. *)
Fixpoint getAttribute (name : string) (attrs : list (string * string)) : option string :=
  match attrs with
  | [] => None
  | (k, v) :: rest => if String.eqb k name then Some v else getAttribute name rest
  end.

(** [el.removeAttribute(name)]: the first attribute of that name goes. *)
Fixpoint removeAttribute (name : string) (attrs : list (string * string))
  : list (string * string) :=
  match attrs with
  | [] => []
  | (k, v) :: rest =>
      if String.eqb k name then rest else (k, v) :: removeAttribute name rest
  end.

(** [el.textContent]: the data of the descendant text nodes, in order. *)
Fixpoint textContent (n : node) : string :=
  match n with
  | TextNode d => d
  | CommentNode _ => ""
  | Element _ _ _ ch _ =>
      (fix go (l : list node) : string :=
         match l with
         | [] => ""
         | c :: l' => textContent c ++ go l'
         end) ch
  end.

(** ASCII white space, as HTML defines it: TAB, LF, FF, CR, SPACE. *)
Definition is_ascii_whitespace (c : ascii) : bool :=
  let n := nat_of_ascii c in
  (Nat.eqb n 9 || Nat.eqb n 10 || Nat.eqb n 12 || Nat.eqb n 13 || Nat.eqb n 32)%bool.

(** Splitting a class attribute at ASCII white space. *)
Fixpoint split_spaces (cur : string) (s : string) : list string :=
  match s with
  | EmptyString => if JS.falsy cur then [] else [cur]
  | String c s' =>
      if is_ascii_whitespace c
      then (if JS.falsy cur then split_spaces "" s' else cur :: split_spaces "" s')
      else split_spaces (cur ++ String c "") s'
  end.

(** [el.matches("." + cls)] in a document without a doctype: such a
    document is in quirks mode, where class names compare ASCII
    case-insensitively.  The document [parse] queries never has a doctype,
    because the serialization of the children of an element has none. *)
Definition has_class (cls : string) (n : node) : bool :=
  match getAttribute "class" (attributes_of n) with
  | Some v =>
      existsb (fun t => String.eqb (JS.toLowerCase t) (JS.toLowerCase cls))
        (split_spaces "" v)
  | None => false
  end.

(** [root.querySelector("." + cls)] extended to the root itself: the first
    element in tree order. *)
Fixpoint querySelector_class (cls : string) (n : node) : option node :=
  match n with
  | Element _ _ _ ch _ =>
      if has_class cls n then Some n
      else (fix go (l : list node) : option node :=
              match l with
              | [] => None
              | c :: l' =>
                  match querySelector_class cls c with
                  | Some r => Some r
                  | None => go l'
                  end
              end) ch
  | _ => None
  end.

(** ** HTMLSanitizer *)

Definition dangerous : list string :=
  ["script"; "iframe"; "object"; "embed"; "link"; "style"].

(** [temp.querySelectorAll(tag).forEach((el) => el.remove())] seen from one
    node: every descendant element named [tag] is detached. *)
Fixpoint remove_tag (tag : string) (n : node) : node :=
  match n with
  | Element name attrs st ch tc =>
      Element name attrs st
        ((fix go (l : list node) : list node :=
            match l with
            | [] => []
            | c :: l' =>
                if (is_element c && String.eqb (localName_of c) tag)%bool
                then go l'
                else remove_tag tag c :: go l'
            end) ch) tc
  | other => other
  end.

(** The same on the children of [temp]. *)
Definition remove_tag_all (tag : string) (l : list node) : list node :=
  flat_map (fun c =>
              if (is_element c && String.eqb (localName_of c) tag)%bool
              then [] else [remove_tag tag c]) l.

(** The first [forEach] over [Array.from(el.attributes)]. *)
Definition strip_handlers (attrs : list (string * string)) : list (string * string) :=
  fold_left (fun cur attr =>
               if JS.startsWith "on" (fst attr) then removeAttribute (fst attr) cur
               else cur)
            attrs attrs.

(** One step of the second [forEach], for one of [href], [src], [action]. *)
Definition strip_url (cur : list (string * string)) (attr : string)
  : list (string * string) :=
  match getAttribute attr cur with
  | Some val =>
      if (negb (JS.falsy val) && JS.includes "javascript:" (JS.toLowerCase val))%bool
      then removeAttribute attr cur
      else cur
  | None => cur
  end.

Definition clean_attributes (attrs : list (string * string)) : list (string * string) :=
  fold_left strip_url ["href"; "src"; "action"] (strip_handlers attrs).

(** [temp.querySelectorAll("*").forEach(...)] seen from one node. *)
Fixpoint clean_node (n : node) : node :=
  match n with
  | Element name attrs st ch tc =>
      Element name (clean_attributes attrs) st (map clean_node ch) tc
  | other => other
  end.

(** What [sanitize] does to the children of [temp] between the assignment
    to [temp.innerHTML] and the final read of it. *)
Definition sanitize_nodes (l : list node) : list node :=
  map clean_node (fold_left (fun cur tag => remove_tag_all tag cur) dangerous l).

(** ** HTMLParser.parseNode *)

Definition px (n : N) : string := JS.of_N n ++ "px".

(** [parseNode(el, i)]; [computed] is [window.getComputedStyle(el)] and
    [now] is [Date.now()]. *)
Definition parseNode (computed : css) (now : N) (el : node) (i : nat) : element :=
  let inline := css_get (inlineStyle_of el) in
  let pick prop default := JS.or_else (inline prop) (JS.or_else (css_get computed prop) default) in
  let pos := px (50 + N.of_nat i * 20) in
  let baseStyle0 : style_map :=
    [ ("position", pick "position" "absolute");
      ("left", pick "left" pos);
      ("top", pick "top" pos);
      ("fontSize", pick "fontSize" "16px");
      ("color", pick "color" "#000000");
      ("fontWeight", pick "fontWeight" "normal");
      ("textAlign", pick "textAlign" "left") ] in
  let carry prop (s : style_map) :=
    if JS.falsy (inline prop) then s else style_set prop (inline prop) s in
  let baseStyle := carry "background" (carry "height" (carry "width" baseStyle0)) in
  if String.eqb (tagName_of el) "IMG" then
    {| id := "img-" ++ JS.of_N now ++ "-" ++ JS.of_N (N.of_nat i);
       type := image;
       tagName := "img";
       content := None;
       src := Some (JS.or_empty (getAttribute "src" (attributes_of el)));
       alt := Some (JS.or_empty (getAttribute "alt" (attributes_of el)));
       style := style_set "height" "auto"
                  (style_set "width" (JS.or_else (inline "width") "100px") baseStyle) |}
  else
    {| id := "text-" ++ JS.of_N now ++ "-" ++ JS.of_N (N.of_nat i);
       type := text;
       tagName := JS.toLowerCase (tagName_of el);
       content := Some (JS.or_else (textContent el) "");
       src := None;
       alt := None;
       style := baseStyle |}.

(** [Array.from(poster.children).forEach((node, i) => ...)]. *)
Fixpoint parse_children (computed : nat -> node -> css) (clock : nat -> N)
    (i : nat) (l : list node) : Document :=
  match l with
  | [] => []
  | c :: l' =>
      parseNode (computed i c) (clock i) c i
        :: parse_children computed clock (S i) l'
  end.

(** [doc.querySelector(".poster") || doc.body]. *)
Definition poster_of (doc : html_document) : node :=
  match querySelector_class "poster" (documentElement doc) with
  | Some p => p
  | None => body doc
  end.

Section Browser.

(** The browser services the two classes call.  [innerHTML_set html] is the
    list of children of a fresh [div] after [temp.innerHTML = html];
    [innerHTML_get l] is [temp.innerHTML] when the children of [temp] are
    [l]; [parseFromString] is [new DOMParser().parseFromString(_,
    "text/html")]; [getComputedStyle doc i el] is [window.getComputedStyle]
    of the [i]-th element child [el] of the container of [doc]; [clock i] is
    the value of [Date.now()] in the [i]-th call of [parseNode]. *)
Variable innerHTML_set : string -> list node.
Variable innerHTML_get : list node -> string.
Variable parseFromString : string -> html_document.
Variable getComputedStyle : html_document -> nat -> node -> css.
Variable clock : nat -> N.

(** [HTMLSanitizer.sanitize(html)]. *)
Definition sanitize (html : string) : string :=
  innerHTML_get (sanitize_nodes (innerHTML_set html)).

(** [HTMLParser.parse(html)]. *)
Definition parse (html : string) : Document :=
  let sanitized := sanitize html in
  let doc := parseFromString sanitized in
  let poster := poster_of doc in
  parse_children (getComputedStyle doc) clock 0 (children_of poster).

End Browser.

(** ** HTMLExporter *)

Definition dq : string := String (ascii_of_nat 34) "".
Definition nl : string := String (ascii_of_nat 10) "".

(** [k.replace(/([A-Z])/g, "-$1")]. *)
Fixpoint dash_capitals (k : string) : string :=
  match k with
  | EmptyString => EmptyString
  | String c k' =>
      if JS.is_upper c then String "-" (String c (dash_capitals k'))
      else String c (dash_capitals k')
  end.

Definition css_name (k : string) : string := JS.toLowerCase (dash_capitals k).

Definition style_text (s : style_map) : string :=
  JS.join "; " (map (fun kv => css_name (fst kv) ++ ": " ++ snd kv) s).

Definition export_element (el : element) : string :=
  let style := style_text (style el) in
  if el_type_eqb (type el) image then
    "<img src=" ++ dq ++ JS.interpolate (src el) ++ dq
      ++ " alt=" ++ dq ++ JS.interpolate (alt el) ++ dq
      ++ " style=" ++ dq ++ style ++ dq ++ " />"
  else
    "<" ++ tagName el ++ " style=" ++ dq ++ style ++ dq ++ ">"
      ++ JS.interpolate (content el) ++ "</" ++ tagName el ++ ">".

Definition skeleton_head : string :=
  "<!DOCTYPE html>" ++ nl ++
  "<html lang=" ++ dq ++ "en" ++ dq ++ ">" ++ nl ++
  "<head>" ++ nl ++
  "  <meta charset=" ++ dq ++ "UTF-8" ++ dq ++ ">" ++ nl ++
  "  <meta data-generated-by=" ++ dq ++ "editable-html-poster" ++ dq ++ " />" ++ nl ++
  "  <title>Exported Poster</title>" ++ nl ++
  "  <style>" ++ nl ++
  "    body { margin: 0; padding: 0; }" ++ nl ++
  "    .poster { width: 720px; height: 720px; position: relative; background: #f3f4f6; overflow: hidden; }" ++ nl ++
  "  </style>" ++ nl ++
  "</head>" ++ nl ++
  "<body>" ++ nl ++
  "  <div class=" ++ dq ++ "poster" ++ dq ++ ">" ++ nl ++
  "    ".

Definition skeleton_tail : string :=
  nl ++
  "  </div>" ++ nl ++
  "</body>" ++ nl ++
  "</html>".

(** [HTMLExporter.export(elements)]. *)
Definition export (elements : Document) : string :=
  let html := JS.join (nl ++ "    ") (map export_element elements) in
  skeleton_head ++ html ++ skeleton_tail.

(** ** The remaining handlers *)

(** The body of [handlePaste] once the markup is parsed: the parsed
    document replaces the current one.  [handleImport]'s [reader.onload]
    has the same body, with the [saveHistory] of the render in which the file
    was chosen: it is [load] when the read completes before anything else
    has changed the state, and [import_onload] below in general. *)
Definition load (parsed : Document) (cur : editor) : editor :=
  saveHistory cur parsed None (set_selectedId None (set_elements parsed cur)).

(** [handlePaste]; [answer] is what [prompt(...)] returned. *)
Definition handlePaste (parse : string -> Document) (answer : option string)
    (cur : editor) : editor :=
  match answer with
  | Some html => if JS.falsy html then cur else load (parse html) cur
  | None => cur
  end.

(** [elements.find((e) => e.id === id)]. *)
Definition find_element (i : string) (d : Document) : option element :=
  find (fun e => String.eqb (id e) i) d.

(** [parseInt(el.style.left) || 0]; a missing property reads [undefined],
    which [parseInt] turns into [NaN]. *)
Definition offset_of (prop : string) (el : element) : Z :=
  match style_get prop (style el) with
  | Some v => JS.parseInt_or_0 v
  | None => 0
  end.

(** [handleMouseDown(e, id)] with [e.clientX], [e.clientY]. *)
Definition handleMouseDown (clientX clientY : Z) (i : string) (cur : editor) : editor :=
  if isEditingText cur then cur
  else
    let st := set_isDragging true (set_selectedId (Some i) cur) in
    match find_element i (elements cur) with
    | None => st
    | Some el =>
        set_dragOffset (clientX - offset_of "left" el, clientY - offset_of "top" el) st
    end.

Definition clamp (v : Z) : Z := Z.max 0 (Z.min v 670).

Definition pxZ (z : Z) : string := JS.of_Z z ++ "px".

Definition move_element (sel : option string) (x y : Z) (el : element) : element :=
  if is_selected sel el
  then with_style el (style_set "top" (pxZ y) (style_set "left" (pxZ x) (style el)))
  else el.

(** [handleMove(e)], as the listener of the render on screen; [rect] is
    the left and top of the bounding rectangle of the canvas, [None] when
    [canvasRef.current] is [null].  The model is that of whole-number
    coordinates: [e.clientX], [e.clientY], [rect.left] and [rect.top] are
    doubles in the source and may have a fraction, which the model cannot
    express; on whole numbers of a size up to 2^50 the source's arithmetic is
    the integer arithmetic written here.  [handleMove_in] below is the
    listener of an earlier render. *)
Definition handleMove (rect : option (Z * Z)) (clientX clientY : Z) (cur : editor)
  : editor :=
  match rect with
  | Some (rleft, rtop) =>
      if (negb (isDragging cur) || no_selection (selectedId cur))%bool then cur
      else
        let x := clamp (clientX - rleft - fst (dragOffset cur)) in
        let y := clamp (clientY - rtop - snd (dragOffset cur)) in
        set_elements (map (move_element (selectedId cur) x y) (elements cur)) cur
  | None => cur
  end.

(** [handleUp], as the listener of the render on screen: the effect that
    registers it has run since the last change of [elements].
    [handleUp_in] below is the listener of an earlier render. *)
Definition handleUp (cur : editor) : editor :=
  if isDragging cur
  then saveHistory cur (elements cur) (selectedId cur) (set_isDragging false cur)
  else cur.

(** [handleDoubleClick(id)]. *)
Definition handleDoubleClick (i : string) (cur : editor) : editor :=
  match find_element i (elements cur) with
  | Some el =>
      if el_type_eqb (type el) text
      then set_isEditingText true (set_selectedId (Some i) cur)
      else cur
  | None => cur
  end.

(** [handleTextBlur]; [innerText] is [textEditRef.current.innerText], [None]
    when [textEditRef.current] is [null].  The snapshot is taken of the
    [elements] the handler closes over. *)
Definition handleTextBlur (innerText : option string) (cur : editor) : editor :=
  match innerText with
  | Some t =>
      if (isEditingText cur && negb (no_selection (selectedId cur)))%bool
      then saveHistory cur (elements cur) (selectedId cur)
             (set_isEditingText false (updateProperty "content" t cur))
      else cur
  | None => cur
  end.

(** The user-level events and the handler each one runs, every handler
    being that of the render on screen.  [Load] is [handlePaste] with a
    markup that parses to [parsed], or a file import whose read completes
    before the next event; [UpdateProperty] is a change in the property
    panel, or an image upload whose read completes before the next event.
    A file read that completes after another event runs [import_onload] or
    [upload_onload] below, and is not an event of this type. *)
Inductive event :=
| Load (parsed : Document)
| AddElement (ty : el_type) (now : N)
| DeleteElement (confirmed : bool)
| UpdateProperty (prop val : string)
| MouseDown (clientX clientY : Z) (i : string)
| MouseMove (rect : option (Z * Z)) (clientX clientY : Z)
| MouseUp
| DoubleClick (i : string)
| TextBlur (innerText : option string)
| ClickCanvas
| Undo
| Redo.

Definition handle (ev : event) (cur : editor) : outcome :=
  match ev with
  | Load parsed => Done (load parsed cur)
  | AddElement ty now => Done (addElement ty now cur)
  | DeleteElement c => Done (deleteElement c cur)
  | UpdateProperty p v => Done (updateProperty p v cur)
  | MouseDown x y i => Done (handleMouseDown x y i cur)
  | MouseMove r x y => Done (handleMove r x y cur)
  | MouseUp => Done (handleUp cur)
  | DoubleClick i => Done (handleDoubleClick i cur)
  | TextBlur t => Done (handleTextBlur t cur)
  | ClickCanvas => Done (set_selectedId None cur)
  | Undo => undo cur
  | Redo => redo cur
  end.

Fixpoint run (evs : list event) (cur : editor) : outcome :=
  match evs with
  | [] => Done cur
  | ev :: rest =>
      match handle ev cur with
      | Done st => run rest st
      | Throws => Throws
      end
  end.

(** ** The same handlers over a store of objects

    JavaScript arrays and objects are references.  This second embedding
    keeps them in a store, so that sharing between the live document and
    the history snapshots is visible: [undo] makes the live document the
    very array a history entry holds, [updateProperty] on a top-level field
    shares the style object of the element it copies, and [filter] and
    [map] share the element objects they keep.  Allocation appends a cell;
    no handler of the program assigns to a property of an existing object
    or array, so no operation below writes to an existing cell. *)

Module Heap.

Definition loc := nat.

(** An element object; its [style] property is a reference. *)
Record element_object := mkObject {
  o_id : string;
  o_type : el_type;
  o_tagName : string;
  o_content : option string;
  o_src : option string;
  o_alt : option string;
  o_style : loc
}.

Inductive cell :=
| StyleObject (s : style_map)
| ElementObject (o : element_object)
| ArrayObject (items : list loc).

Definition heap := list cell.

(** Computations that read and extend the store; [None] when a reference
    does not designate an object of the expected kind. *)
Definition M (A : Type) : Type := heap -> option (A * heap).

Definition ret {A} (a : A) : M A := fun h => Some (a, h).

Definition bind {A B} (m : M A) (k : A -> M B) : M B :=
  fun h => match m h with
           | Some (a, h') => k a h'
           | None => None
           end.

Definition fail {A} : M A := fun _ => None.

Notation "x <- m ;; k" := (bind m (fun x => k))
  (at level 61, m at next level, right associativity).

Definition alloc (c : cell) : M loc := fun h => Some (length h, (h ++ [c])%list).

Definition read_style (l : loc) : M style_map :=
  fun h => match nth_error h l with
           | Some (StyleObject s) => Some (s, h)
           | _ => None
           end.

Definition read_object (l : loc) : M element_object :=
  fun h => match nth_error h l with
           | Some (ElementObject o) => Some (o, h)
           | _ => None
           end.

Definition read_array (l : loc) : M (list loc) :=
  fun h => match nth_error h l with
           | Some (ArrayObject items) => Some (items, h)
           | _ => None
           end.

Fixpoint mapM {A B} (f : A -> M B) (l : list A) : M (list B) :=
  match l with
  | [] => ret []
  | a :: l' => b <- f a ;; bs <- mapM f l' ;; ret (b :: bs)
  end.

Fixpoint filterM {A} (f : A -> M bool) (l : list A) : M (list A) :=
  match l with
  | [] => ret []
  | a :: l' => b <- f a ;; rest <- filterM f l' ;; ret (if b then a :: rest else rest)
  end.

(** *** Values in and out of the store *)

Definition object_of (e : element) (s : loc) : element_object :=
  {| o_id := id e; o_type := type e; o_tagName := tagName e;
     o_content := content e; o_src := src e; o_alt := alt e; o_style := s |}.

Definition element_of (o : element_object) (s : style_map) : element :=
  {| id := o_id o; type := o_type o; tagName := o_tagName o;
     content := o_content o; src := o_src o; alt := o_alt o; style := s |}.

(** A fresh element object with a fresh style object. *)
Definition store_element (e : element) : M loc :=
  s <- alloc (StyleObject (style e)) ;;
  alloc (ElementObject (object_of e s)).

(** A fresh array of fresh element objects: what an array literal of object
    literals, [parse], or [JSON.parse] builds. *)
Definition store_document (d : Document) : M loc :=
  items <- mapM store_element d ;;
  alloc (ArrayObject items).

(** The value of an element object. *)
Definition load_element (l : loc) : M element :=
  o <- read_object l ;;
  s <- read_style (o_style o) ;;
  ret (element_of o s).

(** The value of an array of elements: what [JSON.stringify] writes. *)
Definition load_document (l : loc) : M Document :=
  items <- read_array l ;;
  mapM load_element items.

(** [JSON.parse(JSON.stringify(x))]. *)
Definition clone (l : loc) : M loc :=
  d <- load_document l ;;
  store_document d.

(** *** State *)

Record state := mkState {
  elementsRef : loc;
  selected : option string;
  historyRefs : list (loc * option string);
  historyIdx : Z;
  editingText : bool;
  dragging : bool;
  offset : Z * Z
}.

Definition with_elements (l : loc) (st : state) : state :=
  {| elementsRef := l; selected := selected st; historyRefs := historyRefs st;
     historyIdx := historyIdx st; editingText := editingText st;
     dragging := dragging st; offset := offset st |}.

Definition with_selected (s : option string) (st : state) : state :=
  {| elementsRef := elementsRef st; selected := s; historyRefs := historyRefs st;
     historyIdx := historyIdx st; editingText := editingText st;
     dragging := dragging st; offset := offset st |}.

Definition with_history (hs : list (loc * option string)) (i : Z) (st : state) : state :=
  {| elementsRef := elementsRef st; selected := selected st; historyRefs := hs;
     historyIdx := i; editingText := editingText st;
     dragging := dragging st; offset := offset st |}.

Definition with_dragging (b : bool) (st : state) : state :=
  {| elementsRef := elementsRef st; selected := selected st;
     historyRefs := historyRefs st; historyIdx := historyIdx st;
     editingText := editingText st; dragging := b; offset := offset st |}.

Definition with_editingText (b : bool) (st : state) : state :=
  {| elementsRef := elementsRef st; selected := selected st;
     historyRefs := historyRefs st; historyIdx := historyIdx st;
     editingText := b; dragging := dragging st; offset := offset st |}.

Definition with_offset (o : Z * Z) (st : state) : state :=
  {| elementsRef := elementsRef st; selected := selected st;
     historyRefs := historyRefs st; historyIdx := historyIdx st;
     editingText := editingText st; dragging := dragging st; offset := o |}.

(** The first render: [useState([])] allocates the empty array. *)
Definition initial_heap : heap := [ArrayObject []].

Definition initial_state : state :=
  {| elementsRef := 0%nat; selected := None; historyRefs := []; historyIdx := -1;
     editingText := false; dragging := false; offset := (0, 0) |}.

(** *** The callbacks of the handlers *)

Definition id_is (sel : option string) (l : loc) : M bool :=
  o <- read_object l ;;
  ret (match sel with Some s => String.eqb (o_id o) s | None => false end).

Definition set_field (o : element_object) (prop val : string) : element_object :=
  {| o_id := o_id o; o_type := o_type o; o_tagName := o_tagName o;
     o_content := if String.eqb prop "content" then Some val else o_content o;
     o_src := if String.eqb prop "src" then Some val else o_src o;
     o_alt := if String.eqb prop "alt" then Some val else o_alt o;
     o_style := o_style o |}.

Definition set_style (o : element_object) (s : loc) : element_object :=
  {| o_id := o_id o; o_type := o_type o; o_tagName := o_tagName o;
     o_content := o_content o; o_src := o_src o; o_alt := o_alt o; o_style := s |}.

(** The callback of [elements.map] in [updateProperty]: an element that
    is not selected is returned itself; a selected one is copied, sharing
    its style object when a top-level field is written, with a copy of the
    style object otherwise. *)
Definition update_object (sel : option string) (prop val : string) (l : loc) : M loc :=
  o <- read_object l ;;
  if (match sel with Some s => String.eqb (o_id o) s | None => false end) then
    if is_top_level prop then alloc (ElementObject (set_field o prop val))
    else
      s <- read_style (o_style o) ;;
      s' <- alloc (StyleObject (style_set prop val s)) ;;
      alloc (ElementObject (set_style o s'))
  else ret l.

(** [elements.find((e) => e.id === id)], as the value of the element
    found. *)
Fixpoint find_object (i : string) (items : list loc) : M (option element) :=
  match items with
  | [] => ret None
  | l :: rest =>
      e <- load_element l ;;
      if String.eqb (id e) i then ret (Some e) else find_object i rest
  end.

Definition move_object (sel : option string) (x y : Z) (l : loc) : M loc :=
  o <- read_object l ;;
  if (match sel with Some s => String.eqb (o_id o) s | None => false end) then
    s <- read_style (o_style o) ;;
    s' <- alloc (StyleObject (style_set "top" (pxZ y) (style_set "left" (pxZ x) s))) ;;
    alloc (ElementObject (set_style o s'))
  else ret l.

(** *** Handlers *)

Module Handlers.

Definition saveHistory (cur : state) (newElements : loc) (newSelectedId : option string)
    (st : state) : M state :=
  snapshot <- clone newElements ;;
  let newHistory :=
    (JS.slice0 (historyIdx cur + 1) (historyRefs cur) ++ [(snapshot, newSelectedId)])%list in
  ret (with_history newHistory (Z.of_nat (length newHistory) - 1) st).

Definition load (parsed : Document) (cur : state) : M state :=
  arr <- store_document parsed ;;
  saveHistory cur arr None (with_selected None (with_elements arr cur)).

Definition addElement (ty : el_type) (now : N) (cur : state) : M state :=
  newEl <- store_element (newElement ty now) ;;
  items <- read_array (elementsRef cur) ;;
  newElements <- alloc (ArrayObject (items ++ [newEl])) ;;
  let sel := Some (id (newElement ty now)) in
  saveHistory cur newElements sel (with_selected sel (with_elements newElements cur)).

Definition deleteElement (confirmed : bool) (cur : state) : M state :=
  if no_selection (selected cur) then ret cur
  else if confirmed then
    items <- read_array (elementsRef cur) ;;
    kept <- filterM (fun l => b <- id_is (selected cur) l ;; ret (negb b)) items ;;
    newElements <- alloc (ArrayObject kept) ;;
    saveHistory cur newElements None
      (with_selected None (with_elements newElements cur))
  else ret cur.

Definition updateProperty (prop val : string) (cur : state) : M state :=
  if no_selection (selected cur) then ret cur
  else
    items <- read_array (elementsRef cur) ;;
    items' <- mapM (update_object (selected cur) prop val) items ;;
    newElements <- alloc (ArrayObject items') ;;
    ret (with_elements newElements cur).

Definition handleMouseDown (clientX clientY : Z) (i : string) (cur : state) : M state :=
  if editingText cur then ret cur
  else
    let st := with_dragging true (with_selected (Some i) cur) in
    items <- read_array (elementsRef cur) ;;
    found <- find_object i items ;;
    match found with
    | None => ret st
    | Some el =>
        ret (with_offset (clientX - offset_of "left" el, clientY - offset_of "top" el) st)
    end.

Definition handleMove (rect : option (Z * Z)) (clientX clientY : Z) (cur : state)
  : M state :=
  match rect with
  | Some (rleft, rtop) =>
      if (negb (dragging cur) || no_selection (selected cur))%bool then ret cur
      else
        let x := clamp (clientX - rleft - fst (offset cur)) in
        let y := clamp (clientY - rtop - snd (offset cur)) in
        items <- read_array (elementsRef cur) ;;
        items' <- mapM (move_object (selected cur) x y) items ;;
        newElements <- alloc (ArrayObject items') ;;
        ret (with_elements newElements cur)
  | None => ret cur
  end.

Definition handleUp (cur : state) : M state :=
  if dragging cur
  then saveHistory cur (elementsRef cur) (selected cur) (with_dragging false cur)
  else ret cur.

Definition handleDoubleClick (i : string) (cur : state) : M state :=
  items <- read_array (elementsRef cur) ;;
  found <- find_object i items ;;
  match found with
  | Some el =>
      if el_type_eqb (type el) text
      then ret (with_editingText true (with_selected (Some i) cur))
      else ret cur
  | None => ret cur
  end.

Definition handleTextBlur (innerText : option string) (cur : state) : M state :=
  match innerText with
  | Some t =>
      if (editingText cur && negb (no_selection (selected cur)))%bool
      then
        st <- updateProperty "content" t cur ;;
        saveHistory cur (elementsRef cur) (selected cur) (with_editingText false st)
      else ret cur
  | None => ret cur
  end.

(** Reading [state.elements] of an [undefined] entry throws. *)
Definition restore (cur : state) (i : Z) : M state :=
  match JS.index (historyRefs cur) i with
  | Some (snapshot, sel) =>
      ret (with_history (historyRefs cur) i
             (with_selected sel (with_elements snapshot cur)))
  | None => fail
  end.

Definition undo (cur : state) : M state :=
  if historyIdx cur >? 0 then restore cur (historyIdx cur - 1) else ret cur.

Definition redo (cur : state) : M state :=
  if historyIdx cur <? Z.of_nat (length (historyRefs cur)) - 1
  then restore cur (historyIdx cur + 1) else ret cur.

Definition handle (ev : event) (cur : state) : M state :=
  match ev with
  | Load parsed => load parsed cur
  | AddElement ty now => addElement ty now cur
  | DeleteElement c => deleteElement c cur
  | UpdateProperty p v => updateProperty p v cur
  | MouseDown x y i => handleMouseDown x y i cur
  | MouseMove r x y => handleMove r x y cur
  | MouseUp => handleUp cur
  | DoubleClick i => handleDoubleClick i cur
  | TextBlur t => handleTextBlur t cur
  | ClickCanvas => ret (with_selected None cur)
  | Undo => undo cur
  | Redo => redo cur
  end.

Fixpoint run (evs : list event) (cur : state) : M state :=
  match evs with
  | [] => ret cur
  | ev :: rest => st <- handle ev cur ;; run rest st
  end.

End Handlers.

End Heap.
(** ** A model of the browser's HTML syntax

    [parse(export(D))] goes through the browser three times: the assignment
    to [temp.innerHTML] parses markup as the children of a [div], the read
    of [temp.innerHTML] serializes them, and [DOMParser] parses a whole
    document.  This module follows the HTML Standard (tokenization with
    character references, tree construction in the insertion modes
    involved, fragment serialization).  A string stands for the JavaScript
    string of which it is the UTF-8 encoding, so a character outside ASCII is
    a run of bytes above 127, none of which the syntax treats specially; the
    no-break space, which the serializer escapes, is the pair 194, 160.
    Every function is partial: it answers [None] where the Standard does
    something the model leaves out (a character reference other than the
    five the serializer writes, NUL and CR, comments, unquoted attribute
    values, misnested or implied end tags, the adoption agency algorithm,
    tables, tags inside [select] or foreign content, ...), and answers what
    the Standard prescribes otherwise. *)

Module Html.

(** *** Characters *)

Definition code (c : ascii) : nat := nat_of_ascii c.

Definition is_white (c : ascii) : bool :=
  (Nat.eqb (code c) 9 || Nat.eqb (code c) 10 || Nat.eqb (code c) 12
   || Nat.eqb (code c) 32)%bool.

(** Every character but NUL, which the tree construction drops, and CR,
    which the input stream turns into LF. *)
Definition in_scope (c : ascii) : bool :=
  (negb (Nat.eqb (code c) 0) && negb (Nat.eqb (code c) 13))%bool.

Definition is_char (c : ascii) (n : nat) : bool := Nat.eqb (code c) n.

Definition is_digit (c : ascii) : bool :=
  (Nat.leb 48 (code c) && Nat.leb (code c) 57)%bool.

Definition is_alpha (c : ascii) : bool := (JS.is_upper c || JS.is_lower c)%bool.

Definition is_alnum (c : ascii) : bool := (is_alpha c || is_digit c)%bool.

Definition is_hex (c : ascii) : bool :=
  (is_digit c
   || (Nat.leb 97 (code (JS.lower_char c)) && Nat.leb (code (JS.lower_char c)) 102))%bool.

(** A character of a tag name, after its first letter: anything but white
    space, [/] and [>]. *)
Definition tag_char (c : ascii) : bool :=
  (in_scope c && negb (is_white c) && negb (is_char c 47) && negb (is_char c 62))%bool.

(** A lower-case letter or a digit. *)
Definition name_char (c : ascii) : bool := (JS.is_lower c || is_digit c)%bool.

(** A character of an attribute name. *)
Definition attr_char (c : ascii) : bool := (name_char c || is_char c 45)%bool.

(** A character that stands for itself in text wherever it is: not [&],
    not [<]. *)
Definition data_char (c : ascii) : bool :=
  (in_scope c && negb (is_char c 38) && negb (is_char c 60))%bool.

(** A character that stands for itself in a double-quoted attribute value
    wherever it is: not the quote, not [&]. *)
Definition value_char (c : ascii) : bool :=
  (in_scope c && negb (is_char c 34) && negb (is_char c 38))%bool.

(** A character that stands for itself in text and in attribute values
    alike: none of the quote, [&], [<] and [>]. *)
Definition plain_char (c : ascii) : bool :=
  (in_scope c && negb (is_char c 34) && negb (is_char c 38)
   && negb (is_char c 60) && negb (is_char c 62))%bool.

(** The same for text, where the quote stands for itself too. *)
Definition text_char (c : ascii) : bool :=
  (in_scope c && negb (is_char c 38) && negb (is_char c 60)
   && negb (is_char c 62))%bool.

Fixpoint all_chars (p : ascii -> bool) (s : string) : bool :=
  match s with
  | EmptyString => true
  | String c s' => (p c && all_chars p s')%bool
  end.

Fixpoint chars (s : string) : list ascii :=
  match s with
  | EmptyString => []
  | String c s' => c :: chars s'
  end.

Definition snoc (s : string) (c : ascii) : string := s ++ String c "".

Definition mem (x : string) (l : list string) : bool := existsb (String.eqb x) l.

(** *** Character references *)

(** The names of the named character references, without the semicolon
    that ends them. *)
Definition named_references : list string :=
  [
   "AElig"; "AMP"; "Aacute"; "Abreve"; "Acirc"; "Acy"; "Afr"; "Agrave"; "Alpha"; "Amacr";
   "And"; "Aogon"; "Aopf"; "ApplyFunction"; "Aring"; "Ascr"; "Assign"; "Atilde"; "Auml";
   "Backslash"; "Barv"; "Barwed"; "Bcy"; "Because"; "Bernoullis"; "Beta"; "Bfr"; "Bopf";
   "Breve"; "Bscr"; "Bumpeq"; "CHcy"; "COPY"; "Cacute"; "Cap"; "CapitalDifferentialD";
   "Cayleys"; "Ccaron"; "Ccedil"; "Ccirc"; "Cconint"; "Cdot"; "Cedilla"; "CenterDot";
   "Cfr"; "Chi"; "CircleDot"; "CircleMinus"; "CirclePlus"; "CircleTimes";
   "ClockwiseContourIntegral"; "CloseCurlyDoubleQuote"; "CloseCurlyQuote"; "Colon";
   "Colone"; "Congruent"; "Conint"; "ContourIntegral"; "Copf"; "Coproduct";
   "CounterClockwiseContourIntegral"; "Cross"; "Cscr"; "Cup"; "CupCap"; "DD"; "DDotrahd";
   "DJcy"; "DScy"; "DZcy"; "Dagger"; "Darr"; "Dashv"; "Dcaron"; "Dcy"; "Del"; "Delta";
   "Dfr"; "DiacriticalAcute"; "DiacriticalDot"; "DiacriticalDoubleAcute";
   "DiacriticalGrave"; "DiacriticalTilde"; "Diamond"; "DifferentialD"; "Dopf"; "Dot";
   "DotDot"; "DotEqual"; "DoubleContourIntegral"; "DoubleDot"; "DoubleDownArrow";
   "DoubleLeftArrow"; "DoubleLeftRightArrow"; "DoubleLeftTee"; "DoubleLongLeftArrow";
   "DoubleLongLeftRightArrow"; "DoubleLongRightArrow"; "DoubleRightArrow";
   "DoubleRightTee"; "DoubleUpArrow"; "DoubleUpDownArrow"; "DoubleVerticalBar";
   "DownArrow"; "DownArrowBar"; "DownArrowUpArrow"; "DownBreve"; "DownLeftRightVector";
   "DownLeftTeeVector"; "DownLeftVector"; "DownLeftVectorBar"; "DownRightTeeVector";
   "DownRightVector"; "DownRightVectorBar"; "DownTee"; "DownTeeArrow"; "Downarrow";
   "Dscr"; "Dstrok"; "ENG"; "ETH"; "Eacute"; "Ecaron"; "Ecirc"; "Ecy"; "Edot"; "Efr";
   "Egrave"; "Element"; "Emacr"; "EmptySmallSquare"; "EmptyVerySmallSquare"; "Eogon";
   "Eopf"; "Epsilon"; "Equal"; "EqualTilde"; "Equilibrium"; "Escr"; "Esim"; "Eta";
   "Euml"; "Exists"; "ExponentialE"; "Fcy"; "Ffr"; "FilledSmallSquare";
   "FilledVerySmallSquare"; "Fopf"; "ForAll"; "Fouriertrf"; "Fscr"; "GJcy"; "GT";
   "Gamma"; "Gammad"; "Gbreve"; "Gcedil"; "Gcirc"; "Gcy"; "Gdot"; "Gfr"; "Gg"; "Gopf";
   "GreaterEqual"; "GreaterEqualLess"; "GreaterFullEqual"; "GreaterGreater";
   "GreaterLess"; "GreaterSlantEqual"; "GreaterTilde"; "Gscr"; "Gt"; "HARDcy"; "Hacek";
   "Hat"; "Hcirc"; "Hfr"; "HilbertSpace"; "Hopf"; "HorizontalLine"; "Hscr"; "Hstrok";
   "HumpDownHump"; "HumpEqual"; "IEcy"; "IJlig"; "IOcy"; "Iacute"; "Icirc"; "Icy";
   "Idot"; "Ifr"; "Igrave"; "Im"; "Imacr"; "ImaginaryI"; "Implies"; "Int"; "Integral";
   "Intersection"; "InvisibleComma"; "InvisibleTimes"; "Iogon"; "Iopf"; "Iota"; "Iscr";
   "Itilde"; "Iukcy"; "Iuml"; "Jcirc"; "Jcy"; "Jfr"; "Jopf"; "Jscr"; "Jsercy"; "Jukcy";
   "KHcy"; "KJcy"; "Kappa"; "Kcedil"; "Kcy"; "Kfr"; "Kopf"; "Kscr"; "LJcy"; "LT";
   "Lacute"; "Lambda"; "Lang"; "Laplacetrf"; "Larr"; "Lcaron"; "Lcedil"; "Lcy";
   "LeftAngleBracket"; "LeftArrow"; "LeftArrowBar"; "LeftArrowRightArrow"; "LeftCeiling";
   "LeftDoubleBracket"; "LeftDownTeeVector"; "LeftDownVector"; "LeftDownVectorBar";
   "LeftFloor"; "LeftRightArrow"; "LeftRightVector"; "LeftTee"; "LeftTeeArrow";
   "LeftTeeVector"; "LeftTriangle"; "LeftTriangleBar"; "LeftTriangleEqual";
   "LeftUpDownVector"; "LeftUpTeeVector"; "LeftUpVector"; "LeftUpVectorBar";
   "LeftVector"; "LeftVectorBar"; "Leftarrow"; "Leftrightarrow"; "LessEqualGreater";
   "LessFullEqual"; "LessGreater"; "LessLess"; "LessSlantEqual"; "LessTilde"; "Lfr";
   "Ll"; "Lleftarrow"; "Lmidot"; "LongLeftArrow"; "LongLeftRightArrow"; "LongRightArrow";
   "Longleftarrow"; "Longleftrightarrow"; "Longrightarrow"; "Lopf"; "LowerLeftArrow";
   "LowerRightArrow"; "Lscr"; "Lsh"; "Lstrok"; "Lt"; "Map"; "Mcy"; "MediumSpace";
   "Mellintrf"; "Mfr"; "MinusPlus"; "Mopf"; "Mscr"; "Mu"; "NJcy"; "Nacute"; "Ncaron";
   "Ncedil"; "Ncy"; "NegativeMediumSpace"; "NegativeThickSpace"; "NegativeThinSpace";
   "NegativeVeryThinSpace"; "NestedGreaterGreater"; "NestedLessLess"; "NewLine"; "Nfr";
   "NoBreak"; "NonBreakingSpace"; "Nopf"; "Not"; "NotCongruent"; "NotCupCap";
   "NotDoubleVerticalBar"; "NotElement"; "NotEqual"; "NotEqualTilde"; "NotExists";
   "NotGreater"; "NotGreaterEqual"; "NotGreaterFullEqual"; "NotGreaterGreater";
   "NotGreaterLess"; "NotGreaterSlantEqual"; "NotGreaterTilde"; "NotHumpDownHump";
   "NotHumpEqual"; "NotLeftTriangle"; "NotLeftTriangleBar"; "NotLeftTriangleEqual";
   "NotLess"; "NotLessEqual"; "NotLessGreater"; "NotLessLess"; "NotLessSlantEqual";
   "NotLessTilde"; "NotNestedGreaterGreater"; "NotNestedLessLess"; "NotPrecedes";
   "NotPrecedesEqual"; "NotPrecedesSlantEqual"; "NotReverseElement"; "NotRightTriangle";
   "NotRightTriangleBar"; "NotRightTriangleEqual"; "NotSquareSubset";
   "NotSquareSubsetEqual"; "NotSquareSuperset"; "NotSquareSupersetEqual"; "NotSubset";
   "NotSubsetEqual"; "NotSucceeds"; "NotSucceedsEqual"; "NotSucceedsSlantEqual";
   "NotSucceedsTilde"; "NotSuperset"; "NotSupersetEqual"; "NotTilde"; "NotTildeEqual";
   "NotTildeFullEqual"; "NotTildeTilde"; "NotVerticalBar"; "Nscr"; "Ntilde"; "Nu";
   "OElig"; "Oacute"; "Ocirc"; "Ocy"; "Odblac"; "Ofr"; "Ograve"; "Omacr"; "Omega";
   "Omicron"; "Oopf"; "OpenCurlyDoubleQuote"; "OpenCurlyQuote"; "Or"; "Oscr"; "Oslash";
   "Otilde"; "Otimes"; "Ouml"; "OverBar"; "OverBrace"; "OverBracket"; "OverParenthesis";
   "PartialD"; "Pcy"; "Pfr"; "Phi"; "Pi"; "PlusMinus"; "Poincareplane"; "Popf"; "Pr";
   "Precedes"; "PrecedesEqual"; "PrecedesSlantEqual"; "PrecedesTilde"; "Prime";
   "Product"; "Proportion"; "Proportional"; "Pscr"; "Psi"; "QUOT"; "Qfr"; "Qopf"; "Qscr";
   "RBarr"; "REG"; "Racute"; "Rang"; "Rarr"; "Rarrtl"; "Rcaron"; "Rcedil"; "Rcy"; "Re";
   "ReverseElement"; "ReverseEquilibrium"; "ReverseUpEquilibrium"; "Rfr"; "Rho";
   "RightAngleBracket"; "RightArrow"; "RightArrowBar"; "RightArrowLeftArrow";
   "RightCeiling"; "RightDoubleBracket"; "RightDownTeeVector"; "RightDownVector";
   "RightDownVectorBar"; "RightFloor"; "RightTee"; "RightTeeArrow"; "RightTeeVector";
   "RightTriangle"; "RightTriangleBar"; "RightTriangleEqual"; "RightUpDownVector";
   "RightUpTeeVector"; "RightUpVector"; "RightUpVectorBar"; "RightVector";
   "RightVectorBar"; "Rightarrow"; "Ropf"; "RoundImplies"; "Rrightarrow"; "Rscr"; "Rsh";
   "RuleDelayed"; "SHCHcy"; "SHcy"; "SOFTcy"; "Sacute"; "Sc"; "Scaron"; "Scedil";
   "Scirc"; "Scy"; "Sfr"; "ShortDownArrow"; "ShortLeftArrow"; "ShortRightArrow";
   "ShortUpArrow"; "Sigma"; "SmallCircle"; "Sopf"; "Sqrt"; "Square";
   "SquareIntersection"; "SquareSubset"; "SquareSubsetEqual"; "SquareSuperset";
   "SquareSupersetEqual"; "SquareUnion"; "Sscr"; "Star"; "Sub"; "Subset"; "SubsetEqual";
   "Succeeds"; "SucceedsEqual"; "SucceedsSlantEqual"; "SucceedsTilde"; "SuchThat"; "Sum";
   "Sup"; "Superset"; "SupersetEqual"; "Supset"; "THORN"; "TRADE"; "TSHcy"; "TScy";
   "Tab"; "Tau"; "Tcaron"; "Tcedil"; "Tcy"; "Tfr"; "Therefore"; "Theta"; "ThickSpace";
   "ThinSpace"; "Tilde"; "TildeEqual"; "TildeFullEqual"; "TildeTilde"; "Topf";
   "TripleDot"; "Tscr"; "Tstrok"; "Uacute"; "Uarr"; "Uarrocir"; "Ubrcy"; "Ubreve";
   "Ucirc"; "Ucy"; "Udblac"; "Ufr"; "Ugrave"; "Umacr"; "UnderBar"; "UnderBrace";
   "UnderBracket"; "UnderParenthesis"; "Union"; "UnionPlus"; "Uogon"; "Uopf"; "UpArrow";
   "UpArrowBar"; "UpArrowDownArrow"; "UpDownArrow"; "UpEquilibrium"; "UpTee";
   "UpTeeArrow"; "Uparrow"; "Updownarrow"; "UpperLeftArrow"; "UpperRightArrow"; "Upsi";
   "Upsilon"; "Uring"; "Uscr"; "Utilde"; "Uuml"; "VDash"; "Vbar"; "Vcy"; "Vdash";
   "Vdashl"; "Vee"; "Verbar"; "Vert"; "VerticalBar"; "VerticalLine"; "VerticalSeparator";
   "VerticalTilde"; "VeryThinSpace"; "Vfr"; "Vopf"; "Vscr"; "Vvdash"; "Wcirc"; "Wedge";
   "Wfr"; "Wopf"; "Wscr"; "Xfr"; "Xi"; "Xopf"; "Xscr"; "YAcy"; "YIcy"; "YUcy"; "Yacute";
   "Ycirc"; "Ycy"; "Yfr"; "Yopf"; "Yscr"; "Yuml"; "ZHcy"; "Zacute"; "Zcaron"; "Zcy";
   "Zdot"; "ZeroWidthSpace"; "Zeta"; "Zfr"; "Zopf"; "Zscr"; "aacute"; "abreve"; "ac";
   "acE"; "acd"; "acirc"; "acute"; "acy"; "aelig"; "af"; "afr"; "agrave"; "alefsym";
   "aleph"; "alpha"; "amacr"; "amalg"; "amp"; "and"; "andand"; "andd"; "andslope";
   "andv"; "ang"; "ange"; "angle"; "angmsd"; "angmsdaa"; "angmsdab"; "angmsdac";
   "angmsdad"; "angmsdae"; "angmsdaf"; "angmsdag"; "angmsdah"; "angrt"; "angrtvb";
   "angrtvbd"; "angsph"; "angst"; "angzarr"; "aogon"; "aopf"; "ap"; "apE"; "apacir";
   "ape"; "apid"; "apos"; "approx"; "approxeq"; "aring"; "ascr"; "ast"; "asymp";
   "asympeq"; "atilde"; "auml"; "awconint"; "awint"; "bNot"; "backcong"; "backepsilon";
   "backprime"; "backsim"; "backsimeq"; "barvee"; "barwed"; "barwedge"; "bbrk";
   "bbrktbrk"; "bcong"; "bcy"; "bdquo"; "becaus"; "because"; "bemptyv"; "bepsi";
   "bernou"; "beta"; "beth"; "between"; "bfr"; "bigcap"; "bigcirc"; "bigcup"; "bigodot";
   "bigoplus"; "bigotimes"; "bigsqcup"; "bigstar"; "bigtriangledown"; "bigtriangleup";
   "biguplus"; "bigvee"; "bigwedge"; "bkarow"; "blacklozenge"; "blacksquare";
   "blacktriangle"; "blacktriangledown"; "blacktriangleleft"; "blacktriangleright";
   "blank"; "blk12"; "blk14"; "blk34"; "block"; "bne"; "bnequiv"; "bnot"; "bopf"; "bot";
   "bottom"; "bowtie"; "boxDL"; "boxDR"; "boxDl"; "boxDr"; "boxH"; "boxHD"; "boxHU";
   "boxHd"; "boxHu"; "boxUL"; "boxUR"; "boxUl"; "boxUr"; "boxV"; "boxVH"; "boxVL";
   "boxVR"; "boxVh"; "boxVl"; "boxVr"; "boxbox"; "boxdL"; "boxdR"; "boxdl"; "boxdr";
   "boxh"; "boxhD"; "boxhU"; "boxhd"; "boxhu"; "boxminus"; "boxplus"; "boxtimes";
   "boxuL"; "boxuR"; "boxul"; "boxur"; "boxv"; "boxvH"; "boxvL"; "boxvR"; "boxvh";
   "boxvl"; "boxvr"; "bprime"; "breve"; "brvbar"; "bscr"; "bsemi"; "bsim"; "bsime";
   "bsol"; "bsolb"; "bsolhsub"; "bull"; "bullet"; "bump"; "bumpE"; "bumpe"; "bumpeq";
   "cacute"; "cap"; "capand"; "capbrcup"; "capcap"; "capcup"; "capdot"; "caps"; "caret";
   "caron"; "ccaps"; "ccaron"; "ccedil"; "ccirc"; "ccups"; "ccupssm"; "cdot"; "cedil";
   "cemptyv"; "cent"; "centerdot"; "cfr"; "chcy"; "check"; "checkmark"; "chi"; "cir";
   "cirE"; "circ"; "circeq"; "circlearrowleft"; "circlearrowright"; "circledR";
   "circledS"; "circledast"; "circledcirc"; "circleddash"; "cire"; "cirfnint"; "cirmid";
   "cirscir"; "clubs"; "clubsuit"; "colon"; "colone"; "coloneq"; "comma"; "commat";
   "comp"; "compfn"; "complement"; "complexes"; "cong"; "congdot"; "conint"; "copf";
   "coprod"; "copy"; "copysr"; "crarr"; "cross"; "cscr"; "csub"; "csube"; "csup";
   "csupe"; "ctdot"; "cudarrl"; "cudarrr"; "cuepr"; "cuesc"; "cularr"; "cularrp"; "cup";
   "cupbrcap"; "cupcap"; "cupcup"; "cupdot"; "cupor"; "cups"; "curarr"; "curarrm";
   "curlyeqprec"; "curlyeqsucc"; "curlyvee"; "curlywedge"; "curren"; "curvearrowleft";
   "curvearrowright"; "cuvee"; "cuwed"; "cwconint"; "cwint"; "cylcty"; "dArr"; "dHar";
   "dagger"; "daleth"; "darr"; "dash"; "dashv"; "dbkarow"; "dblac"; "dcaron"; "dcy";
   "dd"; "ddagger"; "ddarr"; "ddotseq"; "deg"; "delta"; "demptyv"; "dfisht"; "dfr";
   "dharl"; "dharr"; "diam"; "diamond"; "diamondsuit"; "diams"; "die"; "digamma";
   "disin"; "div"; "divide"; "divideontimes"; "divonx"; "djcy"; "dlcorn"; "dlcrop";
   "dollar"; "dopf"; "dot"; "doteq"; "doteqdot"; "dotminus"; "dotplus"; "dotsquare";
   "doublebarwedge"; "downarrow"; "downdownarrows"; "downharpoonleft";
   "downharpoonright"; "drbkarow"; "drcorn"; "drcrop"; "dscr"; "dscy"; "dsol"; "dstrok";
   "dtdot"; "dtri"; "dtrif"; "duarr"; "duhar"; "dwangle"; "dzcy"; "dzigrarr"; "eDDot";
   "eDot"; "eacute"; "easter"; "ecaron"; "ecir"; "ecirc"; "ecolon"; "ecy"; "edot"; "ee";
   "efDot"; "efr"; "eg"; "egrave"; "egs"; "egsdot"; "el"; "elinters"; "ell"; "els";
   "elsdot"; "emacr"; "empty"; "emptyset"; "emptyv"; "emsp"; "emsp13"; "emsp14"; "eng";
   "ensp"; "eogon"; "eopf"; "epar"; "eparsl"; "eplus"; "epsi"; "epsilon"; "epsiv";
   "eqcirc"; "eqcolon"; "eqsim"; "eqslantgtr"; "eqslantless"; "equals"; "equest";
   "equiv"; "equivDD"; "eqvparsl"; "erDot"; "erarr"; "escr"; "esdot"; "esim"; "eta";
   "eth"; "euml"; "euro"; "excl"; "exist"; "expectation"; "exponentiale";
   "fallingdotseq"; "fcy"; "female"; "ffilig"; "fflig"; "ffllig"; "ffr"; "filig";
   "fjlig"; "flat"; "fllig"; "fltns"; "fnof"; "fopf"; "forall"; "fork"; "forkv";
   "fpartint"; "frac12"; "frac13"; "frac14"; "frac15"; "frac16"; "frac18"; "frac23";
   "frac25"; "frac34"; "frac35"; "frac38"; "frac45"; "frac56"; "frac58"; "frac78";
   "frasl"; "frown"; "fscr"; "gE"; "gEl"; "gacute"; "gamma"; "gammad"; "gap"; "gbreve";
   "gcirc"; "gcy"; "gdot"; "ge"; "gel"; "geq"; "geqq"; "geqslant"; "ges"; "gescc";
   "gesdot"; "gesdoto"; "gesdotol"; "gesl"; "gesles"; "gfr"; "gg"; "ggg"; "gimel";
   "gjcy"; "gl"; "glE"; "gla"; "glj"; "gnE"; "gnap"; "gnapprox"; "gne"; "gneq"; "gneqq";
   "gnsim"; "gopf"; "grave"; "gscr"; "gsim"; "gsime"; "gsiml"; "gt"; "gtcc"; "gtcir";
   "gtdot"; "gtlPar"; "gtquest"; "gtrapprox"; "gtrarr"; "gtrdot"; "gtreqless";
   "gtreqqless"; "gtrless"; "gtrsim"; "gvertneqq"; "gvnE"; "hArr"; "hairsp"; "half";
   "hamilt"; "hardcy"; "harr"; "harrcir"; "harrw"; "hbar"; "hcirc"; "hearts";
   "heartsuit"; "hellip"; "hercon"; "hfr"; "hksearow"; "hkswarow"; "hoarr"; "homtht";
   "hookleftarrow"; "hookrightarrow"; "hopf"; "horbar"; "hscr"; "hslash"; "hstrok";
   "hybull"; "hyphen"; "iacute"; "ic"; "icirc"; "icy"; "iecy"; "iexcl"; "iff"; "ifr";
   "igrave"; "ii"; "iiiint"; "iiint"; "iinfin"; "iiota"; "ijlig"; "imacr"; "image";
   "imagline"; "imagpart"; "imath"; "imof"; "imped"; "in"; "incare"; "infin"; "infintie";
   "inodot"; "int"; "intcal"; "integers"; "intercal"; "intlarhk"; "intprod"; "iocy";
   "iogon"; "iopf"; "iota"; "iprod"; "iquest"; "iscr"; "isin"; "isinE"; "isindot";
   "isins"; "isinsv"; "isinv"; "it"; "itilde"; "iukcy"; "iuml"; "jcirc"; "jcy"; "jfr";
   "jmath"; "jopf"; "jscr"; "jsercy"; "jukcy"; "kappa"; "kappav"; "kcedil"; "kcy"; "kfr";
   "kgreen"; "khcy"; "kjcy"; "kopf"; "kscr"; "lAarr"; "lArr"; "lAtail"; "lBarr"; "lE";
   "lEg"; "lHar"; "lacute"; "laemptyv"; "lagran"; "lambda"; "lang"; "langd"; "langle";
   "lap"; "laquo"; "larr"; "larrb"; "larrbfs"; "larrfs"; "larrhk"; "larrlp"; "larrpl";
   "larrsim"; "larrtl"; "lat"; "latail"; "late"; "lates"; "lbarr"; "lbbrk"; "lbrace";
   "lbrack"; "lbrke"; "lbrksld"; "lbrkslu"; "lcaron"; "lcedil"; "lceil"; "lcub"; "lcy";
   "ldca"; "ldquo"; "ldquor"; "ldrdhar"; "ldrushar"; "ldsh"; "le"; "leftarrow";
   "leftarrowtail"; "leftharpoondown"; "leftharpoonup"; "leftleftarrows";
   "leftrightarrow"; "leftrightarrows"; "leftrightharpoons"; "leftrightsquigarrow";
   "leftthreetimes"; "leg"; "leq"; "leqq"; "leqslant"; "les"; "lescc"; "lesdot";
   "lesdoto"; "lesdotor"; "lesg"; "lesges"; "lessapprox"; "lessdot"; "lesseqgtr";
   "lesseqqgtr"; "lessgtr"; "lesssim"; "lfisht"; "lfloor"; "lfr"; "lg"; "lgE"; "lhard";
   "lharu"; "lharul"; "lhblk"; "ljcy"; "ll"; "llarr"; "llcorner"; "llhard"; "lltri";
   "lmidot"; "lmoust"; "lmoustache"; "lnE"; "lnap"; "lnapprox"; "lne"; "lneq"; "lneqq";
   "lnsim"; "loang"; "loarr"; "lobrk"; "longleftarrow"; "longleftrightarrow";
   "longmapsto"; "longrightarrow"; "looparrowleft"; "looparrowright"; "lopar"; "lopf";
   "loplus"; "lotimes"; "lowast"; "lowbar"; "loz"; "lozenge"; "lozf"; "lpar"; "lparlt";
   "lrarr"; "lrcorner"; "lrhar"; "lrhard"; "lrm"; "lrtri"; "lsaquo"; "lscr"; "lsh";
   "lsim"; "lsime"; "lsimg"; "lsqb"; "lsquo"; "lsquor"; "lstrok"; "lt"; "ltcc"; "ltcir";
   "ltdot"; "lthree"; "ltimes"; "ltlarr"; "ltquest"; "ltrPar"; "ltri"; "ltrie"; "ltrif";
   "lurdshar"; "luruhar"; "lvertneqq"; "lvnE"; "mDDot"; "macr"; "male"; "malt";
   "maltese"; "map"; "mapsto"; "mapstodown"; "mapstoleft"; "mapstoup"; "marker";
   "mcomma"; "mcy"; "mdash"; "measuredangle"; "mfr"; "mho"; "micro"; "mid"; "midast";
   "midcir"; "middot"; "minus"; "minusb"; "minusd"; "minusdu"; "mlcp"; "mldr"; "mnplus";
   "models"; "mopf"; "mp"; "mscr"; "mstpos"; "mu"; "multimap"; "mumap"; "nGg"; "nGt";
   "nGtv"; "nLeftarrow"; "nLeftrightarrow"; "nLl"; "nLt"; "nLtv"; "nRightarrow";
   "nVDash"; "nVdash"; "nabla"; "nacute"; "nang"; "nap"; "napE"; "napid"; "napos";
   "napprox"; "natur"; "natural"; "naturals"; "nbsp"; "nbump"; "nbumpe"; "ncap";
   "ncaron"; "ncedil"; "ncong"; "ncongdot"; "ncup"; "ncy"; "ndash"; "ne"; "neArr";
   "nearhk"; "nearr"; "nearrow"; "nedot"; "nequiv"; "nesear"; "nesim"; "nexist";
   "nexists"; "nfr"; "ngE"; "nge"; "ngeq"; "ngeqq"; "ngeqslant"; "nges"; "ngsim"; "ngt";
   "ngtr"; "nhArr"; "nharr"; "nhpar"; "ni"; "nis"; "nisd"; "niv"; "njcy"; "nlArr"; "nlE";
   "nlarr"; "nldr"; "nle"; "nleftarrow"; "nleftrightarrow"; "nleq"; "nleqq"; "nleqslant";
   "nles"; "nless"; "nlsim"; "nlt"; "nltri"; "nltrie"; "nmid"; "nopf"; "not"; "notin";
   "notinE"; "notindot"; "notinva"; "notinvb"; "notinvc"; "notni"; "notniva"; "notnivb";
   "notnivc"; "npar"; "nparallel"; "nparsl"; "npart"; "npolint"; "npr"; "nprcue"; "npre";
   "nprec"; "npreceq"; "nrArr"; "nrarr"; "nrarrc"; "nrarrw"; "nrightarrow"; "nrtri";
   "nrtrie"; "nsc"; "nsccue"; "nsce"; "nscr"; "nshortmid"; "nshortparallel"; "nsim";
   "nsime"; "nsimeq"; "nsmid"; "nspar"; "nsqsube"; "nsqsupe"; "nsub"; "nsubE"; "nsube";
   "nsubset"; "nsubseteq"; "nsubseteqq"; "nsucc"; "nsucceq"; "nsup"; "nsupE"; "nsupe";
   "nsupset"; "nsupseteq"; "nsupseteqq"; "ntgl"; "ntilde"; "ntlg"; "ntriangleleft";
   "ntrianglelefteq"; "ntriangleright"; "ntrianglerighteq"; "nu"; "num"; "numero";
   "numsp"; "nvDash"; "nvHarr"; "nvap"; "nvdash"; "nvge"; "nvgt"; "nvinfin"; "nvlArr";
   "nvle"; "nvlt"; "nvltrie"; "nvrArr"; "nvrtrie"; "nvsim"; "nwArr"; "nwarhk"; "nwarr";
   "nwarrow"; "nwnear"; "oS"; "oacute"; "oast"; "ocir"; "ocirc"; "ocy"; "odash";
   "odblac"; "odiv"; "odot"; "odsold"; "oelig"; "ofcir"; "ofr"; "ogon"; "ograve"; "ogt";
   "ohbar"; "ohm"; "oint"; "olarr"; "olcir"; "olcross"; "oline"; "olt"; "omacr"; "omega";
   "omicron"; "omid"; "ominus"; "oopf"; "opar"; "operp"; "oplus"; "or"; "orarr"; "ord";
   "order"; "orderof"; "ordf"; "ordm"; "origof"; "oror"; "orslope"; "orv"; "oscr";
   "oslash"; "osol"; "otilde"; "otimes"; "otimesas"; "ouml"; "ovbar"; "par"; "para";
   "parallel"; "parsim"; "parsl"; "part"; "pcy"; "percnt"; "period"; "permil"; "perp";
   "pertenk"; "pfr"; "phi"; "phiv"; "phmmat"; "phone"; "pi"; "pitchfork"; "piv";
   "planck"; "planckh"; "plankv"; "plus"; "plusacir"; "plusb"; "pluscir"; "plusdo";
   "plusdu"; "pluse"; "plusmn"; "plussim"; "plustwo"; "pm"; "pointint"; "popf"; "pound";
   "pr"; "prE"; "prap"; "prcue"; "pre"; "prec"; "precapprox"; "preccurlyeq"; "preceq";
   "precnapprox"; "precneqq"; "precnsim"; "precsim"; "prime"; "primes"; "prnE"; "prnap";
   "prnsim"; "prod"; "profalar"; "profline"; "profsurf"; "prop"; "propto"; "prsim";
   "prurel"; "pscr"; "psi"; "puncsp"; "qfr"; "qint"; "qopf"; "qprime"; "qscr";
   "quaternions"; "quatint"; "quest"; "questeq"; "quot"; "rAarr"; "rArr"; "rAtail";
   "rBarr"; "rHar"; "race"; "racute"; "radic"; "raemptyv"; "rang"; "rangd"; "range";
   "rangle"; "raquo"; "rarr"; "rarrap"; "rarrb"; "rarrbfs"; "rarrc"; "rarrfs"; "rarrhk";
   "rarrlp"; "rarrpl"; "rarrsim"; "rarrtl"; "rarrw"; "ratail"; "ratio"; "rationals";
   "rbarr"; "rbbrk"; "rbrace"; "rbrack"; "rbrke"; "rbrksld"; "rbrkslu"; "rcaron";
   "rcedil"; "rceil"; "rcub"; "rcy"; "rdca"; "rdldhar"; "rdquo"; "rdquor"; "rdsh";
   "real"; "realine"; "realpart"; "reals"; "rect"; "reg"; "rfisht"; "rfloor"; "rfr";
   "rhard"; "rharu"; "rharul"; "rho"; "rhov"; "rightarrow"; "rightarrowtail";
   "rightharpoondown"; "rightharpoonup"; "rightleftarrows"; "rightleftharpoons";
   "rightrightarrows"; "rightsquigarrow"; "rightthreetimes"; "ring"; "risingdotseq";
   "rlarr"; "rlhar"; "rlm"; "rmoust"; "rmoustache"; "rnmid"; "roang"; "roarr"; "robrk";
   "ropar"; "ropf"; "roplus"; "rotimes"; "rpar"; "rpargt"; "rppolint"; "rrarr"; "rsaquo";
   "rscr"; "rsh"; "rsqb"; "rsquo"; "rsquor"; "rthree"; "rtimes"; "rtri"; "rtrie";
   "rtrif"; "rtriltri"; "ruluhar"; "rx"; "sacute"; "sbquo"; "sc"; "scE"; "scap";
   "scaron"; "sccue"; "sce"; "scedil"; "scirc"; "scnE"; "scnap"; "scnsim"; "scpolint";
   "scsim"; "scy"; "sdot"; "sdotb"; "sdote"; "seArr"; "searhk"; "searr"; "searrow";
   "sect"; "semi"; "seswar"; "setminus"; "setmn"; "sext"; "sfr"; "sfrown"; "sharp";
   "shchcy"; "shcy"; "shortmid"; "shortparallel"; "shy"; "sigma"; "sigmaf"; "sigmav";
   "sim"; "simdot"; "sime"; "simeq"; "simg"; "simgE"; "siml"; "simlE"; "simne";
   "simplus"; "simrarr"; "slarr"; "smallsetminus"; "smashp"; "smeparsl"; "smid"; "smile";
   "smt"; "smte"; "smtes"; "softcy"; "sol"; "solb"; "solbar"; "sopf"; "spades";
   "spadesuit"; "spar"; "sqcap"; "sqcaps"; "sqcup"; "sqcups"; "sqsub"; "sqsube";
   "sqsubset"; "sqsubseteq"; "sqsup"; "sqsupe"; "sqsupset"; "sqsupseteq"; "squ";
   "square"; "squarf"; "squf"; "srarr"; "sscr"; "ssetmn"; "ssmile"; "sstarf"; "star";
   "starf"; "straightepsilon"; "straightphi"; "strns"; "sub"; "subE"; "subdot"; "sube";
   "subedot"; "submult"; "subnE"; "subne"; "subplus"; "subrarr"; "subset"; "subseteq";
   "subseteqq"; "subsetneq"; "subsetneqq"; "subsim"; "subsub"; "subsup"; "succ";
   "succapprox"; "succcurlyeq"; "succeq"; "succnapprox"; "succneqq"; "succnsim";
   "succsim"; "sum"; "sung"; "sup"; "sup1"; "sup2"; "sup3"; "supE"; "supdot"; "supdsub";
   "supe"; "supedot"; "suphsol"; "suphsub"; "suplarr"; "supmult"; "supnE"; "supne";
   "supplus"; "supset"; "supseteq"; "supseteqq"; "supsetneq"; "supsetneqq"; "supsim";
   "supsub"; "supsup"; "swArr"; "swarhk"; "swarr"; "swarrow"; "swnwar"; "szlig";
   "target"; "tau"; "tbrk"; "tcaron"; "tcedil"; "tcy"; "tdot"; "telrec"; "tfr"; "there4";
   "therefore"; "theta"; "thetasym"; "thetav"; "thickapprox"; "thicksim"; "thinsp";
   "thkap"; "thksim"; "thorn"; "tilde"; "times"; "timesb"; "timesbar"; "timesd"; "tint";
   "toea"; "top"; "topbot"; "topcir"; "topf"; "topfork"; "tosa"; "tprime"; "trade";
   "triangle"; "triangledown"; "triangleleft"; "trianglelefteq"; "triangleq";
   "triangleright"; "trianglerighteq"; "tridot"; "trie"; "triminus"; "triplus"; "trisb";
   "tritime"; "trpezium"; "tscr"; "tscy"; "tshcy"; "tstrok"; "twixt"; "twoheadleftarrow";
   "twoheadrightarrow"; "uArr"; "uHar"; "uacute"; "uarr"; "ubrcy"; "ubreve"; "ucirc";
   "ucy"; "udarr"; "udblac"; "udhar"; "ufisht"; "ufr"; "ugrave"; "uharl"; "uharr";
   "uhblk"; "ulcorn"; "ulcorner"; "ulcrop"; "ultri"; "umacr"; "uml"; "uogon"; "uopf";
   "uparrow"; "updownarrow"; "upharpoonleft"; "upharpoonright"; "uplus"; "upsi"; "upsih";
   "upsilon"; "upuparrows"; "urcorn"; "urcorner"; "urcrop"; "uring"; "urtri"; "uscr";
   "utdot"; "utilde"; "utri"; "utrif"; "uuarr"; "uuml"; "uwangle"; "vArr"; "vBar";
   "vBarv"; "vDash"; "vangrt"; "varepsilon"; "varkappa"; "varnothing"; "varphi"; "varpi";
   "varpropto"; "varr"; "varrho"; "varsigma"; "varsubsetneq"; "varsubsetneqq";
   "varsupsetneq"; "varsupsetneqq"; "vartheta"; "vartriangleleft"; "vartriangleright";
   "vcy"; "vdash"; "vee"; "veebar"; "veeeq"; "vellip"; "verbar"; "vert"; "vfr"; "vltri";
   "vnsub"; "vnsup"; "vopf"; "vprop"; "vrtri"; "vscr"; "vsubnE"; "vsubne"; "vsupnE";
   "vsupne"; "vzigzag"; "wcirc"; "wedbar"; "wedge"; "wedgeq"; "weierp"; "wfr"; "wopf";
   "wp"; "wr"; "wreath"; "wscr"; "xcap"; "xcirc"; "xcup"; "xdtri"; "xfr"; "xhArr";
   "xharr"; "xi"; "xlArr"; "xlarr"; "xmap"; "xnis"; "xodot"; "xopf"; "xoplus"; "xotime";
   "xrArr"; "xrarr"; "xscr"; "xsqcup"; "xuplus"; "xutri"; "xvee"; "xwedge"; "yacute";
   "yacy"; "ycirc"; "ycy"; "yen"; "yfr"; "yicy"; "yopf"; "yscr"; "yucy"; "yuml";
   "zacute"; "zcaron"; "zcy"; "zdot"; "zeetrf"; "zeta"; "zfr"; "zhcy"; "zigrarr"; "zopf";
   "zscr"; "zwj"; "zwnj"  ].

(** The names that are references without a semicolon as well. *)
Definition legacy_references : list string :=
  [
   "AElig"; "AMP"; "Aacute"; "Acirc"; "Agrave"; "Aring"; "Atilde"; "Auml"; "COPY";
   "Ccedil"; "ETH"; "Eacute"; "Ecirc"; "Egrave"; "Euml"; "GT"; "Iacute"; "Icirc";
   "Igrave"; "Iuml"; "LT"; "Ntilde"; "Oacute"; "Ocirc"; "Ograve"; "Oslash"; "Otilde";
   "Ouml"; "QUOT"; "REG"; "THORN"; "Uacute"; "Ucirc"; "Ugrave"; "Uuml"; "Yacute";
   "aacute"; "acirc"; "acute"; "aelig"; "agrave"; "amp"; "aring"; "atilde"; "auml";
   "brvbar"; "ccedil"; "cedil"; "cent"; "copy"; "curren"; "deg"; "divide"; "eacute";
   "ecirc"; "egrave"; "eth"; "euml"; "frac12"; "frac14"; "frac34"; "gt"; "iacute";
   "icirc"; "iexcl"; "igrave"; "iquest"; "iuml"; "laquo"; "lt"; "macr"; "micro";
   "middot"; "nbsp"; "not"; "ntilde"; "oacute"; "ocirc"; "ograve"; "ordf"; "ordm";
   "oslash"; "otilde"; "ouml"; "para"; "plusmn"; "pound"; "quot"; "raquo"; "reg"; "sect";
   "shy"; "sup1"; "sup2"; "sup3"; "szlig"; "thorn"; "times"; "uacute"; "ucirc"; "ugrave";
   "uml"; "uuml"; "yacute"; "yen"; "yuml"  ].

(** The no-break space. *)
Definition nbsp : string := String (ascii_of_nat 194) (String (ascii_of_nat 160) "").

(** What a reference stands for: for the five the serializer writes. *)
Definition decode (name : string) : option string :=
  if String.eqb name "amp" then Some "&"
  else if String.eqb name "lt" then Some "<"
  else if String.eqb name "gt" then Some ">"
  else if String.eqb name "quot" then Some dq
  else if String.eqb name "nbsp" then Some nbsp
  else None.

(** The longest name without a semicolon that starts [pre ++ rest] and
    reaches at least to the end of [pre], with what is left of [rest]. *)
Fixpoint longest_legacy (pre rest : string) : option (string * string) :=
  match rest with
  | EmptyString => if mem pre legacy_references then Some (pre, "") else None
  | String c rest' =>
      match longest_legacy (snoc pre c) rest' with
      | Some r => Some r
      | None => if mem pre legacy_references then Some (pre, rest) else None
      end
  end.

(** The named character reference state, once the letters and digits
    [buf] after the [&] are followed by [c], which is neither: the text the
    reference stands for and whether [c] belongs to it.  The longest name
    that matches wins; without a match, and in an attribute value when a
    match without semicolon is followed by [=] or by a letter or digit, the
    characters stand for themselves. *)
Definition resolve (attr : bool) (buf : string) (c : ascii) : option (string * bool) :=
  if (is_char c 59 && mem buf named_references)%bool
  then option_map (fun d => (d, true)) (decode buf)
  else match longest_legacy "" buf with
       | Some (p, r) =>
           if (attr && (negb (JS.falsy r) || is_char c 61))%bool
           then Some ("&" ++ buf, false)
           else option_map (fun d => (d ++ r, false)) (decode p)
       | None => Some ("&" ++ buf, false)
       end.

(** *** Tags *)

Inductive kind :=
| KHtml | KHead | KBody      (* the document skeleton *)
| KMeta                      (* void, metadata *)
| KTitle                     (* escapable raw text *)
| KStyle                     (* raw text *)
| KImg                       (* void *)
| KBlock                     (* its start tag closes an open p *)
| KPre                       (* the same, and drops a first line feed *)
| KList                      (* li *)
| KDef                       (* dd, dt *)
| KForm
| KButton
| KAnchor
| KNobr
| KRuby                      (* rb, rtc, rp, rt *)
| KMarker                    (* applet, marquee, object *)
| KForeign                   (* svg: text only *)
| KSelect                    (* text only *)
| KOption                    (* option, optgroup *)
| KVoid                      (* void, in the body *)
| KRule                      (* hr: void, closes an open p *)
| KTextarea                  (* escapable raw text, drops a first line feed *)
| KSpan.                     (* any other element *)

Definition block_tags : list string :=
  ["div"; "p"; "h1"; "h2"; "h3"; "h4"; "h5"; "h6";
   "section"; "article"; "header"; "footer"; "main"; "nav"; "aside";
   "address"; "blockquote"; "center"; "details"; "dialog"; "dir"; "dl";
   "fieldset"; "figcaption"; "figure"; "hgroup"; "menu"; "ol"; "search";
   "summary"; "ul"].

Definition headings : list string := ["h1"; "h2"; "h3"; "h4"; "h5"; "h6"].

(** The tags whose tokenization or tree construction the model leaves
    out. *)
Definition uncovered_tags : list string :=
  ["base"; "basefont"; "bgsound"; "link"; "noframes"; "script"; "template";
   "noscript"; "frameset"; "plaintext"; "table"; "br"; "image"; "xmp"; "iframe";
   "noembed"; "math"; "caption"; "col"; "colgroup"; "frame"; "tbody"; "td"; "tfoot";
   "th"; "thead"; "tr"].

Definition void_tags : list string :=
  ["area"; "embed"; "keygen"; "wbr"; "input"; "param"; "source"; "track"].

Definition kind_of (name : string) : option kind :=
  if String.eqb name "html" then Some KHtml
  else if String.eqb name "head" then Some KHead
  else if String.eqb name "body" then Some KBody
  else if String.eqb name "meta" then Some KMeta
  else if String.eqb name "title" then Some KTitle
  else if String.eqb name "style" then Some KStyle
  else if String.eqb name "img" then Some KImg
  else if mem name block_tags then Some KBlock
  else if mem name ["pre"; "listing"] then Some KPre
  else if String.eqb name "li" then Some KList
  else if mem name ["dd"; "dt"] then Some KDef
  else if String.eqb name "form" then Some KForm
  else if String.eqb name "button" then Some KButton
  else if String.eqb name "a" then Some KAnchor
  else if String.eqb name "nobr" then Some KNobr
  else if mem name ["rb"; "rtc"; "rp"; "rt"] then Some KRuby
  else if mem name ["applet"; "marquee"; "object"] then Some KMarker
  else if String.eqb name "svg" then Some KForeign
  else if String.eqb name "select" then Some KSelect
  else if mem name ["option"; "optgroup"] then Some KOption
  else if mem name void_tags then Some KVoid
  else if String.eqb name "hr" then Some KRule
  else if String.eqb name "textarea" then Some KTextarea
  else if mem name uncovered_tags then None
  else Some KSpan.

(** *** Tokenization *)

Inductive token :=
| TDoctype
| TStart (name : string) (attrs : list (string * string)) (selfClosing : bool)
| TEnd (name : string)
| TChar (c : ascii).

(** Where a character reference stands: after [&] and the letters and
    digits [buf], or after [&#] and possibly an x. *)
Inductive refstate :=
| Named (buf : string)
| Numeric (seen : string).

(** The tokenizer states of the Standard that the model reaches.  The
    states inside a tag carry the tag name and the attributes read so far;
    [Literal] reads a fixed run of characters and then emits a token;
    [Reference] is the character reference states, with the state to return
    to. *)
Inductive tstate :=
| Data
| RawText (name : string) (escapable : bool)
| TagOpen
| EndTagOpen
| TagName (name : string)
| EndTagName (name : string)
| BeforeAttributeName (name : string) (attrs : list (string * string))
| AttributeName (name : string) (attrs : list (string * string)) (aname : string)
| BeforeAttributeValue (name : string) (attrs : list (string * string)) (aname : string)
| AttributeValue (name : string) (attrs : list (string * string)) (aname : string)
    (value : string)
| AfterAttributeValue (name : string) (attrs : list (string * string))
| SelfClosingStartTag (name : string) (attrs : list (string * string))
| Literal (rest : string) (emit : token) (next : tstate)
| Reference (ret : tstate) (r : refstate).

(** An attribute whose name is already present is dropped. *)
Definition add_attribute (attrs : list (string * string)) (aname value : string)
  : list (string * string) :=
  match getAttribute aname attrs with
  | Some _ => attrs
  | None => (attrs ++ [(aname, value)])%list
  end.

(** Emitting a start tag: the tree construction stage switches the
    tokenizer to a raw text state for [title], [textarea] and [style]. *)
Definition emit_start (name : string) (attrs : list (string * string)) (sc : bool)
  : option (tstate * list token) :=
  match kind_of name with
  | Some KTitle | Some KTextarea => Some (RawText name true, [TStart name attrs sc])
  | Some KStyle => Some (RawText name false, [TStart name attrs sc])
  | Some _ => Some (Data, [TStart name attrs sc])
  | None => None
  end.

Definition emit_end (name : string) : option (tstate * list token) :=
  match kind_of name with
  | Some _ => Some (Data, [TEnd name])
  | None => None
  end.

(** The data state. *)
Definition data_step (c : ascii) : option (tstate * list token) :=
  if is_char c 38 then Some (Reference Data (Named ""), [])
  else if is_char c 60 then Some (TagOpen, [])
  else if in_scope c then Some (Data, [TChar c])
  else None.

(** The states other than the character reference states. *)
Definition plain_step (st : tstate) (c : ascii) : option (tstate * list token) :=
  match st with
  | Data => data_step c
  | RawText name escapable =>
      if is_char c 60
      then Some (Literal ("/" ++ name ++ ">") (TEnd name) Data, [])
      else if (escapable && is_char c 38)%bool
      then Some (Reference (RawText name escapable) (Named ""), [])
      else if in_scope c then Some (RawText name escapable, [TChar c])
      else None
  | TagOpen =>
      if is_char c 47 then Some (EndTagOpen, [])
      else if is_char c 33 then Some (Literal "DOCTYPE html>" TDoctype Data, [])
      else if is_alpha c then Some (TagName (String (JS.lower_char c) ""), [])
      else if is_char c 63 then None
      else match data_step c with
           | Some (st', out) => Some (st', TChar "<" :: out)
           | None => None
           end
  | EndTagOpen =>
      if is_alpha c then Some (EndTagName (String (JS.lower_char c) ""), []) else None
  | TagName name =>
      if is_white c then Some (BeforeAttributeName name [], [])
      else if is_char c 47 then Some (SelfClosingStartTag name [], [])
      else if is_char c 62 then emit_start name [] false
      else if in_scope c then Some (TagName (snoc name (JS.lower_char c)), [])
      else None
  | EndTagName name =>
      if is_char c 62 then emit_end name
      else if tag_char c then Some (EndTagName (snoc name (JS.lower_char c)), [])
      else None
  | BeforeAttributeName name attrs =>
      if is_white c then Some (BeforeAttributeName name attrs, [])
      else if is_char c 47 then Some (SelfClosingStartTag name attrs, [])
      else if is_char c 62 then emit_start name attrs false
      else if attr_char c then Some (AttributeName name attrs (String c ""), [])
      else None
  | AttributeName name attrs aname =>
      if is_char c 61 then Some (BeforeAttributeValue name attrs aname, [])
      else if attr_char c then Some (AttributeName name attrs (snoc aname c), [])
      else None
  | BeforeAttributeValue name attrs aname =>
      if is_char c 34 then Some (AttributeValue name attrs aname "", []) else None
  | AttributeValue name attrs aname value =>
      if is_char c 34
      then Some (AfterAttributeValue name (add_attribute attrs aname value), [])
      else if is_char c 38
      then Some (Reference (AttributeValue name attrs aname value) (Named ""), [])
      else if in_scope c then Some (AttributeValue name attrs aname (snoc value c), [])
      else None
  | AfterAttributeValue name attrs =>
      if is_white c then Some (BeforeAttributeName name attrs, [])
      else if is_char c 47 then Some (SelfClosingStartTag name attrs, [])
      else if is_char c 62 then emit_start name attrs false
      else None
  | SelfClosingStartTag name attrs =>
      if is_char c 62 then emit_start name attrs true else None
  | Literal rest emit next =>
      match rest with
      | String r EmptyString =>
          if Ascii.eqb c r then Some (next, [emit]) else None
      | String r rest' =>
          if Ascii.eqb c r then Some (Literal rest' emit next, []) else None
      | EmptyString => None
      end
  | Reference _ _ => None
  end.

Definition in_attribute (ret : tstate) : bool :=
  match ret with AttributeValue _ _ _ _ => true | _ => false end.

(** The characters a reference stands for go where the return state puts
    characters: into the attribute value, or out as character tokens. *)
Definition emit_text (ret : tstate) (s : string) : option (tstate * list token) :=
  match ret with
  | Data | RawText _ _ => Some (ret, map TChar (chars s))
  | AttributeValue name attrs aname value =>
      Some (AttributeValue name attrs aname (value ++ s), [])
  | _ => None
  end.

(** Leaving the character reference states with the text [s], the
    character [c] being read again in the return state. *)
Definition flush (ret : tstate) (s : string) (c : ascii) : option (tstate * list token) :=
  match emit_text ret s with
  | Some (ret', out) =>
      match plain_step ret' c with
      | Some (st, out') => Some (st, (out ++ out')%list)
      | None => None
      end
  | None => None
  end.

Definition step (st : tstate) (c : ascii) : option (tstate * list token) :=
  match st with
  | Reference ret (Named buf) =>
      if is_alnum c then Some (Reference ret (Named (snoc buf c)), [])
      else if (JS.falsy buf && is_char c 35)%bool
      then Some (Reference ret (Numeric "#"), [])
      else match resolve (in_attribute ret) buf c with
           | Some (s, true) => emit_text ret s
           | Some (s, false) => flush ret s c
           | None => None
           end
  | Reference ret (Numeric seen) =>
      if String.eqb seen "#" then
        if is_digit c then None
        else if (is_char c 120 || is_char c 88)%bool
        then Some (Reference ret (Numeric (snoc seen c)), [])
        else flush ret ("&" ++ seen) c
      else
        if is_hex c then None else flush ret ("&" ++ seen) c
  | _ => plain_step st c
  end.

(** Running the tokenizer over a piece of input. *)
Fixpoint scan (st : tstate) (s : string) : option (tstate * list token) :=
  match s with
  | EmptyString => Some (st, [])
  | String c s' =>
      match step st c with
      | Some (st1, out1) =>
          match scan st1 s' with
          | Some (st2, out2) => Some (st2, (out1 ++ out2)%list)
          | None => None
          end
      | None => None
      end
  end.

(** The input must end between tokens. *)
Definition tokenize (s : string) : option (list token) :=
  match scan Data s with
  | Some (Data, out) => Some out
  | _ => None
  end.

(** *** Tree construction *)

(** An open element: its children so far, last one first. *)
Record frame := mkFrame {
  f_name : string;
  f_attrs : list (string * string);
  f_children : list node
}.

Inductive mode :=
| InFragment      (* "in body", the context element being a div *)
| BeforeHead      (* "initial", "before html", "before head" *)
| InHead
| InBody.

(** The stack of open elements, innermost first; its last frame is the
    container: the context element, [head] or [body]. *)
Record builder := mkBuilder {
  b_mode : mode;
  b_head : list node;
  b_stack : list frame
}.

Section Construction.

(** [el.style] as a function of the style attribute: the browser's parser
    of CSS declarations. *)
Variable cssom : string -> css.

Definition make_element (name : string) (attrs : list (string * string))
    (children : list node) : node :=
  Element name attrs
    (match getAttribute "style" attrs with Some v => cssom v | None => [] end)
    children [].

Definition close_frame (f : frame) : node :=
  make_element (f_name f) (f_attrs f) (rev (f_children f)).

(** Inserting a character: it joins a text node that ends the children. *)
Definition insert_char (c : ascii) (children : list node) : list node :=
  match children with
  | TextNode d :: rest => TextNode (snoc d c) :: rest
  | _ => TextNode (String c "") :: children
  end.

Definition add_child (n : node) (f : frame) : frame :=
  {| f_name := f_name f; f_attrs := f_attrs f; f_children := n :: f_children f |}.

Definition with_stack (b : builder) (s : list frame) : builder :=
  {| b_mode := b_mode b; b_head := b_head b; b_stack := s |}.

(** The open elements above the container. *)
Fixpoint open_names (s : list frame) : list string :=
  match s with
  | [] | [_] => []
  | f :: rest => f_name f :: open_names rest
  end.

(** A start tag that opens an element unless one of [closing] is open:
    then the Standard closes elements first, which the model leaves out. *)
Definition open_unless (closing : list string) (name : string)
    (attrs : list (string * string)) (f : frame) (rest : list frame)
  : option (list frame) :=
  if existsb (fun n => mem n (open_names (f :: rest))) closing then None
  else Some (mkFrame name attrs [] :: f :: rest).

(** The elements whose first line feed is dropped. *)
Definition drops_first_lf (name : string) : bool :=
  match kind_of name with
  | Some KPre | Some KTextarea => true
  | _ => false
  end.

(** The elements inside which the model reads text only: what the
    Standard does with a tag there is left out. *)
Definition text_only (name : string) : bool :=
  match kind_of name with
  | Some KForeign | Some KSelect => true
  | _ => false
  end.

(** The elements that have no end tag: the end tag of one is ignored. *)
Definition is_void (name : string) : bool :=
  match kind_of name with
  | Some KMeta | Some KImg | Some KVoid | Some KRule => true
  | _ => false
  end.

(** The rules of "in body" (and of "in head" for the metadata elements),
    for a stack whose innermost frame is [f]. *)
Definition in_container (f : frame) (rest : list frame) (t : token)
  : option (list frame) :=
  match t with
  | TChar c =>
      match f_children f with
      | [] =>
          if (drops_first_lf (f_name f) && is_char c 10)%bool then None
          else Some ({| f_name := f_name f; f_attrs := f_attrs f;
                        f_children := insert_char c (f_children f) |} :: rest)
      | _ =>
          Some ({| f_name := f_name f; f_attrs := f_attrs f;
                   f_children := insert_char c (f_children f) |} :: rest)
      end
  | TStart name attrs selfClosing =>
      if text_only (f_name f) then None
      else
      match kind_of name with
      | Some KMeta | Some KImg | Some KVoid =>
          Some (add_child (make_element name attrs []) f :: rest)
      | Some KRule =>
          if mem "p" (open_names (f :: rest)) then None
          else Some (add_child (make_element name attrs []) f :: rest)
      | Some KForeign =>
          if selfClosing then Some (add_child (make_element name attrs []) f :: rest)
          else Some (mkFrame name attrs [] :: f :: rest)
      | Some KTitle | Some KStyle | Some KTextarea | Some KSpan | Some KMarker
      | Some KSelect =>
          Some (mkFrame name attrs [] :: f :: rest)
      | Some KBlock =>
          if (mem name headings && mem (f_name f) headings)%bool then None
          else open_unless ["p"] name attrs f rest
      | Some KPre => open_unless ["p"] name attrs f rest
      | Some KList => open_unless ["li"; "p"] name attrs f rest
      | Some KDef => open_unless ["dd"; "dt"; "p"] name attrs f rest
      | Some KForm => open_unless ["form"; "p"] name attrs f rest
      | Some KButton => open_unless ["button"] name attrs f rest
      | Some KAnchor => open_unless ["a"] name attrs f rest
      | Some KNobr => open_unless ["nobr"] name attrs f rest
      | Some KRuby => open_unless ["ruby"] name attrs f rest
      | Some KOption => open_unless ["option"] name attrs f rest
      | _ => None
      end
  | TEnd name =>
      if is_void name then Some (f :: rest)
      else
      match rest with
      | parent :: rest' =>
          if String.eqb name (f_name f)
          then Some (add_child (close_frame f) parent :: rest')
          else None
      | [] => None
      end
  | TDoctype => None
  end.

Definition is_skeleton (name : string) : bool :=
  match kind_of name with
  | Some KHtml | Some KHead | Some KBody => true
  | _ => false
  end.

Definition is_metadata (name : string) : bool :=
  match kind_of name with
  | Some KMeta | Some KTitle | Some KStyle => true
  | _ => false
  end.

Definition container (name : string) : frame := mkFrame name [] [].

Definition construct (b : builder) (t : token) : option builder :=
  match b_mode b, b_stack b with
  | InFragment, f :: rest =>
      match t with
      | TDoctype => Some b
      | TStart name _ _ =>
          if is_skeleton name then Some b
          else option_map (with_stack b) (in_container f rest t)
      | TEnd name =>
          if is_skeleton name then Some b
          else option_map (with_stack b) (in_container f rest t)
      | TChar _ => option_map (with_stack b) (in_container f rest t)
      end
  | BeforeHead, [f] =>
      match t with
      | TChar c =>
          if is_white c then Some b
          else option_map (mkBuilder InBody []) (in_container (container "body") [] t)
      | TStart name _ _ =>
          if is_skeleton name then None
          else if is_metadata name
          then option_map (mkBuilder InHead []) (in_container (container "head") [] t)
          else option_map (mkBuilder InBody []) (in_container (container "body") [] t)
      | _ => None
      end
  | InHead, f :: rest =>
      match rest, t with
      | _ :: _, _ => option_map (with_stack b) (in_container f rest t)
      | [], TChar c =>
          if is_white c then option_map (with_stack b) (in_container f rest t)
          else option_map (mkBuilder InBody (rev (f_children f)))
                 (in_container (container "body") [] t)
      | [], TStart name _ _ =>
          if is_skeleton name then None
          else if is_metadata name then option_map (with_stack b) (in_container f rest t)
          else option_map (mkBuilder InBody (rev (f_children f)))
                 (in_container (container "body") [] t)
      | [], _ => None
      end
  | InBody, f :: rest =>
      match t with
      | TDoctype => None
      | TStart name _ _ =>
          if is_skeleton name then None
          else option_map (with_stack b) (in_container f rest t)
      | TEnd name =>
          if is_skeleton name then None
          else option_map (with_stack b) (in_container f rest t)
      | TChar _ => option_map (with_stack b) (in_container f rest t)
      end
  | _, _ => None
  end.

Fixpoint construct_all (b : builder) (ts : list token) : option builder :=
  match ts with
  | [] => Some b
  | t :: rest =>
      match construct b t with
      | Some b' => construct_all b' rest
      | None => None
      end
  end.

(** [temp.innerHTML = html] for a fresh [div]: the children of [temp]. *)
Definition parse_fragment (html : string) : option (list node) :=
  match tokenize html with
  | Some ts =>
      match construct_all (mkBuilder InFragment [] [container ""]) ts with
      | Some b =>
          match b_stack b with
          | [f] => Some (rev (f_children f))
          | _ => None
          end
      | None => None
      end
  | None => None
  end.

Definition document_of (head_children body_children : list node) : html_document :=
  let b := Element "body" [] [] body_children [] in
  {| documentElement :=
       Element "html" [] [] [Element "head" [] [] head_children []; b] [];
     body := b |}.

(** [new DOMParser().parseFromString(html, "text/html")]. *)
Definition parse_document (html : string) : option html_document :=
  match tokenize html with
  | Some ts =>
      match construct_all (mkBuilder BeforeHead [] [container ""]) ts with
      | Some b =>
          match b_mode b, b_stack b with
          | BeforeHead, _ => Some (document_of [] [])
          | InHead, [f] => Some (document_of (rev (f_children f)) [])
          | InBody, [f] => Some (document_of (b_head b) (rev (f_children f)))
          | _, _ => None
          end
      | None => None
      end
  | None => None
  end.

End Construction.

(** *** Serialization *)

(** Escaping a string: [&] and the no-break space always, the quote in an
    attribute value, [<] and [>] in text and, in the browsers that follow
    the Standard as it is since 2025 ([angles]), in an attribute value
    too. *)
Fixpoint escape (attr angles : bool) (s : string) : string :=
  match s with
  | EmptyString => EmptyString
  | String c s' =>
      if is_char c 38 then "&amp;" ++ escape attr angles s'
      else if (is_char c 34 && attr)%bool then "&quot;" ++ escape attr angles s'
      else if (is_char c 60 && (negb attr || angles))%bool
      then "&lt;" ++ escape attr angles s'
      else if (is_char c 62 && (negb attr || angles))%bool
      then "&gt;" ++ escape attr angles s'
      else if is_char c 194 then
        match s' with
        | String c' s'' =>
            if is_char c' 160 then "&nbsp;" ++ escape attr angles s''
            else String c (escape attr angles s')
        | EmptyString => String c EmptyString
        end
      else String c (escape attr angles s')
  end.

Section Serialization.

Variable angles : bool.

Definition serialize_attribute (kv : string * string) : option string :=
  if (all_chars attr_char (fst kv) && negb (JS.falsy (fst kv))
      && all_chars in_scope (snd kv))%bool
  then Some (" " ++ fst kv ++ "=" ++ dq ++ escape true angles (snd kv) ++ dq)
  else None.

Fixpoint serialize_attributes (attrs : list (string * string)) : option string :=
  match attrs with
  | [] => Some ""
  | kv :: rest =>
      match serialize_attribute kv, serialize_attributes rest with
      | Some a, Some b => Some (a ++ b)
      | _, _ => None
      end
  end.

Definition starts_with_lf (l : list node) : bool :=
  match l with
  | TextNode (String c _) :: _ => is_char c 10
  | _ => false
  end.

(** The fragment serialization algorithm, on a node and on the children of
    a node. *)
Fixpoint serialize_node (n : node) : option string :=
  match n with
  | TextNode d => if all_chars in_scope d then Some (escape false angles d) else None
  | CommentNode _ => None
  | Element name attrs _ ch tc =>
      match tc, kind_of name, serialize_attributes attrs with
      | [], Some k, Some a =>
          match k with
          | KHtml | KHead | KBody => None
          | KMeta | KImg | KVoid | KRule =>
              match ch with [] => Some ("<" ++ name ++ a ++ ">") | _ => None end
          | KStyle =>
              match ch with
              | [] => Some ("<" ++ name ++ a ++ "></" ++ name ++ ">")
              | [TextNode d] =>
                  if all_chars in_scope d
                  then Some ("<" ++ name ++ a ++ ">" ++ d ++ "</" ++ name ++ ">")
                  else None
              | _ => None
              end
          | _ =>
              if (drops_first_lf name && starts_with_lf ch)%bool then None
              else
              match (fix go (l : list node) : option string :=
                       match l with
                       | [] => Some ""
                       | c :: l' =>
                           match serialize_node c, go l' with
                           | Some x, Some y => Some (x ++ y)
                           | _, _ => None
                           end
                       end) ch with
              | Some inner => Some ("<" ++ name ++ a ++ ">" ++ inner ++ "</" ++ name ++ ">")
              | None => None
              end
          end
      | _, _, _ => None
      end
  end.

(** [temp.innerHTML] for the children of [temp]. *)
Fixpoint serialize (l : list node) : option string :=
  match l with
  | [] => Some ""
  | c :: l' =>
      match serialize_node c, serialize l' with
      | Some x, Some y => Some (x ++ y)
      | _, _ => None
      end
  end.

End Serialization.

(** *** The browser the model describes *)

Section Model.

Variable cssom : string -> css.
Variable angles : bool.

(** The model, made total: an input the model leaves out gives an empty
    result, and [covered] tells the two apart. *)
Definition innerHTML_set (html : string) : list node :=
  match parse_fragment cssom html with Some l => l | None => [] end.

Definition innerHTML_get (l : list node) : string :=
  match serialize angles l with Some s => s | None => "" end.

Definition parseFromString (html : string) : html_document :=
  match parse_document cssom html with Some d => d | None => document_of [] [] end.

(** Every browser call [parse] makes on [html] is inside the model. *)
Definition covered (html : string) : bool :=
  match parse_fragment cssom html with
  | Some l =>
      match serialize angles (sanitize_nodes l) with
      | Some s =>
          match parse_document cssom s with Some _ => true | None => false end
      | None => false
      end
  | None => false
  end.

End Model.

End Html.

(** ** Further parts of the editor component *)

From Stdlib Require DecimalN.

(** [selectedElement]: [elements.find((el) => el.id === selectedId)]. *)
Definition selectedElement (st : editor) : option element :=
  find (is_selected (selectedId st)) (elements st).

(** ** The keyboard listener

    [handleKey] is registered by an effect whose dependency list is
    [selectedId, isEditingText, historyIndex]: the listener in place is the
    [handleKey] of the last render in which one of the three changed, and
    with it the [deleteElement], [undo] and [redo] of that render, which read
    the [elements], [history] and [historyIndex] of that render.  Their state
    updates apply to the current state.  Below, [seen] is the state of the
    render the listener closes over and [st] the current state. *)

(** [deleteElement] called from the listener. *)
Definition deleteElement_in (confirmed : bool) (seen st : editor) : editor :=
  if no_selection (selectedId seen) then st
  else if confirmed then
    let newElements :=
      filter (fun el => negb (is_selected (selectedId seen) el)) (elements seen) in
    saveHistory seen newElements None
      (set_selectedId None (set_elements newElements st))
  else st.

(** The three updates of [undo] and [redo]: [setElements], [setSelectedId],
    [setHistoryIndex]. *)
Definition restore_in (seen : editor) (i : Z) (st : editor) : outcome :=
  match JS.index (history seen) i with
  | Some state =>
      Done (set_history (history st) i
              (set_selectedId (entry_selectedId state)
                 (set_elements (entry_elements state) st)))
  | None => Throws
  end.

Definition undo_in (seen st : editor) : outcome :=
  if historyIndex seen >? 0 then restore_in seen (historyIndex seen - 1) st else Done st.

Definition redo_in (seen st : editor) : outcome :=
  if historyIndex seen <? Z.of_nat (length (history seen)) - 1
  then restore_in seen (historyIndex seen + 1) st else Done st.

(** A [keydown] event: [e.key], [e.ctrlKey], [e.metaKey], [e.shiftKey]. *)
Record key_event := mkKey {
  key : string;
  ctrlKey : bool;
  metaKey : bool;
  shiftKey : bool
}.

(** [handleKey(e)]; [confirmed] is the answer to the [confirm(...)] of
    [deleteElement]. *)
Definition handleKey (e : key_event) (confirmed : bool) (seen st : editor) : outcome :=
  if isEditingText seen then Done st
  else
    let st1 :=
      if (String.eqb (key e) "Delete" && negb (no_selection (selectedId seen)))%bool
      then deleteElement_in confirmed seen st else st in
    let after_undo :=
      if (String.eqb (key e) "z" && (ctrlKey e || metaKey e) && negb (shiftKey e))%bool
      then undo_in seen st1 else Done st1 in
    match after_undo with
    | Done st2 =>
        if ((String.eqb (key e) "y" && (ctrlKey e || metaKey e))
            || (String.eqb (key e) "z" && (ctrlKey e || metaKey e) && shiftKey e))%bool
        then redo_in seen st2 else Done st2
    | Throws => Throws
    end.

(** The dependencies of the effect, compared as React compares them. *)
Definition same_selection (a b : option string) : bool :=
  match a, b with
  | Some x, Some y => String.eqb x y
  | None, None => true
  | _, _ => false
  end.

Definition same_deps (a b : editor) : bool :=
  (same_selection (selectedId a) (selectedId b)
   && Bool.eqb (isEditingText a) (isEditingText b)
   && (historyIndex a =? historyIndex b))%bool.

(** The state on screen and the state of the render whose [handleKey] is
    the listener in place. *)
Record session := mkSession {
  shown : editor;
  listener : editor
}.

Definition first_render : session := {| shown := initial; listener := initial |}.

(** After a render the effect runs again, and replaces the listener, when a
    dependency changed. *)
Definition rendered (s : session) (st' : editor) : session :=
  {| shown := st';
     listener := if same_deps (shown s) st' then listener s else st' |}.

(** A user event: one of the events of the canvas, the toolbar and the
    property panel, or a key pressed. *)
Inductive input :=
| UI (ev : event)
| KeyDown (e : key_event) (confirmed : bool).

Definition session_step (i : input) (s : session) : option session :=
  match
    match i with
    | UI ev => handle ev (shown s)
    | KeyDown e c => handleKey e c (listener s) (shown s)
    end
  with
  | Done st' => Some (rendered s st')
  | Throws => None
  end.

Fixpoint run_session (ins : list input) (s : session) : option session :=
  match ins with
  | [] => Some s
  | i :: rest =>
      match session_step i s with
      | Some s' => run_session rest s'
      | None => None
      end
  end.

(** ** File reads that complete late

    [handleImport] and [handleImageUpload] start a [FileReader] and return;
    [reader.onload] runs when the read is complete, with the [saveHistory]
    and the [updateProperty] of the render in which the file was chosen.
    Below, [seen] is the state of that render and [st] the state when the
    read completes; the state updates apply to [st]. *)

(** [reader.onload] of [handleImport]; [parsed] is what [HTMLParser.parse]
    makes of the file. *)
Definition import_onload (parsed : Document) (seen st : editor) : editor :=
  saveHistory seen parsed None (set_selectedId None (set_elements parsed st)).

(** [updateProperty(prop, val)] of the render [seen]. *)
Definition updateProperty_in (prop val : string) (seen st : editor) : editor :=
  if no_selection (selectedId seen) then st
  else set_elements (map (update_element (selectedId seen) prop val) (elements seen)) st.

(** [reader.onload] of [handleImageUpload]; [val] is the data URL of the
    file.  ([handleImageUpload] returns at once when nothing is selected.) *)
Definition upload_onload (val : string) (seen st : editor) : editor :=
  updateProperty_in "src" val seen st.

(** ** The mouse listeners

    [handleMove] and [handleUp] are registered on [window] by an effect
    that runs after a render in which [isDragging], [selectedId],
    [dragOffset], [elements] or [saveHistory] changed.  A mouse event that
    arrives before React has rendered the update of the previous one, and
    run the effect, is handled by the listeners of the render before.  Below,
    [seen] is the state of the render the listener in place closes over and
    [st] the current state. *)

Definition handleMove_in (rect : option (Z * Z)) (clientX clientY : Z) (seen st : editor)
  : editor :=
  match rect with
  | Some (rleft, rtop) =>
      if (negb (isDragging seen) || no_selection (selectedId seen))%bool then st
      else
        let x := clamp (clientX - rleft - fst (dragOffset seen)) in
        let y := clamp (clientY - rtop - snd (dragOffset seen)) in
        set_elements (map (move_element (selectedId seen) x y) (elements seen)) st
  | None => st
  end.

Definition handleUp_in (seen st : editor) : editor :=
  if isDragging seen
  then saveHistory seen (elements seen) (selectedId seen) (set_isDragging false st)
  else st.









(** Whole numbers on which the double arithmetic of [handleMouseDown] and
    [handleMove] is exact. *)
Definition exact (z : Z) : Prop := Z.abs z <= 2 ^ 50.


(** * Properties *)

(** ** History *)

Lemma slice0_in_range {A} (e : Z) (a : list A) :
  0 <= e <= Z.of_nat (length a) -> JS.slice0 e a = firstn (Z.to_nat e) a.
Proof.
  intros He. unfold JS.slice0.
  destruct (e <? 0) eqn:Hneg; [apply Z.ltb_lt in Hneg; lia|].
  now rewrite Z.min_l by lia.
Qed.

Lemma index_app_last {A} (a : list A) (x : A) :
  JS.index (a ++ [x]) (Z.of_nat (length a)) = Some x.
Proof.
  unfold JS.index.
  destruct (Z.of_nat (length a) <? 0) eqn:Hneg; [apply Z.ltb_lt in Hneg; lia|].
  rewrite Nat2Z.id, nth_error_app2 by lia.
  now rewrite Nat.sub_diag.
Qed.

Lemma index_in_range {A} (a : list A) (i : Z) :
  0 <= i < Z.of_nat (length a) -> exists x, JS.index a i = Some x.
Proof.
  intros Hi. unfold JS.index.
  destruct (i <? 0) eqn:Hneg; [apply Z.ltb_lt in Hneg; lia|].
  destruct (nth_error a (Z.to_nat i)) eqn:Hn; [eauto|].
  apply nth_error_None in Hn. lia.
Qed.

(** The index stays inside the history. *)
Definition history_ok (st : editor) : Prop :=
  -1 <= historyIndex st < Z.of_nat (length (history st)).

Lemma saveHistory_spec (cur st : editor) (d : Document) (s : option string) :
  history_ok cur ->
  history (saveHistory cur d s st)
    = (firstn (Z.to_nat (historyIndex cur + 1)) (history cur) ++ [mkEntry d s])%list
  /\ historyIndex (saveHistory cur d s st) = historyIndex cur + 1
  /\ JS.index (history (saveHistory cur d s st)) (historyIndex (saveHistory cur d s st))
     = Some (mkEntry d s).
Proof.
  intros [Hlo Hhi]. unfold saveHistory. cbn [history historyIndex set_history].
  rewrite slice0_in_range by lia.
  assert (Hlen : Z.of_nat (length (firstn (Z.to_nat (historyIndex cur + 1)) (history cur)))
                 = historyIndex cur + 1).
  { rewrite length_firstn. lia. }
  repeat split.
  - rewrite length_app. cbn [length]. lia.
  - rewrite length_app. cbn [length].
    replace (Z.of_nat (_ + 1) - 1)
      with (Z.of_nat (length (firstn (Z.to_nat (historyIndex cur + 1)) (history cur))))
      by lia.
    apply index_app_last.
Qed.

Lemma saveHistory_ok (cur st : editor) (d : Document) (s : option string) :
  history_ok cur -> history_ok (saveHistory cur d s st).
Proof.
  intros H. destruct (saveHistory_spec cur st d s H) as (Hh & Hi & _).
  unfold history_ok. rewrite Hi, Hh, length_app, length_firstn. cbn [length].
  destruct H. lia.
Qed.

(** [push(doc, selectedId)] of the history contract: the handler-independent
    part of a command that replaces the document and checkpoints it. *)
Definition push (d : Document) (s : option string) (cur : editor) : editor :=
  saveHistory cur d s (set_selectedId s (set_elements d cur)).

(** C2.  Under the history invariant, a push keeps the entries up to the
    current index, appends the snapshot and points the index at it; undo
    steps back and restores the entry it then points at exactly when the
    index is positive, and otherwise changes nothing; redo steps forward and
    restores that entry exactly when the index is below the last position,
    and otherwise changes nothing.  After pushing A, B, C from the initial
    state, undo restores B, then A, then does nothing; redo restores B, then
    C; and a push of D after undoing back to A leaves the history [A; D], so
    that redo does nothing. *)
Theorem history_contract :
  (forall cur : editor, history_ok cur ->
     (forall d s st,
        history (saveHistory cur d s st)
          = (firstn (Z.to_nat (historyIndex cur + 1)) (history cur) ++ [mkEntry d s])%list
        /\ historyIndex (saveHistory cur d s st) = historyIndex cur + 1
        /\ JS.index (history (saveHistory cur d s st))
                    (historyIndex (saveHistory cur d s st)) = Some (mkEntry d s))
     /\ (historyIndex cur > 0 ->
         exists e st,
           undo cur = Done st
           /\ JS.index (history cur) (historyIndex cur - 1) = Some e
           /\ historyIndex st = historyIndex cur - 1
           /\ history st = history cur
           /\ elements st = entry_elements e
           /\ selectedId st = entry_selectedId e)
     /\ (historyIndex cur <= 0 -> undo cur = Done cur)
     /\ (historyIndex cur < Z.of_nat (length (history cur)) - 1 ->
         exists e st,
           redo cur = Done st
           /\ JS.index (history cur) (historyIndex cur + 1) = Some e
           /\ historyIndex st = historyIndex cur + 1
           /\ history st = history cur
           /\ elements st = entry_elements e
           /\ selectedId st = entry_selectedId e)
     /\ (historyIndex cur >= Z.of_nat (length (history cur)) - 1 -> redo cur = Done cur))
  /\ (forall (A B C D : Document) (sa sb sc sd : option string),
        let s3 := push C sc (push B sb (push A sa initial)) in
        exists u1 u2 r1 r2,
          undo s3 = Done u1 /\ elements u1 = B /\ selectedId u1 = sb
          /\ undo u1 = Done u2 /\ elements u2 = A /\ selectedId u2 = sa
          /\ undo u2 = Done u2
          /\ redo u2 = Done r1 /\ elements r1 = B /\ selectedId r1 = sb
          /\ redo r1 = Done r2 /\ elements r2 = C /\ selectedId r2 = sc
          /\ redo r2 = Done r2
          /\ history (push D sd u2) = [mkEntry A sa; mkEntry D sd]
          /\ historyIndex (push D sd u2) = 1
          /\ redo (push D sd u2) = Done (push D sd u2)).
Proof.
  split.
  - intros cur Hok. split; [|split; [|split; [|split]]].
    + intros d s st. now apply saveHistory_spec.
    + intros Hpos. destruct Hok as [_ Hhi].
      destruct (index_in_range (history cur) (historyIndex cur - 1)) as [e He]; [lia|].
      exists e. eexists. unfold undo, restore.
      destruct (historyIndex cur >? 0) eqn:Hgt; [|rewrite Z.gtb_ltb in Hgt; apply Z.ltb_ge in Hgt; lia].
      rewrite He. repeat split; reflexivity.
    + intros Hle. unfold undo.
      destruct (historyIndex cur >? 0) eqn:Hgt; [|reflexivity].
      rewrite Z.gtb_ltb in Hgt. apply Z.ltb_lt in Hgt. lia.
    + intros Hlt. destruct Hok as [Hlo _].
      destruct (index_in_range (history cur) (historyIndex cur + 1)) as [e He]; [lia|].
      exists e. eexists. unfold redo, restore.
      destruct (historyIndex cur <? Z.of_nat (length (history cur)) - 1) eqn:Hb;
        [|apply Z.ltb_ge in Hb; lia].
      rewrite He. repeat split; reflexivity.
    + intros Hge. unfold redo.
      destruct (historyIndex cur <? Z.of_nat (length (history cur)) - 1) eqn:Hb;
        [|reflexivity].
      apply Z.ltb_lt in Hb. lia.
  - intros A B C D sa sb sc sd s3.
    do 4 eexists. subst s3. cbv.
    repeat (split; [reflexivity|]). reflexivity.
Qed.

Lemma history_contract_witness :
  history_ok (push [] None initial)
  /\ undo (push [] None initial) = Done (push [] None initial).
Proof.
  assert (Hok : history_ok (push [] None initial)) by (cbv; split; congruence).
  split; [exact Hok|].
  destruct history_contract as [H _].
  destruct (H _ Hok) as (_ & _ & Hundo & _).
  apply Hundo. cbv. congruence.
Defined.

(** ** Commands on the selected element *)

Lemma no_selection_some (sel : string) :
  sel <> "" -> no_selection (Some sel) = false.
Proof. destruct sel; [congruence | reflexivity]. Qed.

Lemma filter_none {A} (f : A -> bool) (l : list A) :
  (forall x, In x l -> f x = true) -> filter f l = l.
Proof.
  induction l as [|a l IH]; intros H; cbn; [reflexivity|].
  rewrite (H a (or_introl eq_refl)). f_equal. apply IH. intros x Hx. apply H. now right.
Qed.

Lemma map_none {A} (f : A -> A) (l : list A) :
  (forall x, In x l -> f x = x) -> map f l = l.
Proof.
  induction l as [|a l IH]; intros H; cbn; [reflexivity|].
  rewrite (H a (or_introl eq_refl)). f_equal. apply IH. intros x Hx. apply H. now right.
Qed.

Lemma set_elements_same (st : editor) : set_elements (elements st) st = st.
Proof. now destruct st. Qed.

(** C8 as it is stated: whenever the selected id is the id of an element
    of the document, a confirmed [deleteElement] leaves the document without
    exactly that element and clears the selection. *)
Definition delete_removes_exactly_one : Prop :=
  forall (cur : editor) (sel : string) (before after : Document) (el : element),
    selectedId cur = Some sel ->
    elements cur = (before ++ el :: after)%list ->
    id el = sel ->
    elements (deleteElement true cur) = (before ++ after)%list
    /\ selectedId (deleteElement true cur) = None.

(** The state after two text elements were added in the same millisecond:
    both have the id text-7, which is selected. *)
Definition twin_editor : editor := addElement text 7 (addElement text 7 initial).

(** C8, counterexample: in the state two additions in one millisecond lead
    to, the selected id is the id of an element, and a confirmed
    [deleteElement] removes both elements, not exactly one. *)
Lemma deleteElement_removes_twins :
  run [AddElement text 7; AddElement text 7] initial = Done twin_editor
  /\ selectedId twin_editor = Some "text-7"
  /\ elements twin_editor = [newElement text 7; newElement text 7]
  /\ elements (deleteElement true twin_editor) = []
  /\ ~ delete_removes_exactly_one.
Proof.
  repeat split; try reflexivity.
  intros H.
  destruct (H twin_editor "text-7" [] [newElement text 7] (newElement text 7)
              eq_refl eq_refl eq_refl) as [Hel _].
  discriminate Hel.
Qed.

(** C8, amended.  With a selected id that is not empty, a confirmed
    [deleteElement] leaves the document without the elements that have that
    id, the others in their order, and the state it returns has no
    selection; when exactly one element has the id, the document is left
    without exactly that element. *)
Theorem deleteElement_removes_selected :
  forall (cur : editor) (sel : string),
    selectedId cur = Some sel ->
    sel <> "" ->
    elements (deleteElement true cur)
    = filter (fun x => negb (String.eqb (id x) sel)) (elements cur)
    /\ selectedId (deleteElement true cur) = None
    /\ forall (before after : Document) (el : element),
         elements cur = (before ++ el :: after)%list ->
         id el = sel ->
         (forall x, In x (before ++ after) -> id x <> sel) ->
         elements (deleteElement true cur) = (before ++ after)%list.
Proof.
  intros cur sel Hsel Hne.
  assert (Hel : elements (deleteElement true cur)
                = filter (fun x => negb (String.eqb (id x) sel)) (elements cur)).
  { unfold deleteElement. rewrite Hsel, (no_selection_some sel Hne). reflexivity. }
  split; [exact Hel|]. split.
  { unfold deleteElement. rewrite Hsel, (no_selection_some sel Hne). reflexivity. }
  intros before after el Hels Hid Hothers.
  rewrite Hel, Hels, filter_app. cbn [filter].
  rewrite Hid, String.eqb_refl. cbn [negb].
  rewrite <- filter_app. apply filter_none.
  intros x Hx. apply Hothers in Hx. apply String.eqb_neq in Hx.
  now rewrite Hx.
Qed.

Definition sample_text (i c : string) : element :=
  {| id := i; type := text; tagName := "p"; content := Some c; src := None;
     alt := None; style := [("position", "absolute")] |}.

Definition sample_editor : editor :=
  set_selectedId (Some "b")
    (set_elements [sample_text "a" "one"; sample_text "b" "two"; sample_text "c" "three"]
       initial).

Lemma deleteElement_removes_selected_witness :
  elements (deleteElement true sample_editor)
    = [sample_text "a" "one"; sample_text "c" "three"]
  /\ selectedId (deleteElement true sample_editor) = None.
Proof.
  destruct (deleteElement_removes_selected sample_editor "b" eq_refl) as (_ & Hs & H);
    [discriminate|].
  split; [|exact Hs].
  apply (H [sample_text "a" "one"] [sample_text "c" "three"] (sample_text "b" "two")).
  - reflexivity.
  - reflexivity.
  - intros x [Hx | [Hx | []]]; subst x; discriminate.
Defined.

(** A selected id that is the id of no element of the document. *)
Definition dangling (cur : editor) : Prop :=
  exists sel, selectedId cur = Some sel /\ forall x, In x (elements cur) -> id x <> sel.

(** C9 as it is stated. *)
Definition missing_target_is_noop : Prop :=
  forall cur : editor,
    selectedId cur = None \/ dangling cur ->
    (forall confirmed, deleteElement confirmed cur = cur)
    /\ (forall prop val, updateProperty prop val cur = cur).

Definition ghost_editor : editor := set_selectedId (Some "ghost") initial.

(** C9, counterexample: with an empty document and the selected id "ghost",
    a confirmed [deleteElement] clears the selection and pushes a history
    entry. *)
Lemma deleteElement_dangling_not_noop :
  dangling ghost_editor
  /\ selectedId (deleteElement true ghost_editor) = None
  /\ history (deleteElement true ghost_editor) = [mkEntry [] None]
  /\ historyIndex (deleteElement true ghost_editor) = 0
  /\ ~ missing_target_is_noop.
Proof.
  assert (Hd : dangling ghost_editor).
  { exists "ghost". split; [reflexivity|]. intros x []. }
  repeat split; try reflexivity; [exact Hd|].
  intros H. destruct (H ghost_editor (or_intror Hd)) as [Hdel _].
  specialize (Hdel true). discriminate Hdel.
Qed.

Lemma update_element_other (sel : option string) (prop val : string) (el : element) :
  is_selected sel el = false -> update_element sel prop val el = el.
Proof. intros H. unfold update_element. now rewrite H. Qed.

Lemma dangling_not_selected (cur : editor) :
  dangling cur -> forall x, In x (elements cur) -> is_selected (selectedId cur) x = false.
Proof.
  intros (sel & Hsel & Hno) x Hx. rewrite Hsel. cbn.
  apply String.eqb_neq. now apply Hno.
Qed.

(** C9, amended.  With no selection ([null] or the empty string) both
    commands return the state unchanged, and so does a [deleteElement] the
    user declines; with a selected id that matches no element,
    [updateProperty] returns the state unchanged, and a confirmed
    [deleteElement] leaves the document unchanged. *)
Theorem missing_target_amended :
  forall cur : editor,
    (no_selection (selectedId cur) = true ->
       (forall confirmed, deleteElement confirmed cur = cur)
       /\ (forall prop val, updateProperty prop val cur = cur))
    /\ deleteElement false cur = cur
    /\ (dangling cur ->
          (forall prop val, updateProperty prop val cur = cur)
          /\ elements (deleteElement true cur) = elements cur).
Proof.
  intros cur. split; [|split].
  - intros Hno. split; intros; [unfold deleteElement | unfold updateProperty];
      now rewrite Hno.
  - unfold deleteElement. now destruct (no_selection (selectedId cur)).
  - intros Hd. pose proof (dangling_not_selected cur Hd) as Hns. split.
    + intros prop val. unfold updateProperty.
      destruct (no_selection (selectedId cur)); [reflexivity|].
      rewrite map_none; [apply set_elements_same|].
      intros x Hx. apply update_element_other. now apply Hns.
    + unfold deleteElement.
      destruct (no_selection (selectedId cur)); [reflexivity|].
      unfold saveHistory. cbn [elements set_history set_selectedId set_elements].
      apply filter_none. intros x Hx. now rewrite (Hns x Hx).
Qed.

Lemma missing_target_amended_witness :
  (forall prop val, updateProperty prop val ghost_editor = ghost_editor)
  /\ elements (deleteElement true ghost_editor) = elements ghost_editor.
Proof.
  destruct (missing_target_amended ghost_editor) as (_ & _ & H).
  apply H. exists "ghost". split; [reflexivity|]. intros x [].
Defined.

Lemma style_get_set_same (k v : string) (s : style_map) :
  style_get k (style_set k v s) = Some v.
Proof.
  induction s as [|[k' v'] s IH]; cbn.
  - now rewrite String.eqb_refl.
  - destruct (String.eqb k' k) eqn:E; cbn; now rewrite E.
Qed.

Lemma style_get_set_other (k k2 v : string) (s : style_map) :
  k2 <> k -> style_get k2 (style_set k v s) = style_get k2 s.
Proof.
  intros Hne. induction s as [|[k' v'] s IH]; cbn.
  - destruct (String.eqb k k2) eqn:E; [apply String.eqb_eq in E; congruence | reflexivity].
  - destruct (String.eqb k' k) eqn:E; cbn.
    + apply String.eqb_eq in E. subst k'.
      destruct (String.eqb k k2) eqn:E2; [|reflexivity].
      apply String.eqb_eq in E2. congruence.
    + destruct (String.eqb k' k2); [reflexivity | exact IH].
Qed.

(** What [updateProperty] may change in the element it is applied to. *)
Definition updated (prop val : string) (el el' : element) : Prop :=
  id el' = id el /\ type el' = type el /\ tagName el' = tagName el
  /\ (prop = "content" ->
        content el' = Some val /\ src el' = src el /\ alt el' = alt el
        /\ style el' = style el)
  /\ (prop = "src" ->
        src el' = Some val /\ content el' = content el /\ alt el' = alt el
        /\ style el' = style el)
  /\ (prop = "alt" ->
        alt el' = Some val /\ content el' = content el /\ src el' = src el
        /\ style el' = style el)
  /\ (prop <> "content" -> prop <> "src" -> prop <> "alt" ->
        content el' = content el /\ src el' = src el /\ alt el' = alt el
        /\ style_get prop (style el') = Some val
        /\ forall k, k <> prop -> style_get k (style el') = style_get k (style el)).

Lemma update_element_selected (sel prop val : string) (el : element) :
  id el = sel -> updated prop val el (update_element (Some sel) prop val el).
Proof.
  intros Hid. unfold update_element, is_selected. rewrite Hid, String.eqb_refl.
  unfold updated, is_top_level.
  destruct (String.eqb prop "content") eqn:Ec; [apply String.eqb_eq in Ec; subst prop|];
    [cbn; repeat split; try reflexivity; try congruence|].
  destruct (String.eqb prop "src") eqn:Es; [apply String.eqb_eq in Es; subst prop|];
    [cbn; repeat split; try reflexivity; try congruence|].
  destruct (String.eqb prop "alt") eqn:Ea; [apply String.eqb_eq in Ea; subst prop|];
    [cbn; repeat split; try reflexivity; try congruence|].
  apply String.eqb_neq in Ec, Es, Ea.
  cbn. repeat split; try reflexivity; try congruence.
  - apply style_get_set_same.
  - intros k Hk. now apply style_get_set_other.
Qed.

(** C10 as it is stated: whenever the selected id is the id of an element
    of the document, [updateProperty] changes one element and leaves every
    other element of the document as it is. *)
Definition update_changes_one_element : Prop :=
  forall (cur : editor) (sel prop val : string),
    selectedId cur = Some sel ->
    (exists e, In e (elements cur) /\ id e = sel) ->
    exists (before after : Document) (el el' : element),
      elements cur = (before ++ el :: after)%list
      /\ id el = sel
      /\ elements (updateProperty prop val cur) = (before ++ el' :: after)%list.

(** C10, counterexample: in the state two additions in one millisecond lead
    to, setting the colour changes both elements, while [selectedElement] is
    the first of them. *)
Lemma updateProperty_changes_twins :
  selectedId twin_editor = Some "text-7"
  /\ selectedElement twin_editor = Some (newElement text 7)
  /\ elements twin_editor = [newElement text 7; newElement text 7]
  /\ map (fun e => style_get "color" (style e))
       (elements (updateProperty "color" "#ff0000" twin_editor))
     = [Some "#ff0000"; Some "#ff0000"]
  /\ ~ update_changes_one_element.
Proof.
  repeat split; try reflexivity.
  intros H.
  destruct (H twin_editor "text-7" "color" "#ff0000" eq_refl)
    as (before & after & el & el' & Hcur & _ & Hnew).
  { exists (newElement text 7). split; [now left | reflexivity]. }
  destruct before as [|b [|b2 before]].
  - cbn in Hcur, Hnew. injection Hcur as _ Hafter. subst after. discriminate Hnew.
  - cbn in Hcur, Hnew. injection Hcur as Hb _ _. subst b. discriminate Hnew.
  - cbn in Hcur. injection Hcur as _ _ Hrest. destruct before; discriminate Hrest.
Qed.

(** C10, amended.  With a non-empty selected id, [updateProperty] keeps
    the length of the document; at every position, an element with another
    id is unchanged, and an element with the selected id (every one of them,
    when several elements share it) keeps its id, type and
    tagName and gets [val] in the top-level field [prop] when [prop] is
    content, src or alt (style and the other two fields unchanged), and
    otherwise gets [val] under the key [prop] of its style (every other
    style key and the three top-level fields unchanged); the selection, the
    history and the history index are unchanged. *)
Theorem updateProperty_frame :
  forall (cur : editor) (sel prop val : string),
    selectedId cur = Some sel ->
    sel <> "" ->
    let st := updateProperty prop val cur in
    selectedId st = selectedId cur
    /\ history st = history cur
    /\ historyIndex st = historyIndex cur
    /\ length (elements st) = length (elements cur)
    /\ forall (i : nat) (el : element),
         nth_error (elements cur) i = Some el ->
         exists el',
           nth_error (elements st) i = Some el'
           /\ (id el <> sel -> el' = el)
           /\ (id el = sel -> updated prop val el el').
Proof.
  intros cur sel prop val Hsel Hne st. subst st.
  unfold updateProperty. rewrite Hsel, (no_selection_some sel Hne).
  cbn [elements selectedId history historyIndex set_elements].
  repeat split; try reflexivity; try exact Hsel.
  - apply length_map.
  - intros i el Hi. exists (update_element (Some sel) prop val el).
    split; [now rewrite nth_error_map, Hi|]. split.
    + intros Hid. apply update_element_other. cbn. now apply String.eqb_neq.
    + intros Hid. now apply update_element_selected.
Qed.

Lemma updateProperty_frame_witness :
  history (updateProperty "color" "#ff0000" sample_editor) = history sample_editor
  /\ exists el',
       nth_error (elements (updateProperty "color" "#ff0000" sample_editor)) 1 = Some el'
       /\ style_get "color" (style el') = Some "#ff0000"
       /\ style_get "position" (style el') = Some "absolute".
Proof.
  destruct (updateProperty_frame sample_editor "b" "color" "#ff0000" eq_refl)
    as (_ & Hh & _ & _ & Hel); [discriminate|].
  split; [exact Hh|].
  destruct (Hel 1%nat (sample_text "b" "two") eq_refl) as (el' & Hn & _ & Hu).
  exists el'. split; [exact Hn|].
  destruct (Hu eq_refl) as (_ & _ & _ & _ & _ & _ & Hstyle).
  destruct Hstyle as (_ & _ & _ & Hv & Hk); try discriminate.
  split; [exact Hv|]. rewrite Hk by discriminate. reflexivity.
Defined.

(** ** Handlers never throw *)

Lemma updateProperty_history (prop val : string) (cur : editor) :
  history (updateProperty prop val cur) = history cur
  /\ historyIndex (updateProperty prop val cur) = historyIndex cur.
Proof. unfold updateProperty. now destruct (no_selection (selectedId cur)). Qed.

Lemma restore_total (cur : editor) (i : Z) :
  history_ok cur -> 0 <= i < Z.of_nat (length (history cur)) ->
  exists st, restore cur i = Done st /\ history_ok st.
Proof.
  intros Hok Hi. unfold restore.
  destruct (index_in_range (history cur) i Hi) as [e ->].
  eexists. split; [reflexivity|]. unfold history_ok. cbn. lia.
Qed.

(** From a state whose index is inside the history, every handler
    completes, in a state whose index is inside the history. *)
Lemma handle_total (ev : event) (cur : editor) :
  history_ok cur -> exists st, handle ev cur = Done st /\ history_ok st.
Proof.
  intros Hok. destruct ev; cbn [handle];
    try (eexists; split; [reflexivity|]).
  - now apply saveHistory_ok.
  - now apply saveHistory_ok.
  - unfold deleteElement. destruct (no_selection (selectedId cur)); [exact Hok|].
    destruct confirmed; [now apply saveHistory_ok | exact Hok].
  - unfold history_ok. destruct (updateProperty_history prop val cur) as [-> ->].
    exact Hok.
  - unfold handleMouseDown. destruct (isEditingText cur); [exact Hok|].
    destruct (find_element i (elements cur)); exact Hok.
  - unfold handleMove. destruct rect as [[rl rt]|]; [|exact Hok].
    destruct (negb (isDragging cur) || no_selection (selectedId cur))%bool; exact Hok.
  - unfold handleUp. destruct (isDragging cur); [now apply saveHistory_ok | exact Hok].
  - unfold handleDoubleClick. destruct (find_element i (elements cur)); [|exact Hok].
    destruct (el_type_eqb (type e) text); exact Hok.
  - unfold handleTextBlur. destruct innerText; [|exact Hok].
    destruct (isEditingText cur && negb (no_selection (selectedId cur)))%bool;
      [now apply saveHistory_ok | exact Hok].
  - exact Hok.
  - unfold undo. destruct (historyIndex cur >? 0) eqn:Hgt.
    + rewrite Z.gtb_ltb in Hgt. apply Z.ltb_lt in Hgt.
      apply restore_total; [exact Hok|]. destruct Hok. lia.
    + eauto.
  - unfold redo.
    destruct (historyIndex cur <? Z.of_nat (length (history cur)) - 1) eqn:Hlt.
    + apply Z.ltb_lt in Hlt. apply restore_total; [exact Hok|]. destruct Hok. lia.
    + eauto.
Qed.

Lemma run_total (evs : list event) (cur : editor) :
  history_ok cur -> exists st, run evs cur = Done st /\ history_ok st.
Proof.
  revert cur. induction evs as [|ev evs IH]; intros cur Hok; cbn [run].
  - eauto.
  - destruct (handle_total ev cur Hok) as (st & -> & Hok'). now apply IH.
Qed.

(** ** Parsing one element *)

Definition position_of (el : element) : option string := style_get "position" (style el).

Lemma style_get_set_position (k v : string) (s : style_map) :
  k <> "position" -> style_get "position" (style_set k v s) = style_get "position" s.
Proof. intros H. apply style_get_set_other. congruence. Qed.

(** The position [parseNode] stores: the first non-empty one of the inline
    value, the computed value and ["absolute"]. *)
Lemma parseNode_position (computed : css) (now : N) (el : node) (i : nat) :
  position_of (parseNode computed now el i)
  = Some (JS.or_else (css_get (inlineStyle_of el) "position")
            (JS.or_else (css_get computed "position") "absolute")).
Proof.
  unfold position_of, parseNode.
  destruct (String.eqb (tagName_of el) "IMG"); cbn [style].
  - rewrite !style_get_set_position by discriminate.
    destruct (JS.falsy (css_get (inlineStyle_of el) "background"));
      destruct (JS.falsy (css_get (inlineStyle_of el) "height"));
      destruct (JS.falsy (css_get (inlineStyle_of el) "width"));
      rewrite ?style_get_set_position by discriminate; reflexivity.
  - destruct (JS.falsy (css_get (inlineStyle_of el) "background"));
      destruct (JS.falsy (css_get (inlineStyle_of el) "height"));
      destruct (JS.falsy (css_get (inlineStyle_of el) "width"));
      rewrite ?style_get_set_position by discriminate; reflexivity.
Qed.

Lemma parse_children_nth (computed : nat -> node -> css) (clock : nat -> N)
    (l : list node) (i0 k : nat) (e : element) :
  nth_error (parse_children computed clock i0 l) k = Some e ->
  exists c, nth_error l k = Some c
            /\ e = parseNode (computed (i0 + k)%nat c) (clock (i0 + k)%nat) c (i0 + k)%nat.
Proof.
  revert i0 k. induction l as [|c l IH]; intros i0 k H; cbn in H.
  - destruct k; discriminate.
  - destruct k as [|k]; cbn in H.
    + injection H as <-. exists c. rewrite Nat.add_0_r. now split.
    + apply IH in H. destruct H as (c' & Hc & He). exists c'.
      replace (i0 + S k)%nat with (S i0 + k)%nat by lia. now split.
Qed.

Lemma parse_children_length (computed : nat -> node -> css) (clock : nat -> N)
    (l : list node) (i0 : nat) :
  length (parse_children computed clock i0 l) = length l.
Proof. revert i0. induction l; intros; cbn; [reflexivity | now rewrite IHl]. Qed.

(** C4 as it is stated for [parse], over the modelled browser: whatever
    the markup, every parsed element is absolutely positioned. *)
Definition parse_always_absolute : Prop :=
  forall (cssom : string -> css) (angles : bool)
         (computed : html_document -> nat -> node -> css)
         (clock : nat -> N) (html : string) (el : element),
    Html.covered cssom angles html = true ->
    In el (parse (Html.innerHTML_set cssom) (Html.innerHTML_get angles)
             (Html.parseFromString cssom) computed clock html) ->
    position_of el = Some "absolute".

(** A poster whose only child is a paragraph positioned relatively. *)
Definition relative_markup : string :=
  "<div class=" ++ dq ++ "poster" ++ dq ++ "><p style=" ++ dq
    ++ "position: relative" ++ dq ++ ">Hi</p></div>".

(** The declarations the browser reads from that style attribute. *)
Definition relative_cssom (v : string) : css :=
  if String.eqb v "position: relative" then [("position", "relative")] else [].

(** The element the browser builds for the paragraph. *)
Definition relative_p : node :=
  Element "p" [("style", "position: relative")] [("position", "relative")]
    [TextNode "Hi"] [].

(** C4, counterexample: a child whose inline position is relative is parsed
    into an element whose position is relative. *)
Lemma parse_keeps_inline_position :
  position_of (parseNode [] 0 relative_p 0) = Some "relative"
  /\ Html.covered relative_cssom true relative_markup = true
  /\ map position_of
       (parse (Html.innerHTML_set relative_cssom) (Html.innerHTML_get true)
          (Html.parseFromString relative_cssom) (fun _ _ _ => []) (fun _ => 0%N)
          relative_markup)
     = [Some "relative"]
  /\ ~ parse_always_absolute.
Proof.
  assert (Hparsed :
    parse (Html.innerHTML_set relative_cssom) (Html.innerHTML_get true)
      (Html.parseFromString relative_cssom) (fun _ _ _ => []) (fun _ => 0%N)
      relative_markup
    = [parseNode [] 0 relative_p 0]) by (vm_compute; reflexivity).
  split; [reflexivity|]. split; [vm_compute; reflexivity|].
  split; [now rewrite Hparsed|].
  intros H.
  specialize (H relative_cssom true (fun _ _ _ => []) (fun _ => 0%N) relative_markup
                (parseNode [] 0 relative_p 0)).
  rewrite Hparsed in H.
  specialize (H ltac:(vm_compute; reflexivity) (or_introl eq_refl)).
  discriminate H.
Qed.

(** Every element of the document and of every history snapshot is
    absolutely positioned. *)
Definition all_absolute (d : Document) : Prop :=
  Forall (fun el => position_of el = Some "absolute") d.

Definition absolute_state (st : editor) : Prop :=
  all_absolute (elements st)
  /\ Forall (fun e => all_absolute (entry_elements e)) (history st).

(** The events that can bring in another position: loading a document and
    writing the position property itself. *)
Definition keeps_position (ev : event) : Prop :=
  match ev with
  | Load parsed => all_absolute parsed
  | UpdateProperty prop _ => prop <> "position"
  | _ => True
  end.

Lemma Forall_firstn {A} (P : A -> Prop) (n : nat) (l : list A) :
  Forall P l -> Forall P (firstn n l).
Proof.
  intros H. revert n. induction H; intros [|n]; cbn; constructor; auto.
Qed.

Lemma Forall_slice0 {A} (P : A -> Prop) (e : Z) (l : list A) :
  Forall P l -> Forall P (JS.slice0 e l).
Proof. intros H. unfold JS.slice0. now apply Forall_firstn. Qed.

Lemma Forall_filter {A} (P : A -> Prop) (f : A -> bool) (l : list A) :
  Forall P l -> Forall P (filter f l).
Proof.
  intros H. induction H; cbn; [constructor|].
  destruct (f x); [constructor|]; auto.
Qed.

Lemma Forall_map_same {A} (P : A -> Prop) (f : A -> A) (l : list A) :
  (forall x, P x -> P (f x)) -> Forall P l -> Forall P (map f l).
Proof. intros Hf H. induction H; cbn; constructor; auto. Qed.

Lemma Forall_index {A} (P : A -> Prop) (l : list A) (i : Z) (x : A) :
  Forall P l -> JS.index l i = Some x -> P x.
Proof.
  intros H Hi. unfold JS.index in Hi. destruct (i <? 0); [discriminate|].
  apply nth_error_In in Hi. rewrite Forall_forall in H. now apply H.
Qed.

Lemma saveHistory_absolute (cur st : editor) (d : Document) (s : option string) :
  Forall (fun e => all_absolute (entry_elements e)) (history cur) ->
  all_absolute d -> all_absolute (elements st) ->
  absolute_state (saveHistory cur d s st).
Proof.
  intros Hh Hd Hst. split; [exact Hst|].
  unfold saveHistory. cbn [history set_history].
  apply Forall_app. split; [now apply Forall_slice0|].
  constructor; [exact Hd | constructor].
Qed.

Lemma newElement_position (ty : el_type) (now : N) :
  position_of (newElement ty now) = Some "absolute".
Proof. destruct ty; reflexivity. Qed.

Lemma update_element_position (sel : option string) (prop val : string) (el : element) :
  prop <> "position" ->
  position_of (update_element sel prop val el) = position_of el.
Proof.
  intros Hp. unfold update_element.
  destruct (is_selected sel el); [|reflexivity].
  destruct (is_top_level prop); [reflexivity|].
  unfold position_of. cbn [style with_style]. now apply style_get_set_position.
Qed.

Lemma move_element_position (sel : option string) (x y : Z) (el : element) :
  position_of (move_element sel x y el) = position_of el.
Proof.
  unfold move_element. destruct (is_selected sel el); [|reflexivity].
  unfold position_of. cbn [style with_style].
  now rewrite !style_get_set_position by discriminate.
Qed.

Lemma updateProperty_absolute (prop val : string) (cur : editor) :
  prop <> "position" -> all_absolute (elements cur) ->
  all_absolute (elements (updateProperty prop val cur)).
Proof.
  intros Hp H. unfold updateProperty.
  destruct (no_selection (selectedId cur)); [exact H|].
  cbn [elements set_elements]. apply Forall_map_same; [|exact H].
  intros x Hx. now rewrite update_element_position.
Qed.

Lemma restore_absolute (cur st : editor) (i : Z) :
  absolute_state cur -> restore cur i = Done st -> absolute_state st.
Proof.
  intros [He Hh] H. unfold restore in H.
  destruct (JS.index (history cur) i) as [e|] eqn:Hi; [|discriminate].
  injection H as <-. split; [|exact Hh].
  cbn [elements set_history set_selectedId set_elements].
  exact (Forall_index _ _ _ _ Hh Hi).
Qed.

Lemma handle_absolute (ev : event) (cur st : editor) :
  absolute_state cur -> keeps_position ev -> handle ev cur = Done st ->
  absolute_state st.
Proof.
  intros Habs Hev H. pose proof Habs as [He Hh].
  destruct ev; cbn in H, Hev;
    try (injection H as <-).
  - apply saveHistory_absolute; assumption.
  - unfold addElement. apply saveHistory_absolute; try assumption;
      cbn [elements set_selectedId set_elements];
      (apply Forall_app; split; [assumption|]);
      (constructor; [apply newElement_position | constructor]).
  - unfold deleteElement.
    destruct (no_selection (selectedId cur)); [assumption|].
    destruct confirmed; [|assumption].
    apply saveHistory_absolute; try assumption;
      cbn [elements set_selectedId set_elements]; now apply Forall_filter.
  - split; [now apply updateProperty_absolute|].
    unfold updateProperty. now destruct (no_selection (selectedId cur)).
  - unfold handleMouseDown. destruct (isEditingText cur); [assumption|].
    destruct (find_element i (elements cur)); split; assumption.
  - unfold handleMove. destruct rect as [[rl rt]|]; [|assumption].
    destruct (negb (isDragging cur) || no_selection (selectedId cur))%bool;
      [assumption|].
    split; [|assumption]. cbn [elements set_elements].
    apply Forall_map_same; [|assumption].
    intros x Hx. now rewrite move_element_position.
  - unfold handleUp. destruct (isDragging cur); [|assumption].
    apply saveHistory_absolute; assumption.
  - unfold handleDoubleClick. destruct (find_element i (elements cur)); [|assumption].
    destruct (el_type_eqb (type e) text); [split|]; assumption.
  - unfold handleTextBlur. destruct innerText as [t|]; [|assumption].
    destruct (isEditingText cur && negb (no_selection (selectedId cur)))%bool;
      [|assumption].
    apply saveHistory_absolute; try assumption.
    cbn [elements set_isEditingText].
    apply updateProperty_absolute; [discriminate | assumption].
  - split; assumption.
  - unfold undo in H. destruct (historyIndex cur >? 0).
    + exact (restore_absolute cur st _ Habs H).
    + now injection H as <-.
  - unfold redo in H. destruct (historyIndex cur <? Z.of_nat (length (history cur)) - 1).
    + exact (restore_absolute cur st _ Habs H).
    + now injection H as <-.
Qed.

(** C4, amended.  [parse] gives every element the first non-empty one of
    the inline position of its source element, the computed position and
    ["absolute"]; [addElement] creates elements whose position is
    ["absolute"]; and from the initial state, every run of events in which
    each loaded document is absolutely positioned and no [updateProperty]
    writes the position property ends in a state whose document and history
    snapshots are absolutely positioned throughout. *)
Theorem position_amended :
  (forall innerHTML_set innerHTML_get parseFromString getComputedStyle clock html,
     let doc := parseFromString (sanitize innerHTML_set innerHTML_get html) in
     let parsed := parse innerHTML_set innerHTML_get parseFromString
                     getComputedStyle clock html in
     length parsed = length (children_of (poster_of doc))
     /\ forall k el, nth_error parsed k = Some el ->
          exists c, nth_error (children_of (poster_of doc)) k = Some c
            /\ position_of el
               = Some (JS.or_else (css_get (inlineStyle_of c) "position")
                         (JS.or_else (css_get (getComputedStyle doc k c) "position")
                            "absolute")))
  /\ (forall ty now, position_of (newElement ty now) = Some "absolute")
  /\ (forall evs,
        Forall keeps_position evs ->
        exists st, run evs initial = Done st /\ absolute_state st).
Proof.
  split; [|split].
  - intros ? ? ? ? ? html doc parsed. split.
    + apply parse_children_length.
    + intros k el Hk. apply parse_children_nth in Hk.
      destruct Hk as (c & Hc & ->). exists c. split; [exact Hc|].
      apply parseNode_position.
  - apply newElement_position.
  - intros evs Hevs.
    assert (Hinit : absolute_state initial /\ history_ok initial)
      by (split; [split; constructor | cbv; split; congruence]).
    revert Hinit. generalize initial as cur.
    induction Hevs as [|ev evs Hev Hevs IH]; intros cur [Hcur Hok]; cbn [run].
    + exists cur. now split.
    + destruct (handle_total ev cur Hok) as (st1 & Hst1 & Hok1). rewrite Hst1.
      apply IH. split; [|exact Hok1].
      now apply (handle_absolute ev cur).
Qed.

Lemma position_amended_witness :
  exists st,
    run [AddElement text 7; UpdateProperty "color" "#ff0000"] initial = Done st
    /\ absolute_state st.
Proof.
  destruct position_amended as (_ & _ & H).
  apply (H [AddElement text 7; UpdateProperty "color" "#ff0000"]).
  repeat constructor. discriminate.
Defined.

(** The ids the program synthesizes are never the empty string, which is
    the one string a handler takes for a missing selection. *)
Lemma synthesized_ids (computed : css) (now : N) (el : node) (i : nat) (ty : el_type) :
  id (parseNode computed now el i) <> "" /\ id (newElement ty now) <> "".
Proof.
  split.
  - unfold parseNode. destruct (String.eqb (tagName_of el) "IMG"); discriminate.
  - destruct ty; discriminate.
Qed.

(** The import of the markup
    [<div class="poster"><p>Hi</p><img src="a.png"></div>], with no computed
    style: a paragraph at 50px and an image at 70px. *)
Definition two_children : string :=
  "<div class=" ++ dq ++ "poster" ++ dq ++ "><p>Hi</p><img src=" ++ dq ++ "a.png"
    ++ dq ++ "></div>".

Example parse_two_children (angles : bool) :
  map (fun e => (type e, tagName e, content e, src e,
                 style_get "left" (style e), style_get "top" (style e)))
    (parse (Html.innerHTML_set (fun _ => [])) (Html.innerHTML_get angles)
       (Html.parseFromString (fun _ => [])) (fun _ _ _ => []) (fun _ => 0%N)
       two_children)
  = [ (text, "p", Some "Hi", None, Some "50px", Some "50px");
      (image, "img", None, Some "a.png", Some "70px", Some "70px") ].
Proof. destruct angles; vm_compute; reflexivity. Qed.

(** ** Images *)

Lemma style_set_twice_get (k1 v1 k2 v2 : string) (s : style_map) :
  k1 <> k2 -> style_get k1 (style_set k2 v2 (style_set k1 v1 s)) = Some v1.
Proof.
  intros H. rewrite style_get_set_other by exact H. apply style_get_set_same.
Qed.

(** What [parseNode] stores for an [img] element: the attributes (the empty
    string for a missing one), the inline width or ["100px"], and the
    height ["auto"] whatever the inline height is. *)
Lemma parseNode_img (computed : css) (now : N) (el : node) (i : nat) :
  tagName_of el = "IMG" ->
  let e := parseNode computed now el i in
  type e = image
  /\ src e = Some (JS.or_empty (getAttribute "src" (attributes_of el)))
  /\ alt e = Some (JS.or_empty (getAttribute "alt" (attributes_of el)))
  /\ style_get "width" (style e)
     = Some (JS.or_else (css_get (inlineStyle_of el) "width") "100px")
  /\ style_get "height" (style e) = Some "auto".
Proof.
  intros Htag e. subst e. unfold parseNode. rewrite Htag. cbn [String.eqb].
  replace (String.eqb "IMG" "IMG") with true by reflexivity.
  cbn [type src alt style]. repeat split.
  - apply style_set_twice_get. discriminate.
  - apply style_get_set_same.
Qed.

(** A poster whose only child is an image with an explicit height. *)
Definition tall_markup : string :=
  "<div class=" ++ dq ++ "poster" ++ dq ++ "><img src=" ++ dq ++ "a.png" ++ dq
    ++ " style=" ++ dq ++ "height: 200px" ++ dq ++ "></div>".

(** The declarations the browser reads from that style attribute. *)
Definition tall_cssom (v : string) : css :=
  if String.eqb v "height: 200px" then [("height", "200px")] else [].

(** The element the browser builds for the image. *)
Definition tall_img : node :=
  Element "img" [("src", "a.png"); ("style", "height: 200px")]
    [("height", "200px")] [] [].

(** C5, at the failing input: the inline height 200px of the source element
    is carried into the base style and then overwritten, so the parsed image
    has the height auto (the width, which is not set inline, is 100px; the
    missing alt is the empty string). *)
Theorem parse_img_height_overwritten :
  forall angles : bool,
  let e := parseNode [] 0 tall_img 0 in
  Html.covered tall_cssom angles tall_markup = true
  /\ parse (Html.innerHTML_set tall_cssom) (Html.innerHTML_get angles)
       (Html.parseFromString tall_cssom) (fun _ _ _ => []) (fun _ => 0%N) tall_markup
     = [e]
  /\ css_get (inlineStyle_of tall_img) "height" = "200px"
  /\ type e = image
  /\ src e = Some "a.png"
  /\ alt e = Some ""
  /\ style_get "width" (style e) = Some "100px"
  /\ style_get "height" (style e) = Some "auto".
Proof. intros [|]; vm_compute; repeat split. Qed.

(** ** The sanitizer on the tree *)

(** The elements a selector run from [temp] can reach: the nodes of the
    list and their descendants through [children]. *)
Inductive reaches : list node -> node -> Prop :=
| reaches_here l n : In n l -> reaches l n
| reaches_below l name attrs st ch tc n :
    In (Element name attrs st ch tc) l -> reaches ch n -> reaches l n.

Definition named (tag : string) (n : node) : bool :=
  (is_element n && String.eqb (localName_of n) tag)%bool.

Fixpoint remove_tag_list (tag : string) (l : list node) : list node :=
  match l with
  | [] => []
  | c :: l' => if named tag c then remove_tag_list tag l'
               else remove_tag tag c :: remove_tag_list tag l'
  end.

Lemma remove_tag_all_list (tag : string) (l : list node) :
  remove_tag_all tag l = remove_tag_list tag l.
Proof.
  unfold remove_tag_all. induction l as [|c l IH]; cbn; [reflexivity|].
  unfold named. destruct (is_element c && String.eqb (localName_of c) tag)%bool;
    cbn; now rewrite IH.
Qed.

Lemma remove_tag_element (tag name : string) attrs st ch tc :
  remove_tag tag (Element name attrs st ch tc)
  = Element name attrs st (remove_tag_list tag ch) tc.
Proof.
  cbn. f_equal. induction ch as [|c ch IH]; [reflexivity|].
  cbn. unfold named. destruct (is_element c && String.eqb (localName_of c) tag)%bool;
    now rewrite IH.
Qed.

Lemma remove_tag_shape (tag : string) (n : node) :
  is_element (remove_tag tag n) = is_element n
  /\ localName_of (remove_tag tag n) = localName_of n.
Proof. destruct n; [split; reflexivity..|]. rewrite remove_tag_element. now split. Qed.

Lemma named_remove_tag (tag tag' : string) (n : node) :
  named tag (remove_tag tag' n) = named tag n.
Proof.
  unfold named. destruct (remove_tag_shape tag' n) as [-> ->]. reflexivity.
Qed.

(** Depth of a node, to recurse through the nested lists of children. *)
Fixpoint depth (n : node) : nat :=
  match n with
  | Element _ _ _ ch _ =>
      S ((fix go (l : list node) : nat :=
            match l with
            | [] => 0%nat
            | c :: l' => Nat.max (depth c) (go l')
            end) ch)
  | _ => 0%nat
  end.

Fixpoint depth_list (l : list node) : nat :=
  match l with
  | [] => 0%nat
  | c :: l' => Nat.max (depth c) (depth_list l')
  end.

Lemma depth_element name attrs st ch tc :
  depth (Element name attrs st ch tc) = S (depth_list ch).
Proof. reflexivity. Qed.

(** No element named [tag] can be reached after [remove_tag_all tag]. *)
Lemma remove_tag_list_none (tag : string) (d : nat) :
  forall l, (depth_list l <= d)%nat ->
  forall n, reaches (remove_tag_list tag l) n -> named tag n = false.
Proof.
  induction d as [|d IHd].
  - induction l as [|c l IHl]; intros Hd n Hn.
    + inversion Hn; subst; cbn in *; contradiction.
    + cbn in Hd. assert (Hc : depth c = 0%nat) by lia.
      destruct c as [t|t|name attrs st ch tc];
        [| |rewrite depth_element in Hc; discriminate].
      * cbn in Hn. inversion Hn; subst.
        -- destruct H as [<-|H]; [reflexivity|]. apply IHl; [lia|].
           now apply reaches_here.
        -- destruct H as [H|H]; [discriminate|]. apply IHl; [lia|].
           eapply reaches_below; eauto.
      * cbn in Hn. inversion Hn; subst.
        -- destruct H as [<-|H]; [reflexivity|]. apply IHl; [lia|].
           now apply reaches_here.
        -- destruct H as [H|H]; [discriminate|]. apply IHl; [lia|].
           eapply reaches_below; eauto.
  - induction l as [|c l IHl]; intros Hd n Hn.
    + inversion Hn; subst; cbn in *; contradiction.
    + cbn in Hd. cbn [remove_tag_list] in Hn.
      destruct (named tag c) eqn:Hc.
      * apply IHl; [lia | exact Hn].
      * inversion Hn; subst.
        -- destruct H as [<-|H].
           ++ now rewrite named_remove_tag.
           ++ apply IHl; [lia|]. now apply reaches_here.
        -- destruct H as [H|H].
           ++ destruct c as [t|t|cname cattrs cst cch ctc]; try discriminate.
              rewrite remove_tag_element in H. injection H as -> -> -> <- ->.
              rewrite depth_element in Hd.
              apply (IHd cch); [lia | exact H0].
           ++ apply IHl; [lia|]. eapply reaches_below; eauto.
Qed.

(** A node reached after [remove_tag_all] is the image of a node reached
    before. *)
Lemma remove_tag_list_inv (tag : string) (d : nat) :
  forall l, (depth_list l <= d)%nat ->
  forall n, reaches (remove_tag_list tag l) n ->
  exists n0, reaches l n0 /\ n = remove_tag tag n0.
Proof.
  induction d as [|d IHd]; induction l as [|c l IHl]; intros Hd n Hn;
    try (inversion Hn; subst; cbn in *; contradiction);
    cbn in Hd; cbn [remove_tag_list] in Hn.
  - assert (IHl' : forall n, reaches (remove_tag_list tag l) n ->
                     exists n0, reaches (c :: l) n0 /\ n = remove_tag tag n0).
    { intros m Hm. destruct (IHl ltac:(lia) m Hm) as (n0 & Hr & ->). exists n0.
      split; [|reflexivity]. inversion Hr; subst.
      - apply reaches_here. now right.
      - eapply reaches_below; [right; eassumption | assumption]. }
    destruct (named tag c) eqn:Hc; [now apply IHl'|].
    inversion Hn; subst.
    + destruct H as [<-|H]; [exists c; split; [apply reaches_here; now left | reflexivity]|].
      apply IHl'. now apply reaches_here.
    + destruct H as [H|H]; [|apply IHl'; eapply reaches_below; eauto].
      destruct c as [t|t|cname cattrs cst cch ctc]; try discriminate.
      rewrite depth_element in Hd. lia.
  - assert (IHl' : forall n, reaches (remove_tag_list tag l) n ->
                     exists n0, reaches (c :: l) n0 /\ n = remove_tag tag n0).
    { intros m Hm. destruct (IHl ltac:(lia) m Hm) as (n0 & Hr & ->). exists n0.
      split; [|reflexivity]. inversion Hr; subst.
      - apply reaches_here. now right.
      - eapply reaches_below; [right; eassumption | assumption]. }
    destruct (named tag c) eqn:Hc; [now apply IHl'|].
    inversion Hn; subst.
    + destruct H as [<-|H]; [exists c; split; [apply reaches_here; now left | reflexivity]|].
      apply IHl'. now apply reaches_here.
    + destruct H as [H|H]; [|apply IHl'; eapply reaches_below; eauto].
      destruct c as [t|t|cname cattrs cst cch ctc]; try discriminate.
      rewrite remove_tag_element in H. injection H as -> -> -> <- ->.
      rewrite depth_element in Hd.
      destruct (IHd cch ltac:(lia) n H0) as (n0 & Hr & ->).
      exists n0. split; [|reflexivity].
      eapply reaches_below; [left; reflexivity | exact Hr].
Qed.

Lemma clean_node_list_inv (d : nat) :
  forall l, (depth_list l <= d)%nat ->
  forall n, reaches (map clean_node l) n ->
  exists n0, reaches l n0 /\ n = clean_node n0.
Proof.
  induction d as [|d IHd]; induction l as [|c l IHl]; intros Hd n Hn;
    try (inversion Hn; subst; cbn in *; contradiction);
    cbn in Hd; cbn [map] in Hn.
  - assert (IHl' : forall n, reaches (map clean_node l) n ->
                     exists n0, reaches (c :: l) n0 /\ n = clean_node n0).
    { intros m Hm. destruct (IHl ltac:(lia) m Hm) as (n0 & Hr & ->). exists n0.
      split; [|reflexivity]. inversion Hr; subst.
      - apply reaches_here. now right.
      - eapply reaches_below; [right; eassumption | assumption]. }
    inversion Hn; subst.
    + destruct H as [<-|H]; [exists c; split; [apply reaches_here; now left | reflexivity]|].
      apply IHl'. now apply reaches_here.
    + destruct H as [H|H]; [|apply IHl'; eapply reaches_below; eauto].
      destruct c as [t|t|cname cattrs cst cch ctc]; try discriminate.
      rewrite depth_element in Hd. lia.
  - assert (IHl' : forall n, reaches (map clean_node l) n ->
                     exists n0, reaches (c :: l) n0 /\ n = clean_node n0).
    { intros m Hm. destruct (IHl ltac:(lia) m Hm) as (n0 & Hr & ->). exists n0.
      split; [|reflexivity]. inversion Hr; subst.
      - apply reaches_here. now right.
      - eapply reaches_below; [right; eassumption | assumption]. }
    inversion Hn; subst.
    + destruct H as [<-|H]; [exists c; split; [apply reaches_here; now left | reflexivity]|].
      apply IHl'. now apply reaches_here.
    + destruct H as [H|H]; [|apply IHl'; eapply reaches_below; eauto].
      destruct c as [t|t|cname cattrs cst cch ctc]; try discriminate.
      cbn [clean_node] in H. injection H as _ _ _ <- _.
      rewrite depth_element in Hd.
      destruct (IHd cch ltac:(lia) n H0) as (n0 & Hr & ->).
      exists n0. split; [|reflexivity].
      eapply reaches_below; [left; reflexivity | exact Hr].
Qed.

Lemma named_clean_node (tag : string) (n : node) :
  named tag (clean_node n) = named tag n.
Proof. now destruct n. Qed.

(** Two nodes with the same kind, name and attributes. *)
Definition same_head (n m : node) : Prop :=
  is_element n = is_element m
  /\ localName_of n = localName_of m
  /\ attributes_of n = attributes_of m.

Lemma same_head_remove_tag (tag : string) (n : node) : same_head (remove_tag tag n) n.
Proof. destruct n; [now repeat split..|]. rewrite remove_tag_element. now repeat split. Qed.

Lemma same_head_named (tag : string) (n m : node) :
  same_head n m -> named tag n = named tag m.
Proof. intros (Hk & Hn & _). unfold named. now rewrite Hk, Hn. Qed.

(** After the removal passes no reachable element has one of the names, and
    every reachable node comes from a node of the input. *)
Lemma removal_passes_none (tags : list string) :
  forall l n,
    reaches (fold_left (fun cur tag => remove_tag_all tag cur) tags l) n ->
    (forall t, In t tags -> named t n = false)
    /\ exists n0, reaches l n0 /\ same_head n n0.
Proof.
  induction tags as [|tag tags IH]; intros l n Hn; cbn [fold_left] in Hn.
  - split; [intros t []|]. exists n. now repeat split.
  - destruct (IH _ n Hn) as (Hnone & n1 & Hr1 & Hhead).
    rewrite remove_tag_all_list in Hr1.
    pose proof (remove_tag_list_none tag _ l (le_n _) n1 Hr1) as Htag.
    destruct (remove_tag_list_inv tag _ l (le_n _) n1 Hr1) as (n0 & Hr0 & ->).
    split.
    + intros t [<-|Ht]; [now rewrite (same_head_named _ _ _ Hhead) | now apply Hnone].
    + exists n0. split; [exact Hr0|].
      destruct Hhead as (Hk & Hl & Ha).
      destruct (same_head_remove_tag tag n0) as (Hk' & Hl' & Ha').
      repeat split; congruence.
Qed.

(** *** Attributes *)

Definition is_handler (kv : string * string) : bool := JS.startsWith "on" (fst kv).

Lemma removeAttribute_skip (name : string) (pre post : list (string * string)) :
  (forall kv, In kv pre -> fst kv <> name) ->
  removeAttribute name (pre ++ post) = (pre ++ removeAttribute name post)%list.
Proof.
  intros H. induction pre as [|[k v] pre IH]; [reflexivity|]. cbn.
  destruct (String.eqb k name) eqn:E.
  - apply String.eqb_eq in E. exfalso. apply (H (k, v)); [now left | exact E].
  - f_equal. apply IH. intros kv Hkv. apply H. now right.
Qed.

Lemma strip_handlers_fold (pre rest : list (string * string)) :
  (forall kv, In kv pre -> is_handler kv = false) ->
  fold_left (fun cur attr =>
               if JS.startsWith "on" (fst attr) then removeAttribute (fst attr) cur
               else cur) rest (pre ++ rest)%list
  = (pre ++ filter (fun kv => negb (is_handler kv)) rest)%list.
Proof.
  revert pre. induction rest as [|[k v] rest IH]; intros pre Hpre; cbn [fold_left filter].
  - reflexivity.
  - change (is_handler (k, v)) with (JS.startsWith "on" k). cbn [fst].
    destruct (JS.startsWith "on" k) eqn:Hon; cbn [negb].
    + rewrite removeAttribute_skip.
      * cbn [removeAttribute]. rewrite String.eqb_refl. now apply IH.
      * intros kv Hkv Heq. apply Hpre in Hkv. unfold is_handler in Hkv.
        rewrite Heq in Hkv. congruence.
    + change (pre ++ (k, v) :: rest)%list with (pre ++ [(k, v)] ++ rest)%list.
      rewrite app_assoc, IH, <- app_assoc; [reflexivity|].
      intros kv Hkv. apply in_app_or in Hkv. destruct Hkv as [Hkv|[<-|[]]];
        [now apply Hpre | exact Hon].
Qed.

(** The first pass removes exactly the attributes whose name starts with
    the two letters on. *)
Lemma strip_handlers_filter (attrs : list (string * string)) :
  strip_handlers attrs = filter (fun kv => negb (is_handler kv)) attrs.
Proof. apply (strip_handlers_fold [] attrs). intros kv []. Qed.

Definition is_script_url (name : string) (kv : string * string) : bool :=
  (String.eqb (fst kv) name
   && JS.includes "javascript:" (JS.toLowerCase (snd kv)))%bool.

Lemma includes_empty_false (needle : string) :
  needle <> "" -> JS.includes needle "" = false.
Proof. destruct needle; [congruence | reflexivity]. Qed.

Lemma getAttribute_None_filter (name : string) (f : string * string -> bool)
    (attrs : list (string * string)) :
  getAttribute name attrs = None ->
  filter (fun kv => negb (String.eqb (fst kv) name && f kv)) attrs = attrs.
Proof.
  induction attrs as [|[k v] attrs IH]; intros H; cbn in *; [reflexivity|].
  destruct (String.eqb k name); [discriminate|]. cbn. f_equal. now apply IH.
Qed.

Lemma getAttribute_None_absent (name : string) (attrs : list (string * string)) :
  ~ In name (map fst attrs) -> getAttribute name attrs = None.
Proof.
  induction attrs as [|[k v] attrs IH]; intros H; cbn in *; [reflexivity|].
  destruct (String.eqb k name) eqn:E.
  - apply String.eqb_eq in E. exfalso. apply H. now left.
  - apply IH. intros Hin. apply H. now right.
Qed.

(** With attribute names that are pairwise distinct, as the parser leaves
    them, one step of the second pass removes exactly the attribute of that
    name whose value contains javascript: in some letter case. *)
Lemma strip_url_filter (name : string) (attrs : list (string * string)) :
  NoDup (map fst attrs) ->
  strip_url attrs name = filter (fun kv => negb (is_script_url name kv)) attrs.
Proof.
  unfold strip_url, is_script_url.
  induction attrs as [|[k v] attrs IH]; intros Hnd; [reflexivity|].
  inversion Hnd as [|? ? Hk Hnd']; subst. cbn [getAttribute filter fst snd removeAttribute].
  destruct (String.eqb k name) eqn:E.
  - apply String.eqb_eq in E. subst k.
    pose proof (getAttribute_None_absent name attrs Hk) as Hnone.
    rewrite (getAttribute_None_filter name
               (fun kv => JS.includes "javascript:" (JS.toLowerCase (snd kv)))
               attrs Hnone).
    destruct v as [|c v]; [reflexivity|]. cbn [JS.falsy negb andb].
    destruct (JS.includes "javascript:" (JS.toLowerCase (String c v)));
      cbn; now rewrite ?String.eqb_refl.
  - cbn [andb negb]. specialize (IH Hnd').
    destruct (getAttribute name attrs) as [val|] eqn:Hg.
    + destruct (negb (JS.falsy val) && JS.includes "javascript:" (JS.toLowerCase val))%bool;
        cbn [removeAttribute]; rewrite ?E; now rewrite <- IH.
    + now rewrite <- IH.
Qed.

Lemma NoDup_map_filter {A B} (g : A -> B) (f : A -> bool) (l : list A) :
  NoDup (map g l) -> NoDup (map g (filter f l)).
Proof.
  induction l as [|a l IH]; intros H; cbn; [constructor|].
  inversion H as [|? ? Ha Hl]; subst.
  destruct (f a); cbn; [constructor|]; auto.
  intros Hin. apply Ha. apply in_map_iff in Hin. destruct Hin as (x & Hx & Hin).
  apply filter_In in Hin. apply in_map_iff. exists x. tauto.
Qed.

(** The attributes the sanitizer keeps. *)
Definition benign (kv : string * string) : bool :=
  (negb (is_handler kv)
   && negb (is_script_url "href" kv)
   && negb (is_script_url "src" kv)
   && negb (is_script_url "action" kv))%bool.

Lemma filter_filter {A} (f g : A -> bool) (l : list A) :
  filter g (filter f l) = filter (fun x => (f x && g x)%bool) l.
Proof.
  induction l as [|a l IH]; cbn; [reflexivity|].
  destruct (f a); cbn; [destruct (g a)|]; now rewrite IH.
Qed.

Lemma clean_attributes_filter (attrs : list (string * string)) :
  NoDup (map fst attrs) -> clean_attributes attrs = filter benign attrs.
Proof.
  intros Hnd. unfold clean_attributes. cbn [fold_left].
  rewrite strip_handlers_filter.
  rewrite (strip_url_filter "href") by now apply NoDup_map_filter.
  rewrite filter_filter.
  rewrite (strip_url_filter "src") by now apply NoDup_map_filter.
  rewrite filter_filter.
  rewrite (strip_url_filter "action") by now apply NoDup_map_filter.
  rewrite filter_filter. reflexivity.
Qed.


(** What the sanitizer guarantees for the nodes a selector reaches from
    [temp]: none is an element with a dangerous name, and each is a node of
    the input with exactly its benign attributes left. *)
Lemma sanitize_nodes_reachable (l : list node) (n : node) :
  (forall n0, reaches l n0 -> NoDup (map fst (attributes_of n0))) ->
  reaches (sanitize_nodes l) n ->
  (forall t, In t dangerous -> named t n = false)
  /\ exists n0, reaches l n0
       /\ is_element n = is_element n0
       /\ localName_of n = localName_of n0
       /\ attributes_of n = filter benign (attributes_of n0).
Proof.
  intros Hnd Hn. unfold sanitize_nodes in Hn.
  destruct (clean_node_list_inv _ _ (le_n _) n Hn) as (n1 & Hr1 & ->).
  destruct (removal_passes_none dangerous l n1 Hr1) as (Hnone & n0 & Hr0 & Hk & Hl & Ha).
  split.
  - intros t Ht. rewrite named_clean_node. now apply Hnone.
  - exists n0. split; [exact Hr0|].
    specialize (Hnd n0 Hr0). rewrite <- Ha in Hnd |- *. rewrite <- Hk, <- Hl.
    destruct n1; [now repeat split..|].
    cbn [clean_node is_element localName_of attributes_of] in *.
    repeat split. now apply clean_attributes_filter.
Qed.

(** The children [temp] has for the markup
    [<template><script>alert(1)</script></template>]: the script element is
    in the contents of the template, not among its children. *)
Definition template_with_script : list node :=
  [Element "template" [] [] []
     [Element "script" [] [] [TextNode "alert(1)"] []]].

(** C3, at the failing input: no pass of the sanitizer looks into the
    contents of a template, so the tree, and with it the serialized markup,
    still holds the script element. *)
Theorem sanitize_keeps_template_script :
  sanitize_nodes template_with_script = template_with_script
  /\ forall innerHTML_set innerHTML_get html,
       innerHTML_set html = template_with_script ->
       sanitize innerHTML_set innerHTML_get html = innerHTML_get template_with_script.
Proof.
  split; [reflexivity|].
  intros innerHTML_set innerHTML_get html H. unfold sanitize. now rewrite H.
Qed.

Lemma sanitize_keeps_template_script_witness :
  sanitize (fun _ => template_with_script) (fun _ => "out") "in" = "out".
Proof.
  destruct sanitize_keeps_template_script as [_ H].
  apply (H (fun _ => template_with_script) (fun _ => "out") "in"). reflexivity.
Defined.

(** ** Snapshots in the store *)

Module HeapFacts.
Import Heap.
#[local] Open Scope list_scope.

Lemma bind_some {A B} (m : M A) (k : A -> M B) (h h1 : heap) (a : A) :
  m h = Some (a, h1) -> bind m k h = k a h1.
Proof. intros H. unfold bind. now rewrite H. Qed.

Lemma bind_inv {A B} (m : M A) (k : A -> M B) (h h2 : heap) (b : B) :
  bind m k h = Some (b, h2) ->
  exists a h1, m h = Some (a, h1) /\ k a h1 = Some (b, h2).
Proof.
  unfold bind. destruct (m h) as [[a h1]|]; [|discriminate]. intros H. eauto.
Qed.

(** [h'] is [h] with cells appended. *)
Definition extends (h h' : heap) : Prop := exists ext, h' = (h ++ ext)%list.

Lemma extends_refl (h : heap) : extends h h.
Proof. exists []. now rewrite app_nil_r. Qed.

Lemma extends_trans (h1 h2 h3 : heap) : extends h1 h2 -> extends h2 h3 -> extends h1 h3.
Proof. intros [e1 ->] [e2 ->]. exists (e1 ++ e2)%list. now rewrite app_assoc. Qed.

Lemma extends_app (h ext : heap) : extends h (h ++ ext)%list.
Proof. now exists ext. Qed.

Lemma extends_length (h h' : heap) : extends h h' -> (length h <= length h')%nat.
Proof. intros [e ->]. rewrite length_app. lia. Qed.

Lemma extends_lookup (h h' : heap) (l : loc) (c : cell) :
  extends h h' -> nth_error h l = Some c -> nth_error h' l = Some c.
Proof.
  intros [e ->] H. rewrite nth_error_app1; [exact H|].
  apply nth_error_Some. congruence.
Qed.

(** A computation that only appends cells. *)
Definition grows {A} (m : M A) : Prop :=
  forall h a h', m h = Some (a, h') -> extends h h'.

Lemma grows_ret {A} (a : A) : grows (ret a).
Proof. intros h a' h' H. injection H as _ <-. apply extends_refl. Qed.

Lemma grows_fail {A} : grows (@fail A).
Proof. intros h a h' H. discriminate. Qed.

Lemma grows_bind {A B} (m : M A) (k : A -> M B) :
  grows m -> (forall a, grows (k a)) -> grows (bind m k).
Proof.
  intros Hm Hk h b h2 H. apply bind_inv in H. destruct H as (a & h1 & H1 & H2).
  eapply extends_trans; [eapply Hm | eapply Hk]; eassumption.
Qed.

Lemma grows_alloc (c : cell) : grows (alloc c).
Proof. intros h a h' H. injection H as _ <-. apply extends_app. Qed.

Lemma grows_read_style (l : loc) : grows (read_style l).
Proof.
  intros h a h' H. unfold read_style in H.
  destruct (nth_error h l) as [[| |]|]; try discriminate.
  injection H as _ <-. apply extends_refl.
Qed.

Lemma grows_read_object (l : loc) : grows (read_object l).
Proof.
  intros h a h' H. unfold read_object in H.
  destruct (nth_error h l) as [[| |]|]; try discriminate.
  injection H as _ <-. apply extends_refl.
Qed.

Lemma grows_read_array (l : loc) : grows (read_array l).
Proof.
  intros h a h' H. unfold read_array in H.
  destruct (nth_error h l) as [[| |]|]; try discriminate.
  injection H as _ <-. apply extends_refl.
Qed.

Lemma grows_mapM {A B} (f : A -> M B) (l : list A) :
  (forall a, grows (f a)) -> grows (mapM f l).
Proof.
  intros Hf. induction l as [|a l IH]; cbn [mapM].
  - apply grows_ret.
  - apply grows_bind; [apply Hf|]. intros b.
    apply grows_bind; [exact IH|]. intros bs. apply grows_ret.
Qed.

Lemma grows_filterM {A} (f : A -> M bool) (l : list A) :
  (forall a, grows (f a)) -> grows (filterM f l).
Proof.
  intros Hf. induction l as [|a l IH]; cbn [filterM].
  - apply grows_ret.
  - apply grows_bind; [apply Hf|]. intros b.
    apply grows_bind; [exact IH|]. intros bs. apply grows_ret.
Qed.

Lemma grows_if {A} (b : bool) (m1 m2 : M A) :
  grows m1 -> grows m2 -> grows (if b then m1 else m2).
Proof. now destruct b. Qed.

Create HintDb grows discriminated.
#[local] Hint Resolve grows_ret grows_fail grows_alloc grows_read_style
  grows_read_object grows_read_array grows_if : grows.

Ltac grow :=
  repeat first
    [ progress intros
    | apply grows_bind
    | apply grows_mapM
    | apply grows_filterM
    | solve [auto with grows]
    | match goal with
      | |- grows (match ?x with _ => _ end) => destruct x
      | |- grows (let _ := _ in _) => cbv zeta
      end ].

Lemma grows_store_element (e : element) : grows (store_element e).
Proof. unfold store_element. grow. Qed.

Lemma grows_store_document (d : Document) : grows (store_document d).
Proof. unfold store_document. grow. Qed.

Lemma grows_load_element (l : loc) : grows (load_element l).
Proof. unfold load_element. grow. Qed.

Lemma grows_load_document (l : loc) : grows (load_document l).
Proof. unfold load_document. grow. Qed.

Lemma grows_clone (l : loc) : grows (clone l).
Proof. unfold clone. grow. Qed.

Lemma grows_saveHistory cur l s st : grows (Handlers.saveHistory cur l s st).
Proof. unfold Handlers.saveHistory. grow. Qed.

Lemma grows_find_object (i : string) (items : list loc) : grows (find_object i items).
Proof. induction items as [|l items IH]; cbn [find_object]; grow. Qed.

Lemma grows_updateProperty p v cur : grows (Handlers.updateProperty p v cur).
Proof. unfold Handlers.updateProperty, update_object. grow. Qed.

#[local] Hint Resolve grows_saveHistory grows_find_object grows_updateProperty
  grows_store_document grows_store_element : grows.

(** No handler overwrites a cell: the store after it is the store before
    it with cells appended. *)
Lemma grows_handle (ev : event) (cur : state) : grows (Handlers.handle ev cur).
Proof.
  destruct ev; cbn [Handlers.handle];
    unfold Handlers.load, Handlers.addElement, Handlers.deleteElement, id_is,
      Handlers.handleMouseDown, Handlers.handleMove, move_object, Handlers.handleUp,
      Handlers.handleDoubleClick, Handlers.handleTextBlur, Handlers.undo,
      Handlers.redo, Handlers.restore;
    grow.
Qed.

Lemma grows_run (evs : list event) (cur : state) : grows (Handlers.run evs cur).
Proof.
  revert cur. induction evs as [|ev evs IH]; intros cur; cbn [Handlers.run].
  - apply grows_ret.
  - apply grows_bind; [apply grows_handle | intros st; apply IH].
Qed.

(** *** The value a reference denotes *)

Definition elem_at (h : heap) (l : loc) (e : element) : Prop :=
  exists o s,
    nth_error h l = Some (ElementObject o)
    /\ nth_error h (o_style o) = Some (StyleObject s)
    /\ e = element_of o s.

Definition doc_at (h : heap) (l : loc) (d : Document) : Prop :=
  exists items,
    nth_error h l = Some (ArrayObject items) /\ Forall2 (elem_at h) items d.

Lemma elem_at_extends (h h' : heap) (l : loc) (e : element) :
  extends h h' -> elem_at h l e -> elem_at h' l e.
Proof.
  intros Hx (o & s & Ho & Hs & ->). exists o, s.
  repeat split; eapply extends_lookup; eassumption.
Qed.

Lemma elems_at_extends (h h' : heap) (items : list loc) (d : Document) :
  extends h h' -> Forall2 (elem_at h) items d -> Forall2 (elem_at h') items d.
Proof.
  intros Hx H. induction H; constructor; [eapply elem_at_extends; eassumption | assumption].
Qed.

Lemma doc_at_extends (h h' : heap) (l : loc) (d : Document) :
  extends h h' -> doc_at h l d -> doc_at h' l d.
Proof.
  intros Hx (items & Hl & Hd). exists items. split.
  - eapply extends_lookup; eassumption.
  - eapply elems_at_extends; eassumption.
Qed.

Lemma elem_at_fun (h : heap) (l : loc) (e1 e2 : element) :
  elem_at h l e1 -> elem_at h l e2 -> e1 = e2.
Proof.
  intros (o1 & s1 & Ho1 & Hs1 & ->) (o2 & s2 & Ho2 & Hs2 & ->).
  rewrite Ho1 in Ho2. injection Ho2 as <-. rewrite Hs1 in Hs2. now injection Hs2 as <-.
Qed.

Lemma doc_at_fun (h : heap) (l : loc) (d1 d2 : Document) :
  doc_at h l d1 -> doc_at h l d2 -> d1 = d2.
Proof.
  intros (i1 & H1 & F1) (i2 & H2 & F2). rewrite H1 in H2. injection H2 as <-.
  clear H1. revert d2 F2. induction F1; intros d2 F2; inversion F2; subst.
  - reflexivity.
  - f_equal; [eapply elem_at_fun; eassumption | eauto].
Qed.

Lemma load_element_at (h : heap) (l : loc) (e : element) :
  elem_at h l e -> load_element l h = Some (e, h).
Proof.
  intros (o & s & Ho & Hs & ->). unfold load_element, bind, read_object, read_style, ret.
  now rewrite Ho, Hs.
Qed.

Lemma load_elements_at (h : heap) (items : list loc) (d : Document) :
  Forall2 (elem_at h) items d -> mapM load_element items h = Some (d, h).
Proof.
  induction 1 as [|l e items d Hl _ IH]; [reflexivity|].
  cbn [mapM]. rewrite (bind_some _ _ _ _ _ (load_element_at _ _ _ Hl)).
  now rewrite (bind_some _ _ _ _ _ IH).
Qed.

Lemma load_document_at (h : heap) (l : loc) (d : Document) :
  doc_at h l d -> load_document l h = Some (d, h).
Proof.
  intros (items & Hl & Hd). unfold load_document.
  rewrite (bind_some _ _ h h items); [now apply load_elements_at|].
  unfold read_array. now rewrite Hl.
Qed.

Lemma lookup_last (h : heap) (c : cell) : nth_error (h ++ [c]) (length h) = Some c.
Proof. rewrite nth_error_app2 by lia. now rewrite Nat.sub_diag. Qed.

Lemma element_of_object_of (e : element) (s : loc) :
  element_of (object_of e s) (style e) = e.
Proof. now destruct e. Qed.

(** [store_element] appends a style object and an element object that
    refers to it. *)
Lemma store_element_spec (e : element) (h : heap) :
  store_element e h
  = Some (S (length h),
          (h ++ [StyleObject (style e); ElementObject (object_of e (length h))])%list).
Proof.
  unfold store_element, bind, alloc. rewrite length_app. cbn [length].
  rewrite Nat.add_1_r, <- app_assoc. reflexivity.
Qed.

Lemma store_element_at (e : element) (h : heap) :
  elem_at (h ++ [StyleObject (style e); ElementObject (object_of e (length h))])
    (S (length h)) e.
Proof.
  exists (object_of e (length h)), (style e). repeat split.
  - change [StyleObject (style e); ElementObject (object_of e (length h))]
      with ([StyleObject (style e)] ++ [ElementObject (object_of e (length h))])%list.
    rewrite app_assoc.
    replace (S (length h)) with (length (h ++ [StyleObject (style e)])%list)
      by (rewrite length_app; cbn; lia).
    apply lookup_last.
  - cbn [o_style object_of].
    rewrite nth_error_app2 by lia. now rewrite Nat.sub_diag.
  - symmetry. apply element_of_object_of.
Qed.

(** The cells an array of elements consists of: the array, its element
    objects and their style objects. *)
Definition cells_of (h : heap) (l : loc) : list loc :=
  match nth_error h l with
  | Some (ArrayObject items) =>
      l :: items
        ++ flat_map (fun i => match nth_error h i with
                              | Some (ElementObject o) => [o_style o]
                              | _ => []
                              end) items
  | _ => [l]
  end.

(** Every cell of the array at [l] was allocated after [h0]. *)
Definition fresh_since (h0 h : heap) (l : loc) : Prop :=
  forall x, In x (cells_of h l) -> (length h0 <= x)%nat.

Lemma store_elements_spec (d : Document) :
  forall h, exists items h',
    mapM store_element d h = Some (items, h')
    /\ extends h h'
    /\ Forall2 (elem_at h') items d
    /\ Forall (fun i => (length h <= i)%nat
                        /\ exists o, nth_error h' i = Some (ElementObject o)
                                     /\ (length h <= o_style o)%nat) items.
Proof.
  induction d as [|e d IH]; intros h.
  - exists [], h. repeat split; [apply extends_refl | constructor | constructor].
  - set (h1 := (h ++ [StyleObject (style e); ElementObject (object_of e (length h))])%list).
    destruct (IH h1) as (items & h' & Hm & Hx & Hat & Hfresh).
    exists (S (length h) :: items), h'.
    assert (Hx1 : extends h h1) by apply extends_app.
    assert (Hlen : (length h <= length h1)%nat) by now apply extends_length.
    repeat split.
    + cbn [mapM]. rewrite (bind_some _ _ _ _ _ (store_element_spec e h)).
      fold h1. now rewrite (bind_some _ _ _ _ _ Hm).
    + eapply extends_trans; eassumption.
    + constructor; [|exact Hat].
      eapply elem_at_extends; [exact Hx | apply store_element_at].
    + constructor.
      * split; [lia|]. exists (object_of e (length h)). split; [|cbn; lia].
        eapply extends_lookup; [exact Hx|].
        destruct (store_element_at e h) as (o & s & Ho & _ & _).
        unfold h1. rewrite Ho. f_equal. f_equal.
        change [StyleObject (style e); ElementObject (object_of e (length h))]
          with ([StyleObject (style e)] ++ [ElementObject (object_of e (length h))])%list
          in Ho.
        rewrite app_assoc in Ho.
        replace (S (length h)) with (length (h ++ [StyleObject (style e)])%list) in Ho
          by (rewrite length_app; cbn; lia).
        rewrite lookup_last in Ho. now injection Ho as <-.
      * eapply Forall_impl; [|exact Hfresh]. cbn beta.
        intros i (Hi & o & Ho & Hs). split; [lia|]. exists o. split; [exact Ho | lia].
Qed.

(** [store_document] builds the value out of cells that did not exist
    before. *)
Lemma store_document_spec (d : Document) (h : heap) :
  exists l h',
    store_document d h = Some (l, h')
    /\ extends h h' /\ doc_at h' l d /\ fresh_since h h' l.
Proof.
  destruct (store_elements_spec d h) as (items & h1 & Hm & Hx & Hat & Hfresh).
  exists (length h1), (h1 ++ [ArrayObject items])%list.
  assert (Hx2 : extends h1 (h1 ++ [ArrayObject items])) by apply extends_app.
  repeat split.
  - unfold store_document. now rewrite (bind_some _ _ _ _ _ Hm).
  - eapply extends_trans; eassumption.
  - exists items. split; [apply lookup_last|]. eapply elems_at_extends; eassumption.
  - intros x Hx'. unfold cells_of in Hx'. rewrite lookup_last in Hx'.
    apply extends_length in Hx.
    destruct Hx' as [<-|Hx']; [exact Hx|].
    apply in_app_or in Hx'. rewrite Forall_forall in Hfresh.
    destruct Hx' as [Hin|Hin].
    + now apply Hfresh.
    + apply in_flat_map in Hin. destruct Hin as (i & Hi & Hin).
      destruct (Hfresh i Hi) as (_ & o & Ho & Hs).
      rewrite (extends_lookup _ _ _ _ Hx2 Ho) in Hin.
      destruct Hin as [<-|[]]. exact Hs.
Qed.

(** [JSON.parse(JSON.stringify(x))] builds the value of [x] out of cells
    that did not exist before. *)
Lemma clone_spec (l : loc) (d : Document) (h : heap) :
  doc_at h l d ->
  exists snap h',
    clone l h = Some (snap, h')
    /\ extends h h' /\ doc_at h' snap d /\ fresh_since h h' snap.
Proof.
  intros Hd. destruct (store_document_spec d h) as (snap & h' & Hs & Hrest).
  exists snap, h'. split; [|exact Hrest].
  unfold clone. now rewrite (bind_some _ _ _ _ _ (load_document_at _ _ _ Hd)).
Qed.

(** *** The store-passing handlers compute the values of the pure ones *)

Definition entry_at (h : heap) (r : loc * option string) (en : entry) : Prop :=
  doc_at h (fst r) (entry_elements en) /\ snd r = entry_selectedId en.

Definition live_rep (h : heap) (st : state) (e : editor) : Prop :=
  doc_at h (elementsRef st) (elements e)
  /\ selected st = selectedId e
  /\ editingText st = isEditingText e
  /\ dragging st = isDragging e
  /\ offset st = dragOffset e.

Definition hist_rep (h : heap) (st : state) (e : editor) : Prop :=
  Forall2 (entry_at h) (historyRefs st) (history e)
  /\ historyIdx st = historyIndex e.

(** The state [st] over the store [h] denotes the editor state [e]. *)
Definition represents (h : heap) (st : state) (e : editor) : Prop :=
  live_rep h st e /\ hist_rep h st e.

Lemma entries_at_extends (h h' : heap) rs es :
  extends h h' -> Forall2 (entry_at h) rs es -> Forall2 (entry_at h') rs es.
Proof.
  intros Hx H. induction H as [|r en rs es [Hd Hs] _ IH]; constructor; [|exact IH].
  split; [eapply doc_at_extends; eassumption | exact Hs].
Qed.

Lemma live_rep_extends h h' st e : extends h h' -> live_rep h st e -> live_rep h' st e.
Proof.
  intros Hx (Hd & Hrest). split; [eapply doc_at_extends; eassumption | exact Hrest].
Qed.

Lemma hist_rep_extends h h' st e : extends h h' -> hist_rep h st e -> hist_rep h' st e.
Proof.
  intros Hx (Hd & Hrest). split; [eapply entries_at_extends; eassumption | exact Hrest].
Qed.

Lemma Forall2_firstn {A B} (R : A -> B -> Prop) (n : nat) (a : list A) (b : list B) :
  Forall2 R a b -> Forall2 R (firstn n a) (firstn n b).
Proof.
  intros H. revert n. induction H; intros [|n]; cbn; constructor; auto.
Qed.

Lemma Forall2_slice0 {A B} (R : A -> B -> Prop) (k : Z) (a : list A) (b : list B) :
  Forall2 R a b -> Forall2 R (JS.slice0 k a) (JS.slice0 k b).
Proof.
  intros H. unfold JS.slice0. rewrite (Forall2_length H). now apply Forall2_firstn.
Qed.

Lemma Forall2_index {A B} (R : A -> B -> Prop) (a : list A) (b : list B) (i : Z) :
  Forall2 R a b ->
  match JS.index a i, JS.index b i with
  | Some x, Some y => R x y
  | None, None => True
  | _, _ => False
  end.
Proof.
  intros H. unfold JS.index. destruct (i <? 0); [exact I|].
  generalize (Z.to_nat i) as n.
  induction H as [|x y a b Hxy _ IH]; intros [|n]; cbn; auto. apply IH.
Qed.

Lemma saveHistory_refines (cur st : state) (ecur est : editor) (h : heap)
    (l : loc) (d : Document) (sel : option string) :
  hist_rep h cur ecur -> live_rep h st est -> doc_at h l d ->
  exists st' h',
    Handlers.saveHistory cur l sel st h = Some (st', h')
    /\ extends h h'
    /\ represents h' st' (saveHistory ecur d sel est).
Proof.
  intros (Hh & Hi) Hlive Hd.
  destruct (clone_spec l d h Hd) as (snap & h' & Hc & Hx & Hsnap & _).
  eexists. exists h'. split; [|split; [exact Hx|]].
  - unfold Handlers.saveHistory. rewrite (bind_some _ _ _ _ _ Hc). reflexivity.
  - split.
    + destruct (live_rep_extends _ _ _ _ Hx Hlive) as (H1 & H2 & H3 & H4 & H5).
      repeat split; assumption.
    + assert (HF : Forall2 (entry_at h')
                (JS.slice0 (historyIdx cur + 1) (historyRefs cur) ++ [(snap, sel)])
                (JS.slice0 (historyIndex ecur + 1) (history ecur) ++ [mkEntry d sel])).
      { apply Forall2_app.
        - rewrite Hi. apply Forall2_slice0. eapply entries_at_extends; eassumption.
        - constructor; [|constructor]. now split. }
      split; [exact HF|].
      cbn [historyIdx with_history historyIndex saveHistory set_history].
      now rewrite (Forall2_length HF).
Qed.

(** A callback that turns a reference to an element of value [e] into a
    reference to an element of value [g e], only appending cells, maps an
    array of references to the mapped values. *)
Lemma mapM_refines (f : loc -> M loc) (g : element -> element) :
  (forall h l e, elem_at h l e ->
     exists l' h', f l h = Some (l', h') /\ extends h h' /\ elem_at h' l' (g e)) ->
  forall items d h, Forall2 (elem_at h) items d ->
    exists items' h',
      mapM f items h = Some (items', h')
      /\ extends h h' /\ Forall2 (elem_at h') items' (map g d).
Proof.
  intros Hf items d h H. revert h H.
  revert d. induction items as [|l items IH]; intros d h H;
    inversion H as [|? e ? d' He Hd']; subst.
  - exists [], h. repeat split; [apply extends_refl | constructor].
  - destruct (Hf h l e He) as (l1 & h1 & Hl & Hx1 & Hat).
    destruct (IH d' h1 (elems_at_extends _ _ _ _ Hx1 Hd')) as (items' & h2 & Hm & Hx2 & Hats).
    exists (l1 :: items'), h2. repeat split.
    + cbn [mapM]. rewrite (bind_some _ _ _ _ _ Hl). now rewrite (bind_some _ _ _ _ _ Hm).
    + eapply extends_trans; eassumption.
    + cbn [map]. constructor; [eapply elem_at_extends; eassumption | exact Hats].
Qed.

Lemma selected_object (sel : option string) (o : element_object) (s : style_map) :
  match sel with Some x => String.eqb (o_id o) x | None => false end
  = is_selected sel (element_of o s).
Proof. reflexivity. Qed.

Lemma update_object_refines (sel : option string) (prop val : string)
    (h : heap) (l : loc) (e : element) :
  elem_at h l e ->
  exists l' h',
    update_object sel prop val l h = Some (l', h')
    /\ extends h h' /\ elem_at h' l' (update_element sel prop val e).
Proof.
  intros Hat. pose proof Hat as (o & s & Ho & Hs & ->).
  unfold update_object, update_element.
  rewrite (bind_some _ _ h h o) by (unfold read_object; now rewrite Ho).
  rewrite (selected_object sel o s).
  destruct (is_selected sel (element_of o s)).
  - destruct (is_top_level prop).
    + eexists. eexists. split; [reflexivity|]. split; [apply extends_app|].
      exists (set_field o prop val), s. repeat split.
      * apply lookup_last.
      * eapply extends_lookup; [apply extends_app | exact Hs].
    + rewrite (bind_some _ _ h h s) by (unfold read_style; now rewrite Hs).
      eexists. eexists. split; [reflexivity|]. split.
      * eapply extends_trans; apply extends_app.
      * exists (set_style o (length h)), (style_set prop val s). repeat split.
        -- apply lookup_last.
        -- cbn [o_style set_style]. eapply extends_lookup; [apply extends_app|].
           apply lookup_last.
  - exists l, h. split; [reflexivity|]. split; [apply extends_refl | exact Hat].
Qed.

Lemma move_object_refines (sel : option string) (x y : Z)
    (h : heap) (l : loc) (e : element) :
  elem_at h l e ->
  exists l' h',
    move_object sel x y l h = Some (l', h')
    /\ extends h h' /\ elem_at h' l' (move_element sel x y e).
Proof.
  intros Hat. pose proof Hat as (o & s & Ho & Hs & ->).
  unfold move_object, move_element.
  rewrite (bind_some _ _ h h o) by (unfold read_object; now rewrite Ho).
  rewrite (selected_object sel o s).
  destruct (is_selected sel (element_of o s)).
  - rewrite (bind_some _ _ h h s) by (unfold read_style; now rewrite Hs).
    eexists. eexists. split; [reflexivity|]. split.
    + eapply extends_trans; apply extends_app.
    + exists (set_style o (length h)),
        (style_set "top" (pxZ y) (style_set "left" (pxZ x) s)). repeat split.
      * apply lookup_last.
      * cbn [o_style set_style]. eapply extends_lookup; [apply extends_app|].
        apply lookup_last.
  - exists l, h. split; [reflexivity|]. split; [apply extends_refl | exact Hat].
Qed.

Lemma filterM_refines (sel : option string) (h : heap) (items : list loc) (d : Document) :
  Forall2 (elem_at h) items d ->
  exists kept,
    filterM (fun l => b <- id_is sel l ;; ret (negb b)) items h = Some (kept, h)
    /\ Forall2 (elem_at h) kept (filter (fun el => negb (is_selected sel el)) d).
Proof.
  induction 1 as [|l e items d Hat _ (kept & Hk & Hats)].
  - exists []. split; [reflexivity | constructor].
  - pose proof Hat as (o & s & Ho & Hs & ->).
    exists (if negb (is_selected sel (element_of o s)) then l :: kept else kept). split.
    + cbn [filterM].
      rewrite (bind_some _ _ h h (negb (is_selected sel (element_of o s)))).
      * now rewrite (bind_some _ _ _ _ _ Hk).
      * unfold id_is, bind, read_object, ret. now rewrite Ho.
    + cbn [filter]. destruct (negb (is_selected sel (element_of o s)));
        [constructor|]; assumption.
Qed.

Lemma find_object_refines (i : string) (h : heap) (items : list loc) (d : Document) :
  Forall2 (elem_at h) items d ->
  find_object i items h = Some (find_element i d, h).
Proof.
  induction 1 as [|l e items d Hat _ IH]; [reflexivity|].
  cbn [find_object]. rewrite (bind_some _ _ _ _ _ (load_element_at _ _ _ Hat)).
  unfold find_element. cbn [find]. destruct (String.eqb (id e) i); [reflexivity | exact IH].
Qed.

Lemma read_array_at (h : heap) (l : loc) (items : list loc) :
  nth_error h l = Some (ArrayObject items) -> read_array l h = Some (items, h).
Proof. intros H. unfold read_array. now rewrite H. Qed.

Lemma new_array_at (h : heap) (items : list loc) (d : Document) :
  Forall2 (elem_at h) items d ->
  doc_at (h ++ [ArrayObject items]) (length h) d.
Proof.
  intros H. exists items. split; [apply lookup_last|].
  eapply elems_at_extends; [apply extends_app | exact H].
Qed.

Lemma updateProperty_refines (prop val : string) (st : state) (e : editor) (h : heap) :
  represents h st e ->
  exists st' h',
    Handlers.updateProperty prop val st h = Some (st', h')
    /\ extends h h'
    /\ represents h' st' (updateProperty prop val e).
Proof.
  intros Hrep. pose proof Hrep as ((Hd & Hsel & Hf1 & Hf2 & Hf3) & Hhist).
  unfold Handlers.updateProperty, updateProperty. rewrite Hsel.
  destruct (no_selection (selectedId e)).
  - exists st, h. split; [reflexivity|]. split; [apply extends_refl | exact Hrep].
  - destruct Hd as (items & Harr & Hats).
    rewrite (bind_some _ _ _ _ _ (read_array_at _ _ _ Harr)).
    destruct (mapM_refines _ _ (update_object_refines (selectedId e) prop val)
                items (elements e) h Hats) as (items' & h1 & Hm & Hx & Hats').
    rewrite (bind_some _ _ _ _ _ Hm).
    eexists. eexists. split; [reflexivity|].
    assert (Hx' : extends h (h1 ++ [ArrayObject items']))
      by (eapply extends_trans; [exact Hx | apply extends_app]).
    split; [exact Hx'|]. split.
    + repeat split; try assumption. cbn [elementsRef with_elements elements set_elements].
      now apply new_array_at.
    + eapply hist_rep_extends; [exact Hx'|]. exact Hhist.
Qed.

Lemma restore_refines (st : state) (e : editor) (h : heap) (i : Z) :
  represents h st e ->
  match restore e i with
  | Done e' => exists st', Handlers.restore st i h = Some (st', h) /\ represents h st' e'
  | Throws => Handlers.restore st i h = None
  end.
Proof.
  intros ((Hd & Hsel & Hf1 & Hf2 & Hf3) & (Hh & Hi)).
  unfold restore, Handlers.restore.
  pose proof (Forall2_index _ _ _ i Hh) as Hidx.
  destruct (JS.index (historyRefs st) i) as [[snap sel]|];
    destruct (JS.index (history e) i) as [en|]; try contradiction; [|reflexivity].
  destruct Hidx as [Hsnap Hs]. cbn [fst snd] in *.
  eexists. split; [reflexivity|].
  repeat split; cbn; try assumption.
Qed.

(** Every handler over the store computes, on the values the references
    denote, what the handler over values computes, and only appends
    cells. *)
Lemma handle_refines (ev : event) (st : state) (e : editor) (h : heap) :
  represents h st e ->
  match handle ev e with
  | Done e' =>
      exists st' h',
        Handlers.handle ev st h = Some (st', h')
        /\ extends h h' /\ represents h' st' e'
  | Throws => Handlers.handle ev st h = None
  end.
Proof.
  intros Hrep. pose proof Hrep as ((Hd & Hsel & Hf1 & Hf2 & Hf3) & Hhist).
  destruct ev; cbn [handle Handlers.handle].
  - (* Load *)
    unfold Handlers.load, load.
    destruct (store_document_spec parsed h) as (arr & h1 & Hs & Hx & Harr & _).
    rewrite (bind_some _ _ _ _ _ Hs).
    destruct (saveHistory_refines st (with_selected None (with_elements arr st))
                e (set_selectedId None (set_elements parsed e)) h1 arr parsed None)
      as (st' & h' & Hsave & Hx' & Hrep').
    + eapply hist_rep_extends; eassumption.
    + repeat split; assumption.
    + exact Harr.
    + exists st', h'. split; [exact Hsave|]. split; [|exact Hrep'].
      eapply extends_trans; eassumption.
  - (* AddElement *)
    unfold Handlers.addElement, addElement.
    rewrite (bind_some _ _ _ _ _ (store_element_spec (newElement ty now) h)).
    set (h1 := h ++ [StyleObject (style (newElement ty now));
                     ElementObject (object_of (newElement ty now) (length h))]).
    assert (Hx1 : extends h h1) by apply extends_app.
    destruct Hd as (items & Harr & Hats).
    rewrite (bind_some _ _ _ _ _
               (read_array_at _ _ _ (extends_lookup _ _ _ _ Hx1 Harr))).
    unfold bind at 1, alloc at 1.
    set (h2 := h1 ++ [ArrayObject (items ++ [S (length h)])]).
    assert (Hx2 : extends h1 h2) by apply extends_app.
    assert (Hnew : doc_at h2 (length h1) (elements e ++ [newElement ty now])).
    { apply new_array_at. apply Forall2_app.
      - eapply elems_at_extends; eassumption.
      - constructor; [apply store_element_at | constructor]. }
    destruct (saveHistory_refines st
                (with_selected (Some (id (newElement ty now)))
                   (with_elements (length h1) st))
                e (set_selectedId (Some (id (newElement ty now)))
                     (set_elements (elements e ++ [newElement ty now]) e))
                h2 (length h1) (elements e ++ [newElement ty now])
                (Some (id (newElement ty now))))
      as (st' & h' & Hsave & Hx' & Hrep').
    + eapply hist_rep_extends; [|exact Hhist].
      eapply extends_trans; eassumption.
    + repeat split; assumption.
    + exact Hnew.
    + exists st', h'. split; [exact Hsave|]. split; [|exact Hrep'].
      eapply extends_trans; [|exact Hx']. eapply extends_trans; eassumption.
  - (* DeleteElement *)
    unfold Handlers.deleteElement, deleteElement. rewrite Hsel.
    destruct (no_selection (selectedId e));
      [exists st, h; split; [reflexivity|]; split; [apply extends_refl | exact Hrep]|].
    destruct confirmed;
      [|exists st, h; split; [reflexivity|]; split; [apply extends_refl | exact Hrep]].
    destruct Hd as (items & Harr & Hats).
    rewrite (bind_some _ _ _ _ _ (read_array_at _ _ _ Harr)).
    destruct (filterM_refines (selectedId e) h items (elements e) Hats) as (kept & Hk & Hkept).
    rewrite (bind_some _ _ _ _ _ Hk).
    unfold bind at 1, alloc at 1.
    set (h1 := h ++ [ArrayObject kept]).
    assert (Hx1 : extends h h1) by apply extends_app.
    destruct (saveHistory_refines st (with_selected None (with_elements (length h) st))
                e (set_selectedId None
                     (set_elements
                        (filter (fun el => negb (is_selected (selectedId e) el))
                           (elements e)) e))
                h1 (length h)
                (filter (fun el => negb (is_selected (selectedId e) el)) (elements e))
                None)
      as (st' & h' & Hsave & Hx' & Hrep').
    + eapply hist_rep_extends; eassumption.
    + repeat split; try assumption. now apply new_array_at.
    + now apply new_array_at.
    + exists st', h'. split; [exact Hsave|]. split; [|exact Hrep'].
      eapply extends_trans; eassumption.
  - (* UpdateProperty *)
    now apply updateProperty_refines.
  - (* MouseDown *)
    unfold Handlers.handleMouseDown, handleMouseDown. rewrite Hf1.
    destruct (isEditingText e) eqn:Hedit;
      [exists st, h; split; [reflexivity|]; split; [apply extends_refl | exact Hrep]|].
    destruct Hd as (items & Harr & Hats).
    rewrite (bind_some _ _ _ _ _ (read_array_at _ _ _ Harr)).
    rewrite (bind_some _ _ _ _ _ (find_object_refines i h items (elements e) Hats)).
    assert (Hd : doc_at h (elementsRef st) (elements e)) by (exists items; now split).
    destruct (find_element i (elements e)) as [el|];
      (eexists; exists h; split; [reflexivity|]; split; [apply extends_refl|]);
      (split; [|exact Hhist]; split; [exact Hd|]; cbn;
       repeat split; first [reflexivity | congruence]).
  - (* MouseMove *)
    unfold Handlers.handleMove, handleMove.
    destruct rect as [[rl rt]|];
      [|exists st, h; split; [reflexivity|]; split; [apply extends_refl | exact Hrep]].
    rewrite Hf2, Hsel, Hf3.
    destruct (negb (isDragging e) || no_selection (selectedId e))%bool;
      [exists st, h; split; [reflexivity|]; split; [apply extends_refl | exact Hrep]|].
    destruct Hd as (items & Harr & Hats).
    rewrite (bind_some _ _ _ _ _ (read_array_at _ _ _ Harr)).
    destruct (mapM_refines _ _
                (move_object_refines (selectedId e)
                   (clamp (clientX - rl - fst (dragOffset e)))
                   (clamp (clientY - rt - snd (dragOffset e))))
                items (elements e) h Hats) as (items' & h1 & Hm & Hx & Hats').
    rewrite (bind_some _ _ _ _ _ Hm).
    eexists. eexists. split; [reflexivity|].
    assert (Hx' : extends h (h1 ++ [ArrayObject items']))
      by (eapply extends_trans; [exact Hx | apply extends_app]).
    split; [exact Hx'|]. split.
    + repeat split; try assumption. cbn [elementsRef with_elements elements set_elements].
      now apply new_array_at.
    + eapply hist_rep_extends; [exact Hx'|]. exact Hhist.
  - (* MouseUp *)
    unfold Handlers.handleUp, handleUp. rewrite Hf2, Hsel.
    destruct (isDragging e);
      [|exists st, h; split; [reflexivity|]; split; [apply extends_refl | exact Hrep]].
    apply saveHistory_refines; [exact Hhist | | exact Hd].
    repeat split; assumption.
  - (* DoubleClick *)
    unfold Handlers.handleDoubleClick, handleDoubleClick.
    pose proof Hd as (items & Harr & Hats).
    rewrite (bind_some _ _ _ _ _ (read_array_at _ _ _ Harr)).
    rewrite (bind_some _ _ _ _ _ (find_object_refines i h items (elements e) Hats)).
    destruct (find_element i (elements e)) as [el|];
      [destruct (el_type_eqb (type el) text)|];
      (eexists; exists h; split; [reflexivity|]; split; [apply extends_refl|]);
      (split; [|exact Hhist]; split; [exact Hd|]; cbn;
       repeat split; first [reflexivity | congruence]).
  - (* TextBlur *)
    unfold Handlers.handleTextBlur, handleTextBlur.
    destruct innerText as [t|];
      [|exists st, h; split; [reflexivity|]; split; [apply extends_refl | exact Hrep]].
    rewrite Hf1, Hsel.
    destruct (isEditingText e && negb (no_selection (selectedId e)))%bool;
      [|exists st, h; split; [reflexivity|]; split; [apply extends_refl | exact Hrep]].
    destruct (updateProperty_refines "content" t st e h Hrep)
      as (st1 & h1 & Hu & Hx1 & ((Hd1 & Hsel1 & Hg1 & Hg2 & Hg3) & Hhist1)).
    rewrite (bind_some _ _ _ _ _ Hu).
    destruct (saveHistory_refines st (with_editingText false st1)
                e (set_isEditingText false (updateProperty "content" t e))
                h1 (elementsRef st) (elements e) (selectedId e))
      as (st' & h' & Hsave & Hx' & Hrep').
    + eapply hist_rep_extends; eassumption.
    + repeat split; assumption.
    + eapply doc_at_extends; eassumption.
    + exists st', h'. split; [exact Hsave|]. split; [|exact Hrep'].
      eapply extends_trans; eassumption.
  - (* ClickCanvas *)
    eexists. exists h. split; [reflexivity|]. split; [apply extends_refl|].
    split; [repeat split; assumption | exact Hhist].
  - (* Undo *)
    unfold Handlers.undo, undo. destruct Hhist as (Hh & Hi). rewrite Hi.
    destruct (historyIndex e >? 0).
    + pose proof (restore_refines st e h (historyIndex e - 1) Hrep) as Hr.
      destruct (restore e (historyIndex e - 1)); [|exact Hr].
      destruct Hr as (st' & Hr & Hrep'). exists st', h.
      split; [exact Hr|]. split; [apply extends_refl | exact Hrep'].
    + exists st, h. split; [reflexivity|]. split; [apply extends_refl | exact Hrep].
  - (* Redo *)
    unfold Handlers.redo, redo. destruct Hhist as (Hh & Hi).
    rewrite Hi, (Forall2_length Hh).
    destruct (historyIndex e <? Z.of_nat (length (history e)) - 1).
    + pose proof (restore_refines st e h (historyIndex e + 1) Hrep) as Hr.
      destruct (restore e (historyIndex e + 1)); [|exact Hr].
      destruct Hr as (st' & Hr & Hrep'). exists st', h.
      split; [exact Hr|]. split; [apply extends_refl | exact Hrep'].
    + exists st, h. split; [reflexivity|]. split; [apply extends_refl | exact Hrep].
Qed.

Lemma run_refines (evs : list event) (st : state) (e : editor) (h : heap) :
  represents h st e ->
  match run evs e with
  | Done e' =>
      exists st' h',
        Handlers.run evs st h = Some (st', h')
        /\ extends h h' /\ represents h' st' e'
  | Throws => Handlers.run evs st h = None
  end.
Proof.
  revert st e h. induction evs as [|ev evs IH]; intros st e h Hrep;
    cbn [run Handlers.run].
  - exists st, h. split; [reflexivity|]. split; [apply extends_refl | exact Hrep].
  - pose proof (handle_refines ev st e h Hrep) as Hstep.
    destruct (handle ev e) as [e1|].
    + destruct Hstep as (st1 & h1 & Hh & Hx & Hrep1).
      rewrite (bind_some _ _ _ _ _ Hh).
      specialize (IH st1 e1 h1 Hrep1). destruct (run evs e1) as [e2|]; [|exact IH].
      destruct IH as (st2 & h2 & Hr & Hx2 & Hrep2).
      exists st2, h2. split; [exact Hr|]. split; [|exact Hrep2].
      eapply extends_trans; eassumption.
    + unfold bind. now rewrite Hstep.
Qed.

Lemma represents_initial : represents initial_heap initial_state initial.
Proof.
  split; [|split; [constructor | reflexivity]].
  split; [|repeat split]. exists []. split; [reflexivity | constructor].
Qed.

Lemma cells_of_allocated (h : heap) (l : loc) (d : Document) :
  doc_at h l d -> forall x, In x (cells_of h l) -> (x < length h)%nat.
Proof.
  intros (items & Harr & Hats) x Hx. unfold cells_of in Hx. rewrite Harr in Hx.
  assert (Hl : (l < length h)%nat) by (apply nth_error_Some; congruence).
  destruct Hx as [<-|Hx]; [exact Hl|].
  apply in_app_or in Hx. destruct Hx as [Hx|Hx].
  - clear Harr. revert Hx.
    induction Hats as [|i e items d (o & s & Ho & _) _ IH]; intros Hx; [destruct Hx|].
    destruct Hx as [<-|Hx]; [apply nth_error_Some; congruence | now apply IH].
  - apply in_flat_map in Hx. destruct Hx as (i & Hi & Hx).
    clear Harr. revert Hi.
    induction Hats as [|j e items d (o & s & Ho & Hs & _) _ IH]; intros Hi; [destruct Hi|].
    destruct Hi as [<-|Hi]; [|now apply IH].
    rewrite Ho in Hx. destruct Hx as [<-|[]]. apply nth_error_Some. congruence.
Qed.

Lemma cells_of_extends (h h' : heap) (l : loc) (d : Document) :
  extends h h' -> doc_at h l d -> cells_of h' l = cells_of h l.
Proof.
  intros Hx (items & Harr & Hats). unfold cells_of.
  rewrite Harr, (extends_lookup _ _ _ _ Hx Harr). f_equal. f_equal.
  clear Harr. induction Hats as [|i e items d (o & s & Ho & _) _ IH]; [reflexivity|].
  cbn [flat_map]. rewrite Ho, (extends_lookup _ _ _ _ Hx Ho). now rewrite IH.
Qed.

(** C6.  A push stores, under a reference that did not exist before, an
    array that denotes the value of the document pushed and shares no cell
    with it; no later sequence of events changes the value a history
    snapshot (or any other reference) denotes; and from the first render
    every sequence of events completes, with the values the handlers over
    values compute. *)
Theorem snapshots_independent :
  (forall cur st l sel h d,
     doc_at h l d ->
     exists snap st' h',
       Handlers.saveHistory cur l sel st h = Some (st', h')
       /\ historyRefs st'
          = JS.slice0 (historyIdx cur + 1) (historyRefs cur) ++ [(snap, sel)]
       /\ doc_at h' snap d
       /\ doc_at h' l d
       /\ forall x, In x (cells_of h' snap) -> ~ In x (cells_of h' l))
  /\ (forall evs st h st' h',
        Handlers.run evs st h = Some (st', h') ->
        forall snap sel d,
          In (snap, sel) (historyRefs st) -> doc_at h snap d -> doc_at h' snap d)
  /\ (forall evs, exists e st h,
        run evs initial = Done e
        /\ Handlers.run evs initial_state initial_heap = Some (st, h)
        /\ represents h st e).
Proof.
  split; [|split].
  - intros cur st l sel h d Hd.
    destruct (clone_spec l d h Hd) as (snap & h' & Hc & Hx & Hsnap & Hfresh).
    exists snap. eexists. exists h'. split; [|split; [|split; [|split]]].
    + unfold Handlers.saveHistory. rewrite (bind_some _ _ _ _ _ Hc). reflexivity.
    + reflexivity.
    + exact Hsnap.
    + eapply doc_at_extends; eassumption.
    + intros x Hin Hin'. apply Hfresh in Hin.
      rewrite (cells_of_extends h h' l d Hx Hd) in Hin'.
      apply (cells_of_allocated h l d Hd) in Hin'. lia.
  - intros evs st h st' h' Hrun snap sel d _ Hd.
    eapply doc_at_extends; [|exact Hd]. eapply grows_run. exact Hrun.
  - intros evs.
    destruct (run_total evs initial) as (e & He & _); [cbv; split; congruence|].
    pose proof (run_refines evs initial_state initial initial_heap represents_initial) as H.
    rewrite He in H. destruct H as (st & h & Hr & _ & Hrep).
    exists e, st, h. split; [exact He|]. split; [exact Hr | exact Hrep].
Qed.

Lemma snapshots_independent_witness :
  exists snap st' h',
    Handlers.saveHistory initial_state 0%nat None initial_state initial_heap
      = Some (st', h')
    /\ doc_at h' snap [] /\ doc_at h' 0%nat [].
Proof.
  destruct snapshots_independent as (H & _ & _).
  destruct (H initial_state initial_state 0%nat None initial_heap [])
    as (snap & st' & h' & Hs & _ & Hd & Hl & _).
  - exists []. split; [reflexivity | constructor].
  - exists snap, st', h'. split; [exact Hs|]. split; [exact Hd | exact Hl].
Defined.

End HeapFacts.
(** ** Export, then parse *)

Module RoundTrip.
Import Html.

(** *** Strings *)

Lemma append_assoc (a b c : string) : (a ++ b) ++ c = a ++ (b ++ c).
Proof. induction a as [|x a IH]; cbn; [reflexivity | now rewrite IH]. Qed.

Lemma append_nil_r (a : string) : a ++ "" = a.
Proof. induction a as [|x a IH]; cbn; [reflexivity | now rewrite IH]. Qed.

Lemma all_chars_app (p : ascii -> bool) (a b : string) :
  all_chars p (a ++ b) = (all_chars p a && all_chars p b)%bool.
Proof.
  induction a as [|x a IH]; cbn; [reflexivity|]. rewrite IH. now rewrite andb_assoc.
Qed.

Lemma all_chars_weaken (p q : ascii -> bool) (s : string) :
  (forall c, p c = true -> q c = true) -> all_chars p s = true -> all_chars q s = true.
Proof.
  intros Hpq. induction s as [|c s IH]; cbn; [reflexivity|].
  intros H. apply andb_true_iff in H. destruct H as [Hc Hs].
  now rewrite (Hpq c Hc), IH.
Qed.

Lemma is_char_eq (c : ascii) (n : nat) : is_char c n = true -> c = ascii_of_nat n.
Proof.
  unfold is_char, code. intros H. apply Nat.eqb_eq in H. rewrite <- H.
  symmetry. apply ascii_nat_embedding.
Qed.

(** Facts about one character are checked on the 256 characters. *)
Ltac each_char c :=
  destruct c as [[] [] [] [] [] [] [] []]; vm_compute;
  repeat split; try reflexivity; try discriminate; intros; try discriminate.

Lemma plain_value_char (c : ascii) : plain_char c = true -> value_char c = true.
Proof. each_char c. Qed.

Lemma text_data_char (c : ascii) : text_char c = true -> data_char c = true.
Proof. each_char c. Qed.

Lemma plain_in_scope (c : ascii) : plain_char c = true -> in_scope c = true.
Proof. each_char c. Qed.

Lemma text_in_scope (c : ascii) : text_char c = true -> in_scope c = true.
Proof. each_char c. Qed.

Lemma data_char_step (c : ascii) :
  data_char c = true -> data_step c = Some (Data, [TChar c]).
Proof.
  unfold data_char, data_step. intros H.
  apply andb_true_iff in H. destruct H as [H H60].
  apply andb_true_iff in H. destruct H as [Hs H38].
  apply negb_true_iff in H60, H38. now rewrite H38, H60, Hs.
Qed.

Lemma lower_char_twice (c : ascii) : JS.lower_char (JS.lower_char c) = JS.lower_char c.
Proof. each_char c. Qed.

Lemma toLowerCase_twice (s : string) :
  JS.toLowerCase (JS.toLowerCase s) = JS.toLowerCase s.
Proof.
  induction s as [|c s IH]; [reflexivity|].
  unfold JS.toLowerCase in *. cbn [JS.map_string]. now rewrite lower_char_twice, IH.
Qed.

Lemma lower_upper_char (c : ascii) :
  JS.lower_char (JS.upper_char (JS.lower_char c)) = JS.lower_char c.
Proof. each_char c. Qed.

Lemma lower_upper_lower (s : string) :
  JS.toLowerCase (JS.toUpperCase (JS.toLowerCase s)) = JS.toLowerCase s.
Proof.
  induction s as [|c s IH]; [reflexivity|].
  unfold JS.toLowerCase, JS.toUpperCase in *. cbn [JS.map_string].
  now rewrite lower_upper_char, IH.
Qed.

Lemma tag_char_lower (c : ascii) : tag_char c = true -> tag_char (JS.lower_char c) = true.
Proof. each_char c. Qed.

Lemma tag_char_step (c : ascii) :
  tag_char c = true ->
  is_white c = false /\ is_char c 47 = false /\ is_char c 62 = false
  /\ in_scope c = true.
Proof. each_char c. Qed.

Lemma alpha_lower (c : ascii) :
  is_alpha c = true ->
  is_alpha (JS.lower_char c) = true /\ tag_char c = true.
Proof. each_char c. Qed.

Lemma alpha_step (c : ascii) :
  is_alpha c = true -> is_char c 47 = false /\ is_char c 33 = false.
Proof. each_char c. Qed.

Lemma in_scope_step (c : ascii) :
  in_scope c = true -> is_char c 38 = false -> is_char c 60 = false ->
  data_step c = Some (Data, [TChar c]).
Proof. unfold data_step. now intros -> -> ->. Qed.

(** *** The tokenizer on pieces of input *)

Definition then_scan (r : option (tstate * list token)) (s : string)
  : option (tstate * list token) :=
  match r with
  | Some (st1, out1) =>
      match scan st1 s with
      | Some (st2, out2) => Some (st2, (out1 ++ out2)%list)
      | None => None
      end
  | None => None
  end.

Lemma scan_app (st : tstate) (a b : string) :
  scan st (a ++ b) = then_scan (scan st a) b.
Proof.
  revert st. induction a as [|c a IH]; intros st; cbn [append scan then_scan].
  - destruct (scan st b) as [[st2 out2]|]; reflexivity.
  - destruct (step st c) as [[st1 out1]|]; [|reflexivity].
    rewrite IH. destruct (scan st1 a) as [[st2 out2]|]; [|reflexivity].
    cbn [then_scan].
    destruct (scan st2 b) as [[st3 out3]|]; [|reflexivity].
    now rewrite app_assoc.
Qed.

Lemma then_scan_start (st : tstate) (s : string) :
  scan st s = then_scan (Some (st, [])) s.
Proof. cbn. destruct (scan st s) as [[st' out]|]; reflexivity. Qed.

Lemma then_scan_app (r : option (tstate * list token)) (a b : string) :
  then_scan r (a ++ b) = then_scan (then_scan r a) b.
Proof.
  destruct r as [[st acc]|]; [|reflexivity]. cbn [then_scan]. rewrite scan_app.
  destruct (scan st a) as [[st1 o1]|]; [|reflexivity]. cbn [then_scan].
  destruct (scan st1 b) as [[st2 o2]|]; [|reflexivity]. now rewrite app_assoc.
Qed.

Lemma then_scan_step (st st' : tstate) (acc out : list token) (a : string) :
  scan st a = Some (st', out) ->
  then_scan (Some (st, acc)) a = Some (st', (acc ++ out)%list).
Proof. intros H. cbn [then_scan]. now rewrite H. Qed.

(** One character that the state reads by [plain_step]. *)
Lemma scan_cons (st st1 : tstate) (out1 : list token) (c : ascii) (s : string) :
  step st c = Some (st1, out1) ->
  scan st (String c s) = then_scan (Some (st1, out1)) s.
Proof. intros H. cbn [scan then_scan]. now rewrite H. Qed.

Lemma scan_data (s : string) :
  all_chars data_char s = true -> scan Data s = Some (Data, map TChar (chars s)).
Proof.
  induction s as [|c s IH]; [reflexivity|].
  intros H. cbn [all_chars] in H. apply andb_true_iff in H. destruct H as [Hc Hs].
  rewrite (scan_cons Data Data [TChar c]) by (apply (data_char_step c Hc)).
  cbn [then_scan]. now rewrite (IH Hs).
Qed.

Lemma value_char_step (name : string) attrs (aname acc : string) (c : ascii) :
  in_scope c = true -> is_char c 34 = false -> is_char c 38 = false ->
  step (AttributeValue name attrs aname acc) c
  = Some (AttributeValue name attrs aname (snoc acc c), []).
Proof. intros Hs H34 H38. cbn [step plain_step]. now rewrite H34, H38, Hs. Qed.

Lemma scan_value (name : string) attrs (aname acc v : string) :
  all_chars value_char v = true ->
  scan (AttributeValue name attrs aname acc) v
  = Some (AttributeValue name attrs aname (acc ++ v), []).
Proof.
  revert acc. induction v as [|c v IH]; intros acc H.
  - cbn [scan]. now rewrite append_nil_r.
  - cbn [all_chars] in H. apply andb_true_iff in H. destruct H as [Hc Hv].
    unfold value_char in Hc.
    apply andb_true_iff in Hc. destruct Hc as [Hc H38].
    apply andb_true_iff in Hc. destruct Hc as [Hs H34].
    apply negb_true_iff in H34, H38.
    rewrite (scan_cons _ _ _ _ _ (value_char_step name attrs aname acc c Hs H34 H38)).
    cbn [then_scan]. rewrite (IH _ Hv). unfold snoc. now rewrite append_assoc.
Qed.

(** The characters of a tag name are read in lower case. *)
Lemma scan_tag_name (acc s : string) :
  all_chars tag_char s = true ->
  scan (TagName acc) s = Some (TagName (acc ++ JS.toLowerCase s), []).
Proof.
  revert acc. induction s as [|c s IH]; intros acc H.
  - cbn. now rewrite append_nil_r.
  - cbn [all_chars] in H. apply andb_true_iff in H. destruct H as [Hc Hs].
    destruct (tag_char_step c Hc) as (Hw & H47 & H62 & Hin).
    cbn [scan step plain_step]. rewrite Hw, H47, H62, Hin, (IH _ Hs).
    unfold snoc, JS.toLowerCase. cbn [JS.map_string app]. now rewrite append_assoc.
Qed.

Lemma scan_end_tag_name (acc s : string) :
  all_chars tag_char s = true ->
  scan (EndTagName acc) s = Some (EndTagName (acc ++ JS.toLowerCase s), []).
Proof.
  revert acc. induction s as [|c s IH]; intros acc H.
  - cbn. now rewrite append_nil_r.
  - cbn [all_chars] in H. apply andb_true_iff in H. destruct H as [Hc Hs].
    destruct (tag_char_step c Hc) as (Hw & H47 & H62 & Hin).
    cbn [scan step plain_step]. rewrite H62, Hc, (IH _ Hs).
    unfold snoc, JS.toLowerCase. cbn [JS.map_string app]. now rewrite append_assoc.
Qed.

(** A tag name the tokenizer reads as one: a letter, then anything but
    white space, [/] and [>]. *)
Definition tag_ok (tag : string) : bool :=
  match tag with
  | String c0 r => (is_alpha c0 && all_chars tag_char r)%bool
  | EmptyString => false
  end.

Lemma tag_ok_lower (tag : string) : tag_ok tag = true -> tag_ok (JS.toLowerCase tag) = true.
Proof.
  destruct tag as [|c0 r]; [discriminate|]. cbn [tag_ok]. intros H.
  apply andb_true_iff in H. destruct H as [Hc Hr].
  unfold JS.toLowerCase. cbn [JS.map_string tag_ok].
  rewrite (proj1 (alpha_lower c0 Hc)). cbn [andb].
  clear Hc. induction r as [|c r IH]; [reflexivity|].
  cbn [all_chars] in Hr. apply andb_true_iff in Hr. destruct Hr as [Hc Hr].
  cbn [JS.map_string all_chars]. now rewrite (tag_char_lower c Hc), (IH Hr).
Qed.

Lemma scan_open_tag (tag : string) :
  tag_ok tag = true -> scan Data ("<" ++ tag) = Some (TagName (JS.toLowerCase tag), []).
Proof.
  destruct tag as [|c0 r]; [discriminate|]. cbn [tag_ok]. intros H.
  apply andb_true_iff in H. destruct H as [Hc Hr].
  destruct (alpha_step c0 Hc) as [H47 H33].
  cbn [append scan]. change (step Data "<") with (Some (TagOpen, @nil token)).
  cbn [scan step plain_step]. rewrite H47, H33, Hc.
  now rewrite (scan_tag_name _ _ Hr).
Qed.

Lemma scan_close_tag (tag : string) :
  tag_ok tag = true -> kind_of (JS.toLowerCase tag) <> None ->
  scan Data ("</" ++ tag ++ ">") = Some (Data, [TEnd (JS.toLowerCase tag)]).
Proof.
  destruct tag as [|c0 r]; [discriminate|]. cbn [tag_ok]. intros H Hk.
  apply andb_true_iff in H. destruct H as [Hc Hr].
  cbn [append scan]. change (step Data "<") with (Some (TagOpen, @nil token)).
  cbn [scan]. change (step TagOpen "/") with (Some (EndTagOpen, @nil token)).
  cbn [scan step plain_step]. rewrite Hc, scan_app, (scan_end_tag_name _ _ Hr).
  cbn [then_scan append scan step plain_step].
  change (is_char ">" 62) with true. cbn iota. unfold emit_end.
  change (JS.toLowerCase (String c0 r))
    with (String (JS.lower_char c0) (JS.toLowerCase r)) in Hk |- *.
  cbn [append].
  destruct (kind_of (String (JS.lower_char c0) (JS.toLowerCase r)));
    [reflexivity | now destruct Hk].
Qed.

(** *** Character references *)

(** The five references the serializer writes, in text and in an attribute
    value. *)
Lemma scan_reference_data (name text : string) :
  In (name, text) [("amp", "&"); ("lt", "<"); ("gt", ">"); ("quot", dq); ("nbsp", nbsp)] ->
  scan Data ("&" ++ name ++ ";") = Some (Data, map TChar (chars text)).
Proof.
  cbn [In]. intros H.
  repeat (destruct H as [H|H];
          [injection H as <- <-; vm_compute; reflexivity|]).
  destruct H.
Qed.

Lemma scan_reference_value (tag : string) attrs (aname acc name text : string) :
  In (name, text) [("amp", "&"); ("lt", "<"); ("gt", ">"); ("quot", dq); ("nbsp", nbsp)] ->
  scan (AttributeValue tag attrs aname acc) ("&" ++ name ++ ";")
  = Some (AttributeValue tag attrs aname (acc ++ text), []).
Proof.
  cbn [In]. intros H.
  repeat (destruct H as [H|H];
          [injection H as <- <-; vm_compute; reflexivity|]).
  destruct H.
Qed.

(** The states in which text is read with character references: the data
    state and the state of escapable raw text. *)
Definition text_state (st : tstate) : Prop :=
  st = Data \/ exists name, st = RawText name true.

Lemma scan_reference_text (st : tstate) (name text : string) :
  text_state st ->
  In (name, text) [("amp", "&"); ("lt", "<"); ("gt", ">"); ("quot", dq); ("nbsp", nbsp)] ->
  scan st ("&" ++ name ++ ";") = Some (st, map TChar (chars text)).
Proof.
  intros [-> | [tag ->]]; [apply scan_reference_data|].
  cbn [In]. intros H.
  repeat (destruct H as [H|H];
          [injection H as <- <-; vm_compute; reflexivity|]).
  destruct H.
Qed.

Lemma text_state_step (st : tstate) (c : ascii) :
  text_state st -> in_scope c = true -> is_char c 38 = false -> is_char c 60 = false ->
  step st c = Some (st, [TChar c]).
Proof.
  intros [-> | [tag ->]] Hc H38 H60.
  - now apply in_scope_step.
  - cbn [step plain_step]. now rewrite H60, H38, Hc.
Qed.

(** What the serializer escapes, the tokenizer reads back: in text ... *)
Lemma scan_escape_text_upto (angles : bool) (st : tstate) (n : nat) :
  text_state st ->
  forall s, (String.length s <= n)%nat -> all_chars in_scope s = true ->
    scan st (escape false angles s) = Some (st, map TChar (chars s)).
Proof.
  intros Hst. induction n as [|n IH]; intros s Hlen Hs.
  - destruct s; [reflexivity | cbn in Hlen; lia].
  - destruct s as [|c s]; [reflexivity|].
    cbn [String.length] in Hlen. cbn [all_chars] in Hs.
    apply andb_true_iff in Hs. destruct Hs as [Hc Hs].
    assert (Hrest : scan st (escape false angles s) = Some (st, map TChar (chars s)))
      by (apply IH; [lia | exact Hs]).
    assert (Href : forall name text,
               In (name, text)
                 [("amp", "&"); ("lt", "<"); ("gt", ">"); ("quot", dq); ("nbsp", nbsp)] ->
               String c "" = text ->
               scan st (("&" ++ name ++ ";") ++ escape false angles s)
               = Some (st, map TChar (chars (String c s)))).
    { intros name text Hin Htext.
      rewrite scan_app, (scan_reference_text st name text Hst Hin). cbn [then_scan].
      rewrite Hrest, <- Htext. reflexivity. }
    cbn [escape]. rewrite andb_false_r. cbn [negb orb]. rewrite !andb_true_r.
    destruct (is_char c 38) eqn:H38.
    { apply (Href "amp" "&"); [cbn; tauto | now rewrite (is_char_eq _ _ H38)]. }
    destruct (is_char c 60) eqn:H60.
    { apply (Href "lt" "<"); [cbn; tauto | now rewrite (is_char_eq _ _ H60)]. }
    destruct (is_char c 62) eqn:H62.
    { apply (Href "gt" ">"); [cbn; tauto | now rewrite (is_char_eq _ _ H62)]. }
    assert (Hplain : scan st (String c (escape false angles s))
                     = Some (st, map TChar (chars (String c s)))).
    { rewrite (scan_cons st st [TChar c]) by (apply (text_state_step st c Hst Hc H38 H60)).
      cbn [then_scan]. now rewrite Hrest. }
    destruct (is_char c 194) eqn:H194; [|exact Hplain].
    destruct s as [|c' s]; [exact Hplain|].
    destruct (is_char c' 160) eqn:H160; [|exact Hplain].
    cbn [String.length] in Hlen. cbn [all_chars] in Hs.
    apply andb_true_iff in Hs. destruct Hs as [_ Hs].
    change ("&nbsp;" ++ escape false angles s)
      with (("&" ++ "nbsp" ++ ";") ++ escape false angles s).
    rewrite scan_app, (scan_reference_text st "nbsp" nbsp Hst) by (cbn; tauto).
    cbn [then_scan]. rewrite (IH s) by (lia || exact Hs).
    rewrite (is_char_eq _ _ H194), (is_char_eq _ _ H160). reflexivity.
Qed.

Lemma scan_escape_data (angles : bool) (s : string) :
  all_chars in_scope s = true ->
  scan Data (escape false angles s) = Some (Data, map TChar (chars s)).
Proof. apply (scan_escape_text_upto angles Data (String.length s)); [now left | lia]. Qed.

Lemma scan_escape_rcdata (angles : bool) (name s : string) :
  all_chars in_scope s = true ->
  scan (RawText name true) (escape false angles s)
  = Some (RawText name true, map TChar (chars s)).
Proof.
  apply (scan_escape_text_upto angles (RawText name true) (String.length s));
    [right; eauto | lia].
Qed.

(** The end tag that closes raw text. *)
Lemma scan_literal (t : token) (next : tstate) (c : ascii) (s : string) :
  scan (Literal (String c s) t next) (String c s) = Some (next, [t]).
Proof.
  revert c. induction s as [|c' s IH]; intros c.
  - cbn [scan step plain_step]. now rewrite Ascii.eqb_refl.
  - rewrite (scan_cons _ (Literal (String c' s) t next) []).
    + cbn [then_scan]. now rewrite IH.
    + cbn [step plain_step]. now rewrite Ascii.eqb_refl.
Qed.

Lemma scan_raw_end (name : string) (escapable : bool) :
  scan (RawText name escapable) ("</" ++ name ++ ">") = Some (Data, [TEnd name]).
Proof.
  cbn [append].
  rewrite (scan_cons _ (Literal ("/" ++ name ++ ">") (TEnd name) Data) []) by reflexivity.
  cbn [then_scan append]. now rewrite scan_literal.
Qed.

(** ... and in an attribute value. *)
Lemma scan_escape_value_upto (angles : bool) (tag : string) attrs (aname : string)
    (n : nat) :
  forall v acc, (String.length v <= n)%nat -> all_chars in_scope v = true ->
    scan (AttributeValue tag attrs aname acc) (escape true angles v)
    = Some (AttributeValue tag attrs aname (acc ++ v), []).
Proof.
  induction n as [|n IH]; intros v acc Hlen Hv.
  - destruct v; [cbn; now rewrite append_nil_r | cbn in Hlen; lia].
  - destruct v as [|c v]; [cbn; now rewrite append_nil_r|].
    cbn [String.length] in Hlen. cbn [all_chars] in Hv.
    apply andb_true_iff in Hv. destruct Hv as [Hc Hv].
    assert (Hrest : forall acc',
               scan (AttributeValue tag attrs aname acc') (escape true angles v)
               = Some (AttributeValue tag attrs aname (acc' ++ v), []))
      by (intros acc'; apply IH; [lia | exact Hv]).
    assert (Href : forall name text,
               In (name, text)
                 [("amp", "&"); ("lt", "<"); ("gt", ">"); ("quot", dq); ("nbsp", nbsp)] ->
               String c "" = text ->
               scan (AttributeValue tag attrs aname acc)
                 (("&" ++ name ++ ";") ++ escape true angles v)
               = Some (AttributeValue tag attrs aname (acc ++ String c v), [])).
    { intros name text Hin Htext.
      rewrite scan_app, (scan_reference_value _ _ _ _ name text Hin). cbn [then_scan].
      rewrite Hrest, <- Htext, append_assoc. reflexivity. }
    cbn [escape]. rewrite andb_true_r. cbn [negb orb].
    destruct (is_char c 38) eqn:H38.
    { apply (Href "amp" "&"); [cbn; tauto | now rewrite (is_char_eq _ _ H38)]. }
    destruct (is_char c 34) eqn:H34.
    { apply (Href "quot" dq); [cbn; tauto | now rewrite (is_char_eq _ _ H34)]. }
    destruct (is_char c 60 && angles)%bool eqn:H60.
    { apply andb_true_iff in H60. destruct H60 as [H60 _].
      apply (Href "lt" "<"); [cbn; tauto | now rewrite (is_char_eq _ _ H60)]. }
    destruct (is_char c 62 && angles)%bool eqn:H62.
    { apply andb_true_iff in H62. destruct H62 as [H62 _].
      apply (Href "gt" ">"); [cbn; tauto | now rewrite (is_char_eq _ _ H62)]. }
    assert (Hplain : scan (AttributeValue tag attrs aname acc)
                       (String c (escape true angles v))
                     = Some (AttributeValue tag attrs aname (acc ++ String c v), [])).
    { rewrite (scan_cons _ _ _ _ _ (value_char_step tag attrs aname acc c Hc H34 H38)).
      cbn [then_scan]. rewrite Hrest. unfold snoc. now rewrite append_assoc. }
    destruct (is_char c 194) eqn:H194; [|exact Hplain].
    destruct v as [|c' v]; [exact Hplain|].
    destruct (is_char c' 160) eqn:H160; [|exact Hplain].
    cbn [String.length] in Hlen. cbn [all_chars] in Hv.
    apply andb_true_iff in Hv. destruct Hv as [_ Hv].
    change ("&nbsp;" ++ escape true angles v)
      with (("&" ++ "nbsp" ++ ";") ++ escape true angles v).
    rewrite scan_app, (scan_reference_value _ _ _ _ "nbsp" nbsp) by (cbn; tauto).
    cbn [then_scan]. rewrite (IH v) by (lia || exact Hv).
    rewrite (is_char_eq _ _ H194), (is_char_eq _ _ H160), append_assoc. reflexivity.
Qed.

Lemma scan_escape_value (angles : bool) (tag : string) attrs (aname acc v : string) :
  all_chars in_scope v = true ->
  scan (AttributeValue tag attrs aname acc) (escape true angles v)
  = Some (AttributeValue tag attrs aname (acc ++ v), []).
Proof. apply (scan_escape_value_upto angles tag attrs aname (String.length v)). lia. Qed.

(** *** The markup of an element *)

(** What the round trip is to preserve of an element. *)
Definition shape (e : element) : el_type * option string :=
  (type e, match type e with text => content e | image => src e end).

(** The markup of an element, up to the way a void element is closed. *)
Definition print_element (closing : string) (e : element) : string :=
  let style := style_text (style e) in
  match type e with
  | image =>
      "<img src=" ++ dq ++ JS.interpolate (src e) ++ dq
        ++ " alt=" ++ dq ++ JS.interpolate (alt e) ++ dq
        ++ " style=" ++ dq ++ style ++ dq ++ closing
  | text =>
      "<" ++ tagName e ++ " style=" ++ dq ++ style ++ dq ++ ">"
        ++ JS.interpolate (content e) ++ "</" ++ tagName e ++ ">"
  end.

Definition element_attributes (e : element) : list (string * string) :=
  match type e with
  | image =>
      [("src", JS.interpolate (src e)); ("alt", JS.interpolate (alt e));
       ("style", style_text (style e))]
  | text => [("style", style_text (style e))]
  end.

(** The elements that have no content and no end tag. *)
Definition is_empty (k : option kind) : bool :=
  match k with
  | Some KMeta | Some KVoid | Some KRule => true
  | _ => false
  end.

(** The tokens that stand for an element, in the markup the exporter
    writes ([raw]) and in the markup the serializer writes: one tag for an
    image, self-closing in the first; a start tag, the characters of the
    content and an end tag for a text, the serializer writing no end tag for
    an element without content. *)
Definition element_tokens (raw : bool) (e : element) : list token :=
  match type e with
  | image => [TStart "img" (element_attributes e) raw]
  | text =>
      (TStart (JS.toLowerCase (tagName e)) (element_attributes e) false
         :: map TChar (chars (JS.interpolate (content e)))
         ++ (if (negb raw && is_empty (kind_of (JS.toLowerCase (tagName e))))%bool
             then [] else [TEnd (JS.toLowerCase (tagName e))]))%list
  end.

Lemma export_element_print (e : element) : export_element e = print_element " />" e.
Proof. unfold export_element, print_element. now destruct (type e). Qed.

(** The elements that are ordinary containers to the tree construction:
    a start tag opens one, the matching end tag closes it, and the text in
    between is read in the data state. *)
Definition is_container (k : option kind) : bool :=
  match k with
  | Some KBlock | Some KPre | Some KList | Some KDef | Some KForm | Some KButton
  | Some KAnchor | Some KNobr | Some KRuby | Some KMarker | Some KForeign
  | Some KSelect | Some KOption | Some KSpan => true
  | _ => false
  end.

(** The containers whose text is read as escapable raw text. *)
Definition is_rcdata (k : option kind) : bool :=
  match k with
  | Some KTitle | Some KTextarea => true
  | _ => false
  end.

(** The elements that hold the content of a text element. *)
Definition holds_text (k : option kind) : bool := (is_container k || is_rcdata k)%bool.

Lemma emit_start_container (name : string) attrs (sc : bool) :
  (is_container (kind_of name) || is_empty (kind_of name))%bool = true ->
  emit_start name attrs sc = Some (Data, [TStart name attrs sc]).
Proof. unfold emit_start. now destruct (kind_of name) as [[]|]. Qed.

Lemma emit_start_rcdata (name : string) attrs (sc : bool) :
  is_rcdata (kind_of name) = true ->
  emit_start name attrs sc = Some (RawText name true, [TStart name attrs sc]).
Proof. unfold emit_start. now destruct (kind_of name) as [[]|]. Qed.

Lemma container_kind (name : string) :
  is_container (kind_of name) = true -> kind_of name <> None.
Proof. now destruct (kind_of name). Qed.

(** The pieces of the markup of an element. *)
Lemma scan_open_quote (name : string) attrs (aname : string) :
  scan (BeforeAttributeValue name attrs aname) dq
  = Some (AttributeValue name attrs aname "", []).
Proof. reflexivity. Qed.

Lemma scan_close_quote (name : string) attrs (aname v : string) :
  scan (AttributeValue name attrs aname v) dq
  = Some (AfterAttributeValue name (add_attribute attrs aname v), []).
Proof. reflexivity. Qed.

Lemma scan_img_src : scan Data "<img src=" = Some (BeforeAttributeValue "img" [] "src", []).
Proof. reflexivity. Qed.

Lemma scan_next_attribute (name : string) attrs :
  (scan (AfterAttributeValue name attrs) " alt="
   = Some (BeforeAttributeValue name attrs "alt", []))
  /\ (scan (AfterAttributeValue name attrs) " style="
      = Some (BeforeAttributeValue name attrs "style", [])).
Proof. split; reflexivity. Qed.

Lemma scan_first_attribute (name : string) :
  scan (TagName name) " style=" = Some (BeforeAttributeValue name [] "style", []).
Proof. reflexivity. Qed.

Lemma scan_close_start (tag : string) attrs :
  (is_container (kind_of tag) || is_empty (kind_of tag))%bool = true ->
  scan (AfterAttributeValue tag attrs) ">" = Some (Data, [TStart tag attrs false]).
Proof.
  intros Htag. cbn [scan step plain_step]. change (is_white ">") with false.
  change (is_char ">" 47) with false. change (is_char ">" 62) with true.
  cbn iota. now rewrite (emit_start_container _ _ _ Htag).
Qed.

Lemma scan_close_start_rcdata (tag : string) attrs :
  is_rcdata (kind_of tag) = true ->
  scan (AfterAttributeValue tag attrs) ">"
  = Some (RawText tag true, [TStart tag attrs false]).
Proof.
  intros Htag. cbn [scan step plain_step]. change (is_white ">") with false.
  change (is_char ">" 47) with false. change (is_char ">" 62) with true.
  cbn iota. now rewrite (emit_start_rcdata _ _ _ Htag).
Qed.

(** How a piece of markup is read inside a quoted attribute value. *)
Definition reads_as_value (markup value : string) : Prop :=
  forall name attrs aname acc,
    scan (AttributeValue name attrs aname acc) markup
    = Some (AttributeValue name attrs aname (acc ++ value), []).

(** The markup of a text element whose parts are read as [style] and
    [content]. *)
Lemma scan_text_markup (tag v style c content : string) :
  tag_ok tag = true -> is_container (kind_of (JS.toLowerCase tag)) = true ->
  reads_as_value v style ->
  scan Data c = Some (Data, map TChar (chars content)) ->
  scan Data ("<" ++ tag ++ " style=" ++ dq ++ v ++ dq ++ ">" ++ c ++ "</" ++ tag ++ ">")
  = Some (Data,
          (TStart (JS.toLowerCase tag) [("style", style)] false
             :: map TChar (chars content) ++ [TEnd (JS.toLowerCase tag)])%list).
Proof.
  intros Htag Hk Hv Hc.
  assert (Hk' : (is_container (kind_of (JS.toLowerCase tag))
                 || is_empty (kind_of (JS.toLowerCase tag)))%bool = true)
    by (now rewrite Hk).
  rewrite then_scan_start.
  rewrite <- (append_assoc "<" tag).
  rewrite then_scan_app, (then_scan_step _ _ _ _ _ (scan_open_tag _ Htag)).
  rewrite then_scan_app, (then_scan_step _ _ _ _ _ (scan_first_attribute _)).
  rewrite then_scan_app, (then_scan_step _ _ _ _ _ (scan_open_quote _ _ _)).
  rewrite then_scan_app, (then_scan_step _ _ _ _ _ (Hv _ _ _ _)).
  rewrite then_scan_app, (then_scan_step _ _ _ _ _ (scan_close_quote _ _ _ _)).
  rewrite then_scan_app, (then_scan_step _ _ _ _ _ (scan_close_start _ _ Hk')).
  rewrite then_scan_app, (then_scan_step _ _ _ _ _ Hc).
  rewrite (then_scan_step _ _ _ _ _ (scan_close_tag _ Htag (container_kind _ Hk))).
  cbn [app add_attribute getAttribute append]. reflexivity.
Qed.

(** The same for an element of escapable raw text, written in lower
    case. *)
Lemma scan_rcdata_markup (tag v style c content : string) :
  tag_ok tag = true -> JS.toLowerCase tag = tag -> is_rcdata (kind_of tag) = true ->
  reads_as_value v style ->
  scan (RawText tag true) c = Some (RawText tag true, map TChar (chars content)) ->
  scan Data ("<" ++ tag ++ " style=" ++ dq ++ v ++ dq ++ ">" ++ c ++ "</" ++ tag ++ ">")
  = Some (Data, (TStart tag [("style", style)] false
                   :: map TChar (chars content) ++ [TEnd tag])%list).
Proof.
  intros Htag Hlow Hk Hv Hc.
  rewrite then_scan_start.
  rewrite <- (append_assoc "<" tag).
  rewrite then_scan_app, (then_scan_step _ _ _ _ _ (scan_open_tag _ Htag)), Hlow.
  rewrite then_scan_app, (then_scan_step _ _ _ _ _ (scan_first_attribute _)).
  rewrite then_scan_app, (then_scan_step _ _ _ _ _ (scan_open_quote _ _ _)).
  rewrite then_scan_app, (then_scan_step _ _ _ _ _ (Hv _ _ _ _)).
  rewrite then_scan_app, (then_scan_step _ _ _ _ _ (scan_close_quote _ _ _ _)).
  rewrite then_scan_app, (then_scan_step _ _ _ _ _ (scan_close_start_rcdata _ _ Hk)).
  rewrite then_scan_app, (then_scan_step _ _ _ _ _ Hc).
  rewrite (then_scan_step _ _ _ _ _ (scan_raw_end tag true)).
  cbn [app add_attribute getAttribute append]. reflexivity.
Qed.

(** The start tag the serializer writes for an element without content. *)
Lemma scan_empty_markup (tag v style : string) :
  tag_ok tag = true -> is_empty (kind_of (JS.toLowerCase tag)) = true ->
  reads_as_value v style ->
  scan Data ("<" ++ tag ++ " style=" ++ dq ++ v ++ dq ++ ">")
  = Some (Data, [TStart (JS.toLowerCase tag) [("style", style)] false]).
Proof.
  intros Htag Hk Hv.
  assert (Hk' : (is_container (kind_of (JS.toLowerCase tag))
                 || is_empty (kind_of (JS.toLowerCase tag)))%bool = true)
    by (rewrite Hk; apply orb_true_r).
  rewrite then_scan_start.
  rewrite <- (append_assoc "<" tag).
  rewrite then_scan_app, (then_scan_step _ _ _ _ _ (scan_open_tag _ Htag)).
  rewrite then_scan_app, (then_scan_step _ _ _ _ _ (scan_first_attribute _)).
  rewrite then_scan_app, (then_scan_step _ _ _ _ _ (scan_open_quote _ _ _)).
  rewrite then_scan_app, (then_scan_step _ _ _ _ _ (Hv _ _ _ _)).
  rewrite then_scan_app, (then_scan_step _ _ _ _ _ (scan_close_quote _ _ _ _)).
  rewrite (then_scan_step _ _ _ _ _ (scan_close_start _ _ Hk')).
  cbn [app add_attribute getAttribute append]. reflexivity.
Qed.

(** The markup of an image whose parts are read as [src], [alt] and
    [style]. *)
Lemma scan_image_markup (closing : string) (sc : bool) (s src a alt v style : string) :
  (forall attrs, scan (AfterAttributeValue "img" attrs) closing
                 = Some (Data, [TStart "img" attrs sc])) ->
  reads_as_value s src -> reads_as_value a alt -> reads_as_value v style ->
  scan Data ("<img src=" ++ dq ++ s ++ dq ++ " alt=" ++ dq ++ a ++ dq
               ++ " style=" ++ dq ++ v ++ dq ++ closing)
  = Some (Data, [TStart "img" [("src", src); ("alt", alt); ("style", style)] sc]).
Proof.
  intros Hclose Hs Ha Hv.
  rewrite then_scan_start.
  rewrite then_scan_app, (then_scan_step _ _ _ _ _ scan_img_src).
  rewrite then_scan_app, (then_scan_step _ _ _ _ _ (scan_open_quote _ _ _)).
  rewrite then_scan_app, (then_scan_step _ _ _ _ _ (Hs _ _ _ _)).
  rewrite then_scan_app, (then_scan_step _ _ _ _ _ (scan_close_quote _ _ _ _)).
  rewrite then_scan_app,
    (then_scan_step _ _ _ _ _ (proj1 (scan_next_attribute _ _))).
  rewrite then_scan_app, (then_scan_step _ _ _ _ _ (scan_open_quote _ _ _)).
  rewrite then_scan_app, (then_scan_step _ _ _ _ _ (Ha _ _ _ _)).
  rewrite then_scan_app, (then_scan_step _ _ _ _ _ (scan_close_quote _ _ _ _)).
  rewrite then_scan_app,
    (then_scan_step _ _ _ _ _ (proj2 (scan_next_attribute _ _))).
  rewrite then_scan_app, (then_scan_step _ _ _ _ _ (scan_open_quote _ _ _)).
  rewrite then_scan_app, (then_scan_step _ _ _ _ _ (Hv _ _ _ _)).
  rewrite then_scan_app, (then_scan_step _ _ _ _ _ (scan_close_quote _ _ _ _)).
  rewrite (then_scan_step _ _ _ _ _ (Hclose _)).
  reflexivity.
Qed.

Lemma value_reads (v : string) : all_chars value_char v = true -> reads_as_value v v.
Proof. intros H name attrs aname acc. now apply scan_value. Qed.

Lemma escaped_reads (angles : bool) (v : string) :
  all_chars in_scope v = true -> reads_as_value (escape true angles v) v.
Proof. intros H name attrs aname acc. now apply scan_escape_value. Qed.

(** *** Readable elements *)

Fixpoint attributes_eqb (a b : list (string * string)) : bool :=
  match a, b with
  | [], [] => true
  | (k, v) :: a', (k', v') :: b' =>
      (String.eqb k k' && String.eqb v v' && attributes_eqb a' b')%bool
  | _, _ => false
  end.

Definition token_eqb (a b : token) : bool :=
  match a, b with
  | TDoctype, TDoctype => true
  | TStart n at1 s, TStart n' at2 s' =>
      (String.eqb n n' && attributes_eqb at1 at2 && Bool.eqb s s')%bool
  | TEnd n, TEnd n' => String.eqb n n'
  | TChar c, TChar c' => Ascii.eqb c c'
  | _, _ => false
  end.

Fixpoint tokens_eqb (a b : list token) : bool :=
  match a, b with
  | [], [] => true
  | x :: a', y :: b' => (token_eqb x y && tokens_eqb a' b')%bool
  | _, _ => false
  end.

Lemma attributes_eqb_eq (a b : list (string * string)) :
  attributes_eqb a b = true <-> a = b.
Proof.
  revert b. induction a as [|[k v] a IH]; intros [|[k' v'] b]; cbn [attributes_eqb];
    try (split; [discriminate | discriminate]); [split; reflexivity|].
  rewrite !andb_true_iff, !String.eqb_eq, IH. split.
  - intros [[-> ->] ->]. reflexivity.
  - intros H. injection H as -> -> ->. auto.
Qed.

Lemma token_eqb_eq (a b : token) : token_eqb a b = true <-> a = b.
Proof.
  destruct a, b; cbn [token_eqb]; try (split; [discriminate | discriminate]).
  - split; reflexivity.
  - rewrite !andb_true_iff, String.eqb_eq, attributes_eqb_eq, Bool.eqb_true_iff. split.
    + intros [[-> ->] ->]. reflexivity.
    + intros H. injection H as -> -> ->. auto.
  - rewrite String.eqb_eq. split; [now intros -> | now intros [= ->]].
  - rewrite Ascii.eqb_eq. split; [now intros -> | now intros [= ->]].
Qed.

Lemma tokens_eqb_eq (a b : list token) : tokens_eqb a b = true <-> a = b.
Proof.
  revert b. induction a as [|x a IH]; intros [|y b]; cbn [tokens_eqb];
    try (split; [discriminate | discriminate]); [split; reflexivity|].
  rewrite andb_true_iff, token_eqb_eq, IH. split.
  - intros [-> ->]. reflexivity.
  - intros H. injection H as -> ->. auto.
Qed.

(** The tokenizer reads the markup the exporter writes for the element as
    the element: no part of it is taken for a tag, for the end of an
    attribute value or for a character reference. *)
Definition reads_raw (e : element) : bool :=
  match scan Data (print_element " />" e) with
  | Some (Data, out) => tokens_eqb out (element_tokens true e)
  | _ => false
  end.

(** The first line feed of a [pre], [listing] or [textarea] element is
    dropped. *)
Definition lf_first (name content : string) : bool :=
  match content with
  | String c _ => (drops_first_lf name && is_char c 10)%bool
  | EmptyString => false
  end.

(** What the tag of a text element has to do with its content: an
    element without content and end tag has none, and another holds it as
    its text, not dropping a first line feed. *)
Definition fits (name content : string) : bool :=
  if is_empty (kind_of name) then JS.falsy content
  else (holds_text (kind_of name) && negb (lf_first name content))%bool.

(** The elements whose export is read back as written.  The markup holds
    neither NUL nor CR and is read as the element.  A text has a content
    and a tag name that the tokenizer reads as one, that the sanitizer
    keeps, and that fits the content; an image has a [src] and an [alt], and
    a [src] that the sanitizer keeps. *)
Definition readable (e : element) : bool :=
  (all_chars in_scope (print_element " />" e) && reads_raw e
   && match type e with
      | text =>
          match content e with
          | Some c =>
              tag_ok (tagName e)
              && negb (mem (JS.toLowerCase (tagName e)) dangerous)
              && fits (JS.toLowerCase (tagName e)) c
          | None => false
          end
      | image =>
          match src e, alt e with
          | Some s, Some _ => negb (JS.includes "javascript:" (JS.toLowerCase s))
          | _, _ => false
          end
      end)%bool.

Definition all_readable (d : Document) : bool := forallb readable d.

Lemma reads_raw_scan (e : element) :
  reads_raw e = true ->
  scan Data (print_element " />" e) = Some (Data, element_tokens true e).
Proof.
  unfold reads_raw. destruct (scan Data (print_element " />" e)) as [[st out]|];
    [|discriminate].
  destruct st; try discriminate. intros H. apply tokens_eqb_eq in H. now subst.
Qed.

Ltac split_andb :=
  repeat match goal with
    | H : (_ && _)%bool = true |- _ =>
        let H1 := fresh H in apply andb_true_iff in H; destruct H as [H H1]
    end.

Lemma readable_text (e : element) :
  type e = text -> readable e = true ->
  exists c, content e = Some c
    /\ tag_ok (tagName e) = true
    /\ mem (JS.toLowerCase (tagName e)) dangerous = false
    /\ fits (JS.toLowerCase (tagName e)) c = true
    /\ all_chars in_scope (style_text (style e)) = true
    /\ all_chars in_scope c = true
    /\ scan Data (print_element " />" e) = Some (Data, element_tokens true e).
Proof.
  intros Ht H. unfold readable in H. rewrite Ht in H.
  destruct (content e) as [c|] eqn:Hc; [|now rewrite andb_false_r in H].
  apply andb_true_iff in H. destruct H as [H Hrest].
  apply andb_true_iff in H. destruct H as [Hscope Hraw].
  apply andb_true_iff in Hrest. destruct Hrest as [Hrest Hfit].
  apply andb_true_iff in Hrest. destruct Hrest as [Htag Hd].
  apply negb_true_iff in Hd.
  unfold print_element in Hscope. rewrite Ht, Hc in Hscope. cbn [JS.interpolate] in Hscope.
  rewrite !all_chars_app in Hscope. split_andb.
  exists c. repeat split; try assumption. now apply reads_raw_scan.
Qed.

(** The two ways a tag fits a content. *)
Lemma fits_cases (name c : string) :
  fits name c = true ->
  (is_empty (kind_of name) = true /\ c = "")
  \/ (is_empty (kind_of name) = false /\ holds_text (kind_of name) = true
      /\ lf_first name c = false).
Proof.
  unfold fits. destruct (is_empty (kind_of name)).
  - intros H. left. split; [reflexivity|]. now destruct c.
  - intros H. apply andb_true_iff in H. destruct H as [Hh Hlf].
    apply negb_true_iff in Hlf. right. now repeat split.
Qed.

Lemma readable_image (e : element) :
  type e = image -> readable e = true ->
  exists s a, src e = Some s /\ alt e = Some a
    /\ JS.includes "javascript:" (JS.toLowerCase s) = false
    /\ all_chars in_scope s = true
    /\ all_chars in_scope a = true
    /\ all_chars in_scope (style_text (style e)) = true
    /\ scan Data (print_element " />" e) = Some (Data, element_tokens true e).
Proof.
  intros Ht H. unfold readable in H. rewrite Ht in H.
  destruct (src e) as [s|] eqn:Hs; [|now rewrite andb_false_r in H].
  destruct (alt e) as [a|] eqn:Ha; [|now rewrite andb_false_r in H].
  apply andb_true_iff in H. destruct H as [H Hj].
  apply andb_true_iff in H. destruct H as [Hscope Hraw].
  apply negb_true_iff in Hj.
  unfold print_element in Hscope. rewrite Ht, Hs, Ha in Hscope.
  cbn [JS.interpolate] in Hscope.
  rewrite !all_chars_app in Hscope. split_andb.
  exists s, a. repeat split; try assumption. now apply reads_raw_scan.
Qed.

(** *** Markup that needs no escaping *)

(** The tag names of text elements whose tree construction has no rule of
    its own beyond closing an open paragraph. *)
Definition text_tags : list string := "span" :: block_tags.

(** The style object is written into a quoted attribute as it is. *)
Definition style_ok (s : style_map) : bool :=
  forallb (fun kv => (all_chars plain_char (css_name (fst kv))
                      && all_chars plain_char (snd kv))%bool) s.

(** Elements that are readable whatever the tokenizer does with [&], [<],
    [>] and the quote, because they hold none: text in one of the tags above
    whose content is free of them, images whose [src] and [alt] are free of
    them and whose [src] the sanitizer keeps, and in both a style free of
    them. *)
Definition exportable (e : element) : bool :=
  match type e with
  | text =>
      (mem (tagName e) text_tags
       && match content e with Some c => all_chars text_char c | None => false end
       && style_ok (style e))%bool
  | image =>
      (match src e, alt e with
       | Some s, Some a =>
           all_chars plain_char s && all_chars plain_char a
           && negb (JS.includes "javascript:" (JS.toLowerCase s))
       | _, _ => false
       end
       && style_ok (style e))%bool
  end.

Definition all_exportable (d : Document) : bool := forallb exportable d.

Lemma join_plain (sep : string) (l : list string) :
  all_chars plain_char sep = true ->
  forallb (all_chars plain_char) l = true ->
  all_chars plain_char (JS.join sep l) = true.
Proof.
  intros Hsep. induction l as [|x l IH]; [reflexivity|].
  intros H. cbn in H. apply andb_true_iff in H. destruct H as [Hx Hl].
  cbn. destruct l as [|y l]; [exact Hx|].
  rewrite !all_chars_app, Hx, Hsep. cbn [andb]. now apply IH.
Qed.

Lemma style_text_plain (s : style_map) :
  style_ok s = true -> all_chars plain_char (style_text s) = true.
Proof.
  intros H. unfold style_text. apply join_plain; [reflexivity|].
  unfold style_ok in H. induction s as [|[k v] s IH]; [reflexivity|].
  cbn [forallb map fst snd] in H |- *. apply andb_true_iff in H. destruct H as [Hkv Hs].
  apply andb_true_iff in Hkv. destruct Hkv as [Hk Hv].
  rewrite !all_chars_app, Hk, Hv. cbn. now apply IH.
Qed.

(** What the tokenizer and the tree construction need to know of a text
    tag. *)
Definition text_tag (tag : string) : Prop :=
  tag_ok tag = true
  /\ JS.toLowerCase tag = tag
  /\ (kind_of tag = Some KBlock \/ kind_of tag = Some KSpan)
  /\ all_chars in_scope tag = true.

Lemma text_tags_ok (tag : string) : mem tag text_tags = true -> text_tag tag.
Proof.
  unfold mem, text_tags, block_tags. cbn [existsb]. intros H.
  repeat match type of H with
    | (String.eqb ?a ?b || _)%bool = true =>
        let E := fresh "E" in
        destruct (String.eqb a b) eqn:E;
          [apply String.eqb_eq in E; subst a; clear H;
           repeat split; try reflexivity; (left + right); reflexivity
          | clear E; cbn [orb] in H]
    end.
  discriminate H.
Qed.

Lemma exportable_text (e : element) :
  type e = text -> exportable e = true ->
  exists c, content e = Some c
    /\ text_tag (tagName e)
    /\ all_chars text_char c = true
    /\ all_chars plain_char (style_text (style e)) = true.
Proof.
  intros Ht H. unfold exportable in H. rewrite Ht in H.
  apply andb_true_iff in H. destruct H as [H Hs].
  apply andb_true_iff in H. destruct H as [Htag Hc].
  destruct (content e) as [c|]; [|discriminate].
  exists c. split; [reflexivity|]. split; [now apply text_tags_ok|].
  split; [exact Hc | now apply style_text_plain].
Qed.

Lemma exportable_image (e : element) :
  type e = image -> exportable e = true ->
  exists s a, src e = Some s /\ alt e = Some a
    /\ all_chars plain_char s = true
    /\ all_chars plain_char a = true
    /\ JS.includes "javascript:" (JS.toLowerCase s) = false
    /\ all_chars plain_char (style_text (style e)) = true.
Proof.
  intros Ht H. unfold exportable in H. rewrite Ht in H.
  apply andb_true_iff in H. destruct H as [H Hs].
  destruct (src e) as [s|]; [|discriminate].
  destruct (alt e) as [a|]; [|discriminate].
  apply andb_true_iff in H. destruct H as [H Hj].
  apply andb_true_iff in H. destruct H as [Hsrc Halt].
  exists s, a. repeat split; try assumption.
  - now apply negb_true_iff.
  - now apply style_text_plain.
Qed.

Lemma plain_value (s : string) :
  all_chars plain_char s = true -> all_chars value_char s = true.
Proof. apply all_chars_weaken, plain_value_char. Qed.

Lemma plain_scope (s : string) :
  all_chars plain_char s = true -> all_chars in_scope s = true.
Proof. apply all_chars_weaken, plain_in_scope. Qed.

Lemma text_data (s : string) :
  all_chars text_char s = true -> all_chars data_char s = true.
Proof. apply all_chars_weaken, text_data_char. Qed.

Lemma text_scope (s : string) :
  all_chars text_char s = true -> all_chars in_scope s = true.
Proof. apply all_chars_weaken, text_in_scope. Qed.

Lemma tokens_eqb_refl (a : list token) : tokens_eqb a a = true.
Proof. now apply tokens_eqb_eq. Qed.

(** Such elements are readable. *)
Lemma exportable_readable (e : element) : exportable e = true -> readable e = true.
Proof.
  intros He. unfold readable, reads_raw, print_element, element_tokens, element_attributes.
  destruct (type e) eqn:Ht.
  - destruct (exportable_text e Ht He) as (c & Hc & (Htag & Hlow & Hk & Hin) & Hcc & Hst).
    rewrite Hc. cbn [JS.interpolate]. rewrite Hlow.
    assert (Hcont : is_container (kind_of (tagName e)) = true)
      by (now destruct Hk as [-> | ->]).
    rewrite <- Hlow in Hcont.
    rewrite (scan_text_markup (tagName e) _ _ _ _ Htag Hcont
               (value_reads _ (plain_value _ Hst)) (scan_data _ (text_data _ Hcc))).
    rewrite Hlow, tokens_eqb_refl, Htag.
    rewrite !all_chars_app, Hin, (plain_scope _ Hst), (text_scope _ Hcc).
    assert (Hd : mem (tagName e) dangerous = false).
    { unfold dangerous, mem. cbn [existsb].
      repeat (apply orb_false_iff; split); try reflexivity;
        apply String.eqb_neq; intros E; rewrite E in Hk; destruct Hk; discriminate. }
    assert (Hfit : fits (tagName e) c = true).
    { unfold fits, holds_text, lf_first, drops_first_lf.
      destruct Hk as [-> | ->]; now destruct c. }
    now rewrite Hd, Hfit.
  - destruct (exportable_image e Ht He) as (s & a & Hs & Ha & Hsp & Hap & Hj & Hst).
    rewrite Hs, Ha. cbn [JS.interpolate].
    rewrite (scan_image_markup " />" true s s a a _ _ (fun _ => eq_refl)
               (value_reads _ (plain_value _ Hsp)) (value_reads _ (plain_value _ Hap))
               (value_reads _ (plain_value _ Hst))).
    rewrite tokens_eqb_refl, Hj.
    rewrite !all_chars_app, (plain_scope _ Hst), (plain_scope _ Hsp), (plain_scope _ Hap).
    reflexivity.
Qed.

Lemma tag_ok_scope (tag : string) : tag_ok tag = true -> all_chars in_scope tag = true.
Proof.
  destruct tag as [|c0 r]; [discriminate|]. cbn [tag_ok all_chars]. intros H.
  apply andb_true_iff in H. destruct H as [Hc Hr].
  destruct (tag_char_step c0 (proj2 (alpha_lower c0 Hc))) as (_ & _ & _ & ->).
  cbn [andb]. apply (all_chars_weaken tag_char); [|exact Hr].
  intros c Ht. now destruct (tag_char_step c Ht) as (_ & _ & _ & ->).
Qed.

(** A text in a container is readable when its content holds neither [&]
    nor [<] and its style neither [&] nor the quote, whatever else they
    hold. *)
Lemma unescaped_readable (e : element) (c : string) :
  type e = text -> content e = Some c ->
  tag_ok (tagName e) = true ->
  mem (JS.toLowerCase (tagName e)) dangerous = false ->
  is_container (kind_of (JS.toLowerCase (tagName e))) = true ->
  lf_first (JS.toLowerCase (tagName e)) c = false ->
  all_chars data_char c = true ->
  all_chars value_char (style_text (style e)) = true ->
  readable e = true.
Proof.
  intros Ht Hc Htag Hd Hk Hlf Hcc Hst.
  assert (Hcs : all_chars in_scope c = true).
  { apply (all_chars_weaken data_char); [|exact Hcc].
    intros x Hx. unfold data_char in Hx. apply andb_true_iff in Hx.
    destruct Hx as [Hx _]. apply andb_true_iff in Hx. tauto. }
  assert (Hss : all_chars in_scope (style_text (style e)) = true).
  { apply (all_chars_weaken value_char); [|exact Hst].
    intros x Hx. unfold value_char in Hx. apply andb_true_iff in Hx.
    destruct Hx as [Hx _]. apply andb_true_iff in Hx. tauto. }
  assert (Hfit : fits (JS.toLowerCase (tagName e)) c = true).
  { unfold fits, holds_text. rewrite Hk, Hlf.
    now destruct (kind_of (JS.toLowerCase (tagName e))) as [[]|]. }
  unfold readable, reads_raw, print_element, element_tokens, element_attributes.
  rewrite Ht, Hc. cbn [JS.interpolate].
  rewrite (scan_text_markup (tagName e) _ _ _ _ Htag Hk (value_reads _ Hst)
             (scan_data _ Hcc)).
  cbn [negb andb]. rewrite tokens_eqb_refl, Htag, Hd, Hfit.
  now rewrite !all_chars_app, (tag_ok_scope _ Htag), Hss, Hcs.
Qed.

Lemma all_exportable_readable (d : Document) :
  all_exportable d = true -> all_readable d = true.
Proof.
  unfold all_exportable, all_readable. rewrite !forallb_forall.
  intros H e He. apply exportable_readable, H, He.
Qed.

(** *** The tokens of an exported document *)

(** The separator [join] puts between the elements. *)
Definition sep : string := nl ++ "    ".

(** The markup of the elements of a document, [pr] being the markup of
    one. *)
Fixpoint following (pr : element -> string) (l : Document) : string :=
  match l with
  | [] => ""
  | e :: l' => sep ++ pr e ++ following pr l'
  end.

Definition body_string (pr : element -> string) (d : Document) : string :=
  match d with
  | [] => ""
  | e :: l => pr e ++ following pr l
  end.

Definition body_tokens (sc : bool) (d : Document) : list token :=
  match d with
  | [] => []
  | e :: l =>
      (element_tokens sc e
         ++ flat_map (fun e => map TChar (chars sep) ++ element_tokens sc e) l)%list
  end.

Lemma join_following (pr : element -> string) (e : element) (l : Document) :
  JS.join sep (map pr (e :: l)) = pr e ++ following pr l.
Proof.
  revert e. induction l as [|e' l IH]; intros e.
  - cbn. now rewrite append_nil_r.
  - change (JS.join sep (map pr (e :: e' :: l)))
      with (pr e ++ sep ++ JS.join sep (map pr (e' :: l))).
    now rewrite IH.
Qed.

Lemma export_body (d : Document) :
  export d = skeleton_head ++ body_string (print_element " />") d ++ skeleton_tail.
Proof.
  unfold export. f_equal. f_equal. destruct d as [|e l]; [reflexivity|].
  cbn [body_string]. rewrite <- join_following. fold sep.
  f_equal. apply map_ext. intros a. apply export_element_print.
Qed.

Lemma scan_sep : scan Data sep = Some (Data, map TChar (chars sep)).
Proof. reflexivity. Qed.

Lemma scan_following (pr : element -> string) (sc : bool) (l : Document) :
  (forall e, In e l -> scan Data (pr e) = Some (Data, element_tokens sc e)) ->
  scan Data (following pr l)
  = Some (Data, flat_map (fun e => map TChar (chars sep) ++ element_tokens sc e)%list l).
Proof.
  induction l as [|e l IH]; intros H; [reflexivity|].
  cbn [following flat_map].
  rewrite then_scan_start.
  rewrite then_scan_app, (then_scan_step _ _ _ _ _ scan_sep).
  rewrite then_scan_app, (then_scan_step _ _ _ _ _ (H e (or_introl eq_refl))).
  rewrite (then_scan_step _ _ _ _ _ (IH (fun x Hx => H x (or_intror Hx)))).
  rewrite ?app_nil_l, <- ?app_assoc. reflexivity.
Qed.

Lemma scan_body (pr : element -> string) (sc : bool) (d : Document) :
  (forall e, In e d -> scan Data (pr e) = Some (Data, element_tokens sc e)) ->
  scan Data (body_string pr d) = Some (Data, body_tokens sc d).
Proof.
  intros H. destruct d as [|e l]; [reflexivity|].
  cbn [body_string body_tokens].
  rewrite then_scan_start.
  rewrite then_scan_app, (then_scan_step _ _ _ _ _ (H e (or_introl eq_refl))).
  rewrite (then_scan_step _ _ _ _ _
             (scan_following pr sc l (fun x Hx => H x (or_intror Hx)))).
  rewrite ?app_nil_l, <- ?app_assoc. reflexivity.
Qed.

Definition tokens_of (s : string) : list token :=
  match scan Data s with Some (_, out) => out | None => [] end.

Definition head_tokens : list token := Eval vm_compute in tokens_of skeleton_head.
Definition tail_tokens : list token := Eval vm_compute in tokens_of skeleton_tail.

Lemma scan_skeleton_head : scan Data skeleton_head = Some (Data, head_tokens).
Proof. vm_compute. reflexivity. Qed.

Lemma scan_skeleton_tail : scan Data skeleton_tail = Some (Data, tail_tokens).
Proof. vm_compute. reflexivity. Qed.

Lemma tokenize_pieces (a b c : string) (ta tb tc : list token) :
  scan Data a = Some (Data, ta) ->
  scan Data b = Some (Data, tb) ->
  scan Data c = Some (Data, tc) ->
  tokenize (a ++ b ++ c) = Some (ta ++ tb ++ tc)%list.
Proof.
  intros Ha Hb Hc. unfold tokenize.
  rewrite then_scan_start.
  rewrite then_scan_app, (then_scan_step _ _ _ _ _ Ha).
  rewrite then_scan_app, (then_scan_step _ _ _ _ _ Hb).
  rewrite (then_scan_step _ _ _ _ _ Hc).
  rewrite ?app_nil_l, <- ?app_assoc. reflexivity.
Qed.

Lemma readable_scan (e : element) :
  readable e = true ->
  scan Data (print_element " />" e) = Some (Data, element_tokens true e).
Proof.
  intros H. destruct (type e) eqn:Ht.
  - now destruct (readable_text e Ht H) as (c & _ & _ & _ & _ & _ & _ & Hscan).
  - now destruct (readable_image e Ht H) as (s & a & _ & _ & _ & _ & _ & _ & Hscan).
Qed.

Lemma all_readable_In (d : Document) :
  all_readable d = true -> forall e, In e d -> readable e = true.
Proof. unfold all_readable. now rewrite forallb_forall. Qed.

(** The exporter writes markup the tokenizer reads without an error. *)
Lemma tokenize_export (d : Document) :
  all_readable d = true ->
  tokenize (export d) = Some (head_tokens ++ body_tokens true d ++ tail_tokens)%list.
Proof.
  intros H. rewrite export_body.
  apply tokenize_pieces;
    [apply scan_skeleton_head | | apply scan_skeleton_tail].
  apply scan_body. intros e He. apply readable_scan. now apply (all_readable_In d).
Qed.

(** The markup the serializer writes for an element. *)
Definition print_serial (angles : bool) (e : element) : string :=
  let style := escape true angles (style_text (style e)) in
  match type e with
  | image =>
      "<img src=" ++ dq ++ escape true angles (JS.interpolate (src e)) ++ dq
        ++ " alt=" ++ dq ++ escape true angles (JS.interpolate (alt e)) ++ dq
        ++ " style=" ++ dq ++ style ++ dq ++ ">"
  | text =>
      if is_empty (kind_of (JS.toLowerCase (tagName e)))
      then "<" ++ JS.toLowerCase (tagName e) ++ " style=" ++ dq ++ style ++ dq ++ ">"
      else
        "<" ++ JS.toLowerCase (tagName e) ++ " style=" ++ dq ++ style ++ dq ++ ">"
          ++ escape false angles (JS.interpolate (content e))
          ++ "</" ++ JS.toLowerCase (tagName e) ++ ">"
  end.

(** It is read as the element, whatever the strings of the element. *)
Lemma scan_serial (angles : bool) (e : element) :
  readable e = true ->
  scan Data (print_serial angles e) = Some (Data, element_tokens false e).
Proof.
  intros H. unfold print_serial, element_tokens, element_attributes.
  destruct (type e) eqn:Ht.
  - destruct (readable_text e Ht H) as (c & Hc & Htag & _ & Hfit & Hst & Hcc & _).
    rewrite Hc. cbn [JS.interpolate negb andb].
    destruct (fits_cases _ _ Hfit) as [[Hemp ->] | (Hemp & Hh & _)]; rewrite Hemp.
    + rewrite <- (toLowerCase_twice (tagName e)) in Hemp.
      rewrite (scan_empty_markup _ _ _ (tag_ok_lower _ Htag) Hemp
                 (escaped_reads angles _ Hst)).
      now rewrite toLowerCase_twice.
    + apply orb_true_iff in Hh. destruct Hh as [Hk | Hk].
      * rewrite <- (toLowerCase_twice (tagName e)) in Hk.
        rewrite (scan_text_markup _ _ _ _ _ (tag_ok_lower _ Htag) Hk
                   (escaped_reads angles _ Hst) (scan_escape_data angles _ Hcc)).
        now rewrite toLowerCase_twice.
      * apply (scan_rcdata_markup _ _ _ _ _ (tag_ok_lower _ Htag)
                 (toLowerCase_twice _) Hk (escaped_reads angles _ Hst)
                 (scan_escape_rcdata angles _ _ Hcc)).
  - destruct (readable_image e Ht H) as (s & a & Hs & Ha & _ & Hsc & Hac & Hst & _).
    rewrite Hs, Ha. cbn [JS.interpolate].
    apply (scan_image_markup ">" false); try (now apply escaped_reads).
    reflexivity.
Qed.

(** *** Tree construction on those tokens *)

Section Trees.

Variable cssom : string -> css.
Variable angles : bool.

(** The node the parser builds for a readable element. *)
Definition node_of (e : element) : node :=
  match type e with
  | image => make_element cssom "img" (element_attributes e) []
  | text =>
      make_element cssom (JS.toLowerCase (tagName e)) (element_attributes e)
        (match JS.interpolate (content e) with
         | EmptyString => []
         | c => [TextNode c]
         end)
  end.

Lemma construct_all_app (b : builder) (a c : list token) :
  construct_all cssom b (a ++ c)
  = match construct_all cssom b a with
    | Some b' => construct_all cssom b' c
    | None => None
    end.
Proof.
  revert b. induction a as [|t a IH]; intros b; cbn; [reflexivity|].
  destruct (construct cssom b t); [apply IH | reflexivity].
Qed.

Definition body_like (m : mode) : Prop := m = InFragment \/ m = InBody.

Definition set_children (f : frame) (ch : list node) : frame :=
  {| f_name := f_name f; f_attrs := f_attrs f; f_children := ch |}.

Definition insert_text (s : string) (ch : list node) : list node :=
  fold_left (fun acc c => insert_char c acc) (chars s) ch.

(** The text [s] does not lose a first line feed in the frame [f]. *)
Definition keeps_first (f : frame) (s : string) : Prop :=
  f_children f <> [] \/ lf_first (f_name f) s = false.

Lemma construct_char (m : mode) (h : list node) (f : frame) (rest : list frame)
    (c : ascii) (s : string) :
  body_like m -> keeps_first f (String c s) ->
  construct cssom (mkBuilder m h (f :: rest)) (TChar c)
  = Some (mkBuilder m h (set_children f (insert_char c (f_children f)) :: rest)).
Proof.
  intros Hm Hk.
  assert (Hin : in_container cssom f rest (TChar c)
                = Some (set_children f (insert_char c (f_children f)) :: rest)).
  { unfold in_container, keeps_first, lf_first in *.
    destruct (f_children f); [|reflexivity].
    destruct Hk as [Hk | ->]; [now destruct Hk | reflexivity]. }
  destruct Hm as [-> | ->]; cbn [construct b_mode b_stack]; now rewrite Hin.
Qed.

Lemma insert_char_some (c : ascii) (ch : list node) : insert_char c ch <> [].
Proof. destruct ch as [|[d|d|n a st k t] ch]; discriminate. Qed.

Lemma construct_chars (m : mode) (h : list node) (s : string) :
  body_like m ->
  forall (f : frame) (rest : list frame),
    keeps_first f s ->
    construct_all cssom (mkBuilder m h (f :: rest)) (map TChar (chars s))
    = Some (mkBuilder m h (set_children f (insert_text s (f_children f)) :: rest)).
Proof.
  intros Hm. induction s as [|c s IH]; intros f rest Hk.
  - cbn. now destruct f.
  - cbn [chars map construct_all]. rewrite (construct_char m h f rest c s Hm Hk).
    rewrite IH; [reflexivity|]. left. cbn [set_children f_children].
    apply insert_char_some.
Qed.

Lemma insert_text_after_text (s d : string) (ch : list node) :
  insert_text s (TextNode d :: ch) = TextNode (d ++ s) :: ch.
Proof.
  unfold insert_text. revert d. induction s as [|c s IH]; intros d; cbn.
  - now rewrite append_nil_r.
  - rewrite IH. unfold snoc. now rewrite append_assoc.
Qed.

Lemma insert_text_new (c : ascii) (s : string) (ch : list node) :
  match ch with TextNode _ :: _ => False | _ => True end ->
  insert_text (String c s) ch = TextNode (String c s) :: ch.
Proof.
  intros H. unfold insert_text. cbn [chars fold_left].
  assert (Hfirst : insert_char c ch = TextNode (String c "") :: ch).
  { destruct ch as [|[d|d|n a st k t] ch]; try reflexivity. destruct H. }
  rewrite Hfirst. apply (insert_text_after_text s (String c "") ch).
Qed.

Lemma is_skeleton_container (tag : string) :
  (holds_text (kind_of tag) || is_empty (kind_of tag))%bool = true ->
  is_skeleton tag = false.
Proof. unfold is_skeleton, holds_text. now destruct (kind_of tag) as [[]|]. Qed.

(** A container starts as a child of the poster [div] ... *)
Lemma in_container_start (name : string) attrs (f c0 : frame) :
  holds_text (kind_of name) = true -> f_name f = "div" ->
  in_container cssom f [c0] (TStart name attrs false)
  = Some [mkFrame name attrs []; f; c0].
Proof.
  intros Hk Hf. unfold in_container, open_unless. cbn [open_names]. rewrite Hf.
  change (text_only "div") with false. cbv iota. unfold holds_text in Hk.
  destruct (kind_of name) as [[]|]; try discriminate Hk; try reflexivity.
  change (mem "div" headings) with false. now rewrite andb_false_r.
Qed.

(** An element without content is a child of the poster [div] at once,
    and its end tag is ignored. *)
Lemma in_container_empty (name : string) attrs (f c0 : frame) :
  is_empty (kind_of name) = true -> f_name f = "div" ->
  in_container cssom f [c0] (TStart name attrs false)
  = Some [add_child (make_element cssom name attrs []) f; c0].
Proof.
  intros Hk Hf. unfold in_container. cbn [open_names]. rewrite Hf.
  change (text_only "div") with false. cbv iota.
  destruct (kind_of name) as [[]|]; try discriminate Hk; reflexivity.
Qed.

Lemma in_container_ignored (name : string) (f : frame) (rest : list frame) :
  is_empty (kind_of name) = true ->
  in_container cssom f rest (TEnd name) = Some (f :: rest).
Proof.
  intros Hk. unfold in_container, is_void.
  destruct (kind_of name) as [[]|]; try discriminate Hk; reflexivity.
Qed.

(** ... and ends at its end tag. *)
Lemma in_container_end (name : string) attrs (ch : list node) (f : frame)
    (rest : list frame) :
  is_void name = false ->
  in_container cssom (mkFrame name attrs ch) (f :: rest) (TEnd name)
  = Some (add_child (make_element cssom name attrs (rev ch)) f :: rest).
Proof.
  intros Hv. unfold in_container. cbn [f_name]. now rewrite Hv, String.eqb_refl.
Qed.

Lemma container_not_void (name : string) :
  holds_text (kind_of name) = true -> is_void name = false.
Proof. unfold is_void, holds_text. now destruct (kind_of name) as [[]|]. Qed.

Lemma keeps_first_div (f : frame) (s : string) : f_name f = "div" -> keeps_first f s.
Proof. intros Hf. right. rewrite Hf. now destruct s. Qed.

(** A readable element read as a child of the poster [div]. *)
Lemma construct_element (m : mode) (h : list node) (sc : bool) (e : element)
    (f c0 : frame) :
  body_like m -> f_name f = "div" -> readable e = true ->
  construct_all cssom (mkBuilder m h [f; c0]) (element_tokens sc e)
  = Some (mkBuilder m h [add_child (node_of e) f; c0]).
Proof.
  intros Hm Hf He. unfold element_tokens, node_of.
  destruct (type e) eqn:Ht.
  - destruct (readable_text e Ht He) as (c & Hc & Htag & _ & Hfit & _).
    rewrite Hc. cbn [JS.interpolate].
    generalize (element_attributes e). intros attrs.
    set (name := JS.toLowerCase (tagName e)) in *.
    destruct (fits_cases _ _ Hfit) as [[Hemp ->] | (Hemp & Hk & Hlf)]; rewrite Hemp.
    { assert (Hsk : is_skeleton name = false)
        by (apply is_skeleton_container; rewrite Hemp; apply orb_true_r).
      assert (Hstart : construct cssom (mkBuilder m h [f; c0]) (TStart name attrs false)
                       = Some (mkBuilder m h
                                 [add_child (make_element cssom name attrs []) f; c0])).
      { destruct Hm as [-> | ->]; cbn [construct b_mode b_stack]; rewrite Hsk;
          now rewrite (in_container_empty name attrs f c0 Hemp Hf). }
      assert (Hend : forall g,
                construct cssom (mkBuilder m h [g; c0]) (TEnd name)
                = Some (mkBuilder m h [g; c0])).
      { intros g. destruct Hm as [-> | ->]; cbn [construct b_mode b_stack]; rewrite Hsk;
          now rewrite (in_container_ignored name g [c0] Hemp). }
      cbn [chars map app construct_all]. rewrite Hstart.
      destruct sc; cbn [negb andb construct_all]; [now rewrite Hend | reflexivity]. }
    rewrite andb_false_r.
    assert (Hsk : is_skeleton name = false)
      by (apply is_skeleton_container; now rewrite Hk).
    assert (Hstart : construct cssom (mkBuilder m h [f; c0]) (TStart name attrs false)
                     = Some (mkBuilder m h [mkFrame name attrs []; f; c0])).
    { destruct Hm as [-> | ->]; cbn [construct b_mode b_stack]; rewrite Hsk;
        now rewrite (in_container_start name attrs f c0 Hk Hf). }
    cbn [construct_all]. rewrite Hstart.
    rewrite construct_all_app, (construct_chars m h c Hm) by (now right).
    cbn [construct_all]. unfold set_children. cbn [f_children f_name f_attrs].
    assert (Hend : forall ch,
              construct cssom (mkBuilder m h [mkFrame name attrs ch; f; c0]) (TEnd name)
              = Some (mkBuilder m h
                        [add_child (make_element cssom name attrs (rev ch)) f; c0])).
    { intros ch. destruct Hm as [-> | ->]; cbn [construct b_mode b_stack]; rewrite Hsk;
        now rewrite (in_container_end _ _ _ _ _ (container_not_void _ Hk)). }
    rewrite Hend. do 4 f_equal.
    destruct c as [|x0 c]; [reflexivity|].
    now rewrite insert_text_new.
  - cbn [construct_all].
    assert (Himg : in_container cssom f [c0] (TStart "img" (element_attributes e) sc)
                   = Some [add_child (make_element cssom "img" (element_attributes e) [])
                             f; c0]).
    { unfold in_container. rewrite Hf. reflexivity. }
    destruct Hm as [-> | ->]; cbn [construct b_mode b_stack];
      change (is_skeleton "img") with false; cbv iota; now rewrite Himg.
Qed.

(** The children of the poster [div], last one first, once the elements
    after the first have been read. *)
Definition read_following (l : Document) (ch : list node) : list node :=
  fold_left (fun acc e => node_of e :: TextNode sep :: acc) l ch.

Definition read_body (d : Document) (ch : list node) : list node :=
  match d with
  | [] => ch
  | e :: l => read_following l (node_of e :: ch)
  end.

Lemma node_of_element (e : element) :
  exists name attrs st ch, node_of e = Element name attrs st ch [].
Proof. unfold node_of, make_element. destruct (type e); eauto. Qed.

Lemma insert_sep_after (e : element) (ch : list node) :
  insert_text sep (node_of e :: ch) = TextNode sep :: node_of e :: ch.
Proof.
  destruct (node_of_element e) as (name & attrs & st & k & ->).
  apply (insert_text_new (ascii_of_nat 10) "    ").
  exact I.
Qed.

Lemma construct_following (m : mode) (h : list node) (sc : bool) (c0 : frame)
    (l : Document) :
  body_like m -> all_readable l = true ->
  forall (f : frame) (e0 : element) (ch : list node),
    f_name f = "div" -> f_children f = node_of e0 :: ch ->
    construct_all cssom (mkBuilder m h [f; c0])
      (flat_map (fun e => map TChar (chars sep) ++ element_tokens sc e)%list l)
    = Some (mkBuilder m h [set_children f (read_following l (f_children f)); c0]).
Proof.
  intros Hm. induction l as [|e l IH]; intros H f e0 ch Hf Hch.
  - cbn. now destruct f.
  - cbn [all_readable forallb] in H. apply andb_true_iff in H. destruct H as [He Hl].
    cbn [flat_map]. rewrite <- app_assoc.
    rewrite construct_all_app, (construct_chars m h sep Hm)
      by (now apply keeps_first_div).
    cbv iota beta.
    rewrite construct_all_app.
    rewrite (construct_element m h sc e
               (set_children f (insert_text sep (f_children f))) c0 Hm Hf He).
    cbv iota beta.
    rewrite (IH Hl _ e (insert_text sep (f_children f))); [|exact Hf | reflexivity].
    unfold set_children, add_child. cbn [f_name f_attrs f_children read_following fold_left].
    rewrite Hch, insert_sep_after. reflexivity.
Qed.

Lemma construct_body (m : mode) (h : list node) (sc : bool) (f c0 : frame)
    (d : Document) :
  body_like m -> all_readable d = true -> f_name f = "div" ->
  construct_all cssom (mkBuilder m h [f; c0]) (body_tokens sc d)
  = Some (mkBuilder m h [set_children f (read_body d (f_children f)); c0]).
Proof.
  intros Hm H Hf. destruct d as [|e l].
  - cbn. now destruct f.
  - cbn [all_readable forallb] in H. apply andb_true_iff in H. destruct H as [He Hl].
    cbn [body_tokens read_body]. rewrite construct_all_app.
    rewrite (construct_element m h sc e f c0 Hm Hf He). cbv iota beta.
    rewrite (construct_following m h sc c0 l Hm Hl _ e (f_children f));
      [reflexivity | exact Hf | reflexivity].
Qed.

(** The children of the poster [div] of an exported document. *)
Definition poster_children (d : Document) : list node :=
  match d with
  | [] => [TextNode (sep ++ nl ++ "  ")]
  | e :: l =>
      (TextNode sep :: node_of e
         :: flat_map (fun e => [TextNode sep; node_of e]) l
         ++ [TextNode (nl ++ "  ")])%list
  end.

Lemma rev_read_following (l : Document) (ch : list node) :
  rev (read_following l ch)
  = (rev ch ++ flat_map (fun e => [TextNode sep; node_of e]) l)%list.
Proof.
  revert ch. induction l as [|e l IH]; intros ch; cbn [read_following fold_left flat_map].
  - now rewrite app_nil_r.
  - fold (read_following l (node_of e :: TextNode sep :: ch)). rewrite IH.
    cbn [rev]. rewrite <- !app_assoc. reflexivity.
Qed.

Lemma poster_children_read (d : Document) :
  rev (insert_text (nl ++ "  ") (read_body d [TextNode sep])) = poster_children d.
Proof.
  destruct d as [|e l]; cbn [read_body poster_children].
  - now rewrite insert_text_after_text.
  - assert (Hlast : exists n rest, read_following l [node_of e; TextNode sep] = n :: rest
                      /\ match n with TextNode _ => False | _ => True end).
    { revert e. generalize [TextNode sep] as ch.
      induction l as [|e' l IH]; intros ch e.
      - destruct (node_of_element e) as (name & attrs & st & k & Hn).
        exists (node_of e), ch. split; [reflexivity|]. now rewrite Hn.
      - cbn [read_following fold_left].
        apply (IH (TextNode sep :: node_of e :: ch) e'). }
    destruct Hlast as (n & rest & Hrd & Hn).
    rewrite Hrd, (insert_text_new (ascii_of_nat 10) "  ");
      [|destruct n; [destruct Hn | exact I | exact I]].
    rewrite <- Hrd. cbn [rev]. rewrite rev_read_following. cbn [rev app].
    rewrite <- ?app_assoc. reflexivity.
Qed.

(** *** The fragment [sanitize] works on *)

Definition poster_attributes : list (string * string) := [("class", "poster")].

Definition poster_node (d : Document) : node :=
  make_element cssom "div" poster_attributes (poster_children d).

Definition children_after (m : mode) (ts : list token) : list node :=
  match construct_all cssom (mkBuilder m [] [container ""]) ts with
  | Some b => match b_stack b with [_; c] => f_children c | _ => [] end
  | None => []
  end.

(** The children of [temp] before the poster [div], last one first. *)
Definition fragment_before : list node :=
  Eval vm_compute in children_after InFragment head_tokens.

Lemma construct_head_fragment :
  construct_all cssom (mkBuilder InFragment [] [container ""]) head_tokens
  = Some (mkBuilder InFragment []
            [mkFrame "div" poster_attributes [TextNode sep];
             mkFrame "" [] fragment_before]).
Proof. vm_compute. reflexivity. Qed.

Lemma tail_tokens_eq :
  tail_tokens
  = (map TChar (chars (nl ++ "  "))
       ++ [TEnd "div"; TChar (ascii_of_nat 10); TEnd "body";
           TChar (ascii_of_nat 10); TEnd "html"])%list.
Proof. reflexivity. Qed.

Lemma construct_tail_fragment (ch before : list node) :
  construct_all cssom
    (mkBuilder InFragment [] [mkFrame "div" poster_attributes ch; mkFrame "" [] before])
    tail_tokens
  = Some (mkBuilder InFragment []
            [mkFrame "" []
               (TextNode (nl ++ nl)
                  :: make_element cssom "div" poster_attributes
                       (rev (insert_text (nl ++ "  ") ch))
                  :: before)]).
Proof.
  rewrite tail_tokens_eq, construct_all_app.
  rewrite (construct_chars InFragment [] (nl ++ "  ") (or_introl eq_refl))
    by (now apply keeps_first_div).
  reflexivity.
Qed.

Definition fragment_of (d : Document) : list node :=
  (rev fragment_before ++ [poster_node d; TextNode (nl ++ nl)])%list.

(** The children of [temp] after [temp.innerHTML = export(d)]. *)
Lemma parse_fragment_export (d : Document) :
  all_readable d = true ->
  parse_fragment cssom (export d) = Some (fragment_of d).
Proof.
  intros H. unfold parse_fragment. rewrite (tokenize_export d H).
  rewrite construct_all_app, construct_head_fragment. cbv iota beta.
  rewrite construct_all_app.
  rewrite (construct_body InFragment [] true
             (mkFrame "div" poster_attributes [TextNode sep]) _ d
             (or_introl eq_refl) H eq_refl).
  cbv iota beta. unfold set_children. cbn [f_name f_attrs f_children].
  rewrite construct_tail_fragment. cbn [b_stack f_children rev].
  rewrite poster_children_read. unfold fragment_of, poster_node.
  rewrite <- app_assoc. reflexivity.
Qed.

(** *** What the sanitizer does to it *)

Lemma remove_tag_all_app (tag : string) (a b : list node) :
  remove_tag_all tag (a ++ b) = (remove_tag_all tag a ++ remove_tag_all tag b)%list.
Proof. apply flat_map_app. Qed.

Lemma removal_passes_app (tags : list string) (a b : list node) :
  fold_left (fun cur tag => remove_tag_all tag cur) tags (a ++ b)%list
  = (fold_left (fun cur tag => remove_tag_all tag cur) tags a
       ++ fold_left (fun cur tag => remove_tag_all tag cur) tags b)%list.
Proof.
  revert a b. induction tags as [|t tags IH]; intros a b; cbn [fold_left];
    [reflexivity|].
  now rewrite remove_tag_all_app, IH.
Qed.

Lemma sanitize_nodes_app (a b : list node) :
  sanitize_nodes (a ++ b) = (sanitize_nodes a ++ sanitize_nodes b)%list.
Proof. unfold sanitize_nodes. now rewrite removal_passes_app, map_app. Qed.

Lemma removal_passes_fixed (tags : list string) (l : list node) :
  (forall t, In t tags -> remove_tag_all t l = l) ->
  fold_left (fun cur tag => remove_tag_all tag cur) tags l = l.
Proof.
  induction tags as [|t tags IH]; intros H; cbn [fold_left]; [reflexivity|].
  rewrite (H t (or_introl eq_refl)). apply IH. intros t' Ht'. apply H. now right.
Qed.

Lemma not_dangerous (name t : string) :
  mem name dangerous = false -> In t dangerous -> String.eqb name t = false.
Proof.
  unfold mem. intros Hd Ht. destruct (String.eqb name t) eqn:E; [|reflexivity].
  assert (Hex : existsb (String.eqb name) dangerous = true)
    by (apply existsb_exists; eauto).
  congruence.
Qed.

Lemma node_of_not_dangerous (e : element) (t : string) :
  readable e = true -> In t dangerous ->
  named t (node_of e) = false /\ remove_tag t (node_of e) = node_of e.
Proof.
  intros He Ht. unfold node_of, make_element. destruct (type e) eqn:Hty.
  - destruct (readable_text e Hty He) as (c & Hc & Htag & Hd & _).
    split.
    + unfold named. cbn [is_element localName_of andb].
      now apply not_dangerous.
    + rewrite remove_tag_element. f_equal.
      destruct (JS.interpolate (content e)); reflexivity.
  - split.
    + unfold dangerous in Ht. cbn [In] in Ht.
      repeat (destruct Ht as [<-|Ht]; [reflexivity|]). destruct Ht.
    + reflexivity.
Qed.

Lemma remove_tag_poster_children (d : Document) (t : string) :
  all_readable d = true -> In t dangerous ->
  remove_tag_list t (poster_children d) = poster_children d.
Proof.
  intros H Ht. destruct d as [|e l]; [reflexivity|].
  cbn [all_readable forallb] in H. apply andb_true_iff in H. destruct H as [He Hl].
  cbn [poster_children remove_tag_list named is_element andb].
  destruct (node_of_not_dangerous e t He Ht) as [-> ->]. do 2 f_equal.
  induction l as [|e' l IH]; [reflexivity|].
  cbn [forallb] in Hl. apply andb_true_iff in Hl. destruct Hl as [He' Hl].
  cbn [flat_map app remove_tag_list named is_element andb].
  destruct (node_of_not_dangerous e' t He' Ht) as [-> ->]. do 2 f_equal.
  now apply IH.
Qed.

Lemma remove_tag_poster (d : Document) (t : string) :
  all_readable d = true -> In t dangerous ->
  remove_tag_all t [poster_node d] = [poster_node d].
Proof.
  intros H Ht. rewrite remove_tag_all_list. unfold poster_node, make_element.
  cbn [remove_tag_list]. rewrite remove_tag_element.
  rewrite (remove_tag_poster_children d t H Ht).
  unfold dangerous in Ht. cbn [In] in Ht.
  repeat (destruct Ht as [<-|Ht]; [reflexivity|]). destruct Ht.
Qed.

Lemma clean_node_of (e : element) :
  readable e = true -> clean_node (node_of e) = node_of e.
Proof.
  intros He. unfold node_of, make_element, element_attributes.
  destruct (type e) eqn:Hty.
  - cbn [clean_node]. f_equal. destruct (JS.interpolate (content e)); reflexivity.
  - destruct (readable_image e Hty He) as (s & a & Hs & Ha & Hj & _).
    rewrite Hs, Ha. cbn [JS.interpolate clean_node map]. f_equal.
    unfold clean_attributes, strip_handlers. cbn [fold_left fst].
    change (JS.startsWith "on" "src") with false.
    change (JS.startsWith "on" "alt") with false.
    change (JS.startsWith "on" "style") with false.
    cbv iota. unfold strip_url at 3. cbn [getAttribute String.eqb Ascii.eqb Bool.eqb].
    cbv iota. unfold strip_url at 2. cbn [getAttribute String.eqb Ascii.eqb Bool.eqb].
    cbv iota. rewrite Hj, andb_false_r.
    unfold strip_url. cbn [getAttribute String.eqb Ascii.eqb Bool.eqb]. reflexivity.
Qed.

Lemma clean_poster_children (d : Document) :
  all_readable d = true -> map clean_node (poster_children d) = poster_children d.
Proof.
  intros H. destruct d as [|e l]; [reflexivity|].
  cbn [all_readable forallb] in H. apply andb_true_iff in H. destruct H as [He Hl].
  cbn [poster_children map]. rewrite (clean_node_of e He). do 2 f_equal.
  rewrite map_app. f_equal.
  induction l as [|e' l IH]; [reflexivity|].
  cbn [forallb] in Hl. apply andb_true_iff in Hl. destruct Hl as [He' Hl].
  cbn [flat_map app map]. rewrite (clean_node_of e' He'). do 2 f_equal. now apply IH.
Qed.

(** The children of [temp] before the poster [div], sanitized: the
    [style] element is gone. *)
Definition sanitized_before : list node :=
  Eval vm_compute in sanitize_nodes (rev fragment_before).

Definition sanitized_of (d : Document) : list node :=
  (sanitized_before ++ [poster_node d; TextNode (nl ++ nl)])%list.

Lemma sanitize_fragment (d : Document) :
  all_readable d = true -> sanitize_nodes (fragment_of d) = sanitized_of d.
Proof.
  intros H. unfold fragment_of, sanitized_of.
  rewrite sanitize_nodes_app.
  change (sanitize_nodes (rev fragment_before)) with sanitized_before. f_equal.
  change [poster_node d; TextNode (nl ++ nl)]
    with ([poster_node d] ++ [TextNode (nl ++ nl)])%list.
  rewrite sanitize_nodes_app. f_equal.
  unfold sanitize_nodes.
  rewrite removal_passes_fixed by (intros t Ht; now apply remove_tag_poster).
  unfold poster_node, make_element. cbn [map clean_node].
  now rewrite (clean_poster_children d H).
Qed.

(** *** Its serialization *)

Lemma serialize_app (a b : list node) :
  serialize angles (a ++ b)
  = match serialize angles a, serialize angles b with
    | Some x, Some y => Some (x ++ y)
    | _, _ => None
    end.
Proof.
  induction a as [|n a IH]; cbn [app serialize].
  - now destruct (serialize angles b).
  - rewrite IH. destruct (serialize_node angles n) as [x|]; [|reflexivity].
    destruct (serialize angles a) as [y|]; [|reflexivity].
    destruct (serialize angles b) as [z|]; [|reflexivity].
    now rewrite append_assoc.
Qed.

Lemma serialize_container (name : string) attrs st (ch : list node) (a inner : string) :
  holds_text (kind_of name) = true ->
  (drops_first_lf name && starts_with_lf ch)%bool = false ->
  serialize_attributes angles attrs = Some a ->
  serialize angles ch = Some inner ->
  serialize_node angles (Element name attrs st ch [])
  = Some ("<" ++ name ++ a ++ ">" ++ inner ++ "</" ++ name ++ ">").
Proof.
  intros Hk Hlf Ha Hin. cbn [serialize_node]. rewrite Ha.
  change ((fix go (l : list node) : option string :=
             match l with
             | [] => Some ""
             | c :: l' =>
                 match serialize_node angles c, go l' with
                 | Some x, Some y => Some (x ++ y)
                 | _, _ => None
                 end
             end) ch) with (serialize angles ch).
  rewrite Hin, Hlf. unfold holds_text in Hk.
  destruct (kind_of name) as [[]|]; try discriminate Hk; reflexivity.
Qed.

Lemma serialize_empty (name : string) attrs st (a : string) :
  is_empty (kind_of name) = true ->
  serialize_attributes angles attrs = Some a ->
  serialize_node angles (Element name attrs st [] []) = Some ("<" ++ name ++ a ++ ">").
Proof.
  intros Hk Ha. cbn [serialize_node]. rewrite Ha.
  destruct (kind_of name) as [[]|]; try discriminate Hk; reflexivity.
Qed.

Lemma serialize_style_attribute (v : string) :
  all_chars in_scope v = true ->
  serialize_attributes angles [("style", v)]
  = Some (" style=" ++ dq ++ escape true angles v ++ dq).
Proof.
  intros Hv. cbn [serialize_attributes]. unfold serialize_attribute. cbn [fst snd].
  change (all_chars attr_char "style" && negb (JS.falsy "style"))%bool with true.
  cbn [andb]. rewrite Hv. cbn [append]. now rewrite !append_nil_r.
Qed.

Lemma serialize_image_attributes (s a v : string) :
  all_chars in_scope s = true -> all_chars in_scope a = true ->
  all_chars in_scope v = true ->
  serialize_attributes angles [("src", s); ("alt", a); ("style", v)]
  = Some (" src=" ++ dq ++ escape true angles s ++ dq
            ++ " alt=" ++ dq ++ escape true angles a ++ dq
            ++ " style=" ++ dq ++ escape true angles v ++ dq).
Proof.
  intros Hs Ha Hv. cbn [serialize_attributes]. unfold serialize_attribute. cbn [fst snd].
  change (all_chars attr_char "src" && negb (JS.falsy "src"))%bool with true.
  change (all_chars attr_char "alt" && negb (JS.falsy "alt"))%bool with true.
  change (all_chars attr_char "style" && negb (JS.falsy "style"))%bool with true.
  cbn [andb]. rewrite Hs, Ha, Hv. cbn [append].
  rewrite !append_assoc. cbn [append]. now rewrite !append_nil_r.
Qed.

Lemma serialize_node_of (e : element) :
  readable e = true -> serialize_node angles (node_of e) = Some (print_serial angles e).
Proof.
  intros He. unfold node_of, make_element, print_serial, element_attributes.
  destruct (type e) eqn:Hty.
  - destruct (readable_text e Hty He) as (c & Hc & Htag & _ & Hfit & Hst & Hcc & _).
    rewrite Hc. cbn [JS.interpolate].
    destruct (fits_cases _ _ Hfit) as [[Hemp ->] | (Hemp & Hk & Hlf)]; rewrite Hemp.
    { rewrite (serialize_empty _ _ _ _ Hemp (serialize_style_attribute _ Hst)).
      rewrite ?append_assoc; reflexivity. }
    rewrite (serialize_container _ _ _ _ _ (escape false angles c) Hk)
      by first [ apply (serialize_style_attribute _ Hst)
               | unfold lf_first in Hlf; destruct c; [apply andb_false_r | exact Hlf]
               | destruct c as [|x0 c]; [reflexivity|];
                 cbn [serialize serialize_node]; rewrite Hcc; now rewrite append_nil_r ].
    rewrite ?append_assoc; reflexivity.
  - destruct (readable_image e Hty He) as (s & a & Hs & Ha & _ & Hsc & Hac & Hst & _).
    rewrite Hs, Ha. cbn [JS.interpolate serialize_node].
    rewrite (serialize_image_attributes _ _ _ Hsc Hac Hst).
    change (kind_of "img") with (Some KImg). cbv iota.
    rewrite ?append_assoc; reflexivity.
Qed.

Lemma serialize_following (l : Document) :
  all_readable l = true ->
  serialize angles (flat_map (fun e => [TextNode sep; node_of e]) l)
  = Some (following (print_serial angles) l).
Proof.
  induction l as [|e l IH]; intros H; [reflexivity|].
  cbn [all_readable forallb] in H. apply andb_true_iff in H. destruct H as [He Hl].
  cbn [flat_map app serialize]. rewrite (serialize_node_of e He), (IH Hl).
  change (serialize_node angles (TextNode sep)) with (Some sep).
  cbn [following]. rewrite ?append_assoc; reflexivity.
Qed.

Lemma serialize_poster_children (d : Document) :
  all_readable d = true ->
  serialize angles (poster_children d)
  = Some (sep ++ body_string (print_serial angles) d ++ nl ++ "  ").
Proof.
  intros H. destruct d as [|e l]; [reflexivity|].
  cbn [all_readable forallb] in H. apply andb_true_iff in H. destruct H as [He Hl].
  cbn [poster_children serialize]. rewrite (serialize_node_of e He).
  rewrite serialize_app, (serialize_following l Hl).
  change (serialize_node angles (TextNode sep)) with (Some sep).
  change (serialize angles [TextNode (nl ++ "  ")]) with (Some (nl ++ "  ")).
  cbn [body_string]. rewrite ?append_assoc; reflexivity.
Qed.

Definition text_of (o : option string) : string :=
  match o with Some s => s | None => "" end.

Definition serial_head : string :=
  Eval vm_compute in
    text_of (serialize true sanitized_before) ++ "<div class=" ++ dq ++ "poster" ++ dq ++ ">"
      ++ sep.

Definition serial_tail : string :=
  Eval vm_compute in nl ++ "  " ++ "</div>" ++ nl ++ nl.

(** [temp.innerHTML] once the sanitizer is done. *)
Definition sanitized_markup (d : Document) : string :=
  serial_head ++ body_string (print_serial angles) d ++ serial_tail.

Lemma serialize_before :
  serialize angles sanitized_before = Some (text_of (serialize true sanitized_before)).
Proof. destruct angles; vm_compute; reflexivity. Qed.

Lemma serialize_sanitized (d : Document) :
  all_readable d = true -> serialize angles (sanitized_of d) = Some (sanitized_markup d).
Proof.
  intros H. unfold sanitized_of. rewrite serialize_app, serialize_before.
  cbn [serialize]. unfold poster_node, make_element.
  rewrite (serialize_container "div" poster_attributes _ _
             (" class=" ++ dq ++ "poster" ++ dq) _ eq_refl)
    by first [ reflexivity
             | destruct angles; reflexivity
             | apply (serialize_poster_children d H) ].
  change (serialize_node angles (TextNode (nl ++ nl))) with (Some (nl ++ nl)).
  unfold sanitized_markup. rewrite ?append_assoc. reflexivity.
Qed.

(** *** The document [DOMParser] builds from it *)

Definition serial_head_tokens : list token := Eval vm_compute in tokens_of serial_head.
Definition serial_tail_tokens : list token := Eval vm_compute in tokens_of serial_tail.

Lemma tokenize_sanitized (d : Document) :
  all_readable d = true ->
  tokenize (sanitized_markup d)
  = Some (serial_head_tokens ++ body_tokens false d ++ serial_tail_tokens)%list.
Proof.
  intros H. unfold sanitized_markup. apply tokenize_pieces.
  - vm_compute. reflexivity.
  - apply scan_body. intros e He. apply scan_serial. now apply (all_readable_In d).
  - vm_compute. reflexivity.
Qed.

Definition head_after (ts : list token) : list node :=
  match construct_all cssom (mkBuilder BeforeHead [] [container ""]) ts with
  | Some b => b_head b
  | None => []
  end.

(** The children of [head]. *)
Definition document_head : list node := Eval vm_compute in head_after serial_head_tokens.

Lemma construct_head_document :
  construct_all cssom (mkBuilder BeforeHead [] [container ""]) serial_head_tokens
  = Some (mkBuilder InBody document_head
            [mkFrame "div" poster_attributes [TextNode sep]; mkFrame "body" [] []]).
Proof. vm_compute. reflexivity. Qed.

Lemma serial_tail_tokens_eq :
  serial_tail_tokens
  = (map TChar (chars (nl ++ "  "))
       ++ [TEnd "div"; TChar (ascii_of_nat 10); TChar (ascii_of_nat 10)])%list.
Proof. reflexivity. Qed.

Lemma construct_tail_document (h ch : list node) :
  construct_all cssom
    (mkBuilder InBody h [mkFrame "div" poster_attributes ch; mkFrame "body" [] []])
    serial_tail_tokens
  = Some (mkBuilder InBody h
            [mkFrame "body" []
               [TextNode (nl ++ nl);
                make_element cssom "div" poster_attributes
                  (rev (insert_text (nl ++ "  ") ch))]]).
Proof.
  rewrite serial_tail_tokens_eq, construct_all_app.
  rewrite (construct_chars InBody h (nl ++ "  ") (or_intror eq_refl))
    by (now apply keeps_first_div).
  reflexivity.
Qed.

Definition document_for (d : Document) : html_document :=
  document_of document_head [poster_node d; TextNode (nl ++ nl)].

Lemma parse_document_sanitized (d : Document) :
  all_readable d = true ->
  parse_document cssom (sanitized_markup d) = Some (document_for d).
Proof.
  intros H. unfold parse_document. rewrite (tokenize_sanitized d H).
  rewrite construct_all_app, construct_head_document. cbv iota beta.
  rewrite construct_all_app.
  rewrite (construct_body InBody document_head false
             (mkFrame "div" poster_attributes [TextNode sep]) _ d
             (or_intror eq_refl) H eq_refl).
  cbv iota beta. unfold set_children. cbn [f_name f_attrs f_children].
  rewrite construct_tail_document. cbn [b_mode b_stack b_head f_children rev app].
  now rewrite poster_children_read.
Qed.

(** *** The elements [parse] makes of it *)

Lemma poster_of_document (d : Document) : poster_of (document_for d) = poster_node d.
Proof. reflexivity. Qed.

Lemma children_of_poster (d : Document) :
  children_of (poster_node d) = map node_of d.
Proof.
  unfold children_of, poster_node, make_element. cbn [childNodes].
  destruct d as [|e l]; [reflexivity|].
  cbn [poster_children filter is_element map]. 
  destruct (node_of_element e) as (name & attrs & st & k & Hn).
  rewrite Hn. cbn [is_element]. rewrite <- Hn. f_equal.
  rewrite filter_app. cbn [filter is_element]. rewrite app_nil_r.
  induction l as [|e' l IH]; [reflexivity|].
  cbn [flat_map app filter is_element map].
  destruct (node_of_element e') as (name' & attrs' & st' & k' & Hn').
  rewrite Hn'. cbn [is_element]. rewrite <- Hn'. f_equal. exact IH.
Qed.

Lemma or_else_empty (s : string) : JS.or_else s "" = s.
Proof. now destruct s. Qed.

(** A tag that fits a content is not [img]. *)
Lemma fits_not_img (tag c : string) :
  fits (JS.toLowerCase tag) c = true ->
  String.eqb (JS.toUpperCase (JS.toLowerCase tag)) "IMG" = false.
Proof.
  intros Hk. destruct (String.eqb (JS.toUpperCase (JS.toLowerCase tag)) "IMG") eqn:E;
    [|reflexivity].
  apply String.eqb_eq in E. pose proof (lower_upper_lower tag) as Hl.
  rewrite E in Hl. rewrite <- Hl in Hk. discriminate Hk.
Qed.

Lemma shape_parseNode (computed : css) (now : N) (e : element) (i : nat) :
  readable e = true ->
  shape (parseNode computed now (node_of e) i) = shape e.
Proof.
  intros He. unfold shape, parseNode, node_of, make_element, element_attributes, tagName_of.
  destruct (type e) eqn:Hty.
  - destruct (readable_text e Hty He) as (c & Hc & Htag & _ & Hk & _).
    cbn [localName_of]. rewrite (fits_not_img _ _ Hk).
    cbn [type content]. rewrite Hc. cbn [JS.interpolate].
    rewrite or_else_empty. do 2 f_equal.
    destruct c as [|x0 c]; [reflexivity|]. cbn [textContent]. apply append_nil_r.
  - destruct (readable_image e Hty He) as (s & a & Hs & Ha & _).
    rewrite Hs, Ha. cbn [JS.interpolate localName_of].
    change (String.eqb (JS.toUpperCase "img") "IMG") with true. cbv iota.
    cbn [type src attributes_of getAttribute String.eqb Ascii.eqb Bool.eqb JS.or_empty].
    now rewrite or_else_empty.
Qed.

Lemma shape_parse_children (computed : nat -> node -> css) (clock : nat -> N)
    (d : Document) :
  all_readable d = true ->
  forall i, map shape (parse_children computed clock i (map node_of d)) = map shape d.
Proof.
  induction d as [|e l IH]; intros H i; [reflexivity|].
  cbn [all_readable forallb] in H. apply andb_true_iff in H. destruct H as [He Hl].
  cbn [map parse_children]. rewrite (shape_parseNode _ _ e i He). f_equal.
  now apply IH.
Qed.

End Trees.











(** The same for any browser that does what the model says on the markup
    the model covers. *)
Lemma round_trip_any_browser
    (cssom : string -> css) (angles : bool)
    (set : string -> list node) (get : list node -> string)
    (fromString : string -> html_document)
    (computed : html_document -> nat -> node -> css) (clock : nat -> N)
    (d : Document) :
  (forall s l, parse_fragment cssom s = Some l -> set s = l) ->
  (forall l s, serialize angles l = Some s -> get l = s) ->
  (forall s doc, parse_document cssom s = Some doc -> fromString s = doc) ->
  all_readable d = true ->
  map shape (parse set get fromString computed clock (export d)) = map shape d.
Proof.
  intros Hset Hget Hfrom H. unfold parse, sanitize.
  rewrite (Hset _ _ (parse_fragment_export cssom d H)), (sanitize_fragment cssom d H).
  rewrite (Hget _ _ (serialize_sanitized cssom angles d H)).
  rewrite (Hfrom _ _ (parse_document_sanitized cssom angles d H)).
  rewrite poster_of_document, children_of_poster. now apply shape_parse_children.
Qed.




(** Documents that are not readable and that the round trip changes: the
    conditions of [readable] cannot simply be dropped. *)
Definition text_element (tag : string) (c : option string) : element :=
  {| id := "text-1"; type := text; tagName := tag; content := c;
     src := None; alt := None; style := [] |}.

Definition round_trip (d : Document) : list (el_type * option string) :=
  map shape
    (parse (innerHTML_set (fun _ => [])) (innerHTML_get true)
       (parseFromString (fun _ => []))
       (fun _ _ _ => []) (fun _ => 0%N) (export d)).

(** Markup in the content is parsed, and only its text comes back. *)
Example markup_in_content :
  readable (text_element "div" (Some "<b>x</b>")) = false
  /\ covered (fun _ => []) true (export [text_element "div" (Some "<b>x</b>")]) = true
  /\ round_trip [text_element "div" (Some "<b>x</b>")] = [(text, Some "x")].
Proof. vm_compute. repeat split. Qed.

(** A character reference in the content is resolved. *)
Example reference_in_content :
  readable (text_element "p" (Some "a &amp; b")) = false
  /\ covered (fun _ => []) true (export [text_element "p" (Some "a &amp; b")]) = true
  /\ round_trip [text_element "p" (Some "a &amp; b")] = [(text, Some "a & b")].
Proof. vm_compute. repeat split. Qed.

(** A missing content is exported as the word undefined. *)
Example missing_content :
  readable (text_element "p" None) = false
  /\ covered (fun _ => []) true (export [text_element "p" None]) = true
  /\ round_trip [text_element "p" None] = [(text, Some "undefined")].
Proof. vm_compute. repeat split. Qed.

(** A text in a [style] element is removed by the sanitizer, one in an
    [img] element comes back as an image, and one in an [input] element is
    lost. *)
Example not_a_container :
  readable (text_element "style" (Some "x")) = false
  /\ covered (fun _ => []) true (export [text_element "style" (Some "x")]) = true
  /\ round_trip [text_element "style" (Some "x")] = []
  /\ readable (text_element "img" (Some "")) = false
  /\ covered (fun _ => []) true (export [text_element "img" (Some "")]) = true
  /\ round_trip [text_element "img" (Some "")] = [(image, Some "")]
  /\ readable (text_element "input" (Some "x")) = false
  /\ covered (fun _ => []) true (export [text_element "input" (Some "x")]) = true
  /\ round_trip [text_element "input" (Some "x")] = [(text, Some "")].
Proof. vm_compute. repeat split. Qed.

End RoundTrip.

(** * Further properties of the controller, the parser and the sanitizer *)

(** ** Decimal numerals

    What [`${n}`] prints, [parseInt] reads back. *)

Fixpoint uint_val (acc : Z) (d : Decimal.uint) : Z :=
  match d with
  | Decimal.Nil => acc
  | Decimal.D0 d' => uint_val (acc * 10 + 0) d'
  | Decimal.D1 d' => uint_val (acc * 10 + 1) d'
  | Decimal.D2 d' => uint_val (acc * 10 + 2) d'
  | Decimal.D3 d' => uint_val (acc * 10 + 3) d'
  | Decimal.D4 d' => uint_val (acc * 10 + 4) d'
  | Decimal.D5 d' => uint_val (acc * 10 + 5) d'
  | Decimal.D6 d' => uint_val (acc * 10 + 6) d'
  | Decimal.D7 d' => uint_val (acc * 10 + 7) d'
  | Decimal.D8 d' => uint_val (acc * 10 + 8) d'
  | Decimal.D9 d' => uint_val (acc * 10 + 9) d'
  end.

Definition decimal_char (c : ascii) : bool :=
  match JS.digit_val c with Some _ => true | None => false end.

Definition starts_with_digit (s : string) : bool :=
  match s with String c _ => decimal_char c | EmptyString => false end.

Lemma digits_numeral (d : Decimal.uint) (a : Z) (rest : string) :
  starts_with_digit rest = false ->
  JS.digits JS.digit_val 10 (Some a) (NilEmpty.string_of_uint d ++ rest)
  = Some (uint_val a d).
Proof.
  intros Hrest. revert a.
  induction d; intros a; cbn [NilEmpty.string_of_uint append uint_val].
  - destruct rest as [|c rest]; [reflexivity|].
    cbn [JS.digits]. cbn [starts_with_digit] in Hrest. unfold decimal_char in Hrest.
    now destruct (JS.digit_val c).
  - apply (IHd (a * 10 + 0)).
  - apply (IHd (a * 10 + 1)).
  - apply (IHd (a * 10 + 2)).
  - apply (IHd (a * 10 + 3)).
  - apply (IHd (a * 10 + 4)).
  - apply (IHd (a * 10 + 5)).
  - apply (IHd (a * 10 + 6)).
  - apply (IHd (a * 10 + 7)).
  - apply (IHd (a * 10 + 8)).
  - apply (IHd (a * 10 + 9)).
Qed.

Lemma uint_val_acc (d : Decimal.uint) (acc : positive) :
  Z.pos (Pos.of_uint_acc d acc) = uint_val (Z.pos acc) d.
Proof.
  revert acc. induction d; intros acc; cbn [Pos.of_uint_acc uint_val];
    [reflexivity | rewrite IHd; f_equal; lia ..].
Qed.

Lemma uint_val_of_uint (d : Decimal.uint) : Z.of_N (Pos.of_uint d) = uint_val 0 d.
Proof.
  induction d; cbn [Pos.of_uint uint_val]; [reflexivity | exact IHd | ..];
    cbn [Z.of_N]; now rewrite uint_val_acc.
Qed.

Lemma uint_val_to_uint (n : N) : uint_val 0 (N.to_uint n) = Z.of_N n.
Proof.
  rewrite <- uint_val_of_uint. change (Pos.of_uint (N.to_uint n)) with (N.of_uint (N.to_uint n)).
  now rewrite DecimalN.Unsigned.of_to.
Qed.

(** The characters after which [parseInt] stops reading a decimal numeral
    (a digit would continue it, an x after a leading zero would switch to
    hexadecimal). *)
Definition ends_numeral (rest : string) : bool :=
  match rest with
  | String c _ => (negb (decimal_char c) && negb (Ascii.eqb c "x") && negb (Ascii.eqb c "X"))%bool
  | EmptyString => true
  end.

Lemma ends_numeral_digit (rest : string) :
  ends_numeral rest = true -> starts_with_digit rest = false.
Proof.
  destruct rest as [|c rest]; [reflexivity|]. cbn [ends_numeral starts_with_digit].
  destruct (decimal_char c); [discriminate | reflexivity].
Qed.

Definition hex_mark (s : string) : bool :=
  match s with
  | String x _ => (Ascii.eqb x "x" || Ascii.eqb x "X")%bool
  | EmptyString => false
  end.

Lemma unsigned_int_zero (s : string) :
  hex_mark s = false ->
  JS.unsigned_int (String "0" s) = JS.digits JS.digit_val 10 (Some 0) s.
Proof.
  intros H. destruct s as [|x s]; [reflexivity|].
  cbn [hex_mark] in H. unfold JS.unsigned_int. now rewrite H.
Qed.

Lemma hex_mark_numeral (d : Decimal.uint) (rest : string) :
  ends_numeral rest = true -> hex_mark (NilEmpty.string_of_uint d ++ rest) = false.
Proof.
  intros H. destruct d; cbn [NilEmpty.string_of_uint append]; try reflexivity.
  destruct rest as [|c rest]; [reflexivity|]. cbn [ends_numeral hex_mark] in *.
  destruct (Ascii.eqb c "x"), (Ascii.eqb c "X"); try reflexivity;
    rewrite ?andb_false_r in H; discriminate.
Qed.

Lemma unsigned_int_numeral (n : N) (rest : string) :
  ends_numeral rest = true ->
  JS.unsigned_int (JS.of_N n ++ rest) = Some (Z.of_N n).
Proof.
  intros H. pose proof (ends_numeral_digit rest H) as Hd.
  rewrite <- uint_val_to_uint. unfold JS.of_N, NilZero.string_of_uint.
  destruct (N.to_uint n) as [|d|d|d|d|d|d|d|d|d|d];
    cbn [NilEmpty.string_of_uint append].
  - rewrite unsigned_int_zero by (apply (hex_mark_numeral Decimal.Nil); exact H).
    apply (digits_numeral Decimal.Nil 0 rest Hd).
  - rewrite unsigned_int_zero by (apply hex_mark_numeral; exact H).
    apply (digits_numeral d 0 rest Hd).
  - apply (digits_numeral d 1 rest Hd).
  - apply (digits_numeral d 2 rest Hd).
  - apply (digits_numeral d 3 rest Hd).
  - apply (digits_numeral d 4 rest Hd).
  - apply (digits_numeral d 5 rest Hd).
  - apply (digits_numeral d 6 rest Hd).
  - apply (digits_numeral d 7 rest Hd).
  - apply (digits_numeral d 8 rest Hd).
  - apply (digits_numeral d 9 rest Hd).
Qed.

(** In front of a numeral [parseInt] skips nothing and reads no sign. *)
Lemma parseInt_unsigned (n : N) (rest : string) :
  JS.parseInt (JS.of_N n ++ rest) = JS.unsigned_int (JS.of_N n ++ rest).
Proof.
  unfold JS.of_N, NilZero.string_of_uint.
  destruct (N.to_uint n); cbn [NilEmpty.string_of_uint append]; reflexivity.
Qed.

Lemma parseInt_of_N (n : N) (rest : string) :
  ends_numeral rest = true -> JS.parseInt (JS.of_N n ++ rest) = Some (Z.of_N n).
Proof. intros H. rewrite parseInt_unsigned. now apply unsigned_int_numeral. Qed.

Lemma parseInt_of_Z (z : Z) (rest : string) :
  ends_numeral rest = true -> JS.parseInt (JS.of_Z z ++ rest) = Some z.
Proof.
  intros H. destruct z as [|p|p]; cbn [JS.of_Z].
  - apply (parseInt_of_N 0 rest H).
  - apply (parseInt_of_N (N.pos p) rest H).
  - change (("-" ++ JS.of_N (N.pos p)) ++ rest)
      with (String "-" (JS.of_N (N.pos p) ++ rest)).
    change (JS.parseInt (String "-" (JS.of_N (N.pos p) ++ rest)))
      with (option_map Z.opp (JS.unsigned_int (JS.of_N (N.pos p) ++ rest))).
    now rewrite unsigned_int_numeral.
Qed.

Lemma parseInt_px (n : N) : JS.parseInt_or_0 (px n) = Z.of_N n.
Proof. unfold JS.parseInt_or_0, px. now rewrite parseInt_of_N. Qed.

Lemma parseInt_pxZ (z : Z) : JS.parseInt_or_0 (pxZ z) = z.
Proof. unfold JS.parseInt_or_0, pxZ. now rewrite parseInt_of_Z. Qed.

(** ** Dragging *)

(** What a pointer move changes in a dragged element: the two offsets, and
    nothing else. *)
Definition moved (x y : Z) (el el' : element) : Prop :=
  id el' = id el /\ type el' = type el /\ tagName el' = tagName el
  /\ content el' = content el /\ src el' = src el /\ alt el' = alt el
  /\ style_get "left" (style el') = Some (pxZ x)
  /\ style_get "top" (style el') = Some (pxZ y)
  /\ offset_of "left" el' = x /\ offset_of "top" el' = y
  /\ forall k, k <> "left" -> k <> "top" ->
       style_get k (style el') = style_get k (style el).

Lemma move_element_selected (sel : option string) (x y : Z) (el : element) :
  is_selected sel el = true -> moved x y el (move_element sel x y el).
Proof.
  intros H. unfold move_element. rewrite H. unfold moved, offset_of.
  cbn [id type tagName content src alt style with_style].
  assert (Hl : style_get "left" (style_set "top" (pxZ y) (style_set "left" (pxZ x) (style el)))
               = Some (pxZ x)).
  { rewrite style_get_set_other by discriminate. apply style_get_set_same. }
  rewrite Hl, style_get_set_same, !parseInt_pxZ.
  repeat split; try reflexivity.
  intros k Hk1 Hk2. now rewrite !style_get_set_other by congruence.
Qed.

Lemma move_element_other (sel : option string) (x y : Z) (el : element) :
  is_selected sel el = false -> move_element sel x y el = el.
Proof. intros H. unfold move_element. now rewrite H. Qed.

Lemma move_element_id (sel : option string) (x y : Z) (el : element) :
  id (move_element sel x y el) = id el.
Proof. unfold move_element. now destruct (is_selected sel el). Qed.

Lemma clamp_cases (v : Z) :
  0 <= clamp v <= 670
  /\ (v < 0 -> clamp v = 0)
  /\ (670 < v -> clamp v = 670)
  /\ (0 <= v <= 670 -> clamp v = v).
Proof. unfold clamp. lia. Qed.

Lemma handleMove_dragging (cur : editor) (sel : string) (rl rt cx cy : Z) :
  isDragging cur = true -> selectedId cur = Some sel -> sel <> "" ->
  handleMove (Some (rl, rt)) cx cy cur
  = set_elements
      (map (move_element (Some sel) (clamp (cx - rl - fst (dragOffset cur)))
              (clamp (cy - rt - snd (dragOffset cur)))) (elements cur)) cur.
Proof.
  intros Hd Hs Hne. unfold handleMove. rewrite Hd, Hs, (no_selection_some sel Hne).
  reflexivity.
Qed.

(** A document of two text elements at (40, 60) and (200, 300), the first
    being dragged with the pointer 30 to the right of and 10 below its
    origin. *)
Definition placed (i : string) (l t : Z) : element :=
  {| id := i; type := text; tagName := "p"; content := Some "Hello"; src := None;
     alt := None;
     style := [("position", "absolute"); ("left", pxZ l); ("top", pxZ t)] |}.

Definition two_placed : editor :=
  set_elements [placed "a" 40 60; placed "b" 200 300] initial.

Definition dragging_a : editor :=
  set_dragOffset (30, 10) (set_isDragging true (set_selectedId (Some "a") two_placed)).

(** X1.  While an element is dragged, a pointer move handled by the
    listener of the render on screen, at whole-number coordinates (pointer,
    canvas rectangle and drag offset, of a size on which the arithmetic of
    the source is exact), writes to every element with the selected id the
    offsets [clientX - rect.left - dragOffset.x] and [clientY - rect.top -
    dragOffset.y], each brought into the range from 0 to 670 (a negative
    value becomes 0, a value above 670 becomes 670, a value in between is
    kept), as [left] and [top] in pixels, which [parseInt] reads back as
    these numbers; the element changes in nothing else, elements with
    another id are unchanged, and so are the selection, the drag state and
    the history. *)
Theorem handleMove_clamps (cur : editor) (sel : string) (rl rt cx cy : Z) :
  isDragging cur = true -> selectedId cur = Some sel -> sel <> "" ->
  exact rl -> exact rt -> exact cx -> exact cy ->
  Z.abs (fst (dragOffset cur)) <= 2 ^ 51 -> Z.abs (snd (dragOffset cur)) <= 2 ^ 51 ->
  let st := handleMove (Some (rl, rt)) cx cy cur in
  let x := cx - rl - fst (dragOffset cur) in
  let y := cy - rt - snd (dragOffset cur) in
  length (elements st) = length (elements cur)
  /\ (forall k el, nth_error (elements cur) k = Some el ->
        exists el', nth_error (elements st) k = Some el'
          /\ (id el = sel -> moved (clamp x) (clamp y) el el')
          /\ (id el <> sel -> el' = el))
  /\ (0 <= clamp x <= 670 /\ (x < 0 -> clamp x = 0) /\ (670 < x -> clamp x = 670)
      /\ (0 <= x <= 670 -> clamp x = x))
  /\ (0 <= clamp y <= 670 /\ (y < 0 -> clamp y = 0) /\ (670 < y -> clamp y = 670)
      /\ (0 <= y <= 670 -> clamp y = y))
  /\ selectedId st = selectedId cur /\ isDragging st = true
  /\ dragOffset st = dragOffset cur
  /\ history st = history cur /\ historyIndex st = historyIndex cur.
Proof.
  intros Hd Hs Hne _ _ _ _ _ _ st x y. subst st.
  rewrite (handleMove_dragging cur sel rl rt cx cy Hd Hs Hne).
  cbn [elements selectedId isDragging dragOffset history historyIndex set_elements].
  fold x y.
  split; [apply length_map|].
  split.
  { intros k el Hk. exists (move_element (Some sel) (clamp x) (clamp y) el).
    split; [now rewrite nth_error_map, Hk|]. split.
    - intros Hid. apply move_element_selected. cbn. now apply String.eqb_eq.
    - intros Hid. apply move_element_other. cbn. now apply String.eqb_neq. }
  split; [apply clamp_cases|]. split; [apply clamp_cases|].
  now repeat split.
Qed.

Lemma handleMove_clamps_witness :
  exists el',
    nth_error (elements (handleMove (Some (100, 100)) 900 120 dragging_a)) 0 = Some el'
    /\ offset_of "left" el' = 670 /\ offset_of "top" el' = 10
    /\ style_get "position" (style el') = Some "absolute".
Proof.
  destruct (handleMove_clamps dragging_a "a" 100 100 900 120 eq_refl eq_refl)
    as (_ & H & _);
    try (vm_compute; discriminate).
  destruct (H 0%nat (placed "a" 40 60) eq_refl) as (el' & Hn & Hm & _).
  exists el'. split; [exact Hn|].
  destruct (Hm eq_refl) as (_ & _ & _ & _ & _ & _ & _ & _ & Hl & Ht & Hk).
  split; [exact Hl|]. split; [exact Ht|].
  rewrite Hk by discriminate. reflexivity.
Defined.

(** The part of the state a pointer move never changes. *)
Lemma handleMove_keeps (r : option (Z * Z)) (cx cy : Z) (cur : editor) :
  selectedId (handleMove r cx cy cur) = selectedId cur
  /\ isDragging (handleMove r cx cy cur) = isDragging cur
  /\ isEditingText (handleMove r cx cy cur) = isEditingText cur
  /\ dragOffset (handleMove r cx cy cur) = dragOffset cur
  /\ history (handleMove r cx cy cur) = history cur
  /\ historyIndex (handleMove r cx cy cur) = historyIndex cur
  /\ map id (elements (handleMove r cx cy cur)) = map id (elements cur).
Proof.
  unfold handleMove. destruct r as [[rl rt]|]; [|now repeat split].
  destruct (negb (isDragging cur) || no_selection (selectedId cur))%bool;
    [now repeat split|].
  cbn [selectedId isDragging isEditingText dragOffset history historyIndex elements
         set_elements].
  repeat split. rewrite map_map. apply map_ext. intros el. apply move_element_id.
Qed.


(** The listener of the render on screen is [handleMove], [handleUp]. *)
Lemma handleMove_in_current (r : option (Z * Z)) (cx cy : Z) (cur : editor) :
  handleMove_in r cx cy cur cur = handleMove r cx cy cur.
Proof. reflexivity. Qed.

Lemma handleUp_in_current (cur : editor) : handleUp_in cur cur = handleUp cur.
Proof. reflexivity. Qed.









(** ** The history over a session *)

(** What a handler can do to the history: nothing, append a snapshot after
    the entries up to the index, or move the index inside it. *)
Definition history_step (cur st : editor) : Prop :=
  (history st = history cur /\ historyIndex st = historyIndex cur)
  \/ (exists e, history st
                = (firstn (Z.to_nat (historyIndex cur + 1)) (history cur) ++ [e])%list
                /\ historyIndex st = historyIndex cur + 1)
  \/ (history st = history cur /\ 0 <= historyIndex st < Z.of_nat (length (history st))).

Lemma saveHistory_step (cur st : editor) (d : Document) (s : option string) :
  history_ok cur -> history_step cur (saveHistory cur d s st).
Proof.
  intros Hok. destruct (saveHistory_spec cur st d s Hok) as (H1 & H2 & _).
  right. left. eauto.
Qed.

Lemma restore_step (cur st : editor) (i : Z) :
  0 <= i < Z.of_nat (length (history cur)) -> restore cur i = Done st ->
  history_step cur st.
Proof.
  intros Hi H. unfold restore in H. destruct (JS.index (history cur) i); [|discriminate].
  injection H as <-. right. right. cbn. split; [reflexivity | exact Hi].
Qed.

Lemma handle_history_step (ev : event) (cur st : editor) :
  history_ok cur -> handle ev cur = Done st -> history_step cur st.
Proof.
  intros Hok H. destruct ev; cbn [handle] in H; try (injection H as <-).
  - now apply saveHistory_step.
  - now apply saveHistory_step.
  - unfold deleteElement. destruct (no_selection (selectedId cur)); [now left|].
    destruct confirmed; [now apply saveHistory_step | now left].
  - left. apply updateProperty_history.
  - left. unfold handleMouseDown. destruct (isEditingText cur); [now split|].
    destruct (find_element i (elements cur)); now split.
  - left. destruct (handleMove_keeps rect clientX clientY cur) as (_ & _ & _ & _ & H1 & H2 & _).
    now split.
  - unfold handleUp. destruct (isDragging cur); [now apply saveHistory_step | now left].
  - left. unfold handleDoubleClick. destruct (find_element i (elements cur)); [|now split].
    destruct (el_type_eqb (type e) text); now split.
  - unfold handleTextBlur. destruct innerText; [|now left].
    destruct (isEditingText cur && negb (no_selection (selectedId cur)))%bool;
      [now apply saveHistory_step | now left].
  - now left.
  - unfold undo in H. destruct (historyIndex cur >? 0) eqn:Hgt.
    + rewrite Z.gtb_ltb in Hgt. apply Z.ltb_lt in Hgt.
      apply (restore_step cur st (historyIndex cur - 1)); [destruct Hok; lia | exact H].
    + injection H as <-. now left.
  - unfold redo in H.
    destruct (historyIndex cur <? Z.of_nat (length (history cur)) - 1) eqn:Hlt.
    + apply Z.ltb_lt in Hlt.
      apply (restore_step cur st (historyIndex cur + 1)); [destruct Hok; lia | exact H].
    + injection H as <-. now left.
Qed.

(** The index is [-1] exactly as long as nothing has been recorded. *)
Definition history_inv (st : editor) : Prop :=
  (history st = [] /\ historyIndex st = -1)
  \/ 0 <= historyIndex st < Z.of_nat (length (history st)).

Lemma history_inv_ok (st : editor) : history_inv st -> history_ok st.
Proof.
  unfold history_inv, history_ok. intros [[-> ->]|H]; cbn [length]; lia.
Qed.

Lemma history_step_inv (cur st : editor) :
  history_inv cur -> history_step cur st -> history_inv st.
Proof.
  intros Hinv Hstep. pose proof (history_inv_ok cur Hinv) as [Hlo Hhi].
  unfold history_inv in *.
  destruct Hstep as [[Hh Hi]|[(e & Hh & Hi)|[Hh Hi]]].
  - rewrite Hh, Hi. exact Hinv.
  - right. rewrite Hh, Hi, length_app, length_firstn. cbn [length]. lia.
  - right. exact Hi.
Qed.

Lemma run_history_inv (evs : list event) (cur : editor) :
  history_inv cur -> exists st, run evs cur = Done st /\ history_inv st.
Proof.
  revert cur. induction evs as [|ev evs IH]; intros cur Hinv; cbn [run]; [eauto|].
  destruct (handle_total ev cur (history_inv_ok cur Hinv)) as (st & Hst & _).
  rewrite Hst. apply IH.
  apply (history_step_inv cur st Hinv).
  apply (handle_history_step ev cur st (history_inv_ok cur Hinv) Hst).
Qed.


Lemma first_entry_step (cur st : editor) (e : entry) (h : list entry) :
  history_inv cur -> history_step cur st -> history cur = e :: h ->
  exists h', history st = e :: h'.
Proof.
  intros Hinv Hstep Hcur.
  destruct Hinv as [[Hnil _]|Hidx]; [congruence|].
  destruct Hstep as [[Hh _]|[(e' & Hh & _)|[Hh _]]].
  - exists h. congruence.
  - rewrite Hh, Hcur.
    destruct (Z.to_nat (historyIndex cur + 1)) as [|n] eqn:Hn; [lia|].
    cbn [firstn app]. eauto.
  - exists h. congruence.
Qed.

(** X4.  The first checkpoint is permanent in a session in which every
    handler runs as that of the render on screen (the events of the canvas,
    the toolbar and the property panel, paste, undo and redo; a file import
    or an image upload only when its read completes before the next event):
    once the history has a first entry, every later sequence of such events
    leaves that entry first, and the index never goes below it, so that undo
    can restore the first recorded document but never the empty document the
    session started with.  A file import whose read completes after a later
    event is not such an event, and can replace the entry
    ([late_import_replaces_first_entry]). *)
Theorem first_checkpoint_is_permanent (before after : list event) (st st' : editor)
    (e : entry) (h : list entry) :
  run before initial = Done st -> history st = e :: h ->
  run after st = Done st' ->
  (exists h', history st' = e :: h') /\ 0 <= historyIndex st'.
Proof.
  intros Hbefore Hh Hafter.
  assert (Hinv : history_inv st).
  { destruct (run_history_inv before initial) as (s & Hs & Hinv); [left; now split|].
    rewrite Hbefore in Hs. now injection Hs as <-. }
  clear Hbefore. revert st e h Hh Hinv Hafter.
  induction after as [|ev after IH]; intros st e h Hh Hinv Hafter; cbn [run] in Hafter.
  - injection Hafter as <-. split; [eauto|].
    destruct Hinv as [[Hnil _]|Hidx]; [congruence | lia].
  - destruct (handle ev st) as [s1|] eqn:Hev; [|discriminate].
    pose proof (handle_history_step ev st s1 (history_inv_ok st Hinv) Hev) as Hstep.
    destruct (first_entry_step st s1 e h Hinv Hstep Hh) as (h1 & Hh1).
    apply (IH s1 e h1 Hh1); [now apply (history_step_inv st) | exact Hafter].
Qed.

Lemma first_checkpoint_is_permanent_witness :
  exists h',
    history (addElement image 9 (deleteElement true (addElement text 7 initial)))
    = mkEntry [newElement text 7] (Some "text-7") :: h'.
Proof.
  destruct (first_checkpoint_is_permanent
              [AddElement text 7] [DeleteElement true; AddElement image 9]
              (addElement text 7 initial)
              (addElement image 9 (deleteElement true (addElement text 7 initial)))
              (mkEntry [newElement text 7] (Some "text-7")) [])
    as [H _]; [reflexivity | reflexivity | | exact H].
  vm_compute. reflexivity.
Defined.

(** A file is chosen for import in the first render, an element is added,
    and then the read completes: [reader.onload] saves with the empty
    history of the first render, and the entry of the added element is
    gone. *)
Example late_import_replaces_first_entry :
  history (addElement text 7 initial) = [mkEntry [newElement text 7] (Some "text-7")]
  /\ history (import_onload [] initial (addElement text 7 initial)) = [mkEntry [] None]
  /\ import_onload [] initial initial = load [] initial.
Proof. repeat split. Qed.

(** ** The selection *)

(** A selection is valid in a document when it is [null] or the id of one of
    its elements. *)
Definition selection_valid (d : Document) (sel : option string) : Prop :=
  sel = None \/ exists e, find (is_selected sel) d = Some e.

(** The selection of the live document and of every snapshot is valid. *)
Definition selection_inv (st : editor) : Prop :=
  selection_valid (elements st) (selectedId st)
  /\ Forall (fun e => selection_valid (entry_elements e) (entry_selectedId e))
       (history st).

(** A pointer-down names an element of the document, as the canvas attaches
    the handler to the elements it renders. *)
Definition hits_element (ev : event) (st : editor) : Prop :=
  match ev with
  | MouseDown _ _ i => find_element i (elements st) <> None
  | _ => True
  end.

Fixpoint well_targeted (evs : list event) (st : editor) : Prop :=
  match evs with
  | [] => True
  | ev :: rest =>
      hits_element ev st
      /\ match handle ev st with
         | Done st' => well_targeted rest st'
         | Throws => True
         end
  end.

Lemma selection_valid_map (f : element -> element) (d : Document) (sel : option string) :
  (forall e, id (f e) = id e) ->
  selection_valid d sel -> selection_valid (map f d) sel.
Proof.
  intros Hf [->|(e & He)]; [now left|]. right.
  induction d as [|a d IH]; [discriminate|]. cbn [map find] in *.
  assert (Hs : is_selected sel (f a) = is_selected sel a).
  { unfold is_selected. now rewrite Hf. }
  rewrite Hs. destruct (is_selected sel a); [eauto | now apply IH].
Qed.

Lemma selection_valid_last (d : Document) (e : element) :
  selection_valid (d ++ [e])%list (Some (id e)).
Proof.
  right. induction d as [|a d IH]; cbn [app find is_selected].
  - rewrite String.eqb_refl. eauto.
  - destruct (String.eqb (id a) (id e)); [eauto | exact IH].
Qed.

Lemma saveHistory_selection (cur st : editor) (d : Document) (s : option string) :
  selection_inv cur -> selection_valid d s ->
  selection_valid (elements st) (selectedId st) ->
  selection_inv (saveHistory cur d s st).
Proof.
  intros [_ Hh] Hd Hst. split; [exact Hst|].
  unfold saveHistory. cbn [history set_history].
  apply Forall_app. split; [now apply Forall_slice0|].
  constructor; [exact Hd | constructor].
Qed.

Lemma restore_selection (cur st : editor) (i : Z) :
  selection_inv cur -> restore cur i = Done st -> selection_inv st.
Proof.
  intros [_ Hh] H. unfold restore in H.
  destruct (JS.index (history cur) i) as [e|] eqn:Hi; [|discriminate].
  injection H as <-. split; [|exact Hh].
  cbn [elements selectedId set_history set_selectedId set_elements].
  exact (Forall_index _ _ _ _ Hh Hi).
Qed.

Lemma update_element_id (sel : option string) (prop val : string) (el : element) :
  id (update_element sel prop val el) = id el.
Proof.
  unfold update_element. destruct (is_selected sel el); [|reflexivity].
  now destruct (is_top_level prop).
Qed.

Lemma updateProperty_selection (prop val : string) (cur : editor) :
  selection_valid (elements cur) (selectedId cur) ->
  selection_valid (elements (updateProperty prop val cur))
    (selectedId (updateProperty prop val cur)).
Proof.
  intros H. unfold updateProperty. destruct (no_selection (selectedId cur)); [exact H|].
  cbn [elements selectedId set_elements]. apply selection_valid_map; [|exact H].
  intros e. apply update_element_id.
Qed.

Lemma handle_selection (ev : event) (cur st : editor) :
  selection_inv cur -> hits_element ev cur -> handle ev cur = Done st ->
  selection_inv st.
Proof.
  intros Hinv Hhit H. pose proof Hinv as [Hlive Hh].
  destruct ev; cbn [handle] in H; try (injection H as <-).
  - apply saveHistory_selection; [exact Hinv | now left | now left].
  - apply saveHistory_selection; [exact Hinv | |];
      cbn [elements selectedId set_selectedId set_elements];
      apply selection_valid_last.
  - unfold deleteElement. destruct (no_selection (selectedId cur)); [exact Hinv|].
    destruct confirmed; [|exact Hinv].
    apply saveHistory_selection; [exact Hinv | now left | now left].
  - split; [now apply updateProperty_selection|].
    destruct (updateProperty_history prop val cur) as [-> _]. exact Hh.
  - unfold handleMouseDown. destruct (isEditingText cur); [exact Hinv|].
    cbn [hits_element] in Hhit. unfold find_element in *.
    destruct (find (fun e => String.eqb (id e) i) (elements cur)) as [el|] eqn:Hf;
      [|congruence].
    split; [|exact Hh]. right. exists el. exact Hf.
  - destruct (handleMove_keeps rect clientX clientY cur) as (H1 & _ & _ & _ & H2 & _ & _).
    split; [|now rewrite H2]. rewrite H1.
    unfold handleMove. destruct rect as [[rl rt]|]; [|exact Hlive].
    destruct (negb (isDragging cur) || no_selection (selectedId cur))%bool; [exact Hlive|].
    cbn [elements set_elements]. apply selection_valid_map; [|exact Hlive].
    intros e. apply move_element_id.
  - unfold handleUp. destruct (isDragging cur); [|exact Hinv].
    now apply saveHistory_selection.
  - unfold handleDoubleClick, find_element.
    destruct (find (fun e => String.eqb (id e) i) (elements cur)) as [el|] eqn:Hf;
      [|exact Hinv].
    destruct (el_type_eqb (type el) text); [|exact Hinv].
    split; [|exact Hh]. right. exists el. exact Hf.
  - unfold handleTextBlur. destruct innerText as [t|]; [|exact Hinv].
    destruct (isEditingText cur && negb (no_selection (selectedId cur)))%bool;
      [|exact Hinv].
    apply saveHistory_selection; [exact Hinv | exact Hlive|].
    now apply updateProperty_selection.
  - split; [now left | exact Hh].
  - unfold undo in H. destruct (historyIndex cur >? 0).
    + now apply (restore_selection cur st (historyIndex cur - 1)).
    + now injection H as <-.
  - unfold redo in H.
    destruct (historyIndex cur <? Z.of_nat (length (history cur)) - 1).
    + now apply (restore_selection cur st (historyIndex cur + 1)).
    + now injection H as <-.
Qed.

(** X5.  The selection never dangles in a session in which every handler
    runs as that of the render on screen (the events of the canvas, the
    toolbar and the property panel, paste, undo and redo; a file import or an
    image upload only when its read completes before the next event) and
    every pointer-down is on an element of the document: after every
    sequence of such events the selected id is [null] or [selectedElement] is
    an element of the document with that id, and the same holds of the
    document and the selected id of every history entry; in particular a
    command that removes the selected element leaves no selection behind,
    and undo and redo restore a selection together with a document that has
    it.  An image upload whose read completes after a later event is not such
    an event, and can leave a selection without an element
    ([late_upload_dangles]). *)
Theorem selection_never_dangles (evs : list event) (st : editor) :
  well_targeted evs initial -> run evs initial = Done st ->
  (selectedId st = None
   \/ exists e, selectedElement st = Some e /\ Some (id e) = selectedId st)
  /\ Forall (fun h =>
               entry_selectedId h = None
               \/ exists e, In e (entry_elements h) /\ Some (id e) = entry_selectedId h)
       (history st).
Proof.
  intros Hwt Hrun.
  assert (Hinv : selection_inv st).
  { assert (H0 : selection_inv initial) by (split; [now left | constructor]).
    revert Hwt Hrun H0. generalize initial as cur.
    induction evs as [|ev evs IH]; intros cur Hwt Hrun H0; cbn [run well_targeted] in *.
    - now injection Hrun as <-.
    - destruct Hwt as [Hhit Hwt]. destruct (handle ev cur) as [s1|] eqn:Hev; [|discriminate].
      apply (IH s1 Hwt Hrun). now apply (handle_selection ev cur). }
  assert (Hfound : forall d sel, selection_valid d sel ->
            sel = None \/ exists e, find (is_selected sel) d = Some e /\ Some (id e) = sel).
  { intros d sel [->|(e & He)]; [now left|]. right. exists e. split; [exact He|].
    apply find_some in He. destruct He as [_ He]. destruct sel as [s|]; [|discriminate].
    cbn in He. apply String.eqb_eq in He. now rewrite He. }
  destruct Hinv as [Hlive Hh]. split.
  - apply Hfound, Hlive.
  - eapply Forall_impl; [|exact Hh]. intros h Hv. cbv beta in Hv.
    destruct (Hfound _ _ Hv) as [Hn|(e & He & Hid)]; [now left|]. right.
    exists e. split; [|exact Hid]. apply find_some in He. tauto.
Qed.

Lemma selection_never_dangles_witness :
  selectedId (deleteElement true (handleMouseDown 5 5 "text-7" (addElement text 7 initial)))
  = None
  \/ exists e,
       selectedElement
         (deleteElement true (handleMouseDown 5 5 "text-7" (addElement text 7 initial)))
       = Some e
       /\ Some (id e)
          = selectedId
              (deleteElement true
                 (handleMouseDown 5 5 "text-7" (addElement text 7 initial))).
Proof.
  apply (selection_never_dangles
           [AddElement text 7; MouseDown 5 5 "text-7"; DeleteElement true]).
  - cbn [well_targeted handle hits_element]. repeat split. discriminate.
  - reflexivity.
Defined.

(** A file is chosen for the selected image, the image is deleted and a
    text is added, and then the read completes: [reader.onload] puts back
    the document of the render in which the file was chosen, with the new
    [src], while the selection stays that of the text. *)
Example late_upload_dangles :
  let seen := addElement image 7 initial in
  let st := upload_onload "data:," seen (addElement text 9 (deleteElement true seen)) in
  selectedId st = Some "text-9"
  /\ map id (elements st) = ["img-7"]
  /\ selectedElement st = None
  /\ upload_onload "data:," seen seen = updateProperty "src" "data:," seen.
Proof. repeat split. Qed.

(** ** The ids [parse] synthesizes *)

Fixpoint all_digits (s : string) : bool :=
  match s with
  | EmptyString => true
  | String c s' => (decimal_char c && all_digits s')%bool
  end.

Lemma all_digits_numeral (d : Decimal.uint) : all_digits (NilEmpty.string_of_uint d) = true.
Proof. induction d; cbn [NilEmpty.string_of_uint all_digits]; [reflexivity | exact IHd ..]. Qed.

Lemma all_digits_of_N (n : N) : all_digits (JS.of_N n) = true.
Proof.
  unfold JS.of_N, NilZero.string_of_uint.
  destruct (N.to_uint n) eqn:E; try reflexivity; rewrite <- E; apply all_digits_numeral.
Qed.

Lemma of_N_inj (a b : N) : JS.of_N a = JS.of_N b -> a = b.
Proof.
  intros H.
  pose proof (parseInt_of_N a "" eq_refl) as Ha.
  pose proof (parseInt_of_N b "" eq_refl) as Hb.
  rewrite H in Ha. rewrite Ha in Hb. injection Hb as Hb. lia.
Qed.

(** Two numerals followed by a dash and anything are equal only when the
    numerals and what follows are. *)
Lemma numeral_dash_inj (s1 s2 t1 t2 : string) :
  all_digits s1 = true -> all_digits s2 = true ->
  s1 ++ "-" ++ t1 = s2 ++ "-" ++ t2 -> s1 = s2 /\ t1 = t2.
Proof.
  revert s2. induction s1 as [|c s1 IH]; intros [|c2 s2] H1 H2 H;
    cbn [append all_digits] in *.
  - injection H as ->. now split.
  - injection H as <- _. discriminate.
  - injection H as -> _. discriminate.
  - injection H as -> H. apply andb_prop in H1, H2.
    destruct (IH s2) as [-> ->]; [tauto | tauto | exact H | now split].
Qed.

Lemma numeral_dash_neq (s1 s2 t : string) :
  all_digits s1 = true -> all_digits s2 = true -> s1 ++ "-" ++ t <> s2.
Proof.
  revert s2. induction s1 as [|c s1 IH]; intros [|c2 s2] H1 H2 H;
    cbn [append all_digits] in *; try discriminate.
  - injection H as <- _. discriminate.
  - injection H as -> H. apply andb_prop in H1, H2.
    apply (IH s2); tauto.
Qed.

Lemma parseNode_id (computed : css) (now : N) (el : node) (i : nat) :
  id (parseNode computed now el i)
  = (if String.eqb (tagName_of el) "IMG" then "img-" else "text-")
      ++ JS.of_N now ++ "-" ++ JS.of_N (N.of_nat i).
Proof. unfold parseNode. now destruct (String.eqb (tagName_of el) "IMG"). Qed.

Lemma parseNode_id_inj (c1 c2 : css) (n1 n2 : N) (e1 e2 : node) (i j : nat) :
  id (parseNode c1 n1 e1 i) = id (parseNode c2 n2 e2 j) -> i = j.
Proof.
  rewrite !parseNode_id. intros H.
  assert (Hij : JS.of_N (N.of_nat i) = JS.of_N (N.of_nat j)).
  { destruct (String.eqb (tagName_of e1) "IMG"), (String.eqb (tagName_of e2) "IMG");
      cbn [append] in H; try discriminate; injection H as H;
      now destruct (numeral_dash_inj _ _ _ _ (all_digits_of_N n1) (all_digits_of_N n2) H). }
  apply of_N_inj in Hij. lia.
Qed.

Lemma parseNode_id_fresh (c : css) (n : N) (e : node) (i : nat) (ty : el_type) (now : N) :
  id (parseNode c n e i) <> id (newElement ty now).
Proof.
  rewrite parseNode_id. intros H.
  destruct (String.eqb (tagName_of e) "IMG"), ty; cbn [append newElement id] in H;
    try discriminate; injection H as H;
    exact (numeral_dash_neq _ _ _ (all_digits_of_N n) (all_digits_of_N now) H).
Qed.

Lemma parse_children_In (computed : nat -> node -> css) (clock : nat -> N)
    (l : list node) (i0 : nat) (e : element) :
  In e (parse_children computed clock i0 l) ->
  exists k c, e = parseNode (computed (i0 + k)%nat c) (clock (i0 + k)%nat) c (i0 + k)%nat.
Proof.
  intros H. apply In_nth_error in H. destruct H as [k Hk].
  destruct (parse_children_nth _ _ _ _ _ _ Hk) as (c & _ & He). eauto.
Qed.

Lemma parse_children_NoDup (computed : nat -> node -> css) (clock : nat -> N)
    (l : list node) (i0 : nat) :
  NoDup (map id (parse_children computed clock i0 l)).
Proof.
  revert i0. induction l as [|c l IH]; intros i0; cbn [parse_children map];
    constructor; [|apply IH].
  intros Hin. apply in_map_iff in Hin. destruct Hin as (e & Hid & He).
  apply parse_children_In in He. destruct He as (k & c' & ->).
  apply parseNode_id_inj in Hid. lia.
Qed.

(** X6.  Whatever the markup, the browser and the clock (also a clock that
    returns the same time for every element), the elements [parse] returns
    have pairwise distinct ids, and none of them is an id [addElement] can
    give to a new element. *)
Theorem parse_ids_distinct (innerHTML_set : string -> list node)
    (innerHTML_get : list node -> string) (parseFromString : string -> html_document)
    (getComputedStyle : html_document -> nat -> node -> css) (clock : nat -> N)
    (html : string) :
  let d := parse innerHTML_set innerHTML_get parseFromString getComputedStyle clock html in
  NoDup (map id d)
  /\ forall ty now, ~ In (id (newElement ty now)) (map id d).
Proof.
  intros d. subst d. unfold parse. split; [apply parse_children_NoDup|].
  intros ty now Hin. apply in_map_iff in Hin. destruct Hin as (e & Hid & He).
  apply parse_children_In in He. destruct He as (k & c & ->).
  exact (parseNode_id_fresh _ _ _ _ _ _ Hid).
Qed.

(** ** The sanitizer on the tree a selector sees *)

Section NodeInduction.

Variable P_node : node -> Prop.
Variable P_list : list node -> Prop.
Hypothesis H_text : forall d, P_node (TextNode d).
Hypothesis H_comment : forall d, P_node (CommentNode d).
Hypothesis H_element :
  forall name attrs st ch tc, P_list ch -> P_node (Element name attrs st ch tc).
Hypothesis H_nil : P_list [].
Hypothesis H_cons : forall c l, P_node c -> P_list l -> P_list (c :: l).

Fixpoint node_induction (n : node) : P_node n :=
  match n with
  | TextNode d => H_text d
  | CommentNode d => H_comment d
  | Element name attrs st ch tc =>
      H_element name attrs st ch tc
        ((fix go (l : list node) : P_list l :=
            match l with
            | [] => H_nil
            | c :: l' => H_cons c l' (node_induction c) (go l')
            end) ch)
  end.

Lemma node_list_induction (l : list node) : P_list l.
Proof. induction l; [exact H_nil | apply H_cons; [apply node_induction | assumption]]. Qed.

End NodeInduction.

Lemma reaches_incl (l l' : list node) (n : node) :
  incl l l' -> reaches l n -> reaches l' n.
Proof.
  intros Hincl H. destruct H as [l n Hin | l name attrs st ch tc n Hin Hch].
  - apply reaches_here. now apply Hincl.
  - eapply reaches_below; [apply Hincl; exact Hin | exact Hch].
Qed.

Lemma reaches_head (c : node) (l : list node) (n : node) :
  reaches [c] n -> reaches (c :: l) n.
Proof. apply reaches_incl. intros x [<-|[]]. now left. Qed.

Lemma reaches_tail (c : node) (l : list node) (n : node) :
  reaches l n -> reaches (c :: l) n.
Proof. apply reaches_incl. intros x Hx. now right. Qed.

Lemma reaches_children name attrs st ch tc (n : node) :
  reaches ch n -> reaches [Element name attrs st ch tc] n.
Proof. intros H. eapply reaches_below; [now left | exact H]. Qed.

Lemma clean_node_element name attrs st ch tc :
  clean_node (Element name attrs st ch tc)
  = Element name (clean_attributes attrs) st (map clean_node ch) tc.
Proof. reflexivity. Qed.

(** A removal pass and the attribute pass commute. *)
Lemma remove_tag_list_clean (tag : string) (l : list node) :
  remove_tag_list tag (map clean_node l) = map clean_node (remove_tag_list tag l).
Proof.
  apply (node_list_induction
           (fun n => remove_tag tag (clean_node n) = clean_node (remove_tag tag n))
           (fun l => remove_tag_list tag (map clean_node l)
                     = map clean_node (remove_tag_list tag l))).
  - reflexivity.
  - reflexivity.
  - intros name attrs st ch tc IH.
    rewrite clean_node_element, !remove_tag_element, clean_node_element. now rewrite IH.
  - reflexivity.
  - intros c l' Hc Hl. cbn [map remove_tag_list]. rewrite named_clean_node.
    destruct (named tag c); [exact Hl|]. cbn [map]. now rewrite Hc, Hl.
Qed.

(** A removal pass changes nothing where no element has the name. *)
Lemma remove_tag_list_fixed (tag : string) (l : list node) :
  (forall n, reaches l n -> named tag n = false) -> remove_tag_list tag l = l.
Proof.
  apply (node_list_induction
           (fun c => (forall n, reaches [c] n -> named tag n = false) ->
                     remove_tag tag c = c)
           (fun l => (forall n, reaches l n -> named tag n = false) ->
                     remove_tag_list tag l = l)).
  - reflexivity.
  - reflexivity.
  - intros name attrs st ch tc IH H. rewrite remove_tag_element. f_equal.
    apply IH. intros n Hn. apply H. now apply reaches_children.
  - reflexivity.
  - intros c l' Hc Hl H. cbn [remove_tag_list].
    rewrite (H c) by (apply reaches_here; now left).
    rewrite Hc, Hl; [reflexivity | |].
    + intros n Hn. apply H. now apply reaches_tail.
    + intros n Hn. apply H. now apply reaches_head.
Qed.

Lemma clean_attributes_twice (attrs : list (string * string)) :
  NoDup (map fst attrs) ->
  clean_attributes (clean_attributes attrs) = clean_attributes attrs.
Proof.
  intros Hnd. rewrite (clean_attributes_filter attrs Hnd).
  rewrite clean_attributes_filter by now apply NoDup_map_filter.
  rewrite filter_filter. apply filter_ext. intros kv. now destruct (benign kv).
Qed.

(** The attribute pass changes nothing the second time. *)
Lemma clean_node_twice (l : list node) :
  (forall n, reaches l n -> NoDup (map fst (attributes_of n))) ->
  map clean_node (map clean_node l) = map clean_node l.
Proof.
  apply (node_list_induction
           (fun c => (forall n, reaches [c] n -> NoDup (map fst (attributes_of n))) ->
                     clean_node (clean_node c) = clean_node c)
           (fun l => (forall n, reaches l n -> NoDup (map fst (attributes_of n))) ->
                     map clean_node (map clean_node l) = map clean_node l)).
  - reflexivity.
  - reflexivity.
  - intros name attrs st ch tc IH H. rewrite !clean_node_element. f_equal.
    + apply clean_attributes_twice.
      apply (H (Element name attrs st ch tc)). apply reaches_here. now left.
    + apply IH. intros n Hn. apply H. now apply reaches_children.
  - reflexivity.
  - intros c l' Hc Hl H. cbn [map]. rewrite Hc, Hl; [reflexivity | |].
    + intros n Hn. apply H. now apply reaches_tail.
    + intros n Hn. apply H. now apply reaches_head.
Qed.

Definition removal_passes (tags : list string) (l : list node) : list node :=
  fold_left (fun cur tag => remove_tag_all tag cur) tags l.

Lemma removal_passes_clean (tags : list string) (l : list node) :
  removal_passes tags (map clean_node l) = map clean_node (removal_passes tags l).
Proof.
  unfold removal_passes. revert l.
  induction tags as [|tag tags IH]; intros l; cbn [fold_left]; [reflexivity|].
  rewrite !remove_tag_all_list, remove_tag_list_clean. apply IH.
Qed.

Lemma removal_passes_unchanged (tags : list string) (l : list node) :
  (forall n, reaches l n -> forall t, In t tags -> named t n = false) ->
  removal_passes tags l = l.
Proof.
  unfold removal_passes. intros H.
  induction tags as [|tag tags IH]; cbn [fold_left]; [reflexivity|].
  rewrite remove_tag_all_list, remove_tag_list_fixed.
  - apply IH. intros n Hn t Ht. apply (H n Hn). now right.
  - intros n Hn. apply (H n Hn). now left.
Qed.

(** Attribute names are pairwise distinct in every element of a tree. *)
Fixpoint distinct (l : list string) : bool :=
  match l with
  | [] => true
  | a :: l' => (negb (existsb (String.eqb a) l') && distinct l')%bool
  end.

Fixpoint distinct_names (n : node) : bool :=
  match n with
  | Element _ attrs _ ch _ =>
      (distinct (map fst attrs)
       && (fix go (l : list node) : bool :=
             match l with
             | [] => true
             | c :: l' => (distinct_names c && go l')%bool
             end) ch)%bool
  | _ => true
  end.

Lemma distinct_NoDup (l : list string) : distinct l = true -> NoDup l.
Proof.
  induction l as [|a l IH]; intros H; cbn [distinct] in H; constructor.
  - apply andb_prop in H. destruct H as [H _]. intros Hin.
    assert (Hex : existsb (String.eqb a) l = true).
    { apply existsb_exists. exists a. split; [exact Hin | apply String.eqb_refl]. }
    now rewrite Hex in H.
  - apply IH. apply andb_prop in H. tauto.
Qed.

Lemma distinct_names_element name attrs st ch tc :
  distinct_names (Element name attrs st ch tc)
  = (distinct (map fst attrs) && forallb distinct_names ch)%bool.
Proof. reflexivity. Qed.

Lemma reaches_cons_inv (c : node) (l : list node) (n : node) :
  reaches (c :: l) n -> reaches [c] n \/ reaches l n.
Proof.
  intros H. inversion H as [? ? Hin | ? name attrs st ch tc ? Hin Hch]; subst.
  - destruct Hin as [<-|Hin]; [left | right]; apply reaches_here; [now left | exact Hin].
  - destruct Hin as [Heq|Hin]; [left | right].
    + eapply reaches_below; [left; exact Heq | exact Hch].
    + eapply reaches_below; [exact Hin | exact Hch].
Qed.

Lemma distinct_names_reaches (l : list node) :
  forallb distinct_names l = true ->
  forall n, reaches l n -> NoDup (map fst (attributes_of n)).
Proof.
  apply (node_list_induction
           (fun c => distinct_names c = true ->
                     forall n, reaches [c] n -> NoDup (map fst (attributes_of n)))
           (fun l => forallb distinct_names l = true ->
                     forall n, reaches l n -> NoDup (map fst (attributes_of n)))).
  - intros d _ n H. inversion H as [? ? Hin | ? ? ? ? ? ? ? Hin _]; subst.
    + destruct Hin as [<-|[]]. constructor.
    + destruct Hin as [Heq|[]]. discriminate.
  - intros d _ n H. inversion H as [? ? Hin | ? ? ? ? ? ? ? Hin _]; subst.
    + destruct Hin as [<-|[]]. constructor.
    + destruct Hin as [Heq|[]]. discriminate.
  - intros name attrs st ch tc IH Hd n H.
    rewrite distinct_names_element in Hd. apply andb_prop in Hd. destruct Hd as [Ha Hch].
    inversion H as [? ? Hin | ? ? ? ? ? ? ? Hin Hbelow]; subst.
    + destruct Hin as [<-|[]]. now apply distinct_NoDup.
    + destruct Hin as [Heq|[]]. injection Heq as <- <- <- <- <-. now apply IH.
  - intros _ n H. inversion H as [? ? Hin | ? ? ? ? ? ? ? Hin _]; subst; destruct Hin.
  - intros c l' Hc Hl Hd n H. cbn [forallb] in Hd. apply andb_prop in Hd.
    destruct (reaches_cons_inv c l' n H); [apply Hc | apply Hl]; tauto.
Qed.

(** X7.  On a tree whose elements have pairwise distinct attribute names,
    as the HTML parser builds them, sanitizing twice gives what sanitizing
    once gives: the output of the sanitizer holds nothing the sanitizer
    would remove. *)
Theorem sanitize_nodes_idempotent (l : list node) :
  (forall n, reaches l n -> NoDup (map fst (attributes_of n))) ->
  sanitize_nodes (sanitize_nodes l) = sanitize_nodes l.
Proof.
  intros Hnd. unfold sanitize_nodes.
  change (fold_left (fun cur tag => remove_tag_all tag cur) dangerous)
    with (removal_passes dangerous).
  rewrite removal_passes_clean.
  rewrite (removal_passes_unchanged dangerous (removal_passes dangerous l)).
  - apply clean_node_twice. intros n Hn.
    destruct (removal_passes_none dangerous l n Hn) as (_ & n0 & Hr0 & _ & _ & Ha).
    rewrite Ha. now apply Hnd.
  - intros n Hn. now destruct (removal_passes_none dangerous l n Hn).
Qed.

(** The children of [temp] for the markup
    [<div onclick="go()" id="a"><script>x</script><a href="JavaScript:go()" title="t">link</a></div>]. *)
Definition unsafe_tree : list node :=
  [Element "div" [("onclick", "go()"); ("id", "a")] []
     [Element "script" [] [] [TextNode "x"] [];
      Element "a" [("href", "JavaScript:go()"); ("title", "t")] [] [TextNode "link"] []]
     []].

Lemma unsafe_tree_distinct (n : node) :
  reaches unsafe_tree n -> NoDup (map fst (attributes_of n)).
Proof. apply distinct_names_reaches. reflexivity. Qed.

Lemma sanitize_nodes_idempotent_witness :
  sanitize_nodes (sanitize_nodes unsafe_tree) = sanitize_nodes unsafe_tree.
Proof. exact (sanitize_nodes_idempotent unsafe_tree unsafe_tree_distinct). Defined.

(** X8.  On a tree whose elements have pairwise distinct attribute names,
    what a selector reaches after the sanitizer is safe and nothing benign
    is lost from it: no element reached is a script, iframe, object, embed,
    link or style element; no attribute left has a name that starts with on,
    and no href, src or action left has a value that contains javascript: in
    any letter case; and every node reached is a node of the input with its
    name, and keeps every attribute of it that is neither. *)
Theorem sanitize_nodes_safe (l : list node) (n : node) :
  (forall n0, reaches l n0 -> NoDup (map fst (attributes_of n0))) ->
  reaches (sanitize_nodes l) n ->
  (is_element n = true -> ~ In (localName_of n) dangerous)
  /\ (forall k v, In (k, v) (attributes_of n) ->
        JS.startsWith "on" k = false
        /\ (In k ["href"; "src"; "action"] ->
            JS.includes "javascript:" (JS.toLowerCase v) = false))
  /\ exists n0, reaches l n0
       /\ is_element n = is_element n0 /\ localName_of n = localName_of n0
       /\ forall k v, In (k, v) (attributes_of n0) ->
            JS.startsWith "on" k = false ->
            (In k ["href"; "src"; "action"] ->
             JS.includes "javascript:" (JS.toLowerCase v) = false) ->
            In (k, v) (attributes_of n).
Proof.
  intros Hnd Hn.
  destruct (sanitize_nodes_reachable l n Hnd Hn) as (Hnone & n0 & Hr0 & Hk & Hl & Ha).
  split.
  { intros Hel Hin. specialize (Hnone _ Hin). unfold named in Hnone.
    now rewrite Hel, String.eqb_refl in Hnone. }
  split.
  { intros k v Hin. rewrite Ha in Hin. apply filter_In in Hin. destruct Hin as [_ Hb].
    unfold benign, is_handler, is_script_url in Hb. cbn [fst snd] in Hb.
    apply andb_prop in Hb. destruct Hb as [Hb Hact].
    apply andb_prop in Hb. destruct Hb as [Hb Hsrc].
    apply andb_prop in Hb. destruct Hb as [Hon Hhref].
    split; [now destruct (JS.startsWith "on" k)|].
    intros [<-|[<-|[<-|[]]]].
    - rewrite String.eqb_refl in Hhref.
      now destruct (JS.includes "javascript:" (JS.toLowerCase v)).
    - rewrite String.eqb_refl in Hsrc.
      now destruct (JS.includes "javascript:" (JS.toLowerCase v)).
    - rewrite String.eqb_refl in Hact.
      now destruct (JS.includes "javascript:" (JS.toLowerCase v)). }
  exists n0. split; [exact Hr0|]. split; [exact Hk|]. split; [exact Hl|].
  intros k v Hin Hon Hurl. rewrite Ha. apply filter_In. split; [exact Hin|].
  unfold benign, is_handler, is_script_url. cbn [fst snd]. rewrite Hon. cbn [negb andb].
  assert (Hone : forall name, In name ["href"; "src"; "action"] ->
            negb (String.eqb k name && JS.includes "javascript:" (JS.toLowerCase v)) = true).
  { intros name Hname. destruct (String.eqb k name) eqn:E; [|reflexivity].
    apply String.eqb_eq in E. subst name. now rewrite Hurl. }
  rewrite !Hone by (cbn; tauto). reflexivity.
Qed.

Lemma sanitize_nodes_safe_witness :
  JS.startsWith "on" "title" = false
  /\ exists n0, reaches unsafe_tree n0 /\ localName_of n0 = "a".
Proof.
  destruct (sanitize_nodes_safe unsafe_tree
              (Element "a" [("title", "t")] [] [TextNode "link"] []) unsafe_tree_distinct)
    as (_ & Hattrs & n0 & Hr & _ & Hname & _).
  { eapply reaches_below; [now left|]. apply reaches_here. now left. }
  split.
  - destruct (Hattrs "title" "t") as [H _]; [now left | exact H].
  - exists n0. split; [exact Hr | now rewrite <- Hname].
Defined.

(** ** Undo and redo after a command *)

Lemma restore_at (cur : editor) (i : Z) (e : entry) :
  JS.index (history cur) i = Some e ->
  restore cur i
  = Done (set_history (history cur) i
            (set_selectedId (entry_selectedId e) (set_elements (entry_elements e) cur))).
Proof. intros H. unfold restore. now rewrite H. Qed.

(** Undo from a positive index, then redo. *)
Lemma undo_then_redo (cur : editor) (e : entry) :
  history_ok cur -> 0 < historyIndex cur ->
  JS.index (history cur) (historyIndex cur) = Some e ->
  exists u, undo cur = Done u
    /\ historyIndex u = historyIndex cur - 1 /\ history u = history cur
    /\ redo u
       = Done (set_history (history cur) (historyIndex cur)
                 (set_selectedId (entry_selectedId e)
                    (set_elements (entry_elements e) cur))).
Proof.
  intros [_ Hhi] Hpos He. unfold undo.
  replace (historyIndex cur >? 0) with true by (symmetry; rewrite Z.gtb_ltb; now apply Z.ltb_lt).
  destruct (index_in_range (history cur) (historyIndex cur - 1)) as [p Hp]; [lia|].
  rewrite (restore_at cur _ p Hp). eexists. split; [reflexivity|].
  split; [reflexivity|]. split; [reflexivity|].
  unfold redo. cbn [history historyIndex set_history set_selectedId set_elements].
  replace (historyIndex cur - 1 <? Z.of_nat (length (history cur)) - 1) with true
    by (symmetry; apply Z.ltb_lt; lia).
  unfold restore. cbn [history set_history set_selectedId set_elements].
  replace (historyIndex cur - 1 + 1) with (historyIndex cur) by lia.
  rewrite He. reflexivity.
Qed.

(** X9.  Leaving the text editor records the text from before the edit:
    the document shown gets the new content, but the history entry pushed,
    which becomes the current one, holds the document the handler closed
    over, so that undo followed by redo brings back the old text and the
    edit is in no history entry. *)
Theorem text_edit_not_recorded (cur : editor) (sel t : string) :
  isEditingText cur = true -> selectedId cur = Some sel -> sel <> "" ->
  history_ok cur -> 0 <= historyIndex cur ->
  let st := handleTextBlur (Some t) cur in
  elements st = map (update_element (Some sel) "content" t) (elements cur)
  /\ isEditingText st = false
  /\ history st
     = (firstn (Z.to_nat (historyIndex cur + 1)) (history cur)
          ++ [mkEntry (elements cur) (Some sel)])%list
  /\ historyIndex st = historyIndex cur + 1
  /\ exists u r, undo st = Done u /\ redo u = Done r
       /\ elements r = elements cur /\ selectedId r = Some sel
       /\ historyIndex r = historyIndex st /\ history r = history st.
Proof.
  intros Hed Hsel Hne Hok Hidx st.
  assert (Hst : st = saveHistory cur (elements cur) (Some sel)
                       (set_isEditingText false (updateProperty "content" t cur))).
  { unfold st, handleTextBlur. rewrite Hed, Hsel, (no_selection_some sel Hne). reflexivity. }
  destruct (saveHistory_spec cur (set_isEditingText false (updateProperty "content" t cur))
              (elements cur) (Some sel) Hok) as (S1 & S2 & S3).
  rewrite <- Hst in S1, S2, S3.
  assert (Hel : elements st = map (update_element (Some sel) "content" t) (elements cur)).
  { rewrite Hst. unfold updateProperty. rewrite Hsel, (no_selection_some sel Hne).
    reflexivity. }
  split; [exact Hel|]. split; [now rewrite Hst|]. split; [exact S1|]. split; [exact S2|].
  assert (Hok' : history_ok st) by (rewrite Hst; now apply saveHistory_ok).
  destruct (undo_then_redo st _ Hok' ltac:(lia) S3) as (u & Hu & _ & _ & Hr).
  exists u. eexists. split; [exact Hu|]. split; [exact Hr|]. now repeat split.
Qed.

Definition editing_hello : editor :=
  set_isEditingText true
    (handleDoubleClick "text-7" (updateProperty "content" "Hello" (addElement text 7 initial))).

Lemma text_edit_not_recorded_witness :
  exists u r,
    undo (handleTextBlur (Some "Bye") editing_hello) = Done u /\ redo u = Done r
    /\ map content (elements (handleTextBlur (Some "Bye") editing_hello)) = [Some "Bye"]
    /\ map content (elements r) = [Some "Hello"].
Proof.
  destruct (text_edit_not_recorded editing_hello "text-7" "Bye")
    as (Hel & _ & _ & _ & u & r & Hu & Hr & Her & _);
    [reflexivity | reflexivity | discriminate | cbv; split; congruence | cbv; congruence |].
  exists u, r. split; [exact Hu|]. split; [exact Hr|]. rewrite Hel, Her.
  split; reflexivity.
Defined.

Lemma saveHistory_index (cur st : editor) (d : Document) (s : option string) :
  historyIndex cur = -1 ->
  history (saveHistory cur d s st) = [mkEntry d s]
  /\ historyIndex (saveHistory cur d s st) = 0.
Proof.
  intros H. unfold saveHistory. rewrite H. cbn [history historyIndex set_history].
  unfold JS.slice0. change (-1 + 1 <? 0) with false. cbv iota.
  rewrite Z.min_l by lia. now split.
Qed.

Lemma undo_after_push (cur st0 : editor) (d : Document) (s : option string) :
  history_ok cur ->
  (historyIndex cur = -1 ->
   undo (saveHistory cur d s st0) = Done (saveHistory cur d s st0))
  /\ (forall e, 0 <= historyIndex cur ->
        JS.index (history cur) (historyIndex cur) = Some e ->
        exists u, undo (saveHistory cur d s st0) = Done u
          /\ elements u = entry_elements e /\ selectedId u = entry_selectedId e
          /\ historyIndex u = historyIndex cur
          /\ exists r, redo u = Done r /\ elements r = d /\ selectedId r = s).
Proof.
  intros Hok. split.
  - intros Hm. unfold undo. destruct (saveHistory_index cur st0 d s Hm) as [_ ->].
    reflexivity.
  - intros e Hidx He.
    destruct (saveHistory_spec cur st0 d s Hok) as (S1 & S2 & S3).
    pose proof (saveHistory_ok cur st0 d s Hok) as Hok'.
    remember (saveHistory cur d s st0) as st eqn:Est. clear Est.
    destruct (undo_then_redo st _ Hok' ltac:(lia) S3) as (u & Hu & Hui & Huh & Hr).
    exists u. split; [exact Hu|].
    assert (Hprev : JS.index (history st) (historyIndex st - 1) = Some e).
    { rewrite S1, S2. replace (historyIndex cur + 1 - 1) with (historyIndex cur) by lia.
      unfold JS.index in *. destruct (historyIndex cur <? 0); [discriminate|].
      destruct Hok as [_ Hhi].
      rewrite nth_error_app1 by (rewrite length_firstn; lia).
      rewrite nth_error_firstn.
      replace (Z.to_nat (historyIndex cur) <? Z.to_nat (historyIndex cur + 1))%nat
        with true by (symmetry; apply Nat.ltb_lt; lia).
      exact He. }
    unfold undo in Hu.
    replace (historyIndex st >? 0) with true in Hu
      by (symmetry; rewrite Z.gtb_ltb; apply Z.ltb_lt; lia).
    rewrite (restore_at st _ e Hprev) in Hu. injection Hu as Hu.
    split; [now rewrite <- Hu|]. split; [now rewrite <- Hu|]. split; [lia|].
    eexists. split; [exact Hr|]. now split.
Qed.

(** X10.  Undo right after a command that records a checkpoint (adding
    an element, a confirmed deletion of the selected element, loading a
    document) restores the document and the selection of the checkpoint that
    was current before the command, and redo then restores what the command
    produced; but the first such command of a session, when nothing has been
    recorded yet, cannot be undone: undo leaves its result as it is. *)
Theorem undo_after_command (cur : editor) (ev : event) (st : editor) :
  history_ok cur ->
  (exists parsed, ev = Load parsed)
  \/ (exists ty now, ev = AddElement ty now)
  \/ (ev = DeleteElement true /\ no_selection (selectedId cur) = false) ->
  handle ev cur = Done st ->
  (historyIndex cur = -1 -> undo st = Done st)
  /\ (forall e, 0 <= historyIndex cur ->
        JS.index (history cur) (historyIndex cur) = Some e ->
        exists u, undo st = Done u
          /\ elements u = entry_elements e /\ selectedId u = entry_selectedId e
          /\ historyIndex u = historyIndex cur
          /\ exists r, redo u = Done r
               /\ elements r = elements st /\ selectedId r = selectedId st).
Proof.
  intros Hok Hev H.
  destruct Hev as [(parsed & ->)|[(ty & now & ->)|(-> & Hsel)]]; cbn [handle] in H;
    injection H as <-.
  - apply (undo_after_push cur _ parsed None Hok).
  - apply (undo_after_push cur _ _ _ Hok).
  - unfold deleteElement. rewrite Hsel. apply (undo_after_push cur _ _ None Hok).
Qed.

Lemma undo_after_command_witness :
  undo (addElement text 7 initial) = Done (addElement text 7 initial)
  /\ exists u,
       undo (deleteElement true (addElement text 7 initial)) = Done u
       /\ elements u = [newElement text 7] /\ selectedId u = Some "text-7".
Proof.
  split.
  - destruct (undo_after_command initial (AddElement text 7) (addElement text 7 initial))
      as [H _]; [cbv; split; congruence | right; left; eauto | reflexivity |].
    apply H. reflexivity.
  - destruct (undo_after_command (addElement text 7 initial) (DeleteElement true)
                (deleteElement true (addElement text 7 initial)))
      as [_ H]; [cbv; split; congruence | right; right; split; reflexivity | reflexivity |].
    destruct (H (mkEntry [newElement text 7] (Some "text-7")))
      as (u & Hu & He & Hs & _); [cbv; congruence | reflexivity |].
    exists u. split; [exact Hu|]. split; [exact He | exact Hs].
Defined.

(** ** The style [parse] gives an element *)

(** The first non-empty value among the inline value, the computed value
    and the default. *)
Definition resolved (el : node) (computed : css) (prop default : string) : string :=
  JS.or_else (css_get (inlineStyle_of el) prop)
    (JS.or_else (css_get computed prop) default).

(** The inline value, when there is one. *)
Definition carried (el : node) (prop : string) : option string :=
  if JS.falsy (css_get (inlineStyle_of el) prop) then None
  else Some (css_get (inlineStyle_of el) prop).

Lemma parseNode_base_style (computed : css) (now : N) (el : node) (i : nat) :
  let e := parseNode computed now el i in
  let pos := px (50 + N.of_nat i * 20) in
  style_get "position" (style e) = Some (resolved el computed "position" "absolute")
  /\ style_get "left" (style e) = Some (resolved el computed "left" pos)
  /\ style_get "top" (style e) = Some (resolved el computed "top" pos)
  /\ style_get "fontSize" (style e) = Some (resolved el computed "fontSize" "16px")
  /\ style_get "color" (style e) = Some (resolved el computed "color" "#000000")
  /\ style_get "fontWeight" (style e) = Some (resolved el computed "fontWeight" "normal")
  /\ style_get "textAlign" (style e) = Some (resolved el computed "textAlign" "left")
  /\ style_get "background" (style e) = carried el "background"
  /\ (tagName_of el <> "IMG" ->
      style_get "width" (style e) = carried el "width"
      /\ style_get "height" (style e) = carried el "height").
Proof.
  intros e pos. subst e pos. unfold parseNode, resolved, carried.
  destruct (String.eqb (tagName_of el) "IMG") eqn:Himg; cbn [style];
    destruct (JS.falsy (css_get (inlineStyle_of el) "width"));
    destruct (JS.falsy (css_get (inlineStyle_of el) "height"));
    destruct (JS.falsy (css_get (inlineStyle_of el) "background"));
    do 8 (split; [reflexivity|]);
    intros Hne; try (apply String.eqb_eq in Himg; contradiction);
    split; reflexivity.
Qed.

Lemma or_else_nonempty (a b : string) : b <> "" -> JS.or_else a b <> "".
Proof. intros Hb. unfold JS.or_else. destruct a; [exact Hb | discriminate]. Qed.

(** X11.  The style of a parsed element is resolved property by property:
    position, left, top, fontSize, color, fontWeight and textAlign each get
    the inline value if it is not empty, else the computed value if it is
    not empty, else the default (absolute, 50 + 20 i pixels for left and top
    of the child at position i, 16px, #000000, normal, left), so that none of
    the seven is ever missing or empty; background, and for an element other
    than an image width and height, are present exactly when set inline; and
    when neither an inline nor a computed left or top exists, the offsets a
    drag reads are the numbers 50 + 20 i. *)
Theorem parse_style_resolution (innerHTML_set : string -> list node)
    (innerHTML_get : list node -> string) (parseFromString : string -> html_document)
    (getComputedStyle : html_document -> nat -> node -> css) (clock : nat -> N)
    (html : string) (i : nat) (e : element) :
  let doc := parseFromString (sanitize innerHTML_set innerHTML_get html) in
  nth_error (parse innerHTML_set innerHTML_get parseFromString getComputedStyle clock html) i
    = Some e ->
  exists el, nth_error (children_of (poster_of doc)) i = Some el
    /\ let computed := getComputedStyle doc i el in
       let pos := px (50 + N.of_nat i * 20) in
       style_get "position" (style e) = Some (resolved el computed "position" "absolute")
       /\ style_get "left" (style e) = Some (resolved el computed "left" pos)
       /\ style_get "top" (style e) = Some (resolved el computed "top" pos)
       /\ style_get "fontSize" (style e) = Some (resolved el computed "fontSize" "16px")
       /\ style_get "color" (style e) = Some (resolved el computed "color" "#000000")
       /\ style_get "fontWeight" (style e)
          = Some (resolved el computed "fontWeight" "normal")
       /\ style_get "textAlign" (style e) = Some (resolved el computed "textAlign" "left")
       /\ style_get "background" (style e) = carried el "background"
       /\ (tagName_of el <> "IMG" ->
           style_get "width" (style e) = carried el "width"
           /\ style_get "height" (style e) = carried el "height")
       /\ (forall k, In k ["position"; "left"; "top"; "fontSize"; "color"; "fontWeight";
                           "textAlign"] ->
           exists v, style_get k (style e) = Some v /\ v <> "")
       /\ (css_get (inlineStyle_of el) "left" = "" -> css_get computed "left" = "" ->
           offset_of "left" e = 50 + 20 * Z.of_nat i)
       /\ (css_get (inlineStyle_of el) "top" = "" -> css_get computed "top" = "" ->
           offset_of "top" e = 50 + 20 * Z.of_nat i).
Proof.
  intros doc H. unfold parse in H. fold doc in H.
  destruct (parse_children_nth _ _ _ _ _ _ H) as (el & Hel & ->).
  exists el. split; [exact Hel|]. cbn [Nat.add]. cbv zeta.
  set (computed := getComputedStyle doc i el).
  set (pos := px (50 + N.of_nat i * 20)).
  destruct (parseNode_base_style computed (clock i) el i)
    as (H1 & H2 & H3 & H4 & H5 & H6 & H7 & H8 & H9).
  fold pos in H2, H3.
  assert (Hpos : pos <> "").
  { unfold pos, px, JS.of_N, NilZero.string_of_uint.
    destruct (N.to_uint (50 + N.of_nat i * 20)); discriminate. }
  assert (Hread : JS.parseInt_or_0 pos = 50 + 20 * Z.of_nat i).
  { unfold pos. rewrite parseInt_px. lia. }
  repeat (split; [assumption|]).
  split; [|split].
  - intros k Hk. cbn [In] in Hk.
    destruct Hk as [<-|[<-|[<-|[<-|[<-|[<-|[<-|[]]]]]]]]; eexists; (split; [eassumption|]);
      unfold resolved; repeat apply or_else_nonempty; (exact Hpos || discriminate).
  - intros Hi Hc. unfold offset_of. rewrite H2. unfold resolved. rewrite Hi, Hc. exact Hread.
  - intros Hi Hc. unfold offset_of. rewrite H3. unfold resolved. rewrite Hi, Hc. exact Hread.
Qed.

Lemma parse_style_resolution_witness :
  offset_of "left" (parseNode [] 0 (Element "img" [("src", "a.png")] [] [] []) 1) = 70
  /\ style_get "color" (style (parseNode [] 0 (Element "img" [("src", "a.png")] [] [] []) 1))
     = Some "#000000".
Proof.
  destruct (parse_style_resolution (Html.innerHTML_set (fun _ => []))
              (Html.innerHTML_get true)
              (Html.parseFromString (fun _ => [])) (fun _ _ _ => []) (fun _ => 0%N)
              two_children 1
              (parseNode [] 0 (Element "img" [("src", "a.png")] [] [] []) 1))
    as (el & Hel & _ & _ & _ & _ & Hcolor & _ & _ & _ & _ & _ & Hleft & _);
    [vm_compute; reflexivity|].
  vm_compute in Hel. injection Hel as <-.
  split; [apply Hleft; reflexivity | exact Hcolor].
Defined.

(** ** Export and import keep the layout *)

Definition layout_keys : list string :=
  ["position"; "left"; "top"; "fontSize"; "color"; "fontWeight"; "textAlign"].

(** What is asked of the browser's reading of a style attribute the exporter
    wrote: a value that is not empty, stored under one of the layout keys,
    is what [el.style] reports under that key. *)
Definition reads_back (cssom : string -> css) (e : element) : Prop :=
  forall k v, In k layout_keys -> style_get k (style e) = Some v -> v <> "" ->
    css_get (cssom (style_text (style e))) k = v.

(** What the round trip keeps of an element. *)
Definition kept (e e' : element) : Prop :=
  type e' = type e
  /\ match type e with
     | text => tagName e' = tagName e /\ content e' = content e
     | image => tagName e' = "img" /\ src e' = src e /\ alt e' = alt e
     end
  /\ forall k v, In k layout_keys -> style_get k (style e) = Some v -> v <> "" ->
       style_get k (style e') = Some v.

Lemma inlineStyle_node_of (cssom : string -> css) (e : element) :
  inlineStyle_of (RoundTrip.node_of cssom e) = cssom (style_text (style e)).
Proof.
  unfold RoundTrip.node_of, Html.make_element, RoundTrip.element_attributes.
  now destruct (type e).
Qed.

Lemma or_else_first (a b : string) : a <> "" -> JS.or_else a b = a.
Proof. intros H. unfold JS.or_else. destruct a; [congruence | reflexivity]. Qed.

Lemma kept_parseNode (cssom : string -> css) (computed : css) (now : N) (e : element)
    (i : nat) :
  RoundTrip.exportable e = true -> reads_back cssom e ->
  kept e (parseNode computed now (RoundTrip.node_of cssom e) i).
Proof.
  intros He Hread. unfold kept. split; [|split].
  - pose proof (RoundTrip.shape_parseNode cssom computed now e i
                  (RoundTrip.exportable_readable e He)) as Hs.
    unfold RoundTrip.shape in Hs. now injection Hs.
  - unfold parseNode, RoundTrip.node_of, Html.make_element, RoundTrip.element_attributes,
      tagName_of.
    destruct (type e) eqn:Hty.
    + destruct (RoundTrip.exportable_text e Hty He) as (c & Hc & Htag & _).
      destruct Htag as (_ & Hlow & Hk & _).
      destruct (RoundTrip.readable_text e Hty (RoundTrip.exportable_readable e He))
        as (c' & Hc' & _ & _ & Hfit & _).
      cbn [localName_of]. rewrite (RoundTrip.fits_not_img _ _ Hfit).
      cbn [tagName content]. rewrite Hc, RoundTrip.lower_upper_lower, Hlow.
      cbn [JS.interpolate]. split; [reflexivity|].
      rewrite RoundTrip.or_else_empty. f_equal.
      destruct c as [|x0 c]; [reflexivity|]. cbn [textContent].
      apply RoundTrip.append_nil_r.
    + destruct (RoundTrip.exportable_image e Hty He) as (s & a & Hs & Ha & _).
      rewrite Hs, Ha. cbn [JS.interpolate localName_of].
      change (String.eqb (JS.toUpperCase "img") "IMG") with true. cbv iota.
      cbn [tagName src alt attributes_of getAttribute String.eqb Ascii.eqb Bool.eqb
             JS.or_empty].
      now rewrite !RoundTrip.or_else_empty.
  - intros k v Hk Hv Hne.
    pose proof (Hread k v Hk Hv Hne) as Hin. rewrite <- inlineStyle_node_of in Hin.
    destruct (parseNode_base_style computed now (RoundTrip.node_of cssom e) i)
      as (H1 & H2 & H3 & H4 & H5 & H6 & H7 & _).
    unfold resolved in *. rewrite <- Hin in Hne.
    cbn [In layout_keys] in Hk.
    destruct Hk as [<-|[<-|[<-|[<-|[<-|[<-|[<-|[]]]]]]]];
      match goal with
      | H : style_get ?k (style (parseNode _ _ _ _)) = _ |- style_get ?k _ = _ =>
          rewrite H, or_else_first by exact Hne; now rewrite Hin
      end.
Qed.

Lemma kept_parse_children (cssom : string -> css) (computed : nat -> node -> css)
    (clock : nat -> N) (d : Document) :
  RoundTrip.all_exportable d = true -> (forall e, In e d -> reads_back cssom e) ->
  forall i,
    Forall2 kept d (parse_children computed clock i (map (RoundTrip.node_of cssom) d)).
Proof.
  induction d as [|e l IH]; intros H Hread i; [constructor|].
  cbn [RoundTrip.all_exportable forallb] in H. apply andb_true_iff in H.
  destruct H as [He Hl]. cbn [map parse_children]. constructor.
  - apply kept_parseNode; [exact He | apply Hread; now left].
  - apply IH; [exact Hl|]. intros e' He'. apply Hread. now right.
Qed.

(** X12.  Exporting a document and importing the markup keeps the layout:
    for a document of exportable elements, in the modelled browser (with
    either serializer) and with a reading of style attributes that gives
    back the values the exporter wrote, the parsed document has, position by
    position, the same type, for
    a text element the same tagName and content, for an image the tagName
    img and the same src and alt, and the same value under each of position,
    left, top, fontSize, color, fontWeight and textAlign that had a value
    that is not empty. *)
Theorem export_parse_keeps_layout (cssom : string -> css) (angles : bool)
    (computed : html_document -> nat -> node -> css) (clock : nat -> N) (d : Document) :
  RoundTrip.all_exportable d = true ->
  (forall e, In e d -> reads_back cssom e) ->
  Forall2 kept d
    (parse (Html.innerHTML_set cssom) (Html.innerHTML_get angles)
       (Html.parseFromString cssom) computed clock (export d)).
Proof.
  intros H Hread. pose proof (RoundTrip.all_exportable_readable d H) as Hr.
  unfold parse, sanitize, Html.innerHTML_set, Html.innerHTML_get, Html.parseFromString.
  rewrite (RoundTrip.parse_fragment_export cssom d Hr),
    (RoundTrip.sanitize_fragment cssom d Hr).
  rewrite (RoundTrip.serialize_sanitized cssom angles d Hr),
    (RoundTrip.parse_document_sanitized cssom angles d Hr).
  rewrite RoundTrip.poster_of_document, RoundTrip.children_of_poster.
  now apply kept_parse_children.
Qed.

(** A reading of the one style attribute the exporter writes for [placed]
    elements at (40, 60). *)
Definition sample_cssom (s : string) : css :=
  if String.eqb s "position: absolute; left: 40px; top: 60px"
  then [("position", "absolute"); ("left", "40px"); ("top", "60px")]
  else [].

Lemma export_parse_keeps_layout_witness :
  Forall2 kept [placed "a" 40 60]
    (parse (Html.innerHTML_set sample_cssom) (Html.innerHTML_get true)
       (Html.parseFromString sample_cssom) (fun _ _ _ => []) (fun _ => 0%N)
       (export [placed "a" 40 60])).
Proof.
  apply export_parse_keeps_layout; [vm_compute; reflexivity|].
  intros e [<-|[]] k v Hk Hv _. cbn [In layout_keys] in Hk.
  destruct Hk as [<-|[<-|[<-|[<-|[<-|[<-|[<-|[]]]]]]]];
    vm_compute in Hv; try discriminate; injection Hv as <-; reflexivity.
Defined.

(** ** Keyboard shortcuts *)

(** The command a key stands for. *)
Definition shortcut (e : key_event) (confirmed : bool) : option event :=
  if String.eqb (key e) "Delete" then Some (DeleteElement confirmed)
  else if (String.eqb (key e) "z" && (ctrlKey e || metaKey e) && negb (shiftKey e))%bool
  then Some Undo
  else if ((String.eqb (key e) "y" && (ctrlKey e || metaKey e))
           || (String.eqb (key e) "z" && (ctrlKey e || metaKey e) && shiftKey e))%bool
  then Some Redo
  else None.

(** The command run on the current state, unless text is being edited. *)
Definition key_command (e : key_event) (confirmed : bool) (st : editor) : outcome :=
  if isEditingText st then Done st
  else match shortcut e confirmed with
       | Some ev => handle ev st
       | None => Done st
       end.

Lemma deleteElement_in_fresh (c : bool) (st : editor) :
  deleteElement_in c st st = deleteElement c st.
Proof. reflexivity. Qed.

Lemma undo_in_fresh (st : editor) : undo_in st st = undo st.
Proof. reflexivity. Qed.

Lemma redo_in_fresh (st : editor) : redo_in st st = redo st.
Proof. reflexivity. Qed.

Lemma handleKey_fresh (e : key_event) (c : bool) (st : editor) :
  handleKey e c st st = key_command e c st.
Proof.
  unfold handleKey, key_command, shortcut.
  destruct (isEditingText st); [reflexivity|].
  destruct (String.eqb (key e) "Delete") eqn:Ed.
  - apply String.eqb_eq in Ed. rewrite Ed. cbn [String.eqb Ascii.eqb Bool.eqb andb orb].
    cbn [handle]. rewrite deleteElement_in_fresh.
    destruct (no_selection (selectedId st)) eqn:Hs; cbn [negb]; [|reflexivity].
    unfold deleteElement. now rewrite Hs.
  - cbn [andb].
    destruct (String.eqb (key e) "z") eqn:Ez.
    + apply String.eqb_eq in Ez. rewrite Ez.
      cbn [String.eqb Ascii.eqb Bool.eqb andb orb].
      destruct (ctrlKey e || metaKey e)%bool; cbn [andb]; [|reflexivity].
      destruct (shiftKey e); cbn [negb andb handle].
      * now rewrite redo_in_fresh.
      * rewrite undo_in_fresh. now destruct (undo st).
    + cbn [andb orb]. rewrite orb_false_r.
      destruct (String.eqb (key e) "y" && (ctrlKey e || metaKey e))%bool; [|reflexivity].
      cbn [handle]. now rewrite redo_in_fresh.
Qed.

(** What the listener reads of the render it closes over. *)
Definition unselected (sel : option string) (d : Document) : Document :=
  filter (fun el => negb (is_selected sel el)) d.

Definition agree (seen st : editor) : Prop :=
  selectedId seen = selectedId st
  /\ isEditingText seen = isEditingText st
  /\ historyIndex seen = historyIndex st
  /\ history seen = history st
  /\ unselected (selectedId st) (elements seen) = unselected (selectedId st) (elements st).

Lemma handleKey_agree (e : key_event) (c : bool) (seen st : editor) :
  agree seen st -> handleKey e c seen st = handleKey e c st st.
Proof.
  intros (Hs & He & Hi & Hh & Hu).
  unfold handleKey, deleteElement_in, undo_in, redo_in, restore_in, saveHistory.
  unfold unselected in Hu. now rewrite Hs, He, Hi, Hh, Hu.
Qed.

Lemma unselected_map (sel : option string) (f : element -> element) (d : Document) :
  (forall el, id (f el) = id el) ->
  (forall el, is_selected sel el = false -> f el = el) ->
  unselected sel (map f d) = unselected sel d.
Proof.
  intros Hid Hother. unfold unselected.
  induction d as [|a d IH]; [reflexivity|]. cbn [map filter].
  assert (Hs : is_selected sel (f a) = is_selected sel a).
  { unfold is_selected. now rewrite Hid. }
  rewrite Hs. destruct (is_selected sel a) eqn:Ha; cbn [negb]; [exact IH|].
  now rewrite (Hother a Ha), IH.
Qed.

(** A handler that leaves the history index where it is leaves the history
    as it is, and the elements other than the selected ones. *)
Lemma handle_quiet (ev : event) (st st' : editor) :
  history_ok st -> handle ev st = Done st' -> historyIndex st' = historyIndex st ->
  history st' = history st
  /\ unselected (selectedId st) (elements st') = unselected (selectedId st) (elements st).
Proof.
  intros Hok H Hidx. split.
  { destruct (handle_history_step ev st st' Hok H) as [[Hh _]|[(e & _ & Hi)|[Hh _]]];
      [exact Hh | lia | exact Hh]. }
  assert (Hpush : forall d s x, st' = saveHistory st d s x -> False).
  { intros d s x ->. destruct (saveHistory_spec st x d s Hok) as (_ & Hi & _). lia. }
  assert (Hrestore : forall i, i <> historyIndex st -> restore st i = Done st' -> False).
  { intros i Hi Hr. unfold restore in Hr. destruct (JS.index (history st) i); [|discriminate].
    injection Hr as <-. cbn in Hidx. congruence. }
  destruct ev; cbn [handle] in H; try (injection H as H; symmetry in H).
  - exfalso. exact (Hpush _ _ _ H).
  - exfalso. exact (Hpush _ _ _ H).
  - unfold deleteElement in H. destruct (no_selection (selectedId st)); [now subst|].
    destruct confirmed; [exfalso; exact (Hpush _ _ _ H) | now subst].
  - subst st'. unfold updateProperty. destruct (no_selection (selectedId st)); [reflexivity|].
    cbn [elements set_elements]. apply unselected_map.
    + intros el. apply update_element_id.
    + intros el Hel. now apply update_element_other.
  - subst st'. unfold handleMouseDown. destruct (isEditingText st); [reflexivity|].
    now destruct (find_element i (elements st)).
  - subst st'. unfold handleMove. destruct rect as [[rl rt]|]; [|reflexivity].
    destruct (negb (isDragging st) || no_selection (selectedId st))%bool; [reflexivity|].
    cbn [elements set_elements]. apply unselected_map.
    + intros el. apply move_element_id.
    + intros el Hel. now apply move_element_other.
  - unfold handleUp in H. destruct (isDragging st);
      [exfalso; exact (Hpush _ _ _ H) | now subst].
  - subst st'. unfold handleDoubleClick. destruct (find_element i (elements st)); [|reflexivity].
    now destruct (el_type_eqb (type e) text).
  - unfold handleTextBlur in H. destruct innerText; [|now subst].
    destruct (isEditingText st && negb (no_selection (selectedId st)))%bool;
      [exfalso; exact (Hpush _ _ _ H) | now subst].
  - now subst.
  - unfold undo in H. destruct (historyIndex st >? 0).
    + exfalso. apply (Hrestore (historyIndex st - 1)); [lia | exact H].
    + injection H as <-. reflexivity.
  - unfold redo in H. destruct (historyIndex st <? Z.of_nat (length (history st)) - 1).
    + exfalso. apply (Hrestore (historyIndex st + 1)); [lia | exact H].
    + injection H as <-. reflexivity.
Qed.

Lemma same_deps_true (a b : editor) :
  same_deps a b = true ->
  selectedId a = selectedId b /\ isEditingText a = isEditingText b
  /\ historyIndex a = historyIndex b.
Proof.
  unfold same_deps. intros H.
  apply andb_prop in H. destruct H as [H Hi].
  apply andb_prop in H. destruct H as [Hs He].
  apply Z.eqb_eq in Hi. apply Bool.eqb_prop in He.
  repeat split; try assumption.
  destruct (selectedId a), (selectedId b); cbn in Hs; try discriminate; [|reflexivity].
  apply String.eqb_eq in Hs. now subst.
Qed.

Lemma agree_refl (st : editor) : agree st st.
Proof. now repeat split. Qed.

Definition listener_inv (s : session) : Prop :=
  history_ok (shown s) /\ agree (listener s) (shown s).

Lemma key_command_cases (e : key_event) (c : bool) (st : editor) :
  key_command e c st = Done st \/ exists ev, key_command e c st = handle ev st.
Proof.
  unfold key_command. destruct (isEditingText st); [now left|].
  destruct (shortcut e c) as [ev|]; [right; eauto | now left].
Qed.

Lemma session_step_inv (i : input) (s : session) :
  listener_inv s -> exists s', session_step i s = Some s' /\ listener_inv s'.
Proof.
  intros [Hok Hag].
  assert (Hcmd : exists ev,
            match i with
            | UI ev => handle ev (shown s)
            | KeyDown e c => handleKey e c (listener s) (shown s)
            end = handle ev (shown s)).
  { destruct i as [ev|e c]; [eauto|].
    rewrite (handleKey_agree e c _ _ Hag), handleKey_fresh.
    destruct (key_command_cases e c (shown s)) as [H|[ev H]]; [|eauto].
    exists (MouseMove None 0 0). now rewrite H. }
  destruct Hcmd as (ev & Hev). unfold session_step. rewrite Hev.
  destruct (handle_total ev (shown s) Hok) as (st' & Hst' & Hok').
  rewrite Hst'. eexists. split; [reflexivity|].
  split; [exact Hok'|]. cbn [rendered shown listener].
  destruct (same_deps (shown s) st') eqn:Hdeps; [|apply agree_refl].
  destruct (same_deps_true _ _ Hdeps) as (Hs & He & Hi).
  destruct (handle_quiet ev (shown s) st' Hok Hst' (eq_sym Hi)) as [Hh Hu].
  destruct Hag as (A1 & A2 & A3 & A4 & A5).
  unfold agree. rewrite <- Hs, <- He, <- Hi, Hh, Hu. now repeat split.
Qed.

(** X13.  The keyboard listener is not out of date in what it does, in a
    session in which every other handler runs as that of the render on
    screen: although the effect that registers it leaves [elements] and
    [history] out of its dependencies, after any sequence of canvas,
    toolbar, panel, paste and key events from the first render (a file
    import or an image upload only when its read completes before the next
    event) no handler has thrown, and a key pressed then does exactly what
    its command does on the state on screen: nothing while text is edited;
    otherwise Delete runs [deleteElement], z with Control or Meta and without
    Shift runs [undo], y with Control or Meta, or z with Control or Meta and
    Shift, runs [redo], and any other key does nothing.  A file import whose
    read completes after a later event is not such an event: it can rewrite
    the history and leave the index, and with it the listener, as they were
    ([late_import_outdates_listener]). *)
Theorem key_listener_acts_on_current_state (ins : list input) :
  exists s, run_session ins first_render = Some s
    /\ forall e c,
         handleKey e c (listener s) (shown s)
         = (if isEditingText (shown s) then Done (shown s)
            else match shortcut e c with
                 | Some ev => handle ev (shown s)
                 | None => Done (shown s)
                 end).
Proof.
  assert (H : forall s, listener_inv s ->
            exists s', run_session ins s = Some s' /\ listener_inv s').
  { induction ins as [|i ins IH]; intros s Hs; cbn [run_session]; [eauto|].
    destruct (session_step_inv i s Hs) as (s1 & -> & Hs1). now apply IH. }
  destruct (H first_render) as (s & Hrun & _ & Hag).
  { split; [cbv; split; congruence | apply agree_refl]. }
  exists s. split; [exact Hrun|]. intros e c.
  rewrite (handleKey_agree e c _ _ Hag). apply handleKey_fresh.
Qed.

(** A file is chosen for import after two elements were added; the user
    undoes once, adds an image and a third text and clicks the canvas; then
    the read completes.  [reader.onload] saves with the history of the
    render in which the file was chosen, and the index is 2 as before, so the
    effect does not run and the listener keeps the history of the render
    before: Control-z restores the image, where [undo] on the state on screen
    restores the second text. *)
Definition chosen_at : editor := addElement text 9 (addElement text 7 initial).

Definition before_onload : option session :=
  run_session
    [UI (AddElement text 7); UI (AddElement text 9); UI Undo; UI (AddElement image 11);
     UI (AddElement text 13); UI ClickCanvas] first_render.

Definition after_onload : option session :=
  option_map (fun s => rendered s (import_onload [] chosen_at (shown s))) before_onload.

Definition control_z : key_event :=
  {| key := "z"; ctrlKey := true; metaKey := false; shiftKey := false |}.

Definition ids_after (o : outcome) : list string :=
  match o with Done st => map id (elements st) | Throws => [] end.

Example late_import_outdates_listener :
  match before_onload, after_onload with
  | Some s, Some s' =>
      historyIndex (shown s) = 2 /\ historyIndex (shown s') = 2
      /\ listener s' = listener s
      /\ map (fun h => map id (entry_elements h)) (history (listener s'))
         = [["text-7"]; ["text-7"; "img-11"]; ["text-7"; "img-11"; "text-13"]]
      /\ map (fun h => map id (entry_elements h)) (history (shown s'))
         = [["text-7"]; ["text-7"; "text-9"]; []]
      /\ ids_after (handleKey control_z false (listener s') (shown s'))
         = ["text-7"; "img-11"]
      /\ ids_after (undo (shown s')) = ["text-7"; "text-9"]
  | _, _ => False
  end.
Proof. vm_compute. repeat split. Qed.

(** ** One element per child of the container *)

Lemma parse_children_all (computed : nat -> node -> css) (clock : nat -> N)
    (l : list node) (i0 k : nat) (c : node) :
  nth_error l k = Some c ->
  nth_error (parse_children computed clock i0 l) k
  = Some (parseNode (computed (i0 + k)%nat c) (clock (i0 + k)%nat) c (i0 + k)%nat).
Proof.
  revert i0 k. induction l as [|a l IH]; intros i0 k H; [destruct k; discriminate|].
  destruct k as [|k]; cbn [nth_error parse_children] in *.
  - injection H as ->. now rewrite Nat.add_0_r.
  - rewrite (IH (S i0) k H). now replace (S i0 + k)%nat with (i0 + S k)%nat by lia.
Qed.

(** X14.  [parse] returns one element per element child of the container,
    in their order and without looking below them other than for their text:
    the container is the first element in tree order whose class list has
    poster, or the body when there is none; the child at position i becomes
    an image with tagName img and the child's src and alt attributes (the
    empty string for a missing one) when its tag name is IMG, and otherwise
    a text element with the child's tag name in lower case and the text of
    all its descendants as content. *)
Theorem parse_one_element_per_child (innerHTML_set : string -> list node)
    (innerHTML_get : list node -> string) (parseFromString : string -> html_document)
    (getComputedStyle : html_document -> nat -> node -> css) (clock : nat -> N)
    (html : string) :
  let doc := parseFromString (sanitize innerHTML_set innerHTML_get html) in
  let container :=
    match querySelector_class "poster" (documentElement doc) with
    | Some p => p
    | None => body doc
    end in
  let parsed :=
    parse innerHTML_set innerHTML_get parseFromString getComputedStyle clock html in
  length parsed = length (filter is_element (childNodes container))
  /\ forall i el, nth_error (filter is_element (childNodes container)) i = Some el ->
       exists e, nth_error parsed i = Some e
         /\ (tagName_of el = "IMG" ->
             type e = image /\ tagName e = "img" /\ content e = None
             /\ src e = Some (match getAttribute "src" (attributes_of el) with
                              | Some v => v | None => "" end)
             /\ alt e = Some (match getAttribute "alt" (attributes_of el) with
                              | Some v => v | None => "" end))
         /\ (tagName_of el <> "IMG" ->
             type e = text /\ tagName e = JS.toLowerCase (tagName_of el)
             /\ content e = Some (textContent el) /\ src e = None /\ alt e = None).
Proof.
  intros doc container parsed.
  assert (Hp : parsed = parse_children (getComputedStyle doc) clock 0
                          (filter is_element (childNodes container))) by reflexivity.
  split; [rewrite Hp; apply parse_children_length|].
  intros i el Hel. rewrite Hp, (parse_children_all _ _ _ 0 i el Hel). cbn [Nat.add].
  eexists. split; [reflexivity|]. unfold parseNode. split.
  - intros Himg. rewrite Himg.
    change (String.eqb "IMG" "IMG") with true. cbv iota. cbn [type tagName content src alt].
    unfold JS.or_empty.
    repeat split;
      do 2 f_equal; match goal with |- context [getAttribute ?a ?l] =>
                      destruct (getAttribute a l) as [v|]; [apply RoundTrip.or_else_empty|reflexivity]
                    end.
  - intros Himg. apply String.eqb_neq in Himg. rewrite Himg.
    cbn [type tagName content src alt]. now rewrite RoundTrip.or_else_empty.
Qed.

Lemma parse_one_element_per_child_witness :
  exists e,
    nth_error
      (parse (Html.innerHTML_set (fun _ => [])) (Html.innerHTML_get true)
         (Html.parseFromString (fun _ => [])) (fun _ _ _ => []) (fun _ => 0%N)
         two_children) 0 = Some e
    /\ type e = text /\ tagName e = "p" /\ content e = Some "Hi".
Proof.
  destruct (parse_one_element_per_child (Html.innerHTML_set (fun _ => []))
              (Html.innerHTML_get true) (Html.parseFromString (fun _ => [])) (fun _ _ _ => [])
              (fun _ => 0%N) two_children) as [_ H].
  destruct (H 0%nat (Element "p" [] [] [TextNode "Hi"] [])) as (e & He & _ & Ht);
    [vm_compute; reflexivity|].
  exists e. split; [exact He|].
  destruct Ht as (H1 & H2 & H3 & _); [discriminate|].
  split; [exact H1|]. split; [exact H2 | exact H3].
Defined.

(** ** Style keys in the exported markup *)

Fixpoint no_upper (s : string) : bool :=
  match s with
  | EmptyString => true
  | String c s' => (negb (JS.is_upper c) && no_upper s')%bool
  end.

Lemma lower_char_not_upper (c : ascii) : JS.is_upper (JS.lower_char c) = false.
Proof.
  destruct c as [[] [] [] [] [] [] [] []]; reflexivity.
Qed.

Lemma lower_char_fixed (c : ascii) : JS.is_upper c = false -> JS.lower_char c = c.
Proof. intros H. unfold JS.lower_char. now rewrite H. Qed.

Lemma no_upper_toLowerCase (s : string) : no_upper (JS.toLowerCase s) = true.
Proof.
  induction s as [|c s IH]; [reflexivity|].
  cbn [JS.toLowerCase JS.map_string no_upper]. fold (JS.toLowerCase s).
  now rewrite lower_char_not_upper, IH.
Qed.

Lemma css_name_fixed (k : string) : no_upper k = true -> css_name k = k.
Proof.
  unfold css_name. induction k as [|c k IH]; intros H; [reflexivity|].
  cbn [no_upper] in H. apply andb_prop in H. destruct H as [Hc Hk].
  apply negb_true_iff in Hc. cbn [dash_capitals]. rewrite Hc.
  cbn [JS.toLowerCase JS.map_string]. fold (JS.toLowerCase (dash_capitals k)).
  now rewrite (lower_char_fixed c Hc), (IH Hk).
Qed.

(** X15.  The name the exporter writes for a style key has no upper-case
    letter, a key without upper-case letters is written as it is, and
    converting a converted name changes nothing, so a key that is already in
    kebab case is exported unchanged. *)
Theorem css_name_kebab (k : string) :
  no_upper (css_name k) = true
  /\ (no_upper k = true -> css_name k = k)
  /\ css_name (css_name k) = css_name k.
Proof.
  split; [apply no_upper_toLowerCase|]. split; [apply css_name_fixed|].
  apply css_name_fixed. apply no_upper_toLowerCase.
Qed.

Lemma css_name_kebab_witness : css_name "left" = "left".
Proof.
  destruct (css_name_kebab "left") as (_ & H & _). apply H. reflexivity.
Defined.

(** ** Undo and redo are inverse on checkpoints *)

Lemma redo_then_undo (cur : editor) (e : entry) :
  history_ok cur -> 0 <= historyIndex cur < Z.of_nat (length (history cur)) - 1 ->
  JS.index (history cur) (historyIndex cur) = Some e ->
  exists r, redo cur = Done r
    /\ historyIndex r = historyIndex cur + 1 /\ history r = history cur
    /\ undo r
       = Done (set_history (history cur) (historyIndex cur)
                 (set_selectedId (entry_selectedId e)
                    (set_elements (entry_elements e) cur))).
Proof.
  intros _ Hi He. unfold redo.
  replace (historyIndex cur <? Z.of_nat (length (history cur)) - 1) with true
    by (symmetry; apply Z.ltb_lt; lia).
  destruct (index_in_range (history cur) (historyIndex cur + 1)) as [n Hn]; [lia|].
  rewrite (restore_at cur _ n Hn). eexists. split; [reflexivity|].
  split; [reflexivity|]. split; [reflexivity|].
  unfold undo. cbn [history historyIndex set_history set_selectedId set_elements].
  replace (historyIndex cur + 1 >? 0) with true
    by (symmetry; rewrite Z.gtb_ltb; apply Z.ltb_lt; lia).
  unfold restore. cbn [history set_history set_selectedId set_elements].
  replace (historyIndex cur + 1 - 1) with (historyIndex cur) by lia.
  rewrite He. reflexivity.
Qed.

(** The state with the document and the selection of a history entry. *)
Definition at_checkpoint (e : entry) (st : editor) : editor :=
  set_selectedId (entry_selectedId e) (set_elements (entry_elements e) st).

(** X16.  Undo and redo are inverse on checkpoints, not on the document
    shown: when the index is inside the history, undo followed by redo (from
    a positive index) and redo followed by undo (from an index below the
    last) both complete and lead back to the same index of the same history,
    showing the document and the selection of the entry at that index; so
    they restore the state exactly when it showed that entry, and discard
    whatever was changed since without a checkpoint (property edits, a drag
    in progress). *)
Theorem undo_redo_restore_checkpoint (cur : editor) (e : entry) :
  history_ok cur -> JS.index (history cur) (historyIndex cur) = Some e ->
  (0 < historyIndex cur ->
   exists u, undo cur = Done u /\ redo u = Done (at_checkpoint e cur))
  /\ (historyIndex cur < Z.of_nat (length (history cur)) - 1 ->
      exists r, redo cur = Done r /\ undo r = Done (at_checkpoint e cur))
  /\ (elements cur = entry_elements e -> selectedId cur = entry_selectedId e ->
      at_checkpoint e cur = cur)
  /\ forall prop val,
       at_checkpoint e (updateProperty prop val cur) = at_checkpoint e cur.
Proof.
  intros Hok He.
  assert (Hsame : set_history (history cur) (historyIndex cur)
                    (set_selectedId (entry_selectedId e)
                       (set_elements (entry_elements e) cur))
                  = at_checkpoint e cur).
  { unfold at_checkpoint. now destruct cur. }
  assert (Hidx : 0 <= historyIndex cur).
  { unfold JS.index in He. destruct (historyIndex cur <? 0) eqn:E; [discriminate|].
    now apply Z.ltb_ge in E. }
  split; [|split; [|split]].
  - intros Hpos. destruct (undo_then_redo cur e Hok Hpos He) as (u & Hu & _ & _ & Hr).
    exists u. split; [exact Hu|]. now rewrite Hr, Hsame.
  - intros Hlt. destruct (redo_then_undo cur e Hok ltac:(lia) He) as (r & Hr & _ & _ & Hu).
    exists r. split; [exact Hr|]. now rewrite Hu, Hsame.
  - intros H1 H2. unfold at_checkpoint. rewrite <- H1, <- H2. now destruct cur.
  - intros prop val. unfold at_checkpoint, updateProperty.
    now destruct (no_selection (selectedId cur)).
Qed.

Lemma undo_redo_restore_checkpoint_witness :
  exists u,
    undo (updateProperty "color" "#ff0000" (addElement image 9 (addElement text 7 initial)))
    = Done u
    /\ redo u = Done (addElement image 9 (addElement text 7 initial)).
Proof.
  destruct (undo_redo_restore_checkpoint
              (updateProperty "color" "#ff0000"
                 (addElement image 9 (addElement text 7 initial)))
              (mkEntry [newElement text 7; newElement image 9] (Some "img-9")))
    as (H & _); [cbv; split; congruence | reflexivity |].
  destruct H as (u & Hu & Hr); [cbv; reflexivity|].
  exists u. split; [exact Hu|]. rewrite Hr. reflexivity.
Defined.

(** ** Elements added in the same millisecond *)

Lemma filter_app_last {A} (f : A -> bool) (l : list A) (a : A) :
  f a = false -> filter f (l ++ [a])%list = filter f l.
Proof. intros H. rewrite filter_app. cbn [filter]. rewrite H. apply app_nil_r. Qed.

(** X17.  Ids are made of the type and the time only, so two elements of
    the same type added in the same millisecond are twins: they have the
    same id, the second addition selects both, and from then on a property
    update changes both, and a confirmed deletion removes both and leaves
    the document as it was before the two additions, less the elements that
    already had that id. *)
Theorem same_millisecond_twins (ty : el_type) (now : N) (cur : editor) :
  let twin := newElement ty now in
  let st := addElement ty now (addElement ty now cur) in
  elements st = (elements cur ++ [twin; twin])%list
  /\ selectedId st = Some (id twin)
  /\ (forall prop val,
        elements (updateProperty prop val st)
        = (map (update_element (Some (id twin)) prop val) (elements cur)
             ++ [update_element (Some (id twin)) prop val twin;
                 update_element (Some (id twin)) prop val twin])%list
        /\ update_element (Some (id twin)) prop val twin
           = (if is_top_level prop then with_field twin prop val
              else with_style twin (style_set prop val (style twin))))
  /\ elements (deleteElement true st)
     = filter (fun el => negb (String.eqb (id el) (id twin))) (elements cur).
Proof.
  intros twin st.
  assert (Hne : no_selection (Some (id twin)) = false).
  { apply no_selection_some. unfold twin. destruct ty; discriminate. }
  assert (Hel : elements st = (elements cur ++ [twin; twin])%list).
  { unfold st, addElement. cbn [elements saveHistory set_history set_selectedId set_elements].
    fold twin. now rewrite <- app_assoc. }
  assert (Hsel : selectedId st = Some (id twin)) by reflexivity.
  assert (Htwin : is_selected (Some (id twin)) twin = true).
  { cbn. apply String.eqb_refl. }
  split; [exact Hel|]. split; [exact Hsel|]. split.
  - intros prop val. split.
    + unfold updateProperty. rewrite Hsel, Hne. cbn [elements set_elements].
      rewrite Hel, map_app. reflexivity.
    + unfold update_element. now rewrite Htwin.
  - unfold deleteElement. rewrite Hsel, Hne.
    cbn [elements saveHistory set_history set_selectedId set_elements].
    rewrite Hel.
    change [twin; twin] with ([twin] ++ [twin])%list. rewrite app_assoc.
    rewrite !filter_app_last by (now rewrite Htwin). reflexivity.
Qed.
